(** * The program model of the AssemblyScript compiler front-end (src/program.ts)

    A shallow embedding of [Program], its element graph, the initializer and
    the resolver.  Objects of the source (elements, prototypes, instances) live
    in a heap and are addressed by handles, so that referential equality of the
    source ([current == target], "the same instance") is equality of handles
    and mutation of a shared object is an update of the heap. *)

From Stdlib Require Import ZArith String List Lia Bool.
From stdpp Require Import base option list gmap strings pretty.

Local Open Scope string_scope.
Local Open Scope Z_scope.
Set Warnings "-register-all".

(** ** Names (program.ts, lines 77-94) *)

Definition PATH_DELIMITER : string := "/".
Definition PARENT_SUBST : string := "..".
Definition GETTER_PREFIX : string := "get:".
Definition SETTER_PREFIX : string := "set:".
Definition INSTANCE_DELIMITER : string := "#".
Definition STATIC_DELIMITER : string := ".".
Definition INNER_DELIMITER : string := "~".
Definition LIBRARY_SUBST : string := "~lib".
Definition LIBRARY_PREFIX : string := LIBRARY_SUBST +:+ PATH_DELIMITER.

(** A reference to a heap-allocated object of the source. *)
Definition handle : Type := nat.

(** ** Insertion-ordered maps

    A JavaScript [Map] iterates in insertion order and [set] on a present key
    keeps the key's position.  Maps of the source that are iterated
    ([instanceMembers], [overloadPrototypes], [queuedExports], [members]) are
    association lists with that discipline; maps that are only looked up are
    [gmap]s. *)
Module JSMap.
Section Defs.
Context {K V : Type} `{EqDecision K}.

Fixpoint get (m : list (K * V)) (k : K) : option V :=
      match m with
      | [] => None
      | (k', v) :: m' => if decide (k' = k) then Some v else get m' k
      end.

Definition has (m : list (K * V)) (k : K) : bool :=
      match get m k with Some _ => true | None => false end.

Fixpoint set (m : list (K * V)) (k : K) (v : V) : list (K * V) :=
      match m with
      | [] => [(k, v)]
      | (k', v') :: m' =>
          if decide (k' = k) then (k, v) :: m' else (k', v') :: set m' k v
      end.

Definition values (m : list (K * V)) : list V := map snd m.

End Defs.
End JSMap.

(** ** Flags (program.ts, lines 2205-2292) *)

Module CommonFlags.
Definition NONE : Z := 0.
Definition IMPORT : Z := Z.shiftl 1 0.
Definition EXPORT : Z := Z.shiftl 1 1.
Definition DECLARE : Z := Z.shiftl 1 2.
Definition CONST : Z := Z.shiftl 1 3.
Definition LET : Z := Z.shiftl 1 4.
Definition STATIC : Z := Z.shiftl 1 5.
Definition READONLY : Z := Z.shiftl 1 6.
Definition ABSTRACT : Z := Z.shiftl 1 7.
Definition PUBLIC : Z := Z.shiftl 1 8.
Definition PRIVATE : Z := Z.shiftl 1 9.
Definition PROTECTED : Z := Z.shiftl 1 10.
Definition GET : Z := Z.shiftl 1 11.
Definition SET : Z := Z.shiftl 1 12.
Definition AMBIENT : Z := Z.shiftl 1 13.
Definition GENERIC : Z := Z.shiftl 1 14.
Definition GENERIC_CONTEXT : Z := Z.shiftl 1 15.
Definition INSTANCE : Z := Z.shiftl 1 16.
Definition CONSTRUCTOR : Z := Z.shiftl 1 17.
Definition ARROW : Z := Z.shiftl 1 18.
Definition MODULE_EXPORT : Z := Z.shiftl 1 19.
Definition MODULE_IMPORT : Z := Z.shiftl 1 20.
Definition BUILTIN : Z := Z.shiftl 1 21.
Definition COMPILED : Z := Z.shiftl 1 22.
Definition INLINED : Z := Z.shiftl 1 23.
Definition SCOPED : Z := Z.shiftl 1 24.
Definition TRAMPOLINE : Z := Z.shiftl 1 25.
End CommonFlags.

Module DecoratorFlags.
Definition NONE : Z := 0.
Definition GLOBAL : Z := Z.shiftl 1 0.
Definition UNMANAGED : Z := Z.shiftl 1 2.
Definition SEALED : Z := Z.shiftl 1 3.
Definition INLINE : Z := Z.shiftl 1 4.
End DecoratorFlags.

(** [(flags & flag) == flag], [(flags & flag) != 0] and [flags |= flag]. *)
Definition flags_is (flags flag : Z) : bool := Z.land flags flag =? flag.
Definition flags_isAny (flags flag : Z) : bool := negb (Z.land flags flag =? 0).
Definition flags_set (flags flag : Z) : Z := Z.lor flags flag.

(** ** Operator kinds (program.ts, lines 117-160) *)

Module OperatorKind.
Inductive t : Type :=
  | INVALID | INDEXED_GET | INDEXED_SET
  | ADD | SUB | MUL | DIV | REM | POW
  | AND | OR | XOR
  | EQ | NE | GT | GE | LT | LE.

#[global] Instance eq_dec : EqDecision t.
  Proof. solve_decision. Defined.
End OperatorKind.

Definition operatorKindFromString (str : string) : OperatorKind.t :=
  if String.eqb str "[]" then OperatorKind.INDEXED_GET
  else if String.eqb str "[]=" then OperatorKind.INDEXED_SET
  else if String.eqb str "+" then OperatorKind.ADD
  else if String.eqb str "-" then OperatorKind.SUB
  else if String.eqb str "*" then OperatorKind.MUL
  else if String.eqb str "/" then OperatorKind.DIV
  else if String.eqb str "%" then OperatorKind.REM
  else if String.eqb str "**" then OperatorKind.POW
  else if String.eqb str "&" then OperatorKind.AND
  else if String.eqb str "|" then OperatorKind.OR
  else if String.eqb str "^" then OperatorKind.XOR
  else if String.eqb str "==" then OperatorKind.EQ
  else if String.eqb str "!=" then OperatorKind.NE
  else if String.eqb str ">" then OperatorKind.GT
  else if String.eqb str ">=" then OperatorKind.GE
  else if String.eqb str "<" then OperatorKind.LT
  else if String.eqb str "<=" then OperatorKind.LE
  else OperatorKind.INVALID.

(** ** AST shapes consumed by the program model

    ast.ts is not among the sources; these records hold the fields of the
    nodes that program.ts reads (spec section 6.1). *)

Module NodeKind.
Inductive t : Type :=
  | SOURCE | IDENTIFIER | CONSTRUCTOR | LITERAL | VARIABLE
  | CLASSDECLARATION | FUNCTIONDECLARATION | NAMESPACEDECLARATION | OTHER.
#[global] Instance eq_dec : EqDecision t.
  Proof. solve_decision. Defined.
End NodeKind.

Module LiteralKind.
Inductive t : Type := FLOAT | INTEGER | STRING | REGEXP | ARRAY | OBJECT.
#[global] Instance eq_dec : EqDecision t.
  Proof. solve_decision. Defined.
End LiteralKind.

Module DecoratorKind.
Inductive t : Type := CUSTOM | GLOBAL | OPERATOR | UNMANAGED | SEALED | INLINE.
#[global] Instance eq_dec : EqDecision t.
  Proof. solve_decision. Defined.
End DecoratorKind.

Module ParameterKind.
Inductive t : Type := DEFAULT | OPTIONAL | REST.
#[global] Instance eq_dec : EqDecision t.
  Proof. solve_decision. Defined.
End ParameterKind.

(** The fields of a [Source] that nodes are asked for through
    [range.source]. *)
Record Source : Type := {
  normalizedPath : string;
  internalPath : string;
  isEntry : bool;
  isLibrary : bool
}.

Record IdentifierExpression : Type := {
  text : string;
  id_source : Source
}.

(** Expressions as far as decorators inspect them: [kind], [text] of an
    identifier, [literalKind] and [value] of a literal. *)
Inductive Expression : Type :=
| Identifier (text : string)
| Literal (literalKind : LiteralKind.t) (value : string)
| OtherExpression.

Definition expressionKind (e : Expression) : NodeKind.t :=
  match e with
  | Identifier _ => NodeKind.IDENTIFIER
  | Literal _ _ => NodeKind.LITERAL
  | OtherExpression => NodeKind.OTHER
  end.

Record DecoratorNode : Type := {
  decoratorKind : DecoratorKind.t;
  dn_name : Expression;
  arguments : option (list Expression)
}.

(** Modelled from the spec: [stringToDecoratorKind] of ast.ts, which is not
    among the sources; the decorators the spec names are [global], [operator],
    [unmanaged], [sealed] and [inline] (sections 3.2 and 4.1). *)
Definition stringToDecoratorKind (str : string) : DecoratorKind.t :=
  if String.eqb str "global" then DecoratorKind.GLOBAL
  else if String.eqb str "operator" then DecoratorKind.OPERATOR
  else if String.eqb str "unmanaged" then DecoratorKind.UNMANAGED
  else if String.eqb str "sealed" then DecoratorKind.SEALED
  else if String.eqb str "inline" then DecoratorKind.INLINE
  else DecoratorKind.CUSTOM.

Definition decoratorKindToFlag (kind : DecoratorKind.t) : Z :=
  match kind with
  | DecoratorKind.GLOBAL => DecoratorFlags.GLOBAL
  | DecoratorKind.UNMANAGED => DecoratorFlags.UNMANAGED
  | DecoratorKind.SEALED => DecoratorFlags.SEALED
  | DecoratorKind.INLINE => DecoratorFlags.INLINE
  | _ => DecoratorFlags.NONE
  end.

(** Type nodes: a named type with optional type arguments, or a function
    signature. *)
Inductive CommonTypeNode : Type :=
| TypeNode (name : string) (typeArguments : option (list CommonTypeNode))
           (source : Source)
| SignatureNodeT (signature : SignatureNode)
with SignatureNode : Type :=
| mkSignatureNode (parameterTypes : list ParameterNode)
                  (returnType : option CommonTypeNode)
                  (explicitThisType : option CommonTypeNode)
with ParameterNode : Type :=
| mkParameterNode (name : string) (type : option CommonTypeNode)
                  (parameterKind : ParameterKind.t).

Definition sn_parameterTypes (n : SignatureNode) : list ParameterNode :=
  let 'mkSignatureNode ps _ _ := n in ps.
Definition sn_returnType (n : SignatureNode) : option CommonTypeNode :=
  let 'mkSignatureNode _ r _ := n in r.
Definition sn_explicitThisType (n : SignatureNode) : option CommonTypeNode :=
  let 'mkSignatureNode _ _ t := n in t.
Definition pn_name (p : ParameterNode) : string :=
  let 'mkParameterNode n _ _ := p in n.
Definition pn_type (p : ParameterNode) : option CommonTypeNode :=
  let 'mkParameterNode _ t _ := p in t.
Definition pn_parameterKind (p : ParameterNode) : ParameterKind.t :=
  let 'mkParameterNode _ _ k := p in k.

Record TypeParameterNode : Type := { tp_name : string }.

Record FieldDeclaration : Type := {
  fd_name : string;
  fd_type : option CommonTypeNode;
  fd_flags : Z;
  fd_fileLevelInternalName : string
}.

(** [FunctionDeclaration], and [MethodDeclaration] which extends it.
    [fn_nameKind] is [declaration.name.kind]; [fn_ancestors] lists the kinds
    of [declaration.parent], [declaration.parent.parent], and so on. *)
Record FunctionDeclaration : Type := {
  fn_name : string;
  fn_nameKind : NodeKind.t;
  fn_typeParameters : option (list TypeParameterNode);
  fn_signature : SignatureNode;
  fn_flags : Z;
  fn_decorators : option (list DecoratorNode);
  fn_fileLevelInternalName : string;
  fn_source : Source;
  fn_ancestors : list NodeKind.t
}.

Inductive ClassMember : Type :=
| FieldMember (declaration : FieldDeclaration)
| MethodMember (declaration : FunctionDeclaration)
| OtherMember.

(** [ClassDeclaration], and [InterfaceDeclaration] which has its shape. *)
Record ClassDeclaration : Type := {
  cd_name : string;
  cd_typeParameters : list TypeParameterNode;
  cd_extendsType : option CommonTypeNode;
  cd_implementsTypes : option (list CommonTypeNode);
  cd_members : list ClassMember;
  cd_flags : Z;
  cd_decorators : option (list DecoratorNode);
  cd_fileLevelInternalName : string;
  cd_programLevelInternalName : string;
  cd_source : Source;
  cd_ancestors : list NodeKind.t
}.

(** [em_path] is the [path] of the export statement the member stands in. *)
Record ExportMember : Type := {
  em_name : IdentifierExpression;
  em_externalName : IdentifierExpression;
  em_source : Source;
  em_path : option string
}.

Record ExportStatement : Type := {
  es_members : list ExportMember;
  es_path : option string;
  es_internalPath : option string
}.

Record ImportDeclaration : Type := {
  id_name : IdentifierExpression;
  id_externalName : IdentifierExpression;
  id_fileLevelInternalName : string
}.

Record ImportStatement : Type := {
  is_declarations : option (list ImportDeclaration);
  is_namespaceName : option IdentifierExpression;
  is_path : string;
  is_internalPath : string;
  is_source : Source
}.

(** ** Types and signatures

    Modelled from the spec: types.ts is not among the sources.  A type is
    identified by kind, width, and the class or signature it refers to
    (section 3.3); its byte size is its width in bits rounded up to bytes. *)

Module TypeKind.
Inductive t : Type :=
  | I8 | I16 | I32 | I64 | ISIZE | U8 | U16 | U32 | U64 | USIZE
  | BOOL | F32 | F64 | VOID.
End TypeKind.

Inductive Type_ : Type :=
| mkType (kind : TypeKind.t) (size : Z) (classReference : option handle)
         (functionType : option Signature)
with Signature : Type :=
| mkSignature (parameterTypes : list Type_) (parameterNames : list string)
              (requiredParameters : Z) (hasRest : bool) (returnType : Type_)
              (thisType : option Type_).

Definition t_kind (t : Type_) : TypeKind.t := let 'mkType k _ _ _ := t in k.
Definition t_size (t : Type_) : Z := let 'mkType _ n _ _ := t in n.
Definition classReference (t : Type_) : option handle :=
  let 'mkType _ _ c _ := t in c.
Definition functionType (t : Type_) : option Signature :=
  let 'mkType _ _ _ f := t in f.
Definition byteSize (t : Type_) : Z := (t_size t + 7) / 8.

Definition sig_parameterTypes (s : Signature) : list Type_ :=
  let 'mkSignature ps _ _ _ _ _ := s in ps.
Definition sig_parameterNames (s : Signature) : list string :=
  let 'mkSignature _ ns _ _ _ _ := s in ns.
Definition sig_requiredParameters (s : Signature) : Z :=
  let 'mkSignature _ _ r _ _ _ := s in r.
Definition sig_hasRest (s : Signature) : bool :=
  let 'mkSignature _ _ _ h _ _ := s in h.
Definition sig_returnType (s : Signature) : Type_ :=
  let 'mkSignature _ _ _ _ r _ := s in r.
Definition sig_thisType (s : Signature) : option Type_ :=
  let 'mkSignature _ _ _ _ _ t := s in t.

Module Ty.
Definition prim (k : TypeKind.t) (bits : Z) : Type_ := mkType k bits None None.
Definition i8 := prim TypeKind.I8 8.
Definition i16 := prim TypeKind.I16 16.
Definition i32 := prim TypeKind.I32 32.
Definition i64 := prim TypeKind.I64 64.
Definition isize32 := prim TypeKind.ISIZE 32.
Definition isize64 := prim TypeKind.ISIZE 64.
Definition u8 := prim TypeKind.U8 8.
Definition u16 := prim TypeKind.U16 16.
Definition u32 := prim TypeKind.U32 32.
Definition u64 := prim TypeKind.U64 64.
Definition usize32 := prim TypeKind.USIZE 32.
Definition usize64 := prim TypeKind.USIZE 64.
Definition bool := prim TypeKind.BOOL 1.
Definition f32 := prim TypeKind.F32 32.
Definition f64 := prim TypeKind.F64 64.
Definition void := prim TypeKind.VOID 0.

Definition asClass (t : Type_) (c : handle) : Type_ :=
    mkType (t_kind t) (t_size t) (Some c) (functionType t).
Definition asFunction (t : Type_) (s : Signature) : Type_ :=
    mkType (t_kind t) (t_size t) (classReference t) (Some s).
Definition asThis (t : Type_) : Type_ := t.
End Ty.

(** ** Elements (program.ts, lines 2171-2202 and 2294-3475) *)

Module ElementKind.
Inductive t : Type :=
  | GLOBAL | LOCAL | ENUM | ENUMVALUE | FUNCTION_PROTOTYPE | FUNCTION
  | FUNCTION_TARGET | CLASS_PROTOTYPE | CLASS | INTERFACE_PROTOTYPE
  | INTERFACE | FIELD_PROTOTYPE | FIELD | PROPERTY | NAMESPACE.
#[global] Instance eq_dec : EqDecision t.
  Proof. solve_decision. Defined.
End ElementKind.

(** [FunctionPrototype]: the fields it adds to [Element]. *)
Record FunctionPrototypeData : Type := {
  fp_declaration : FunctionDeclaration;
  fp_classPrototype : option handle;
  fp_instances : gmap string handle;
  fp_classTypeArguments : option (list Type_);
  fp_operatorKind : OperatorKind.t
}.

(** [Function]: prototype, signature, owner, the locals set up by the
    constructor (name, index, type) and the contextual type arguments.  The
    flow created by the constructor belongs to the flow tracker and is not
    part of this model. *)
Record FunctionData : Type := {
  f_prototype : handle;
  f_signature : Signature;
  f_memberOf : option handle;
  f_locals : list (string * (Z * Type_));
  f_contextualTypeArguments : option (gmap string Type_)
}.

(** [ClassPrototype] (and [InterfacePrototype]). *)
Record ClassPrototypeData : Type := {
  cp_declaration : ClassDeclaration;
  cp_instances : gmap string handle;
  cp_instanceMembers : option (list (string * handle));
  cp_basePrototype : option handle;
  cp_constructorPrototype : option handle;
  cp_overloadPrototypes : list (OperatorKind.t * handle)
}.

(** [Class] (and [Interface]). *)
Record ClassData : Type := {
  c_prototype : handle;
  c_typeArguments : option (list Type_);
  c_type : Type_;
  c_base : option handle;
  c_contextualTypeArguments : option (gmap string Type_);
  c_currentMemoryOffset : Z;
  c_constructorInstance : option handle;
  c_overloads : option (list (OperatorKind.t * handle))
}.

Inductive ElementData : Type :=
| GlobalData (type : Type_)
| FunctionPrototypeD (d : FunctionPrototypeData)
| FunctionD (d : FunctionData)
| ClassPrototypeD (d : ClassPrototypeData)
| ClassD (d : ClassData)
| FieldPrototypeD (declaration : FieldDeclaration) (classPrototype : handle)
| FieldD (prototype : handle) (type : Type_) (memoryOffset : Z)
| PropertyD (parent : handle) (getterPrototype setterPrototype : option handle)
| NoData.

(** The header every [Element] has, and the data of its subclass. *)
Record Element : Type := {
  kind : ElementKind.t;
  simpleName : string;
  internalName : string;
  flags : Z;
  decoratorFlags : Z;
  members : option (list (string * handle));
  namespace : option handle;
  data : ElementData
}.

Definition newElement (k : ElementKind.t) (simpleName internalName : string)
    (d : ElementData) : Element :=
  {| kind := k; simpleName := simpleName; internalName := internalName;
     flags := CommonFlags.NONE; decoratorFlags := DecoratorFlags.NONE;
     members := None; namespace := None; data := d |}.

Definition with_flags (f : Z) (e : Element) : Element :=
  {| kind := kind e; simpleName := simpleName e; internalName := internalName e;
     flags := f; decoratorFlags := decoratorFlags e; members := members e;
     namespace := namespace e; data := data e |}.
Definition with_decoratorFlags (f : Z) (e : Element) : Element :=
  {| kind := kind e; simpleName := simpleName e; internalName := internalName e;
     flags := flags e; decoratorFlags := f; members := members e;
     namespace := namespace e; data := data e |}.
Definition with_internalName (n : string) (e : Element) : Element :=
  {| kind := kind e; simpleName := simpleName e; internalName := n;
     flags := flags e; decoratorFlags := decoratorFlags e; members := members e;
     namespace := namespace e; data := data e |}.
Definition with_members (m : option (list (string * handle))) (e : Element)
    : Element :=
  {| kind := kind e; simpleName := simpleName e; internalName := internalName e;
     flags := flags e; decoratorFlags := decoratorFlags e; members := m;
     namespace := namespace e; data := data e |}.
Definition with_namespace (n : option handle) (e : Element) : Element :=
  {| kind := kind e; simpleName := simpleName e; internalName := internalName e;
     flags := flags e; decoratorFlags := decoratorFlags e; members := members e;
     namespace := n; data := data e |}.
Definition with_data (d : ElementData) (e : Element) : Element :=
  {| kind := kind e; simpleName := simpleName e; internalName := internalName e;
     flags := flags e; decoratorFlags := decoratorFlags e; members := members e;
     namespace := namespace e; data := d |}.

(** [Element.is], [Element.isAny], [Element.set], [Element.hasDecorator]. *)
Definition is_ (e : Element) (flag : Z) : bool := flags_is (flags e) flag.
Definition isAny (e : Element) (flag : Z) : bool := flags_isAny (flags e) flag.
Definition set_ (flag : Z) (e : Element) : Element :=
  with_flags (flags_set (flags e) flag) e.
Definition hasDecorator (e : Element) (flag : Z) : bool :=
  flags_is (decoratorFlags e) flag.

(** ** Diagnostics (diagnostics.ts is not among the sources: a message is its
    code and its arguments; source ranges are not kept) *)

Module DiagnosticCode.
Inductive t : Type :=
  | Operation_not_supported
  | Duplicate_identifier_0
  | Cannot_find_name_0
  | Module_0_has_no_exported_member_1
  | Export_declaration_conflicts_with_exported_declaration_of_0
  | A_class_may_only_extend_another_class
  | Class_0_is_sealed_and_cannot_be_extended
  | Unmanaged_classes_cannot_implement_interfaces
  | Unmanaged_classes_cannot_extend_managed_classes_and_vice_versa
  | Multiple_constructor_implementations_are_not_allowed
  | Duplicate_function_implementation
  | Decorator_0_is_not_valid_here
  | Duplicate_decorator
  | Expected_0_arguments_but_got_1
  | Expected_0_type_arguments_but_got_1
  | String_literal_expected.
#[global] Instance eq_dec : EqDecision t.
  Proof. solve_decision. Defined.
End DiagnosticCode.

Record DiagnosticMessage : Type := {
  code : DiagnosticCode.t;
  args : list string
}.

(** ** The program (program.ts, lines 164-199) *)

Record Options : Type := {
  isizeType : Type_;
  usizeType : Type_;
  globalAliases : option (list (string * string))
}.

Record TypeAlias : Type := {
  ta_typeParameters : option (list TypeParameterNode);
  ta_type : CommonTypeNode
}.

Record Program : Type := {
  options : Options;
  diagnostics : list DiagnosticMessage;
  heap : list Element;
  elementsLookup : gmap string handle;
  typesLookup : gmap string Type_;
  typeAliases : gmap string TypeAlias;
  fileLevelExports : gmap string handle;
  moduleLevelExports : gmap string handle;
  arrayPrototype : option handle;
  arrayBufferViewPrototype : option handle;
  stringInstance : option handle
}.

Definition newProgram (o : Options) : Program :=
  {| options := o; diagnostics := []; heap := [];
     elementsLookup := ∅; typesLookup := ∅; typeAliases := ∅;
     fileLevelExports := ∅; moduleLevelExports := ∅;
     arrayPrototype := None; arrayBufferViewPrototype := None;
     stringInstance := None |}.

Definition with_diagnostics (d : list DiagnosticMessage) (p : Program) : Program :=
  {| options := options p; diagnostics := d; heap := heap p;
     elementsLookup := elementsLookup p; typesLookup := typesLookup p;
     typeAliases := typeAliases p; fileLevelExports := fileLevelExports p;
     moduleLevelExports := moduleLevelExports p;
     arrayPrototype := arrayPrototype p;
     arrayBufferViewPrototype := arrayBufferViewPrototype p;
     stringInstance := stringInstance p |}.
Definition with_heap (h : list Element) (p : Program) : Program :=
  {| options := options p; diagnostics := diagnostics p; heap := h;
     elementsLookup := elementsLookup p; typesLookup := typesLookup p;
     typeAliases := typeAliases p; fileLevelExports := fileLevelExports p;
     moduleLevelExports := moduleLevelExports p;
     arrayPrototype := arrayPrototype p;
     arrayBufferViewPrototype := arrayBufferViewPrototype p;
     stringInstance := stringInstance p |}.
Definition with_elementsLookup (m : gmap string handle) (p : Program) : Program :=
  {| options := options p; diagnostics := diagnostics p; heap := heap p;
     elementsLookup := m; typesLookup := typesLookup p;
     typeAliases := typeAliases p; fileLevelExports := fileLevelExports p;
     moduleLevelExports := moduleLevelExports p;
     arrayPrototype := arrayPrototype p;
     arrayBufferViewPrototype := arrayBufferViewPrototype p;
     stringInstance := stringInstance p |}.
Definition with_typesLookup (m : gmap string Type_) (p : Program) : Program :=
  {| options := options p; diagnostics := diagnostics p; heap := heap p;
     elementsLookup := elementsLookup p; typesLookup := m;
     typeAliases := typeAliases p; fileLevelExports := fileLevelExports p;
     moduleLevelExports := moduleLevelExports p;
     arrayPrototype := arrayPrototype p;
     arrayBufferViewPrototype := arrayBufferViewPrototype p;
     stringInstance := stringInstance p |}.
Definition with_fileLevelExports (m : gmap string handle) (p : Program) : Program :=
  {| options := options p; diagnostics := diagnostics p; heap := heap p;
     elementsLookup := elementsLookup p; typesLookup := typesLookup p;
     typeAliases := typeAliases p; fileLevelExports := m;
     moduleLevelExports := moduleLevelExports p;
     arrayPrototype := arrayPrototype p;
     arrayBufferViewPrototype := arrayBufferViewPrototype p;
     stringInstance := stringInstance p |}.
Definition with_wellKnown (a b c : option handle) (p : Program) : Program :=
  {| options := options p; diagnostics := diagnostics p; heap := heap p;
     elementsLookup := elementsLookup p; typesLookup := typesLookup p;
     typeAliases := typeAliases p; fileLevelExports := fileLevelExports p;
     moduleLevelExports := moduleLevelExports p;
     arrayPrototype := a;
     arrayBufferViewPrototype := b;
     stringInstance := c |}.
Definition with_options (o : Options) (p : Program) : Program :=
  {| options := o; diagnostics := diagnostics p; heap := heap p;
     elementsLookup := elementsLookup p; typesLookup := typesLookup p;
     typeAliases := typeAliases p; fileLevelExports := fileLevelExports p;
     moduleLevelExports := moduleLevelExports p;
     arrayPrototype := arrayPrototype p;
     arrayBufferViewPrototype := arrayBufferViewPrototype p;
     stringInstance := stringInstance p |}.
Definition with_moduleLevelExports (m : gmap string handle) (p : Program) : Program :=
  {| options := options p; diagnostics := diagnostics p; heap := heap p;
     elementsLookup := elementsLookup p; typesLookup := typesLookup p;
     typeAliases := typeAliases p; fileLevelExports := fileLevelExports p;
     moduleLevelExports := m;
     arrayPrototype := arrayPrototype p;
     arrayBufferViewPrototype := arrayBufferViewPrototype p;
     stringInstance := stringInstance p |}.

(** ** Effects

    The methods of the source read and mutate the program and its elements,
    raise exceptions ([assert], [throw new Error]) and contain loops and
    recursion that need not terminate.  A computation takes the program state
    and either returns a value with the new state, raises, or runs out of the
    fuel that bounds its loops. *)

Inductive Exn : Type :=
| AssertionError                (* a failed [assert] *)
| Error (msg : string)          (* [throw new Error(msg)] *)
| TypeError.                    (* a property read of [null], or a cast that does not hold *)

Inductive Outcome (A : Type) : Type :=
| Ret (a : A) (s : Program)
| Throw (e : Exn) (s : Program)
| OutOfFuel.
Arguments Ret {A} a s.
Arguments Throw {A} e s.
Arguments OutOfFuel {A}.

Definition M (A : Type) : Type := Program → Outcome A.

Definition ret {A} (a : A) : M A := fun s => Ret a s.
Definition bind {A B} (m : M A) (k : A → M B) : M B :=
  fun s => match m s with
           | Ret a s' => k a s'
           | Throw e s' => Throw e s'
           | OutOfFuel => OutOfFuel
           end.

Notation "'let!' x ':=' m 'in' k" := (bind m (fun x => k))
  (at level 10, x name, m at level 100, k at level 200).
Notation "'let!' ' p ':=' m 'in' k" := (bind m (fun x => let 'p := x in k))
  (at level 10, p pattern, m at level 100, k at level 200).
Notation "'do!' m 'in' k" := (bind m (fun _ => k))
  (at level 10, m at level 100, k at level 200).

Definition gets {A} (f : Program → A) : M A := fun s => Ret (f s) s.
Definition modify (f : Program → Program) : M unit := fun s => Ret tt (f s).
Definition throw {A} (e : Exn) : M A := fun s => Throw e s.
Definition outOfFuel {A} : M A := fun _ => OutOfFuel.
Definition assert (b : bool) : M unit := if b then ret tt else throw AssertionError.
Definition when (b : bool) (m : M unit) : M unit := if b then m else ret tt.

(** [assert(x)] on a nullable reference returns the reference. *)
Definition assertSome {A} (o : option A) : M A :=
  match o with Some a => ret a | None => throw AssertionError end.
(** A dereference of a nullable reference that the source does not guard. *)
Definition deref {A} (o : option A) : M A :=
  match o with Some a => ret a | None => throw TypeError end.

(** [DiagnosticEmitter.error]. *)
Definition error (c : DiagnosticCode.t) (a : list string) : M unit :=
  modify (fun s => with_diagnostics (diagnostics s ++ [{| code := c; args := a |}])%list s).

(** [new]: the object gets the next free handle. *)
Definition alloc (e : Element) : M handle :=
  fun s => Ret (length (heap s)) (with_heap (heap s ++ [e])%list s).
Definition getElement (h : handle) : M Element :=
  fun s => match heap s !! h with
           | Some e => Ret e s
           | None => Throw TypeError s
           end.
Definition updElement (h : handle) (f : Element → Element) : M unit :=
  fun s => match heap s !! h with
           | Some e => Ret tt (with_heap (<[h := f e]> (heap s)) s)
           | None => Throw TypeError s
           end.

Definition getClassPrototype (h : handle) : M ClassPrototypeData :=
  let! e := getElement h in
  match data e with ClassPrototypeD d => ret d | _ => throw TypeError end.
Definition getFunctionPrototype (h : handle) : M FunctionPrototypeData :=
  let! e := getElement h in
  match data e with FunctionPrototypeD d => ret d | _ => throw TypeError end.
Definition getClass (h : handle) : M ClassData :=
  let! e := getElement h in
  match data e with ClassD d => ret d | _ => throw TypeError end.

Definition updClassPrototype (h : handle)
    (f : ClassPrototypeData → ClassPrototypeData) : M unit :=
  let! d := getClassPrototype h in
  updElement h (with_data (ClassPrototypeD (f d))).
Definition updFunctionPrototype (h : handle)
    (f : FunctionPrototypeData → FunctionPrototypeData) : M unit :=
  let! d := getFunctionPrototype h in
  updElement h (with_data (FunctionPrototypeD (f d))).
Definition updClass (h : handle) (f : ClassData → ClassData) : M unit :=
  let! d := getClass h in
  updElement h (with_data (ClassD (f d))).

(** Loops.  [forEach] is a [for] loop over an array whose body always runs to
    its end; [forLoop] is one whose body may [return] from the enclosing
    function, threading the loop's local variables. *)
Fixpoint forEach {A} (l : list A) (body : A → M unit) : M unit :=
  match l with
  | [] => ret tt
  | x :: l' => do! body x in forEach l' body
  end.

Fixpoint foldM {A B} (body : B → A → M B) (b : B) (l : list A) : M B :=
  match l with
  | [] => ret b
  | x :: l' => let! b' := body b x in foldM body b' l'
  end.

Inductive Step (B R : Type) : Type :=
| Continue (b : B)
| Return (r : R).
Arguments Continue {B R} b.
Arguments Return {B R} r.

Fixpoint forLoop {A B R} (body : B → A → M (Step B R)) (b : B) (l : list A)
    : M (Step B R) :=
  match l with
  | [] => ret (Continue b)
  | x :: l' =>
      let! st := body b x in
      match st with
      | Continue b' => forLoop body b' l'
      | Return r => ret (Return r)
      end
  end.

(** Setters of the record fields the methods assign. *)
Definition fp_with_instances (m : gmap string handle) (d : FunctionPrototypeData)
    : FunctionPrototypeData :=
  {| fp_declaration := fp_declaration d; fp_classPrototype := fp_classPrototype d;
     fp_instances := m; fp_classTypeArguments := fp_classTypeArguments d;
     fp_operatorKind := fp_operatorKind d |}.
Definition fp_with_operatorKind (k : OperatorKind.t) (d : FunctionPrototypeData)
    : FunctionPrototypeData :=
  {| fp_declaration := fp_declaration d; fp_classPrototype := fp_classPrototype d;
     fp_instances := fp_instances d;
     fp_classTypeArguments := fp_classTypeArguments d; fp_operatorKind := k |}.
Definition fp_with_classTypeArguments (a : option (list Type_))
    (d : FunctionPrototypeData) : FunctionPrototypeData :=
  {| fp_declaration := fp_declaration d; fp_classPrototype := fp_classPrototype d;
     fp_instances := fp_instances d; fp_classTypeArguments := a;
     fp_operatorKind := fp_operatorKind d |}.

Definition cp_with_instances (m : gmap string handle) (d : ClassPrototypeData)
    : ClassPrototypeData :=
  {| cp_declaration := cp_declaration d; cp_instances := m;
     cp_instanceMembers := cp_instanceMembers d;
     cp_basePrototype := cp_basePrototype d;
     cp_constructorPrototype := cp_constructorPrototype d;
     cp_overloadPrototypes := cp_overloadPrototypes d |}.
Definition cp_with_instanceMembers (m : option (list (string * handle)))
    (d : ClassPrototypeData) : ClassPrototypeData :=
  {| cp_declaration := cp_declaration d; cp_instances := cp_instances d;
     cp_instanceMembers := m;
     cp_basePrototype := cp_basePrototype d;
     cp_constructorPrototype := cp_constructorPrototype d;
     cp_overloadPrototypes := cp_overloadPrototypes d |}.
Definition cp_with_basePrototype (b : option handle) (d : ClassPrototypeData)
    : ClassPrototypeData :=
  {| cp_declaration := cp_declaration d; cp_instances := cp_instances d;
     cp_instanceMembers := cp_instanceMembers d;
     cp_basePrototype := b;
     cp_constructorPrototype := cp_constructorPrototype d;
     cp_overloadPrototypes := cp_overloadPrototypes d |}.
Definition cp_with_constructorPrototype (c : option handle)
    (d : ClassPrototypeData) : ClassPrototypeData :=
  {| cp_declaration := cp_declaration d; cp_instances := cp_instances d;
     cp_instanceMembers := cp_instanceMembers d;
     cp_basePrototype := cp_basePrototype d;
     cp_constructorPrototype := c;
     cp_overloadPrototypes := cp_overloadPrototypes d |}.
Definition cp_with_overloadPrototypes (o : list (OperatorKind.t * handle))
    (d : ClassPrototypeData) : ClassPrototypeData :=
  {| cp_declaration := cp_declaration d; cp_instances := cp_instances d;
     cp_instanceMembers := cp_instanceMembers d;
     cp_basePrototype := cp_basePrototype d;
     cp_constructorPrototype := cp_constructorPrototype d;
     cp_overloadPrototypes := o |}.

Definition c_with_currentMemoryOffset (o : Z) (d : ClassData) : ClassData :=
  {| c_prototype := c_prototype d; c_typeArguments := c_typeArguments d;
     c_type := c_type d; c_base := c_base d;
     c_contextualTypeArguments := c_contextualTypeArguments d;
     c_currentMemoryOffset := o;
     c_constructorInstance := c_constructorInstance d;
     c_overloads := c_overloads d |}.
Definition c_with_constructorInstance (f : option handle) (d : ClassData)
    : ClassData :=
  {| c_prototype := c_prototype d; c_typeArguments := c_typeArguments d;
     c_type := c_type d; c_base := c_base d;
     c_contextualTypeArguments := c_contextualTypeArguments d;
     c_currentMemoryOffset := c_currentMemoryOffset d;
     c_constructorInstance := f;
     c_overloads := c_overloads d |}.
Definition c_with_overloads (o : option (list (OperatorKind.t * handle)))
    (d : ClassData) : ClassData :=
  {| c_prototype := c_prototype d; c_typeArguments := c_typeArguments d;
     c_type := c_type d; c_base := c_base d;
     c_contextualTypeArguments := c_contextualTypeArguments d;
     c_currentMemoryOffset := c_currentMemoryOffset d;
     c_constructorInstance := c_constructorInstance d;
     c_overloads := o |}.
Definition c_with_contextualTypeArguments (m : option (gmap string Type_))
    (d : ClassData) : ClassData :=
  {| c_prototype := c_prototype d; c_typeArguments := c_typeArguments d;
     c_type := c_type d; c_base := c_base d;
     c_contextualTypeArguments := m;
     c_currentMemoryOffset := c_currentMemoryOffset d;
     c_constructorInstance := c_constructorInstance d;
     c_overloads := c_overloads d |}.

(** ** Constructors of elements (program.ts, lines 2448-3113) *)

Definition newGlobal (simpleName internalName : string) (type : Type_)
    (declarationFlags : option Z) : Element :=
  with_flags (default CommonFlags.NONE declarationFlags)
    (newElement ElementKind.GLOBAL simpleName internalName (GlobalData type)).

Definition newFunctionPrototype (simpleName internalName : string)
    (declaration : FunctionDeclaration) (classPrototype : option handle)
    (decoratorFlags : Z) : Element :=
  with_decoratorFlags decoratorFlags
    (with_flags (fn_flags declaration)
       (newElement ElementKind.FUNCTION_PROTOTYPE simpleName internalName
          (FunctionPrototypeD
             {| fp_declaration := declaration;
                fp_classPrototype := classPrototype;
                fp_instances := ∅;
                fp_classTypeArguments := None;
                fp_operatorKind := OperatorKind.INVALID |}))).

Definition newFieldPrototype (classPrototype : handle)
    (simpleName internalName : string) (declaration : FieldDeclaration)
    : Element :=
  with_flags (fd_flags declaration)
    (newElement ElementKind.FIELD_PROTOTYPE simpleName internalName
       (FieldPrototypeD declaration classPrototype)).

Definition newProperty (simpleName internalName : string) (parent : handle)
    : Element :=
  newElement ElementKind.PROPERTY simpleName internalName
    (PropertyD parent None None).

Definition newClassPrototype (simpleName internalName : string)
    (declaration : ClassDeclaration) (decoratorFlags : Z) : Element :=
  with_decoratorFlags decoratorFlags
    (with_flags (cd_flags declaration)
       (newElement ElementKind.CLASS_PROTOTYPE simpleName internalName
          (ClassPrototypeD
             {| cp_declaration := declaration;
                cp_instances := ∅;
                cp_instanceMembers := None;
                cp_basePrototype := None;
                cp_constructorPrototype := None;
                cp_overloadPrototypes := [] |}))).

(** ** The initializer (program.ts, lines 221-1339) *)

Record QueuedExport : Type := {
  qe_isReExport : bool;
  qe_referencedName : string;
  qe_member : ExportMember
}.

Record QueuedImport : Type := {
  qi_internalName : string;
  qi_referencedName : string;
  qi_referencedNameAlt : string;
  qi_declaration : ImportDeclaration;
  qi_path : string
}.

(** Lines 425-442.  The [do ... while (true)] loop takes one unit of fuel per
    iteration. *)
Fixpoint tryResolveImport (fuel : nat) (referencedName : string)
    (queuedExports : list (string * QueuedExport)) : M (option handle) :=
  match fuel with
  | O => outOfFuel
  | S fuel' =>
      let! fileLevelExports := gets fileLevelExports in
      match fileLevelExports !! referencedName with
      | Some element => ret (Some element)
      | None =>
          match JSMap.get queuedExports referencedName with
          | None => ret None
          | Some queuedExport =>
              if qe_isReExport queuedExport then
                tryResolveImport fuel' (qe_referencedName queuedExport)
                  queuedExports
              else
                let! elementsLookup := gets elementsLookup in
                ret (elementsLookup !! qe_referencedName queuedExport)
          end
      end
  end.

(** Lines 444-470. *)
Definition filterDecorators (decorators : list DecoratorNode) (acceptedFlags : Z)
    : M Z :=
  foldM (fun presentFlags decorator =>
    match dn_name decorator with
    | Identifier name =>
        let kind := stringToDecoratorKind name in
        let flag := decoratorKindToFlag kind in
        if negb (flag =? 0) then
          if Z.land acceptedFlags flag =? 0 then
            do! error DiagnosticCode.Decorator_0_is_not_valid_here [name] in
            ret presentFlags
          else if negb (Z.land presentFlags flag =? 0) then
            do! error DiagnosticCode.Duplicate_decorator [name] in
            ret presentFlags
          else ret (Z.lor presentFlags flag)
        else ret presentFlags
    | _ => ret presentFlags
    end) DecoratorFlags.NONE decorators.

(** Lines 472-504.  [name], [source] and [ancestors] are
    [declaration.name.text], [declaration.range.source] and the kinds of the
    declaration's parent chain. *)
Definition checkGlobalOptions (element : handle) (name : string)
    (source : Source) (ancestors : list NodeKind.t) : M unit :=
  let! e := getElement element in
  let! isGlobal :=
    if hasDecorator e DecoratorFlags.GLOBAL then ret true
    else if isLibrary source && is_ e CommonFlags.EXPORT then
      let! parentKind := assertSome (ancestors !! 0%nat) in
      if decide (parentKind = NodeKind.SOURCE) then ret true
      else if decide (parentKind = NodeKind.VARIABLE) then
        let! grandparentKind := assertSome (ancestors !! 1%nat) in
        ret (bool_decide (grandparentKind = NodeKind.SOURCE))
      else ret false
    else ret false in
  if isGlobal then
    let simpleName := name in
    let! lookup := gets elementsLookup in
    if bool_decide (is_Some (lookup !! simpleName)) then
      error DiagnosticCode.Duplicate_identifier_0 [internalName e]
    else
      do! modify (fun s => with_elementsLookup (<[simpleName := element]> (elementsLookup s)) s) in
      if is_ e CommonFlags.BUILTIN then
        updElement element (with_internalName simpleName)
      else ret tt
  else ret tt.

Definition setElementsLookup (name : string) (element : handle) : M unit :=
  modify (fun s => with_elementsLookup (<[name := element]> (elementsLookup s)) s).
Definition setFileLevelExports (name : string) (element : handle) : M unit :=
  modify (fun s => with_fileLevelExports (<[name := element]> (fileLevelExports s)) s).
Definition setModuleLevelExports (name : string) (element : handle) : M unit :=
  modify (fun s => with_moduleLevelExports (<[name := element]> (moduleLevelExports s)) s).
Definition hasKey {V} (m : gmap string V) (k : string) : bool :=
  bool_decide (is_Some (m !! k)).

(** [members.set(name, element)] on the [members] map of [owner], which the
    caller has made sure exists. *)
Definition membersSet (owner : handle) (name : string) (element : handle)
    : M unit :=
  updElement owner (fun e =>
    with_members (Some (JSMap.set (default [] (members e)) name element)) e).

(** Lines 631-689. *)
Definition initializeField (declaration : FieldDeclaration)
    (classPrototype : handle) : M unit :=
  let name := fd_name declaration in
  let internalName := fd_fileLevelInternalName declaration in
  if flags_is (fd_flags declaration) CommonFlags.STATIC then
    let! lookup := gets elementsLookup in
    if hasKey lookup internalName then
      error DiagnosticCode.Duplicate_identifier_0 [internalName]
    else
      let! cp := getElement classPrototype in
      let duplicate :=
        match members cp with
        | Some m => JSMap.has m name
        | None => false
        end in
      if duplicate then
        error DiagnosticCode.Duplicate_identifier_0 [internalName]
      else
        let! staticField :=
          alloc (newGlobal name internalName Ty.void (Some (fd_flags declaration))) in
        do! membersSet classPrototype name staticField in
        setElementsLookup internalName staticField
  else
    let! cp := getClassPrototype classPrototype in
    let duplicate :=
      match cp_instanceMembers cp with
      | Some m => JSMap.has m name
      | None => false
      end in
    if duplicate then
      error DiagnosticCode.Duplicate_identifier_0 [internalName]
    else
      let! instanceField :=
        alloc (newFieldPrototype classPrototype name internalName declaration) in
      updClassPrototype classPrototype (fun d =>
        cp_with_instanceMembers
          (Some (JSMap.set (default [] (cp_instanceMembers d)) name instanceField)) d).

(** One decorator of the loop of lines 798-839.  [numArgs.toString] is the
    decimal numeral. *)
Definition checkOperatorDecorator (prototype classPrototype : handle)
    (decorator : DecoratorNode) : M unit :=
  if decide (decoratorKind decorator = DecoratorKind.OPERATOR) then
    let numArgs :=
      match arguments decorator with
      | Some a => length a
      | None => 0%nat
      end in
    if decide (numArgs = 1%nat) then
      let! firstArg := deref (mjoin (head <$> arguments decorator)) in
      match firstArg with
      | Literal LiteralKind.STRING value =>
          let kind := operatorKindFromString value in
          if decide (kind = OperatorKind.INVALID) then
            error DiagnosticCode.Operation_not_supported []
          else
            let! cp := getClassPrototype classPrototype in
            let overloads := cp_overloadPrototypes cp in
            if JSMap.has overloads kind then
              error DiagnosticCode.Duplicate_function_implementation []
            else
              do! updFunctionPrototype prototype (fp_with_operatorKind kind) in
              updClassPrototype classPrototype (fun d =>
                cp_with_overloadPrototypes
                  (JSMap.set (cp_overloadPrototypes d) kind prototype) d)
      | _ => error DiagnosticCode.String_literal_expected []
      end
    else
      error DiagnosticCode.Expected_0_arguments_but_got_1
        ["1"; pretty (N.of_nat numArgs)]
  else ret tt.

(** Lines 788-841. *)
Definition checkOperatorOverloads (decorators : option (list DecoratorNode))
    (prototype : handle) (classPrototype : handle) : M unit :=
  match decorators with
  | None => ret tt
  | Some decorators =>
      forEach decorators (checkOperatorDecorator prototype classPrototype)
  end.

(** Lines 691-786. *)
Definition initializeMethod (declaration : FunctionDeclaration)
    (classPrototype : handle) : M unit :=
  let simpleName := fn_name declaration in
  let internalName := fn_fileLevelInternalName declaration in
  let decorators := fn_decorators declaration in
  let! decoratorFlags :=
    match decorators with
    | Some ds => filterDecorators ds DecoratorFlags.INLINE
    | None => ret DecoratorFlags.NONE
    end in
  if flags_is (fn_flags declaration) CommonFlags.STATIC then
    do! assert (negb (bool_decide (fn_nameKind declaration = NodeKind.CONSTRUCTOR))) in
    let! lookup := gets elementsLookup in
    if hasKey lookup internalName then
      error DiagnosticCode.Duplicate_identifier_0 [internalName]
    else
      let! cp := getElement classPrototype in
      let duplicate :=
        match members cp with
        | Some m => JSMap.has m simpleName
        | None => false
        end in
      if duplicate then
        error DiagnosticCode.Duplicate_identifier_0 [internalName]
      else
        let! prototype :=
          alloc (newFunctionPrototype simpleName internalName declaration
                   (Some classPrototype) decoratorFlags) in
        do! membersSet classPrototype simpleName prototype in
        do! setElementsLookup internalName prototype in
        do! when (is_ cp CommonFlags.MODULE_EXPORT)
              (updElement prototype (set_ CommonFlags.MODULE_EXPORT)) in
        checkOperatorOverloads decorators prototype classPrototype
  else
    let! cp := getClassPrototype classPrototype in
    let duplicate :=
      match cp_instanceMembers cp with
      | Some m => JSMap.has m simpleName
      | None => false
      end in
    if duplicate then
      error DiagnosticCode.Duplicate_identifier_0 [internalName]
    else
      do! updClassPrototype classPrototype (fun d =>
            cp_with_instanceMembers (Some (default [] (cp_instanceMembers d))) d) in
      let! prototype :=
        alloc (newFunctionPrototype simpleName internalName declaration
                 (Some classPrototype) decoratorFlags) in
      do! (if decide (fn_nameKind declaration = NodeKind.CONSTRUCTOR) then
             if bool_decide (is_Some (cp_constructorPrototype cp)) then
               error DiagnosticCode.Multiple_constructor_implementations_are_not_allowed []
             else
               do! updElement prototype (set_ CommonFlags.CONSTRUCTOR) in
               updClassPrototype classPrototype
                 (cp_with_constructorPrototype (Some prototype))
           else
             updClassPrototype classPrototype (fun d =>
               cp_with_instanceMembers
                 (Some (JSMap.set (default [] (cp_instanceMembers d)) simpleName prototype)) d)) in
      let! cpe := getElement classPrototype in
      do! when (is_ cpe CommonFlags.MODULE_EXPORT)
            (updElement prototype (set_ CommonFlags.MODULE_EXPORT)) in
      checkOperatorOverloads decorators prototype classPrototype.

Definition getProperty (h : handle)
    : M (handle * option handle * option handle) :=
  let! e := getElement h in
  match data e with
  | PropertyD parent g s => ret (parent, g, s)
  | _ => throw TypeError
  end.
Definition setGetterPrototype (property : handle) (p : handle) : M unit :=
  let! '(parent, _, s) := getProperty property in
  updElement property (with_data (PropertyD parent (Some p) s)).
Definition setSetterPrototype (property : handle) (p : handle) : M unit :=
  let! '(parent, g, _) := getProperty property in
  updElement property (with_data (PropertyD parent g (Some p))).

(** Lines 843-963. *)
Definition initializeAccessor (declaration : FunctionDeclaration)
    (classPrototype : handle) : M unit :=
  let simpleName := fn_name declaration in
  let internalPropertyName := fn_fileLevelInternalName declaration in
  let! lookup := gets elementsLookup in
  let isGetter := flags_is (fn_flags declaration) CommonFlags.GET in
  let! existing :=
    match lookup !! internalPropertyName with
    | Some propertyElement =>
        let! e := getElement propertyElement in
        match data e with
        | PropertyD _ g s =>
            if decide (kind e = ElementKind.PROPERTY) then
              if bool_decide (is_Some (if isGetter then g else s)) then ret (Return tt)
              else ret (Continue (propertyElement, false))
            else ret (Return tt)
        | _ => ret (Return tt)
        end
    | None =>
        let! propertyElement :=
          alloc (newProperty simpleName internalPropertyName classPrototype) in
        ret (Continue (propertyElement, true))
    end in
  match existing with
  | Return _ => error DiagnosticCode.Duplicate_identifier_0 [internalPropertyName]
  | Continue (propertyElement, isNew) =>
      let! decoratorFlags :=
        match fn_decorators declaration with
        | Some ds => filterDecorators ds DecoratorFlags.INLINE
        | None => ret DecoratorFlags.NONE
        end in
      let baseName := (if isGetter then GETTER_PREFIX else SETTER_PREFIX) +:+ simpleName in
      let! cpe := getElement classPrototype in
      if flags_is (fn_flags declaration) CommonFlags.STATIC then
        let staticName := internalName cpe +:+ STATIC_DELIMITER +:+ baseName in
        let! lookup := gets elementsLookup in
        if hasKey lookup staticName then
          error DiagnosticCode.Duplicate_identifier_0 [staticName]
        else
          let! staticPrototype :=
            alloc (newFunctionPrototype baseName staticName declaration None
                     decoratorFlags) in
          do! (if isGetter then setGetterPrototype propertyElement staticPrototype
               else setSetterPrototype propertyElement staticPrototype) in
          let finish :=
            do! setElementsLookup internalPropertyName propertyElement in
            when (is_ cpe CommonFlags.MODULE_EXPORT)
              (updElement propertyElement (set_ CommonFlags.MODULE_EXPORT)) in
          if isNew then
            let duplicate :=
              match members cpe with
              | Some m => JSMap.has m simpleName
              | None => false
              end in
            if duplicate then
              error DiagnosticCode.Duplicate_identifier_0 [staticName]
            else
              do! membersSet classPrototype simpleName propertyElement in
              finish
          else
            do! assert (match members cpe with
                        | Some m => JSMap.has m simpleName
                        | None => false
                        end) in
            finish
      else
        let instanceName := internalName cpe +:+ INSTANCE_DELIMITER +:+ baseName in
        let! cp := getClassPrototype classPrototype in
        let duplicate :=
          match cp_instanceMembers cp with
          | Some m => JSMap.has m baseName
          | None => false
          end in
        if duplicate then
          error DiagnosticCode.Duplicate_identifier_0 [internalPropertyName]
        else
          do! updClassPrototype classPrototype (fun d =>
                cp_with_instanceMembers (Some (default [] (cp_instanceMembers d))) d) in
          let! instancePrototype :=
            alloc (newFunctionPrototype baseName instanceName declaration
                     (Some classPrototype) decoratorFlags) in
          do! (if isGetter then setGetterPrototype propertyElement instancePrototype
               else setSetterPrototype propertyElement instancePrototype) in
          do! updClassPrototype classPrototype (fun d =>
                cp_with_instanceMembers
                  (Some (JSMap.set (default [] (cp_instanceMembers d)) baseName propertyElement)) d) in
          do! setElementsLookup internalPropertyName propertyElement in
          when (is_ cpe CommonFlags.MODULE_EXPORT)
            (updElement propertyElement (set_ CommonFlags.MODULE_EXPORT))
  end.

(** Lines 506-629.  The queues are arrays of the caller that the method
    pushes to; they are passed in and returned. *)
Definition initializeClass (declaration : ClassDeclaration)
    (queuedExtends queuedImplements : list handle) (namespace : option handle)
    : M (list handle * list handle) :=
  let internalName := cd_fileLevelInternalName declaration in
  let! lookup := gets elementsLookup in
  if hasKey lookup internalName then
    do! error DiagnosticCode.Duplicate_identifier_0 [internalName] in
    ret (queuedExtends, queuedImplements)
  else
    let decorators := cd_decorators declaration in
    let simpleName := cd_name declaration in
    let! decoratorFlags :=
      match decorators with
      | Some ds =>
          filterDecorators ds
            (Z.lor (Z.lor DecoratorFlags.GLOBAL DecoratorFlags.SEALED)
               DecoratorFlags.UNMANAGED)
      | None => ret DecoratorFlags.NONE
      end in
    let! prototype :=
      alloc (with_namespace namespace
               (newClassPrototype simpleName internalName declaration decoratorFlags)) in
    do! setElementsLookup internalName prototype in
    let! p := getElement prototype in
    let! queuedImplements :=
      match cd_implementsTypes declaration with
      | Some implementsTypes =>
          let numImplementsTypes := length implementsTypes in
          if hasDecorator p DecoratorFlags.UNMANAGED then
            do! when (negb (bool_decide (numImplementsTypes = 0%nat)))
                  (error DiagnosticCode.Unmanaged_classes_cannot_implement_interfaces []) in
            ret queuedImplements
          else if negb (bool_decide (numImplementsTypes = 0%nat)) then
            ret (queuedImplements ++ [prototype])%list
          else ret queuedImplements
      | None => ret queuedImplements
      end in
    let queuedExtends :=
      if bool_decide (is_Some (cd_extendsType declaration))
      then (queuedExtends ++ [prototype])%list else queuedExtends in
    let! registered :=
      match namespace with
      | Some ns =>
          let! nse := getElement ns in
          let duplicate :=
            match members nse with
            | Some m => JSMap.has m simpleName
            | None => false
            end in
          if duplicate then
            do! error DiagnosticCode.Duplicate_identifier_0 [internalName] in
            ret false
          else
            do! membersSet ns simpleName prototype in
            do! when (is_ nse CommonFlags.MODULE_EXPORT && is_ p CommonFlags.EXPORT)
                  (updElement prototype (set_ CommonFlags.MODULE_EXPORT)) in
            ret true
      | None =>
          if is_ p CommonFlags.EXPORT then
            let! exports := gets fileLevelExports in
            if hasKey exports internalName then
              do! error DiagnosticCode.Export_declaration_conflicts_with_exported_declaration_of_0
                    [internalName] in
              ret false
            else
              do! setFileLevelExports internalName prototype in
              if is_ p CommonFlags.EXPORT && isEntry (cd_source declaration) then
                let! moduleExports := gets moduleLevelExports in
                if hasKey moduleExports internalName then
                  do! error DiagnosticCode.Export_declaration_conflicts_with_exported_declaration_of_0
                        [internalName] in
                  ret false
                else
                  do! updElement prototype (set_ CommonFlags.MODULE_EXPORT) in
                  do! setModuleLevelExports internalName prototype in
                  ret true
              else ret true
          else ret true
      end in
    if registered then
      do! forEach (cd_members declaration) (fun memberDeclaration =>
            match memberDeclaration with
            | FieldMember d => initializeField d prototype
            | MethodMember d =>
                if flags_isAny (fn_flags d) (Z.lor CommonFlags.GET CommonFlags.SET)
                then initializeAccessor d prototype
                else initializeMethod d prototype
            | OtherMember => throw (Error "class member expected")
            end) in
      do! checkGlobalOptions prototype (cd_name declaration)
            (cd_source declaration) (cd_ancestors declaration) in
      ret (queuedExtends, queuedImplements)
    else ret (queuedExtends, queuedImplements).

(** Lines 1063-1080. *)
Definition setExportAndCheckLibrary (name : string) (element : handle)
    (identifier : IdentifierExpression) : M unit :=
  do! setFileLevelExports name element in
  if isLibrary (id_source identifier) then
    let! lookup := gets elementsLookup in
    if hasKey lookup (text identifier) then
      error DiagnosticCode.Export_declaration_conflicts_with_exported_declaration_of_0
        [text identifier]
    else
      do! updElement element (with_internalName (text identifier)) in
      setElementsLookup (text identifier) element
  else ret tt.

(** The [while] loop of lines 1143-1170, which walks the queued exports known
    so far.  A queued export is stored under one key only, so the set [seen]
    of objects is the list of keys they were fetched by.  The result is
    [Return] when the export was set and the method returns, and [Continue]
    with the last referenced name when the loop is left. *)
Fixpoint walkQueuedExports (fuel : nat) (externalName : string)
    (member : ExportMember) (queuedExports : list (string * QueuedExport))
    (referencedName : string) (seen : list string) : M (Step string unit) :=
  match fuel with
  | O => outOfFuel
  | S fuel' =>
      match JSMap.get queuedExports referencedName with
      | None => ret (Continue referencedName)
      | Some queuedExport =>
          if qe_isReExport queuedExport then
            let! exports := gets fileLevelExports in
            match exports !! qe_referencedName queuedExport with
            | Some referencedElement =>
                do! setExportAndCheckLibrary externalName referencedElement
                      (em_externalName member) in
                ret (Return tt)
            | None =>
                if bool_decide (referencedName ∈ seen) then
                  ret (Continue (qe_referencedName queuedExport))
                else
                  walkQueuedExports fuel' externalName member queuedExports
                    (qe_referencedName queuedExport) (referencedName :: seen)
            end
          else
            let! lookup := gets elementsLookup in
            match lookup !! qe_referencedName queuedExport with
            | Some referencedElement =>
                do! setExportAndCheckLibrary externalName referencedElement
                      (em_externalName member) in
                ret (Return tt)
            | None => ret (Continue referencedName)
            end
      end
  end.

(** Lines 1082-1186; [path] is the parameter [internalPath]. *)
Definition initializeExport (member : ExportMember) (path : option string)
    (queuedExports : list (string * QueuedExport))
    : M (list (string * QueuedExport)) :=
  let externalName :=
    internalPath (em_source member) +:+ PATH_DELIMITER
      +:+ text (em_externalName member) in
  let! exports := gets fileLevelExports in
  if hasKey exports externalName then
    do! error DiagnosticCode.Export_declaration_conflicts_with_exported_declaration_of_0
          [externalName] in
    ret queuedExports
  else
    let queue (isReExport : bool) (referencedName : string) :=
      if JSMap.has queuedExports externalName then
        do! error DiagnosticCode.Export_declaration_conflicts_with_exported_declaration_of_0
              [externalName] in
        ret queuedExports
      else
        ret (JSMap.set queuedExports externalName
               {| qe_isReExport := isReExport;
                  qe_referencedName := referencedName;
                  qe_member := member |}) in
    let! lookup := gets elementsLookup in
    match path with
    | None =>
        let referencedName :=
          internalPath (em_source member) +:+ PATH_DELIMITER
            +:+ text (em_name member) in
        match lookup !! referencedName with
        | Some referencedElement =>
            do! setExportAndCheckLibrary externalName referencedElement
                  (em_externalName member) in
            ret queuedExports
        | None => queue false referencedName
        end
    | Some path =>
        let referencedName :=
          path +:+ PATH_DELIMITER +:+ text (em_name member) in
        match lookup !! referencedName with
        | Some referencedElement =>
            do! setExportAndCheckLibrary externalName referencedElement
                  (em_externalName member) in
            ret queuedExports
        | None =>
            let! walked :=
              walkQueuedExports (S (S (length queuedExports))) externalName
                member queuedExports referencedName [] in
            match walked with
            | Return _ => ret queuedExports
            | Continue referencedName => queue true referencedName
            end
        end
    end.

(** Lines 1053-1061. *)
Definition initializeExports (statement : ExportStatement)
    (queuedExports : list (string * QueuedExport))
    : M (list (string * QueuedExport)) :=
  foldM (fun queuedExports member =>
           initializeExport member (es_internalPath statement) queuedExports)
    queuedExports (es_members statement).

(** Lines 1188-1257. *)
Definition initializeFunction (declaration : FunctionDeclaration)
    (namespace : option handle) : M unit :=
  let internalName := fn_fileLevelInternalName declaration in
  let! lookup := gets elementsLookup in
  if hasKey lookup internalName then
    error DiagnosticCode.Duplicate_identifier_0 [internalName]
  else
    let simpleName := fn_name declaration in
    let! decoratorFlags :=
      match fn_decorators declaration with
      | Some ds =>
          filterDecorators ds (Z.lor DecoratorFlags.GLOBAL DecoratorFlags.INLINE)
      | None => ret DecoratorFlags.NONE
      end in
    let! prototype :=
      alloc (with_namespace namespace
               (newFunctionPrototype simpleName internalName declaration None
                  decoratorFlags)) in
    do! setElementsLookup internalName prototype in
    let! p := getElement prototype in
    let! registered :=
      match namespace with
      | Some ns =>
          let! nse := getElement ns in
          let duplicate :=
            match members nse with
            | Some m => JSMap.has m simpleName
            | None => false
            end in
          if duplicate then
            do! error DiagnosticCode.Duplicate_identifier_0 [internalName] in
            ret false
          else
            do! membersSet ns simpleName prototype in
            do! when (is_ nse CommonFlags.MODULE_EXPORT && is_ p CommonFlags.EXPORT)
                  (updElement prototype (set_ CommonFlags.MODULE_EXPORT)) in
            ret true
      | None =>
          if is_ p CommonFlags.EXPORT then
            let! exports := gets fileLevelExports in
            if hasKey exports internalName then
              do! error DiagnosticCode.Export_declaration_conflicts_with_exported_declaration_of_0
                    [internalName] in
              ret false
            else
              do! setFileLevelExports internalName prototype in
              if isEntry (fn_source declaration) then
                let! moduleExports := gets moduleLevelExports in
                if hasKey moduleExports internalName then
                  do! error DiagnosticCode.Duplicate_identifier_0 [internalName] in
                  ret false
                else
                  do! updElement prototype (set_ CommonFlags.MODULE_EXPORT) in
                  do! setModuleLevelExports internalName prototype in
                  ret true
              else ret true
          else ret true
      end in
    if registered then
      checkGlobalOptions prototype (fn_name declaration)
        (fn_source declaration) (fn_ancestors declaration)
    else ret tt.

(** [String.prototype.endsWith]. *)
Definition endsWith (s suffix : string) : bool :=
  (String.length suffix <=? String.length s)%nat
  && String.eqb
       (String.substring (String.length s - String.length suffix)
          (String.length suffix) s)
       suffix.

(** Lines 1294-1339; [path] is the parameter [internalPath] and [importPath]
    the [path.value] of the enclosing import statement, kept for the
    diagnostic of the drain phase. *)
Definition initializeImport (declaration : ImportDeclaration) (path : string)
    (importPath : string) (queuedImports : list QueuedImport)
    : M (list QueuedImport) :=
  let internalName := id_fileLevelInternalName declaration in
  let! lookup := gets elementsLookup in
  if hasKey lookup internalName then
    do! error DiagnosticCode.Duplicate_identifier_0 [internalName] in
    ret queuedImports
  else
    let referencedName :=
      path +:+ PATH_DELIMITER +:+ text (id_externalName declaration) in
    let! exports := gets fileLevelExports in
    match exports !! referencedName with
    | Some element =>
        do! setElementsLookup internalName element in
        ret queuedImports
    | None =>
        let indexPart := PATH_DELIMITER +:+ "index" in
        let referencedNameAlt :=
          if endsWith path indexPart then
            String.substring 0
              (String.length path - String.length indexPart + 1) path
              +:+ text (id_externalName declaration)
          else
            path +:+ indexPart +:+ PATH_DELIMITER
              +:+ text (id_externalName declaration) in
        ret (queuedImports ++
               [{| qi_internalName := internalName;
                   qi_referencedName := referencedName;
                   qi_referencedNameAlt := referencedNameAlt;
                   qi_declaration := declaration;
                   qi_path := importPath |}])%list
    end.

(** Lines 1259-1292. *)
Definition initializeImports (statement : ImportStatement)
    (queuedImports : list QueuedImport) : M (list QueuedImport) :=
  match is_declarations statement with
  | Some declarations =>
      foldM (fun queuedImports declaration =>
               initializeImport declaration (is_internalPath statement)
                 (is_path statement) queuedImports)
        queuedImports declarations
  | None =>
      match is_namespaceName statement with
      | Some namespaceName =>
          let internalName :=
            internalPath (is_source statement) +:+ PATH_DELIMITER
              +:+ text namespaceName in
          let! lookup := gets elementsLookup in
          if hasKey lookup internalName then
            do! error DiagnosticCode.Duplicate_identifier_0 [internalName] in
            ret queuedImports
          else
            do! error DiagnosticCode.Operation_not_supported [] in
            ret queuedImports
      | None => ret queuedImports
      end
  end.

(** ** The resolver (program.ts, lines 1610-1790, 2539-2698 and 3115-3332)

    [resolveType], [resolveSignature], [resolveTypeArguments],
    [ClassPrototype.resolve], [ClassPrototype.resolveUsingTypeArguments] and
    [FunctionPrototype.resolve] call one another, and a program can make them
    recurse without end (a class that extends itself).  Each call takes one
    unit of fuel: the methods are written once, over the [Resolver] that the
    calls inside them go to, and [resolver fuel] ties the knot. *)

(** The running [memoryOffset] of the field layout and
    [Class.currentMemoryOffset] are declared [u32], [Field.memoryOffset] is
    declared [i32]: a value stored in them is taken modulo [2 ^ 32], into the
    range of the type. *)
Definition u32 (z : Z) : Z := z mod 2 ^ 32.
Definition i32 (z : Z) : Z := (z + 2 ^ 31) mod 2 ^ 32 - 2 ^ 31.

(** The [switch (fieldType.byteSize)] of lines 3224-3239 on the [u32] running
    offset: the aligned offset, or [None] where the source reaches
    [assert(false)]. *)
Definition alignMemoryOffset (memoryOffset byteSize : Z) : option Z :=
  if byteSize =? 1 then Some memoryOffset
  else if byteSize =? 2 then
    Some (if negb (Z.land memoryOffset 1 =? 0) then u32 (memoryOffset + 1)
          else memoryOffset)
  else if byteSize =? 4 then
    Some (if negb (Z.land memoryOffset 3 =? 0)
          then u32 (Z.lor memoryOffset 3 + 1) else memoryOffset)
  else if byteSize =? 8 then
    Some (if negb (Z.land memoryOffset 7 =? 0)
          then u32 (Z.lor memoryOffset 7 + 1) else memoryOffset)
  else None.

Definition ContextualTypeArguments : Type := gmap string Type_.

Record Resolver : Type := {
  r_resolveSignature :
    SignatureNode → option (gmap string Type_) → bool → M (option Signature);
  r_resolveType :
    CommonTypeNode → option (gmap string Type_) → bool → M (option Type_);
  r_resolveTypeArguments :
    list TypeParameterNode → option (list CommonTypeNode) →
    option (gmap string Type_) → option NodeKind.t → M (option (list Type_));
  r_classResolve :
    handle → option (list Type_) → option (gmap string Type_) → M (option handle);
  r_classResolveUsingTypeArguments :
    handle → option (list CommonTypeNode) → option (gmap string Type_) →
    option NodeKind.t → M (option handle);
  r_functionResolve :
    handle → option (list Type_) → option (gmap string Type_) → M (option handle)
}.

(** [contextualTypeArguments.set(typeParameters[i].name.text, typeArguments[i])]
    for every [i]. *)
Definition bindTypeParameters (typeParameters : list TypeParameterNode)
    (typeArguments : list Type_) (m : gmap string Type_) : gmap string Type_ :=
  foldl (fun m '(p, a) => <[tp_name p := a]> m) m (zip typeParameters typeArguments).

Section Resolver.

(** [typesToString] of types.ts, which is not among the sources: the
    canonical key of a list of type arguments. *)
Variable typesToString : list Type_ → string.

Definition instanceKeyOf (typeArguments : option (list Type_)) : string :=
  match typeArguments with
  | Some a => typesToString a
  | None => ""
  end.

(** One parameter of the loop of lines 1632-1653.  The loop carries [i], the
    two arrays, [requiredParameters] and [hasRest]; [Return] is a
    [return null] from [resolveSignature]. *)
Definition resolveSignatureParameter (r : Resolver)
    (contextualTypeArguments : option (gmap string Type_)) (reportNotFound : bool)
    (numParameters : Z) (state : Z * list Type_ * list string * Z * bool)
    (parameterTypeNode : ParameterNode)
    : M (Step (Z * list Type_ * list string * Z * bool) unit) :=
  let '(i, parameterTypes, parameterNames, requiredParameters, hasRest) := state in
  let! '(requiredParameters, hasRest) :=
    match pn_parameterKind parameterTypeNode with
    | ParameterKind.DEFAULT => ret (i + 1, hasRest)
    | ParameterKind.REST =>
        do! assert (i =? numParameters) in
        ret (requiredParameters, true)
    | ParameterKind.OPTIONAL => ret (requiredParameters, hasRest)
    end in
  let! typeNode := assertSome (pn_type parameterTypeNode) in
  let! parameterType :=
    r_resolveType r typeNode contextualTypeArguments reportNotFound in
  match parameterType with
  | None => ret (Return tt)
  | Some parameterType =>
      ret (Continue (i + 1, (parameterTypes ++ [parameterType])%list,
                     (parameterNames ++ [pn_name parameterTypeNode])%list,
                     requiredParameters, hasRest))
  end.

(** Lines 1610-1671. *)
Definition resolveSignature_body (r : Resolver) (node : SignatureNode)
    (contextualTypeArguments : option (gmap string Type_)) (reportNotFound : bool)
    : M (option Signature) :=
  let! thisType :=
    match sn_explicitThisType node with
    | Some explicitThisType =>
        let! t := r_resolveType r explicitThisType contextualTypeArguments
                    reportNotFound in
        match t with
        | Some t => ret (Continue (Some t))
        | None => ret (Return tt)
        end
    | None => ret (Continue None)
    end in
  match thisType with
  | Return _ => ret None
  | Continue thisType =>
      let parameterTypeNodes := sn_parameterTypes node in
      let numParameters := Z.of_nat (length parameterTypeNodes) in
      let! params :=
        forLoop (resolveSignatureParameter r contextualTypeArguments
                   reportNotFound numParameters)
          (0, [], [], 0, false) parameterTypeNodes in
      match params with
      | Return _ => ret None
      | Continue (_, parameterTypes, parameterNames, requiredParameters, hasRest) =>
          let! returnType :=
            match sn_returnType node with
            | Some returnTypeNode =>
                r_resolveType r returnTypeNode contextualTypeArguments reportNotFound
            | None => ret (Some Ty.void)
            end in
          match returnType with
          | None => ret None
          | Some returnType =>
              ret (Some (mkSignature parameterTypes parameterNames
                           requiredParameters hasRest returnType thisType))
          end
      end
  end.

(** Lines 1751-1790. *)
Definition resolveTypeArguments_body (r : Resolver)
    (typeParameters : list TypeParameterNode)
    (typeArgumentNodes : option (list CommonTypeNode))
    (contextualTypeArguments : option (gmap string Type_))
    (alternativeReportNode : option NodeKind.t) : M (option (list Type_)) :=
  let parameterCount := length typeParameters in
  let argumentCount :=
    match typeArgumentNodes with
    | Some nodes => length nodes
    | None => 0%nat
    end in
  if negb (bool_decide (parameterCount = argumentCount)) then
    do! (if negb (bool_decide (argumentCount = 0%nat)) then
           error DiagnosticCode.Expected_0_type_arguments_but_got_1
             [pretty (N.of_nat parameterCount); pretty (N.of_nat argumentCount)]
         else if bool_decide (is_Some alternativeReportNode) then
           error DiagnosticCode.Expected_0_type_arguments_but_got_1
             [pretty (N.of_nat parameterCount); "0"]
         else ret tt) in
    ret None
  else
    let! types :=
      forLoop (fun typeArguments node =>
        let! type := r_resolveType r node contextualTypeArguments true in
        match type with
        | None => ret (Return tt)
        | Some type => ret (Continue (typeArguments ++ [type])%list)
        end)
        [] (default [] typeArgumentNodes) in
    match types with
    | Return _ => ret None
    | Continue typeArguments => ret (Some typeArguments)
    end.

(** Lines 1673-1749. *)
Definition resolveType_body (r : Resolver) (node : CommonTypeNode)
    (contextualTypeArguments : option (gmap string Type_)) (reportNotFound : bool)
    : M (option Type_) :=
  match node with
  | SignatureNodeT signatureNode =>
      let! signature :=
        r_resolveSignature r signatureNode contextualTypeArguments reportNotFound in
      match signature with
      | None => ret None
      | Some signature => ret (Some (Ty.asFunction Ty.u32 signature))
      end
  | TypeNode simpleName typeArguments source =>
      let globalName := simpleName in
      let localName := internalPath source +:+ PATH_DELIMITER +:+ simpleName in
      let! lookup := gets elementsLookup in
      let element :=
        match lookup !! localName with
        | Some e => Some e
        | None => lookup !! globalName
        end in
      let! classPrototype :=
        match element with
        | Some element =>
            let! e := getElement element in
            if decide (kind e = ElementKind.CLASS_PROTOTYPE)
            then ret (Some element) else ret None
        | None => ret None
        end in
      match classPrototype with
      | Some classPrototype =>
          let! instance :=
            r_classResolveUsingTypeArguments r classPrototype typeArguments
              contextualTypeArguments None in
          match instance with
          | Some instance =>
              let! c := getClass instance in
              ret (Some (c_type c))
          | None => ret None
          end
      | None =>
          let! aliases := gets typeAliases in
          match aliases !! simpleName with
          | Some alias =>
              r_resolveType r (ta_type alias) contextualTypeArguments reportNotFound
          | None =>
              let! names :=
                match typeArguments with
                | Some typeArguments =>
                    let! paramTypes :=
                      forLoop (fun paramTypes typeArgument =>
                        let! paramType :=
                          r_resolveType r typeArgument contextualTypeArguments
                            reportNotFound in
                        match paramType with
                        | None => ret (Return (None : option Type_))
                        | Some paramType =>
                            ret (Continue (paramTypes ++ [paramType])%list)
                        end)
                        [] typeArguments in
                    match paramTypes with
                    | Return res => ret (Return res)
                    | Continue paramTypes =>
                        if negb (bool_decide (length typeArguments = 0%nat)) then
                          let instanceKey := typesToString paramTypes in
                          if negb (bool_decide (String.length instanceKey = 0%nat)) then
                            ret (Continue (localName +:+ "<" +:+ instanceKey +:+ ">",
                                           globalName +:+ "<" +:+ instanceKey +:+ ">"))
                          else ret (Continue (localName, globalName))
                        else
                          match contextualTypeArguments with
                          | Some contextualTypeArguments =>
                              match contextualTypeArguments !! globalName with
                              | Some placeholderType =>
                                  ret (Return (Some placeholderType))
                              | None => ret (Continue (localName, globalName))
                              end
                          | None => ret (Continue (localName, globalName))
                          end
                    end
                | None => ret (Continue (localName, globalName))
                end in
              match names with
              | Return res => ret res
              | Continue (localName, globalName) =>
                  let! types := gets typesLookup in
                  match types !! localName with
                  | Some type => ret (Some type)
                  | None =>
                      match types !! globalName with
                      | Some type => ret (Some type)
                      | None =>
                          do! when reportNotFound
                                (error DiagnosticCode.Cannot_find_name_0 [globalName]) in
                          ret None
                      end
                  end
              end
          end
      end
  end.

(** The constructor of [Class] (lines 3361-3407).  [this] is the handle the
    new object gets. *)
Definition newClass (prototype : handle) (simpleName internalName : string)
    (typeArguments : option (list Type_)) (base : option handle) : M handle :=
  let! p := getElement prototype in
  let! pd := getClassPrototype prototype in
  let! usizeType := gets (fun s => usizeType (options s)) in
  let! this := gets (fun s => length (heap s)) in
  let! inherited :=
    match base with
    | Some base =>
        let! b := getClass base in
        ret (c_contextualTypeArguments b)
    | None => ret None
    end in
  let typeParameters := cd_typeParameters (cp_declaration pd) in
  let! contextualTypeArguments :=
    match typeArguments with
    | Some typeArguments =>
        if negb (bool_decide (length typeArguments = length typeParameters)) then
          throw (Error "type argument count mismatch")
        else if negb (bool_decide (length typeArguments = 0%nat)) then
          ret (Some (bindTypeParameters typeParameters typeArguments
                       (default ∅ inherited)))
        else ret inherited
    | None =>
        if negb (bool_decide (length typeParameters = 0%nat)) then
          throw (Error "type argument count mismatch")
        else ret inherited
    end in
  alloc
    (with_decoratorFlags (decoratorFlags p)
       (with_flags (flags p)
          (newElement ElementKind.CLASS simpleName internalName
             (ClassD
                {| c_prototype := prototype;
                   c_typeArguments := typeArguments;
                   c_type := Ty.asClass usizeType this;
                   c_base := base;
                   c_contextualTypeArguments := contextualTypeArguments;
                   c_currentMemoryOffset := 0;
                   c_constructorInstance := None;
                   c_overloads := None |})))).

(** The constructor of [Field] (lines 3046-3057); [memoryOffset] starts at
    [-1]. *)
Definition newField (prototype : handle) (internalName : string) (type : Type_)
    : M handle :=
  let! p := getElement prototype in
  alloc (with_flags (flags p)
           (newElement ElementKind.FIELD (simpleName p) internalName
              (FieldD prototype type (-1)))).

(** [field.memoryOffset = memoryOffset]. *)
Definition setMemoryOffset (field : handle) (memoryOffset : Z) : M unit :=
  let! e := getElement field in
  match data e with
  | FieldD prototype type _ =>
      updElement field (with_data (FieldD prototype type memoryOffset))
  | _ => throw TypeError
  end.

(** The constructor of [Function] (lines 2762-2819), without the flow. *)
Definition newFunction (prototype : handle) (internalName : string)
    (signature : Signature) (memberOf : option handle)
    (contextualTypeArguments : option (gmap string Type_)) : M handle :=
  let! p := getElement prototype in
  let! '(locals, contextualTypeArguments) :=
    if negb (is_ p (Z.lor CommonFlags.AMBIENT CommonFlags.BUILTIN)
             || is_ p CommonFlags.DECLARE) then
      let! memberOfClass :=
        match memberOf with
        | Some m =>
            let! me := getElement m in
            if decide (kind me = ElementKind.CLASS) then ret (Some m) else ret None
        | None => ret None
        end in
      let! '(localIndex, locals, contextualTypeArguments) :=
        match memberOfClass with
        | Some m =>
            do! assert (is_ p CommonFlags.INSTANCE) in
            let! thisType := assertSome (sig_thisType signature) in
            let! c := getClass m in
            let contextualTypeArguments :=
              match c_contextualTypeArguments c with
              | Some inherited =>
                  Some (default ∅ contextualTypeArguments ∪ inherited)
              | None => contextualTypeArguments
              end in
            ret (1, [("this", (0, thisType))], contextualTypeArguments)
        | None =>
            do! assert (negb (is_ p CommonFlags.INSTANCE)) in
            ret (0, [], contextualTypeArguments)
        end in
      let '(_, locals) :=
        foldl (fun '(index, locals) '(parameterName, parameterType) =>
                 (index + 1, JSMap.set locals parameterName (index, parameterType)))
          (localIndex, locals)
          (zip (sig_parameterNames signature) (sig_parameterTypes signature)) in
      ret (locals, contextualTypeArguments)
    else ret ([], contextualTypeArguments) in
  alloc
    (with_decoratorFlags (decoratorFlags p)
       (with_flags (flags p)
          (newElement ElementKind.FUNCTION (simpleName p) internalName
             (FunctionD
                {| f_prototype := prototype;
                   f_signature := signature;
                   f_memberOf := memberOf;
                   f_locals := locals;
                   f_contextualTypeArguments := contextualTypeArguments |})))).

(** [FunctionPrototype.resolvePartial] (lines 2657-2678). *)
Definition resolvePartial (this : handle) (classTypeArguments : option (list Type_))
    : M (option handle) :=
  let! p := getElement this in
  let! pd := getFunctionPrototype this in
  do! assert (is_ p CommonFlags.INSTANCE) in
  let! classPrototype := assertSome (fp_classPrototype pd) in
  match classTypeArguments with
  | Some (_ :: _ as typeArguments) =>
      let simpleName := simpleName p in
      let partialKey := typesToString typeArguments in
      let! cp := getElement classPrototype in
      let! partialPrototype :=
        alloc (newFunctionPrototype simpleName
                 (internalName cp +:+ "<" +:+ partialKey +:+ ">"
                    +:+ INSTANCE_DELIMITER +:+ simpleName)
                 (fp_declaration pd) (Some classPrototype) (decoratorFlags p)) in
      do! updElement partialPrototype (with_flags (flags p)) in
      do! updFunctionPrototype partialPrototype
            (fun d => fp_with_classTypeArguments classTypeArguments
                        (fp_with_operatorKind (fp_operatorKind pd) d)) in
      ret (Some partialPrototype)
  | _ => ret (Some this)
  end.

(** [FunctionPrototype.resolve] (lines 2539-2655). *)
Definition functionResolve_body (r : Resolver) (this : handle)
    (functionTypeArguments : option (list Type_))
    (contextualTypeArguments : option (gmap string Type_)) : M (option handle) :=
  let instanceKey := instanceKeyOf functionTypeArguments in
  let! pd := getFunctionPrototype this in
  match fp_instances pd !! instanceKey with
  | Some instance => ret (Some instance)
  | None =>
      let! p := getElement this in
      let declaration := fp_declaration pd in
      let isInstance := is_ p CommonFlags.INSTANCE in
      let classPrototype := fp_classPrototype pd in
      let contextualTypeArguments := default ∅ contextualTypeArguments in
      let classTypeArguments := fp_classTypeArguments pd in
      let! contextualTypeArguments :=
        match classTypeArguments with
        | Some typeArguments =>
            do! assert (is_ p CommonFlags.INSTANCE) in
            let! classPrototype := assertSome classPrototype in
            let! cpd := getClassPrototype classPrototype in
            let classTypeParameters := cd_typeParameters (cp_declaration cpd) in
            do! assert (bool_decide (length classTypeParameters = length typeArguments)) in
            ret (bindTypeParameters classTypeParameters typeArguments
                   contextualTypeArguments)
        | None => ret contextualTypeArguments
        end in
      let signatureNode := fn_signature declaration in
      let functionTypeParameters := fn_typeParameters declaration in
      let! contextualTypeArguments :=
        match functionTypeArguments with
        | Some (_ :: _ as typeArguments) =>
            do! assert (match functionTypeParameters with
                        | Some ps => bool_decide (length typeArguments = length ps)
                        | None => false
                        end) in
            ret (bindTypeParameters (default [] functionTypeParameters)
                   typeArguments contextualTypeArguments)
        | _ =>
            do! assert (match functionTypeParameters with
                        | Some ps => bool_decide (length ps = 0%nat)
                        | None => true
                        end) in
            ret contextualTypeArguments
        end in
      let! resolvedClass :=
        if isInstance then
          let! classPrototype := assertSome classPrototype in
          let! classInstance :=
            r_classResolve r classPrototype classTypeArguments
              (Some contextualTypeArguments) in
          match classInstance with
          | None => ret (Return tt)
          | Some classInstance =>
              let! c := getClass classInstance in
              let thisType := Ty.asThis (c_type c) in
              ret (Continue (Some classInstance, Some thisType,
                             <["this" := thisType]> contextualTypeArguments))
          end
        else ret (Continue (None, None, contextualTypeArguments)) in
      match resolvedClass with
      | Return _ => ret None
      | Continue (classInstance, thisType, contextualTypeArguments) =>
          let! params :=
            forLoop (fun '(i, parameterTypes, parameterNames, requiredParameters)
                         parameterDeclaration =>
              let requiredParameters :=
                if decide (pn_parameterKind parameterDeclaration = ParameterKind.DEFAULT)
                then i + 1 else requiredParameters in
              let! typeNode := assertSome (pn_type parameterDeclaration) in
              let! parameterType :=
                r_resolveType r typeNode (Some contextualTypeArguments) true in
              match parameterType with
              | None => ret (Return tt)
              | Some parameterType =>
                  ret (Continue (i + 1, (parameterTypes ++ [parameterType])%list,
                                 (parameterNames ++ [pn_name parameterDeclaration])%list,
                                 requiredParameters))
              end)
              (0, [], [], 0) (sn_parameterTypes signatureNode) in
          match params with
          | Return _ => ret None
          | Continue (_, parameterTypes, parameterNames, requiredParameters) =>
              let! returnType :=
                if is_ p CommonFlags.SET then ret (Some Ty.void)
                else if is_ p CommonFlags.CONSTRUCTOR then
                  let! classInstance := assertSome classInstance in
                  let! c := getClass classInstance in
                  ret (Some (c_type c))
                else
                  let! typeNode := assertSome (sn_returnType signatureNode) in
                  r_resolveType r typeNode (Some contextualTypeArguments) true in
              match returnType with
              | None => ret None
              | Some returnType =>
                  let signature :=
                    mkSignature parameterTypes parameterNames requiredParameters
                      false returnType thisType in
                  let! p := getElement this in
                  let internalName :=
                    if negb (bool_decide (String.length instanceKey = 0%nat))
                    then internalName p +:+ "<" +:+ instanceKey +:+ ">"
                    else internalName p in
                  let! instance :=
                    newFunction this internalName signature
                      (match classInstance with
                       | Some c => Some c
                       | None => classPrototype
                       end)
                      (Some contextualTypeArguments) in
                  do! updFunctionPrototype this (fun d =>
                        fp_with_instances (<[instanceKey := instance]> (fp_instances d)) d) in
                  ret (Some instance)
              end
          end
      end
  end.

(** [instance.members.set(name, element)], creating the map if there is
    none. *)
Definition instanceMembersSet (instance : handle) (name : string)
    (element : handle) : M unit :=
  membersSet instance name element.

(** One instance member of the loop of lines 3203-3288.  The loop carries the
    running [memoryOffset]; [Return] is a [return null] from [resolve]. *)
Definition resolveInstanceMember (r : Resolver) (this instance : handle)
    (internalName : string) (typeArguments : option (list Type_))
    (memoryOffset : Z) (member : handle) : M (Step Z (option handle)) :=
  let! m := getElement member in
  match kind m with
  | ElementKind.FIELD_PROTOTYPE =>
      do! updElement instance (fun e => with_members (Some (default [] (members e))) e) in
      match data m with
      | FieldPrototypeD fieldDeclaration _ =>
          match fd_type fieldDeclaration with
          | None => throw (Error "type expected")
          | Some typeNode =>
              let! c := getClass instance in
              let! fieldType :=
                r_resolveType r typeNode (c_contextualTypeArguments c) true in
              match fieldType with
              | Some fieldType =>
                  let! fieldInstance :=
                    newField member
                      (internalName +:+ INSTANCE_DELIMITER +:+ simpleName m)
                      fieldType in
                  match alignMemoryOffset memoryOffset (byteSize fieldType) with
                  | None => throw AssertionError
                  | Some memoryOffset =>
                      do! setMemoryOffset fieldInstance (i32 memoryOffset) in
                      let memoryOffset := u32 (memoryOffset + byteSize fieldType) in
                      do! instanceMembersSet instance (simpleName m) fieldInstance in
                      ret (Continue memoryOffset)
                  end
              | None => ret (Continue memoryOffset)
              end
          end
      | _ => throw TypeError
      end
  | ElementKind.FUNCTION_PROTOTYPE =>
      do! updElement instance (fun e => with_members (Some (default [] (members e))) e) in
      let! partialPrototype := resolvePartial member typeArguments in
      match partialPrototype with
      | Some partialPrototype =>
          let! pp := getElement partialPrototype in
          do! updElement partialPrototype
                (with_internalName
                   (internalName +:+ INSTANCE_DELIMITER +:+ simpleName pp)) in
          do! instanceMembersSet instance (simpleName m) partialPrototype in
          ret (Continue memoryOffset)
      | None => ret (Continue memoryOffset)
      end
  | ElementKind.PROPERTY =>
      do! updElement instance (fun e => with_members (Some (default [] (members e))) e) in
      let! '(_, getterPrototype, setterPrototype) := getProperty member in
      let! getterPrototype := assertSome getterPrototype in
      let! instanceProperty :=
        alloc (newProperty (simpleName m)
                 (internalName +:+ INSTANCE_DELIMITER +:+ simpleName m) this) in
      let! partialGetterPrototype := resolvePartial getterPrototype typeArguments in
      match partialGetterPrototype with
      | None => ret (Return None)
      | Some partialGetterPrototype =>
          let! pg := getElement partialGetterPrototype in
          do! updElement partialGetterPrototype
                (with_internalName
                   (internalName +:+ INSTANCE_DELIMITER +:+ simpleName pg)) in
          do! setGetterPrototype instanceProperty partialGetterPrototype in
          let! setterDone :=
            match setterPrototype with
            | Some setterPrototype =>
                let! partialSetterPrototype :=
                  resolvePartial setterPrototype typeArguments in
                match partialSetterPrototype with
                | None => ret false
                | Some partialSetterPrototype =>
                    let! ps := getElement partialSetterPrototype in
                    do! updElement partialSetterPrototype
                          (with_internalName
                             (internalName +:+ INSTANCE_DELIMITER +:+ simpleName ps)) in
                    do! setSetterPrototype instanceProperty partialSetterPrototype in
                    ret true
                end
            | None => ret true
            end in
          if setterDone then
            do! instanceMembersSet instance (simpleName m) instanceProperty in
            ret (Continue memoryOffset)
          else ret (Return None)
      end
  | _ => throw AssertionError
  end.

(** One operator overload of the loop of lines 3292-3306. *)
Definition resolveOverload (r : Resolver) (instance : handle)
    (typeArguments : option (list Type_)) (overload : OperatorKind.t * handle)
    : M unit :=
  let '(kind, prototype) := overload in
  do! assert (negb (bool_decide (kind = OperatorKind.INVALID))) in
  let! p := getElement prototype in
  let! operatorInstance :=
    if is_ p CommonFlags.INSTANCE then
      let! operatorPartial := resolvePartial prototype typeArguments in
      match operatorPartial with
      | None => ret None
      | Some operatorPartial => r_functionResolve r operatorPartial None None
      end
    else r_functionResolve r prototype None None in
  match operatorInstance with
  | None => ret tt
  | Some operatorInstance =>
      updClass instance (fun d =>
        c_with_overloads
          (Some (JSMap.set (default [] (c_overloads d)) kind operatorInstance)) d)
  end.

(** [ClassPrototype.resolve], lines 3123-3182: after a miss in the cache, the
    base class is resolved and checked, the type parameters are bound, the
    [Class] is constructed and entered into [instances].  The result is
    [Return] for a [return null], and otherwise the instance, its base and its
    internal name.  [instanceSimpleName] and [instanceInternalName] are the
    locals [simpleName] and [internalName]. *)
Definition classInstantiate (r : Resolver) (this : handle)
    (typeArguments : option (list Type_))
    (contextualTypeArguments : option (gmap string Type_))
    : M (Step (handle * option handle * string) unit) :=
  let instanceKey := instanceKeyOf typeArguments in
  let! pd := getClassPrototype this in
  let contextualTypeArguments := default ∅ contextualTypeArguments in
  let declaration := cp_declaration pd in
  let! base :=
    match cd_extendsType declaration with
    | Some extendsType =>
        let! baseClassType := r_resolveType r extendsType None true in
        match baseClassType with
        | None => ret (Return tt)
        | Some baseClassType =>
            match classReference baseClassType with
            | None =>
                do! error DiagnosticCode.A_class_may_only_extend_another_class [] in
                ret (Return tt)
            | Some baseClass =>
                let! b := getElement baseClass in
                if hasDecorator b DecoratorFlags.SEALED then
                  do! error DiagnosticCode.Class_0_is_sealed_and_cannot_be_extended
                        [internalName b] in
                  ret (Return tt)
                else
                  let! p := getElement this in
                  if negb (eqb (hasDecorator b DecoratorFlags.UNMANAGED)
                             (hasDecorator p DecoratorFlags.UNMANAGED)) then
                    do! error DiagnosticCode.Unmanaged_classes_cannot_extend_managed_classes_and_vice_versa [] in
                    ret (Return tt)
                  else ret (Continue (Some baseClass))
            end
        end
    | None => ret (Continue None)
    end in
  match base with
  | Return _ => ret (Return tt)
  | Continue baseClass =>
      let typeParameters := cd_typeParameters declaration in
      let! contextualTypeArguments :=
        match typeArguments with
        | Some typeArguments =>
            if negb (bool_decide (length typeArguments = length typeParameters))
            then throw (Error "type argument count mismatch")
            else ret (bindTypeParameters typeParameters typeArguments
                        contextualTypeArguments)
        | None =>
            if negb (bool_decide (length typeParameters = 0%nat))
            then throw (Error "type argument count mismatch")
            else ret contextualTypeArguments
        end in
      let! p := getElement this in
      let instanceSimpleName :=
        if negb (bool_decide (String.length instanceKey = 0%nat))
        then simpleName p +:+ "<" +:+ instanceKey +:+ ">" else simpleName p in
      let instanceInternalName :=
        if negb (bool_decide (String.length instanceKey = 0%nat))
        then internalName p +:+ "<" +:+ instanceKey +:+ ">" else internalName p in
      let! instance :=
        newClass this instanceSimpleName instanceInternalName typeArguments
          baseClass in
      do! updClass instance
            (c_with_contextualTypeArguments (Some contextualTypeArguments)) in
      do! updClassPrototype this (fun d =>
            cp_with_instances (<[instanceKey := instance]> (cp_instances d)) d) in
      ret (Continue (instance, baseClass, instanceInternalName))
  end.

(** [ClassPrototype.resolve], lines 3184-3309: the members of the base are
    inherited, then the constructor, the instance members and the operator
    overloads are resolved, and the size is stored. *)
Definition classResolveMembers (r : Resolver) (this instance : handle)
    (baseClass : option handle) (instanceInternalName : string)
    (typeArguments : option (list Type_)) : M (option handle) :=
  let! memoryOffset :=
    match baseClass with
    | Some baseClass =>
        let! b := getElement baseClass in
        let! bd := getClass baseClass in
        do! match members b with
            | Some baseMembers =>
                do! updElement instance
                      (fun e => with_members (Some (default [] (members e))) e) in
                forEach (JSMap.values baseMembers) (fun inheritedMember =>
                  let! im := getElement inheritedMember in
                  instanceMembersSet instance (simpleName im) inheritedMember)
            | None => ret tt
            end in
        ret (c_currentMemoryOffset bd)
    | None => ret 0
    end in
  let! pd := getClassPrototype this in
  do! match cp_constructorPrototype pd with
      | Some constructorPrototype =>
          let! partialConstructor :=
            resolvePartial constructorPrototype typeArguments in
          match partialConstructor with
          | Some partialConstructor =>
              let! constructorInstance :=
                r_functionResolve r partialConstructor None None in
              updClass instance (c_with_constructorInstance constructorInstance)
          | None => ret tt
          end
      | None => ret tt
      end in
  let! pd := getClassPrototype this in
  let! laidOut :=
    match cp_instanceMembers pd with
    | Some instanceMembers =>
        forLoop (resolveInstanceMember r this instance instanceInternalName
                   typeArguments)
          memoryOffset (JSMap.values instanceMembers)
    | None => ret (Continue memoryOffset)
    end in
  match laidOut with
  | Return res => ret res
  | Continue memoryOffset =>
      let! pd := getClassPrototype this in
      do! forEach (cp_overloadPrototypes pd)
            (resolveOverload r instance typeArguments) in
      do! updClass instance (c_with_currentMemoryOffset memoryOffset) in
      ret (Some instance)
  end.

(** [ClassPrototype.resolve] (lines 3115-3310). *)
Definition classResolve_body (r : Resolver) (this : handle)
    (typeArguments : option (list Type_))
    (contextualTypeArguments : option (gmap string Type_)) : M (option handle) :=
  let instanceKey := instanceKeyOf typeArguments in
  let! pd := getClassPrototype this in
  match cp_instances pd !! instanceKey with
  | Some instance => ret (Some instance)
  | None =>
      let! instantiated :=
        classInstantiate r this typeArguments contextualTypeArguments in
      match instantiated with
      | Return _ => ret None
      | Continue (instance, baseClass, instanceInternalName) =>
          classResolveMembers r this instance baseClass instanceInternalName
            typeArguments
      end
  end.

(** [ClassPrototype.resolveUsingTypeArguments] (lines 3312-3332). *)
Definition classResolveUsingTypeArguments_body (r : Resolver) (this : handle)
    (typeArgumentNodes : option (list CommonTypeNode))
    (contextualTypeArguments : option (gmap string Type_))
    (alternativeReportNode : option NodeKind.t) : M (option handle) :=
  let! p := getElement this in
  let! pd := getClassPrototype this in
  let nonEmpty :=
    match typeArgumentNodes with
    | Some (_ :: _) => true
    | _ => false
    end in
  if is_ p CommonFlags.GENERIC then
    do! assert nonEmpty in
    let! resolvedTypeArguments :=
      r_resolveTypeArguments r (cd_typeParameters (cp_declaration pd))
        typeArgumentNodes contextualTypeArguments alternativeReportNode in
    match resolvedTypeArguments with
    | None => ret None
    | Some resolvedTypeArguments =>
        r_classResolve r this (Some resolvedTypeArguments) contextualTypeArguments
    end
  else
    do! assert (negb nonEmpty) in
    r_classResolve r this None contextualTypeArguments.

(** [FunctionPrototype.resolveUsingTypeArguments] (lines 2680-2698). *)
Definition functionResolveUsingTypeArguments_body (r : Resolver) (this : handle)
    (typeArgumentNodes : option (list CommonTypeNode))
    (contextualTypeArguments : option (gmap string Type_))
    (reportNode : option NodeKind.t) : M (option handle) :=
  let! p := getElement this in
  let! pd := getFunctionPrototype this in
  if is_ p CommonFlags.GENERIC then
    do! assert (match typeArgumentNodes with
                | Some (_ :: _) => true
                | _ => false
                end) in
    let! typeParameters := assertSome (fn_typeParameters (fp_declaration pd)) in
    let! resolvedTypeArguments :=
      r_resolveTypeArguments r typeParameters typeArgumentNodes
        contextualTypeArguments reportNode in
    match resolvedTypeArguments with
    | None => ret None
    | Some resolvedTypeArguments =>
        r_functionResolve r this (Some resolvedTypeArguments) contextualTypeArguments
    end
  else r_functionResolve r this None contextualTypeArguments.

(** The resolver with [fuel] nested calls to spend. *)
Fixpoint resolver (fuel : nat) : Resolver :=
  match fuel with
  | O =>
      {| r_resolveSignature := fun _ _ _ => outOfFuel;
         r_resolveType := fun _ _ _ => outOfFuel;
         r_resolveTypeArguments := fun _ _ _ _ => outOfFuel;
         r_classResolve := fun _ _ _ => outOfFuel;
         r_classResolveUsingTypeArguments := fun _ _ _ _ => outOfFuel;
         r_functionResolve := fun _ _ _ => outOfFuel |}
  | S fuel' =>
      let r := resolver fuel' in
      {| r_resolveSignature := resolveSignature_body r;
         r_resolveType := resolveType_body r;
         r_resolveTypeArguments := resolveTypeArguments_body r;
         r_classResolve := classResolve_body r;
         r_classResolveUsingTypeArguments := classResolveUsingTypeArguments_body r;
         r_functionResolve := functionResolve_body r |}
  end.

Definition resolveSignature (fuel : nat) := r_resolveSignature (resolver fuel).
Definition resolveType (fuel : nat) := r_resolveType (resolver fuel).
Definition resolveTypeArguments (fuel : nat) := r_resolveTypeArguments (resolver fuel).
Definition classResolve (fuel : nat) := r_classResolve (resolver fuel).
Definition classResolveUsingTypeArguments (fuel : nat) :=
  r_classResolveUsingTypeArguments (resolver fuel).
Definition functionResolve (fuel : nat) := r_functionResolve (resolver fuel).
Definition functionResolveUsingTypeArguments (fuel : nat) :=
  functionResolveUsingTypeArguments_body (resolver fuel).

End Resolver.

(** ** [Program.initialize] (lines 221-423)

    The statements of a source, as far as this model initializes them: class
    and function declarations, export and import statements.  [OtherStatement]
    is a statement of a kind the [switch] has no case for.  Enum, interface,
    namespace, type and variable declarations are not embedded. *)
Inductive Statement : Type :=
| ClassDeclarationS (declaration : ClassDeclaration)
| FunctionDeclarationS (declaration : FunctionDeclaration)
| ExportS (statement : ExportStatement)
| ImportS (statement : ImportStatement)
| OtherStatement.

(** [resolveIdentifier] (lines 1792-1869) as [initialize] calls it, without a
    contextual function or enum. *)
Definition resolveIdentifier (identifier : IdentifierExpression)
    : M (option handle) :=
  let name := text identifier in
  let! lookup := gets elementsLookup in
  match lookup !! (internalPath (id_source identifier) +:+ PATH_DELIMITER +:+ name) with
  | Some element => ret (Some element)
  | None =>
      match lookup !! name with
      | Some element => ret (Some element)
      | None =>
          do! error DiagnosticCode.Cannot_find_name_0 [name] in
          ret None
      end
  end.

Definition initialTypesLookup (options : Options) : gmap string Type_ :=
  list_to_map
    [("i8", Ty.i8); ("i16", Ty.i16); ("i32", Ty.i32); ("i64", Ty.i64);
     ("isize", isizeType options);
     ("u8", Ty.u8); ("u16", Ty.u16); ("u32", Ty.u32); ("u64", Ty.u64);
     ("usize", usizeType options);
     ("bool", Ty.bool); ("f32", Ty.f32); ("f64", Ty.f64); ("void", Ty.void);
     ("number", Ty.f64); ("boolean", Ty.bool)].

(** The queues that [initialize] keeps while it walks the statements. *)
Record Queues : Type := {
  queuedExports : list (string * QueuedExport);
  queuedImports : list QueuedImport;
  queuedExtends : list handle;
  queuedImplements : list handle
}.

(** The [switch] of lines 254-291. *)
Definition initializeStatement (q : Queues) (statement : Statement) : M Queues :=
  match statement with
  | ClassDeclarationS declaration =>
      let! '(queuedExtends, queuedImplements) :=
        initializeClass declaration (queuedExtends q) (queuedImplements q) None in
      ret {| queuedExports := queuedExports q; queuedImports := queuedImports q;
             queuedExtends := queuedExtends; queuedImplements := queuedImplements |}
  | FunctionDeclarationS declaration =>
      do! initializeFunction declaration None in
      ret q
  | ExportS statement =>
      let! queuedExports := initializeExports statement (queuedExports q) in
      ret {| queuedExports := queuedExports; queuedImports := queuedImports q;
             queuedExtends := queuedExtends q;
             queuedImplements := queuedImplements q |}
  | ImportS statement =>
      let! queuedImports := initializeImports statement (queuedImports q) in
      ret {| queuedExports := queuedExports q; queuedImports := queuedImports;
             queuedExtends := queuedExtends q;
             queuedImplements := queuedImplements q |}
  | OtherStatement => ret q
  end.

(** One queued import of the loop of lines 296-316. *)
Definition drainQueuedImport (fuel : nat)
    (queuedExports : list (string * QueuedExport)) (queuedImport : QueuedImport)
    : M unit :=
  let! element :=
    tryResolveImport fuel (qi_referencedName queuedImport) queuedExports in
  match element with
  | Some element => setElementsLookup (qi_internalName queuedImport) element
  | None =>
      let! element :=
        tryResolveImport fuel (qi_referencedNameAlt queuedImport) queuedExports in
      match element with
      | Some element => setElementsLookup (qi_internalName queuedImport) element
      | None =>
          error DiagnosticCode.Module_0_has_no_exported_member_1
            [qi_path queuedImport;
             text (id_externalName (qi_declaration queuedImport))]
      end
  end.

(** One queued export of the loop of lines 319-362: the [do ... while] that
    follows the chain from [currentExport]. *)
Fixpoint drainQueuedExport (fuel : nat) (exportName : string)
    (queuedExport : QueuedExport) (queuedExports : list (string * QueuedExport))
    (currentExport : QueuedExport) : M unit :=
  match fuel with
  | O => outOfFuel
  | S fuel' =>
      if qe_isReExport currentExport then
        let! exports := gets fileLevelExports in
        match exports !! qe_referencedName currentExport with
        | Some element =>
            setExportAndCheckLibrary exportName element
              (em_externalName (qe_member currentExport))
        | None =>
            match JSMap.get queuedExports (qe_referencedName currentExport) with
            | Some next =>
                drainQueuedExport fuel' exportName queuedExport queuedExports next
            | None =>
                let! path := deref (em_path (qe_member queuedExport)) in
                error DiagnosticCode.Module_0_has_no_exported_member_1
                  [path; text (em_externalName (qe_member queuedExport))]
            end
        end
      else
        let! lookup := gets elementsLookup in
        let element :=
          match lookup !! qe_referencedName currentExport with
          | Some e => Some e
          | None => lookup !! text (em_name (qe_member currentExport))
          end in
        match element with
        | Some element =>
            setExportAndCheckLibrary exportName element
              (em_externalName (qe_member currentExport))
        | None =>
            error DiagnosticCode.Cannot_find_name_0
              [text (em_name (qe_member queuedExport))]
        end
  end.

(** One derived class of the loop of lines 365-380. *)
Definition drainQueuedExtends (derivedPrototype : handle) : M unit :=
  let! d := getClassPrototype derivedPrototype in
  let! derivedType := assertSome (cd_extendsType (cp_declaration d)) in
  match derivedType with
  | TypeNode name _ source =>
      let! baseElement := resolveIdentifier {| text := name; id_source := source |} in
      match baseElement with
      | None => ret tt
      | Some baseElement =>
          let! b := getElement baseElement in
          if decide (kind b = ElementKind.CLASS_PROTOTYPE) then
            updClassPrototype derivedPrototype (cp_with_basePrototype (Some baseElement))
          else error DiagnosticCode.A_class_may_only_extend_another_class []
      end
  | SignatureNodeT _ => throw TypeError
  end.

(** The loop of lines 249-293 over the sources and their statements. *)
Definition initializeStatements (sources : list (list Statement)) : M Queues :=
  foldM (fun q statements => foldM initializeStatement q statements)
    {| queuedExports := []; queuedImports := [];
       queuedExtends := []; queuedImplements := [] |}
    sources.

Definition initialize (typesToString : list Type_ → string) (fuel : nat)
    (options : Options) (sources : list (list Statement)) : M unit :=
  do! modify (with_options options) in
  do! modify (with_typesLookup (initialTypesLookup options)) in
  let! q := initializeStatements sources in
  do! forEach (queuedImports q) (drainQueuedImport fuel (queuedExports q)) in
  do! forEach (queuedExports q) (fun '(exportName, queuedExport) =>
        drainQueuedExport fuel exportName queuedExport (queuedExports q) queuedExport) in
  do! forEach (queuedExtends q) drainQueuedExtends in
  do! match globalAliases options with
      | Some aliases =>
          forEach aliases (fun '(alias, name) =>
            let! lookup := gets elementsLookup in
            match lookup !! name with
            | Some element => setElementsLookup alias element
            | None => ret tt
            end)
      | None => ret tt
      end in
  let! lookup := gets elementsLookup in
  do! match lookup !! "Array" with
      | Some arrayPrototype =>
          let! e := getElement arrayPrototype in
          do! assert (bool_decide (kind e = ElementKind.CLASS_PROTOTYPE)) in
          modify (fun s => with_wellKnown (Some arrayPrototype)
                             (arrayBufferViewPrototype s) (stringInstance s) s)
      | None => ret tt
      end in
  do! match lookup !! "ArrayBufferView" with
      | Some arrayBufferViewPrototype =>
          let! e := getElement arrayBufferViewPrototype in
          do! assert (bool_decide (kind e = ElementKind.INTERFACE_PROTOTYPE)) in
          modify (fun s => with_wellKnown (arrayPrototype s)
                             (Some arrayBufferViewPrototype) (stringInstance s) s)
      | None => ret tt
      end in
  match lookup !! "String" with
  | Some stringPrototype =>
      let! e := getElement stringPrototype in
      do! assert (bool_decide (kind e = ElementKind.CLASS_PROTOTYPE)) in
      let! stringInstance := classResolve typesToString fuel stringPrototype None None in
      match stringInstance with
      | Some stringInstance =>
          let! types := gets typesLookup in
          if hasKey types "string" then
            let! d := getClassPrototype stringPrototype in
            error DiagnosticCode.Duplicate_identifier_0
              [cd_programLevelInternalName (cp_declaration d)]
          else
            let! c := getClass stringInstance in
            do! modify (fun s => with_wellKnown (arrayPrototype s)
                                   (arrayBufferViewPrototype s) (Some stringInstance) s) in
            modify (fun s => with_typesLookup (<["string" := c_type c]> (typesLookup s)) s)
      | None => ret tt
      end
  | None => ret tt
  end.

(** ** [Class.isAssignableTo] (lines 3409-3415)

    The [do ... while (current = current.base)] loop takes one unit of fuel
    per iteration. *)
Fixpoint isAssignableTo (fuel : nat) (current target : handle) : M bool :=
  match fuel with
  | O => outOfFuel
  | S fuel' =>
      if decide (current = target) then ret true
      else
        let! c := getClass current in
        match c_base c with
        | Some base => isAssignableTo fuel' base target
        | None => ret false
        end
  end.

(** ** Observations of a program state *)

Definition operatorKindOf (s : Program) (prototype : handle)
    : option OperatorKind.t :=
  match heap s !! prototype with
  | Some e =>
      match data e with
      | FunctionPrototypeD d => Some (fp_operatorKind d)
      | _ => None
      end
  | None => None
  end.

Definition overloadPrototypesOf (s : Program) (classPrototype : handle)
    : option (list (OperatorKind.t * handle)) :=
  match heap s !! classPrototype with
  | Some e =>
      match data e with
      | ClassPrototypeD d => Some (cp_overloadPrototypes d)
      | _ => None
      end
  | None => None
  end.

(** [prototype.instances.get(key)] of a class prototype, and of a function
    prototype. *)
Definition instancesOf (s : Program) (classPrototype : handle) (key : string)
    : option handle :=
  match heap s !! classPrototype with
  | Some e =>
      match data e with
      | ClassPrototypeD d => cp_instances d !! key
      | _ => None
      end
  | None => None
  end.

Definition functionInstancesOf (s : Program) (prototype : handle) (key : string)
    : option handle :=
  match heap s !! prototype with
  | Some e =>
      match data e with
      | FunctionPrototypeD d => fp_instances d !! key
      | _ => None
      end
  | None => None
  end.

(** [prototype.declaration.extendsType] of a class prototype. *)
Definition extendsTypeOf (s : Program) (classPrototype : handle)
    : option CommonTypeNode :=
  match heap s !! classPrototype with
  | Some e =>
      match data e with
      | ClassPrototypeD d => cd_extendsType (cp_declaration d)
      | _ => None
      end
  | None => None
  end.

(** The element [h] carries [@sealed] and has the internal name [name]. *)
Definition sealedAs (s : Program) (h : handle) (name : string) : Prop :=
  ∃ e, heap s !! h = Some e
       ∧ hasDecorator e DecoratorFlags.SEALED = true
       ∧ internalName e = name.

Definition functionOf (s : Program) (h : handle) : option FunctionData :=
  match heap s !! h with
  | Some e => match data e with FunctionD d => Some d | _ => None end
  | None => None
  end.

(** [element.kind]. *)
Definition kindOf (s : Program) (h : handle) : option ElementKind.t :=
  kind <$> heap s !! h.

(** The field of the source that an element of kind [FIELD] is: its
    prototype, type and [memoryOffset]. *)
Definition fieldOf (s : Program) (h : handle) : option (handle * Type_ * Z) :=
  match heap s !! h with
  | Some e =>
      match data e with
      | FieldD p t o => Some (p, t, o)
      | _ => None
      end
  | None => None
  end.

(** [element.members.get(name)]. *)
Definition memberOf (s : Program) (h : handle) (name : string) : option handle :=
  match heap s !! h with
  | Some e => members e ≫= λ m, JSMap.get m name
  | None => None
  end.

Definition classOf (s : Program) (h : handle) : option ClassData :=
  match heap s !! h with
  | Some e => match data e with ClassD d => Some d | _ => None end
  | None => None
  end.

Definition flagsOf (s : Program) (h : handle) : option Z :=
  flags <$> heap s !! h.

Definition emitted (s : Program) (c : DiagnosticCode.t) (a : list string) : Prop :=
  {| code := c; args := a |} ∈ diagnostics s.

(** The state after [error(c, a)]. *)
Definition withError (c : DiagnosticCode.t) (a : list string) (s : Program)
    : Program :=
  with_diagnostics (diagnostics s ++ [{| code := c; args := a |}])%list s.

(** A signature node that declares a rest parameter. *)
Definition hasRestParameter (node : SignatureNode) : Prop :=
  ∃ p, In p (sn_parameterTypes node) ∧ pn_parameterKind p = ParameterKind.REST.

(** [required] is the index of the last parameter of kind [DEFAULT] plus one,
    or [0] where there is none. *)
Definition lastDefaultAt (parameters : list ParameterNode) (required : Z) : Prop :=
  (required = 0
   ∧ Forall (λ p, pn_parameterKind p ≠ ParameterKind.DEFAULT) parameters)
  ∨ ∃ k p,
      parameters !! k = Some p
      ∧ pn_parameterKind p = ParameterKind.DEFAULT
      ∧ required = Z.of_nat k + 1
      ∧ ∀ j q, (k < j)%nat → parameters !! j = Some q →
               pn_parameterKind q ≠ ParameterKind.DEFAULT.

(** The base chain of a class: the class itself, its base, the base of its
    base, and so on. *)
Inductive onBaseChain (s : Program) : handle → handle → Prop :=
| onBaseChain_self c : onBaseChain s c c
| onBaseChain_base c d b t :
    classOf s c = Some d → c_base d = Some b → onBaseChain s b t →
    onBaseChain s c t.

(** A base is a class that was constructed before the class that names it:
    [base] is set by the constructor of [Class] and by nothing else. *)
Definition basesDecrease (s : Program) : Prop :=
  ∀ c d b, classOf s c = Some d → c_base d = Some b →
           (b < c)%nat ∧ is_Some (classOf s b).

Definition basesDecreaseb (s : Program) : bool :=
  forallb (fun '(c, e) =>
             match data e with
             | ClassD d =>
                 match c_base d with
                 | Some b =>
                     (b <? c)%nat
                     && match classOf s b with Some _ => true | None => false end
                 | None => true
                 end
             | _ => true
             end)
    (imap (fun c e => (c, e)) (heap s)).

(** The symbols the [switch] of [operatorKindFromString] lists, and the
    decorator [@operator("symbol")]. *)
Definition operatorSymbols : list string :=
  ["[]"; "[]="; "+"; "-"; "*"; "/"; "%"; "**"; "&"; "|"; "^";
   "=="; "!="; ">"; ">="; "<"; "<="].

Definition operatorDecorator (symbol : string) : DecoratorNode :=
  {| decoratorKind := DecoratorKind.OPERATOR;
     dn_name := Identifier "operator";
     arguments := Some [Literal LiteralKind.STRING symbol] |}.

(** The chain of re-exports from [name] ends after at most [n] links: at a
    file-level export, at a name that is not queued, or at a queued export
    that is no re-export. *)
Inductive chainEnds (s : Program) (queuedExports : list (string * QueuedExport))
    : string → nat → Prop :=
| chainEnds_export name n element :
    fileLevelExports s !! name = Some element →
    chainEnds s queuedExports name n
| chainEnds_unknown name n :
    fileLevelExports s !! name = None →
    JSMap.get queuedExports name = None →
    chainEnds s queuedExports name n
| chainEnds_local name n queuedExport :
    fileLevelExports s !! name = None →
    JSMap.get queuedExports name = Some queuedExport →
    qe_isReExport queuedExport = false →
    chainEnds s queuedExports name n
| chainEnds_link name n queuedExport :
    fileLevelExports s !! name = None →
    JSMap.get queuedExports name = Some queuedExport →
    qe_isReExport queuedExport = true →
    chainEnds s queuedExports (qe_referencedName queuedExport) n →
    chainEnds s queuedExports name (S n).

(** A set of names that the re-exports do not lead out of: each is queued as
    a re-export of another one, and none is a file-level export. *)
Definition reexportLoop (s : Program) (queuedExports : list (string * QueuedExport))
    (names : string → Prop) : Prop :=
  ∀ name, names name →
    fileLevelExports s !! name = None
    ∧ ∃ queuedExport,
        JSMap.get queuedExports name = Some queuedExport
        ∧ qe_isReExport queuedExport = true
        ∧ names (qe_referencedName queuedExport).

(** ** Invariants of a program state *)

(** The states a computation returns in are related by [R] to the states it
    starts from. *)
Definition Relates (R : Program → Program → Prop) {A} (m : M A) : Prop :=
  ∀ s a s', m s = Ret a s' → R s s'.

(** [s'] has the module-level exports and the flags of [s]. *)
Definition moduleExportsKept (s s' : Program) : Prop :=
  moduleLevelExports s' = moduleLevelExports s
  ∧ ∀ h, flagsOf s' h = flagsOf s h.

(** The two caches of instances. *)
Inductive CacheKind : Type := ClassCache | FunctionCache.

#[global] Instance CacheKind_eq_dec : EqDecision CacheKind.
Proof. solve_decision. Defined.

(** [prototype.instances.get(key) === instance], of a class prototype or of a
    function prototype. *)
Definition cached (c : CacheKind) (prototype : handle) (key : string)
    (instance : handle) (s : Program) : Prop :=
  match c with
  | ClassCache => instancesOf s prototype key = Some instance
  | FunctionCache => functionInstancesOf s prototype key = Some instance
  end.

(** [prototype.instances] as the model stores it. *)
Definition cacheOf (c : CacheKind) (e : Element) : option (gmap string handle) :=
  match c, data e with
  | ClassCache, ClassPrototypeD d => Some (cp_instances d)
  | FunctionCache, FunctionPrototypeD d => Some (fp_instances d)
  | _, _ => None
  end.

(** A computation keeps [I]: where it returns or raises from a state with
    [I], the state it leaves has [I]. *)
Definition Preserves (I : Program → Prop) {A} (m : M A) : Prop :=
  ∀ s, I s → match m s with
             | Ret _ s' | Throw _ s' => I s'
             | OutOfFuel => True
             end.

(** What a computation returns, and the state it returns in, have [Q]. *)
Definition Post {A} (m : M A) (Q : A → Program → Prop) : Prop :=
  ∀ s a s', m s = Ret a s' → Q a s'.

Record ResolverPreserves (I : Program → Prop) (r : Resolver) : Prop := {
  rp_resolveSignature :
    ∀ node ctx report, Preserves I (r_resolveSignature r node ctx report);
  rp_resolveType :
    ∀ node ctx report, Preserves I (r_resolveType r node ctx report);
  rp_resolveTypeArguments :
    ∀ ps nodes ctx alt, Preserves I (r_resolveTypeArguments r ps nodes ctx alt);
  rp_classResolve :
    ∀ this args ctx, Preserves I (r_classResolve r this args ctx);
  rp_classResolveUsingTypeArguments :
    ∀ this nodes ctx alt,
      Preserves I (r_classResolveUsingTypeArguments r this nodes ctx alt);
  rp_functionResolve :
    ∀ this args ctx, Preserves I (r_functionResolve r this args ctx)
}.

(** What an invariant of the heap reads of an element is its [view]: the
    invariant holds of a heap when it holds of one with the same views, an
    object that is no class can be allocated under it, and the assignments
    listed leave the view of the object alone. *)
Class HeapInvariant {X : Type} (I : Program → Prop) (view : Element → X)
    : Prop := {
  inv_view : ∀ s s', view <$> heap s' = view <$> heap s → I s → I s';
  inv_alloc :
    ∀ s e, (∀ d, data e ≠ ClassD d) → I s → I (with_heap (heap s ++ [e])%list s);
  view_members : ∀ m e, view (with_members m e) = view e;
  view_internalName : ∀ n e, view (with_internalName n e) = view e;
  view_flags : ∀ f e, view (with_flags f e) = view e;
  view_class :
    ∀ e d d', data e = ClassD d → c_base d' = c_base d →
      view (with_data (ClassD d') e) = view e;
  view_field :
    ∀ e p t o o', data e = FieldD p t o →
      view (with_data (FieldD p t o') e) = view e;
  view_property :
    ∀ e p g s p' g' s', data e = PropertyD p g s →
      view (with_data (PropertyD p' g' s') e) = view e;
  view_functionPrototype :
    ∀ e d d', data e = FunctionPrototypeD d → fp_instances d' = fp_instances d →
      view (with_data (FunctionPrototypeD d') e) = view e;
  view_classPrototype :
    ∀ e d d', data e = ClassPrototypeD d → cp_instances d' = cp_instances d →
      view (with_data (ClassPrototypeD d') e) = view e
}.

(** What the base chains read of an element: that it is a class, its base,
    and its decorators. *)
Definition baseView (e : Element) : option (option handle) * Z :=
  (match data e with ClassD d => Some (c_base d) | _ => None end,
   decoratorFlags e).

(** The base of a class is a class that was constructed before it and that
    is not sealed. *)
Definition basesWellFormed (s : Program) : Prop :=
  ∀ c e d b,
    heap s !! c = Some e → data e = ClassD d → c_base d = Some b →
    (b < c)%nat
    ∧ ∃ be bd, heap s !! b = Some be ∧ data be = ClassD bd
               ∧ hasDecorator be DecoratorFlags.SEALED = false.

(** A computation that leaves the state as it is. *)
Definition Unchanged {A} (m : M A) : Prop :=
  ∀ s, match m s with
       | Ret _ s' | Throw _ s' => s' = s
       | OutOfFuel => True
       end.

(** The states that [initialize] and the methods of the resolver return
    in. *)
Inductive Reachable (tts : list Type_ → string) : Program → Prop :=
| reach_initialize fuel options sources s :
    initialize tts fuel options sources (newProgram options) = Ret tt s →
    Reachable tts s
| reach_resolveSignature fuel node ctx report s res s' :
    Reachable tts s →
    resolveSignature tts fuel node ctx report s = Ret res s' →
    Reachable tts s'
| reach_resolveType fuel node ctx report s res s' :
    Reachable tts s →
    resolveType tts fuel node ctx report s = Ret res s' →
    Reachable tts s'
| reach_resolveTypeArguments fuel ps nodes ctx alt s res s' :
    Reachable tts s →
    resolveTypeArguments tts fuel ps nodes ctx alt s = Ret res s' →
    Reachable tts s'
| reach_classResolve fuel this args ctx s res s' :
    Reachable tts s →
    classResolve tts fuel this args ctx s = Ret res s' →
    Reachable tts s'
| reach_classResolveUsingTypeArguments fuel this nodes ctx alt s res s' :
    Reachable tts s →
    classResolveUsingTypeArguments tts fuel this nodes ctx alt s = Ret res s' →
    Reachable tts s'
| reach_functionResolve fuel this args ctx s res s' :
    Reachable tts s →
    functionResolve tts fuel this args ctx s = Ret res s' →
    Reachable tts s'
| reach_functionResolveUsingTypeArguments fuel this nodes ctx alt s res s' :
    Reachable tts s →
    functionResolveUsingTypeArguments tts fuel this nodes ctx alt s = Ret res s' →
    Reachable tts s'.


(** ** Locals, break contexts and flows of a function
    (program.ts, lines 2821-2960 and 3477-3661)

    [Function.addLocal], the temporary locals, the break contexts and the
    methods of [Flow] work on the fields of a [Function], on its [Local]s and
    on the flows that [Flow.create] and [enterBranchOrScope] make for it, which
    all have it as their [currentFunction].  A frame holds these: the fields of
    the function, the [Local] and [Flow] objects by reference, and the
    diagnostics of the program. *)

(** [NativeType] of module.ts, which is not among the sources: the four
    values that the [switch]es name, and any other. *)
Module NativeType.
Inductive t : Type := I32 | I64 | F32 | F64 | OTHER.
#[global] Instance eq_dec : EqDecision t.
  Proof. solve_decision. Defined.
End NativeType.

(** Lines 3477-3506. *)
Module FlowFlags.
Definition NONE : Z := 0.
Definition RETURNS : Z := Z.shiftl 1 0.
Definition THROWS : Z := Z.shiftl 1 1.
Definition BREAKS : Z := Z.shiftl 1 2.
Definition CONTINUES : Z := Z.shiftl 1 3.
Definition ALLOCATES : Z := Z.shiftl 1 4.
Definition CONDITIONALLY_RETURNS : Z := Z.shiftl 1 5.
Definition CONDITIONALLY_THROWS : Z := Z.shiftl 1 6.
Definition CONDITIONALLY_BREAKS : Z := Z.shiftl 1 7.
Definition CONDITIONALLY_CONTINUES : Z := Z.shiftl 1 8.
Definition CONDITIONALLY_ALLOCATES : Z := Z.shiftl 1 9.
Definition INLINE_CONTEXT : Z := Z.shiftl 1 10.
End FlowFlags.

(** [flags &= ~flag]. *)
Definition flags_unset (flags flag : Z) : Z := Z.land flags (Z.lnot flag).

(** The fields of a [VariableDeclaration] that program.ts reads:
    [name.text], [flags], [fileLevelInternalName], [range.source] and the
    kinds of its parent chain. *)
Record VariableDeclaration : Type := {
  vd_name : string;
  vd_flags : Z;
  vd_fileLevelInternalName : string;
  vd_source : Source;
  vd_ancestors : list NodeKind.t
}.

Module Frame.

(** References to [Local] and [Flow] objects. *)
Definition lref : Type := nat.
Definition fref : Type := nat.

(** [Local] (lines 2485-2505): [internalName] is [simpleName], and the flags
    are those of [Element]. *)
Record LocalData : Type := {
  l_simpleName : string;
  l_index : Z;
  l_type : Type_;
  l_flags : Z
}.

Definition with_type (type : Type_) (l : LocalData) : LocalData :=
  {| l_simpleName := l_simpleName l; l_index := l_index l; l_type := type;
     l_flags := l_flags l |}.

(** [Flow] (lines 3508-3528), without [currentFunction]. *)
Record FlowData : Type := {
  parent : option fref;
  fl_flags : Z;
  continueLabel : option string;
  breakLabel : option string;
  returnLabel : option string;
  returnType : Type_;
  fl_contextualTypeArguments : option (gmap string Type_);
  scopedLocals : option (list (string * lref))
}.

Definition with_fl_flags (x : Z) (f : FlowData) : FlowData :=
  {| parent := parent f;
     fl_flags := x;
     continueLabel := continueLabel f;
     breakLabel := breakLabel f;
     returnLabel := returnLabel f;
     returnType := returnType f;
     fl_contextualTypeArguments := fl_contextualTypeArguments f;
     scopedLocals := scopedLocals f |}.
Definition with_scopedLocals (x : option (list (string * lref))) (f : FlowData) : FlowData :=
  {| parent := parent f;
     fl_flags := fl_flags f;
     continueLabel := continueLabel f;
     breakLabel := breakLabel f;
     returnLabel := returnLabel f;
     returnType := returnType f;
     fl_contextualTypeArguments := fl_contextualTypeArguments f;
     scopedLocals := x |}.

(** The fields of [Function] (lines 2727-2760 and 2843-2846) that the methods
    below read and assign, and the objects they refer to. *)
Record t : Type := {
  flags : Z;
  signature : Signature;
  contextualTypeArguments : option (gmap string Type_);
  locals : list (string * lref);
  additionalLocals : list Type_;
  breakContext : option string;
  nextBreakId : Z;
  breakStack : option (list Z);
  tempI32s : option (list lref);
  tempI64s : option (list lref);
  tempF32s : option (list lref);
  tempF64s : option (list lref);
  localStore : list LocalData;
  flowStore : list FlowData;
  diagnostics : list DiagnosticMessage
}.

Definition with_locals (x : list (string * lref)) (s : t) : t :=
  {| flags := flags s;
     signature := signature s;
     contextualTypeArguments := contextualTypeArguments s;
     locals := x;
     additionalLocals := additionalLocals s;
     breakContext := breakContext s;
     nextBreakId := nextBreakId s;
     breakStack := breakStack s;
     tempI32s := tempI32s s;
     tempI64s := tempI64s s;
     tempF32s := tempF32s s;
     tempF64s := tempF64s s;
     localStore := localStore s;
     flowStore := flowStore s;
     diagnostics := diagnostics s |}.
Definition with_additionalLocals (x : list Type_) (s : t) : t :=
  {| flags := flags s;
     signature := signature s;
     contextualTypeArguments := contextualTypeArguments s;
     locals := locals s;
     additionalLocals := x;
     breakContext := breakContext s;
     nextBreakId := nextBreakId s;
     breakStack := breakStack s;
     tempI32s := tempI32s s;
     tempI64s := tempI64s s;
     tempF32s := tempF32s s;
     tempF64s := tempF64s s;
     localStore := localStore s;
     flowStore := flowStore s;
     diagnostics := diagnostics s |}.
Definition with_breakContext (x : option string) (s : t) : t :=
  {| flags := flags s;
     signature := signature s;
     contextualTypeArguments := contextualTypeArguments s;
     locals := locals s;
     additionalLocals := additionalLocals s;
     breakContext := x;
     nextBreakId := nextBreakId s;
     breakStack := breakStack s;
     tempI32s := tempI32s s;
     tempI64s := tempI64s s;
     tempF32s := tempF32s s;
     tempF64s := tempF64s s;
     localStore := localStore s;
     flowStore := flowStore s;
     diagnostics := diagnostics s |}.
Definition with_nextBreakId (x : Z) (s : t) : t :=
  {| flags := flags s;
     signature := signature s;
     contextualTypeArguments := contextualTypeArguments s;
     locals := locals s;
     additionalLocals := additionalLocals s;
     breakContext := breakContext s;
     nextBreakId := x;
     breakStack := breakStack s;
     tempI32s := tempI32s s;
     tempI64s := tempI64s s;
     tempF32s := tempF32s s;
     tempF64s := tempF64s s;
     localStore := localStore s;
     flowStore := flowStore s;
     diagnostics := diagnostics s |}.
Definition with_breakStack (x : option (list Z)) (s : t) : t :=
  {| flags := flags s;
     signature := signature s;
     contextualTypeArguments := contextualTypeArguments s;
     locals := locals s;
     additionalLocals := additionalLocals s;
     breakContext := breakContext s;
     nextBreakId := nextBreakId s;
     breakStack := x;
     tempI32s := tempI32s s;
     tempI64s := tempI64s s;
     tempF32s := tempF32s s;
     tempF64s := tempF64s s;
     localStore := localStore s;
     flowStore := flowStore s;
     diagnostics := diagnostics s |}.
Definition with_tempI32s (x : option (list lref)) (s : t) : t :=
  {| flags := flags s;
     signature := signature s;
     contextualTypeArguments := contextualTypeArguments s;
     locals := locals s;
     additionalLocals := additionalLocals s;
     breakContext := breakContext s;
     nextBreakId := nextBreakId s;
     breakStack := breakStack s;
     tempI32s := x;
     tempI64s := tempI64s s;
     tempF32s := tempF32s s;
     tempF64s := tempF64s s;
     localStore := localStore s;
     flowStore := flowStore s;
     diagnostics := diagnostics s |}.
Definition with_tempI64s (x : option (list lref)) (s : t) : t :=
  {| flags := flags s;
     signature := signature s;
     contextualTypeArguments := contextualTypeArguments s;
     locals := locals s;
     additionalLocals := additionalLocals s;
     breakContext := breakContext s;
     nextBreakId := nextBreakId s;
     breakStack := breakStack s;
     tempI32s := tempI32s s;
     tempI64s := x;
     tempF32s := tempF32s s;
     tempF64s := tempF64s s;
     localStore := localStore s;
     flowStore := flowStore s;
     diagnostics := diagnostics s |}.
Definition with_tempF32s (x : option (list lref)) (s : t) : t :=
  {| flags := flags s;
     signature := signature s;
     contextualTypeArguments := contextualTypeArguments s;
     locals := locals s;
     additionalLocals := additionalLocals s;
     breakContext := breakContext s;
     nextBreakId := nextBreakId s;
     breakStack := breakStack s;
     tempI32s := tempI32s s;
     tempI64s := tempI64s s;
     tempF32s := x;
     tempF64s := tempF64s s;
     localStore := localStore s;
     flowStore := flowStore s;
     diagnostics := diagnostics s |}.
Definition with_tempF64s (x : option (list lref)) (s : t) : t :=
  {| flags := flags s;
     signature := signature s;
     contextualTypeArguments := contextualTypeArguments s;
     locals := locals s;
     additionalLocals := additionalLocals s;
     breakContext := breakContext s;
     nextBreakId := nextBreakId s;
     breakStack := breakStack s;
     tempI32s := tempI32s s;
     tempI64s := tempI64s s;
     tempF32s := tempF32s s;
     tempF64s := x;
     localStore := localStore s;
     flowStore := flowStore s;
     diagnostics := diagnostics s |}.
Definition with_localStore (x : list LocalData) (s : t) : t :=
  {| flags := flags s;
     signature := signature s;
     contextualTypeArguments := contextualTypeArguments s;
     locals := locals s;
     additionalLocals := additionalLocals s;
     breakContext := breakContext s;
     nextBreakId := nextBreakId s;
     breakStack := breakStack s;
     tempI32s := tempI32s s;
     tempI64s := tempI64s s;
     tempF32s := tempF32s s;
     tempF64s := tempF64s s;
     localStore := x;
     flowStore := flowStore s;
     diagnostics := diagnostics s |}.
Definition with_flowStore (x : list FlowData) (s : t) : t :=
  {| flags := flags s;
     signature := signature s;
     contextualTypeArguments := contextualTypeArguments s;
     locals := locals s;
     additionalLocals := additionalLocals s;
     breakContext := breakContext s;
     nextBreakId := nextBreakId s;
     breakStack := breakStack s;
     tempI32s := tempI32s s;
     tempI64s := tempI64s s;
     tempF32s := tempF32s s;
     tempF64s := tempF64s s;
     localStore := localStore s;
     flowStore := x;
     diagnostics := diagnostics s |}.
Definition with_diagnostics (x : list DiagnosticMessage) (s : t) : t :=
  {| flags := flags s;
     signature := signature s;
     contextualTypeArguments := contextualTypeArguments s;
     locals := locals s;
     additionalLocals := additionalLocals s;
     breakContext := breakContext s;
     nextBreakId := nextBreakId s;
     breakStack := breakStack s;
     tempI32s := tempI32s s;
     tempI64s := tempI64s s;
     tempF32s := tempF32s s;
     tempF64s := tempF64s s;
     localStore := localStore s;
     flowStore := flowStore s;
     diagnostics := x |}.

Inductive Outcome (A : Type) : Type :=
| Ret (a : A) (s : t)
| Throw (e : Exn) (s : t)
| OutOfFuel.
Arguments Ret {A} a s.
Arguments Throw {A} e s.
Arguments OutOfFuel {A}.

Definition M (A : Type) : Type := t → Outcome A.

Definition ret {A} (a : A) : M A := fun s => Ret a s.
Definition bind {A B} (m : M A) (k : A → M B) : M B :=
  fun s => match m s with
           | Ret a s' => k a s'
           | Throw e s' => Throw e s'
           | OutOfFuel => OutOfFuel
           end.

Notation "'let*' x ':=' m 'in' k" := (bind m (fun x => k))
  (at level 10, x name, m at level 100, k at level 200).
Notation "'do*' m 'in' k" := (bind m (fun _ => k))
  (at level 10, m at level 100, k at level 200).

Definition gets {A} (f : t → A) : M A := fun s => Ret (f s) s.
Definition modify (f : t → t) : M unit := fun s => Ret tt (f s).
Definition throw {A} (e : Exn) : M A := fun s => Throw e s.
Definition outOfFuel {A} : M A := fun _ => OutOfFuel.
Definition assert (b : bool) : M unit := if b then ret tt else throw AssertionError.
Definition when (b : bool) (m : M unit) : M unit := if b then m else ret tt.
Definition assertSome {A} (o : option A) : M A :=
  match o with Some a => ret a | None => throw AssertionError end.
Definition deref {A} (o : option A) : M A :=
  match o with Some a => ret a | None => throw TypeError end.

Fixpoint forEach {A} (l : list A) (body : A → M unit) : M unit :=
  match l with
  | [] => ret tt
  | x :: l' => do* body x in forEach l' body
  end.

(** [program.error]. *)
Definition error (c : DiagnosticCode.t) (a : list string) : M unit :=
  modify (fun s => with_diagnostics (diagnostics s ++ [{| code := c; args := a |}])%list s).

(** [new Local(...)] and [new Flow()]: the object gets the next free
    reference. *)
Definition allocLocal (l : LocalData) : M lref :=
  fun s => Ret (length (localStore s)) (with_localStore (localStore s ++ [l])%list s).
Definition getLocal (l : lref) : M LocalData :=
  fun s => match localStore s !! l with
           | Some d => Ret d s
           | None => Throw TypeError s
           end.
Definition updLocal (l : lref) (f : LocalData → LocalData) : M unit :=
  fun s => match localStore s !! l with
           | Some d => Ret tt (with_localStore (<[l := f d]> (localStore s)) s)
           | None => Throw TypeError s
           end.
Definition allocFlow (f : FlowData) : M fref :=
  fun s => Ret (length (flowStore s)) (with_flowStore (flowStore s ++ [f])%list s).
Definition getFlow (f : fref) : M FlowData :=
  fun s => match flowStore s !! f with
           | Some d => Ret d s
           | None => Throw TypeError s
           end.
Definition updFlow (f : fref) (g : FlowData → FlowData) : M unit :=
  fun s => match flowStore s !! f with
           | Some d => Ret tt (with_flowStore (<[f := g d]> (flowStore s)) s)
           | None => Throw TypeError s
           end.

(** The index of the next additional local, [addLocal], lines 2824-2825.  The
    variable is an [i32]. *)
Definition nextLocalIndex (s : t) : Z :=
  let localIndex :=
    i32 (Z.of_nat (length (sig_parameterTypes (signature s)))
         + Z.of_nat (length (additionalLocals s))) in
  if flags_is (flags s) CommonFlags.INSTANCE then i32 (localIndex + 1)
  else localIndex.

(** [Function.addLocal] (lines 2821-2841).  A name that is [null] or the
    empty string is no name. *)
Definition addLocal (type : Type_) (name : option string) : M lref :=
  let* localIndex := gets nextLocalIndex in
  let name :=
    match name with
    | Some n => if String.eqb n "" then None else Some n
    | None => None
    end in
  let* local :=
    allocLocal
      {| l_simpleName := default ("var$" +:+ pretty localIndex) name;
         l_index := localIndex; l_type := type;
         l_flags := CommonFlags.NONE |} in
  do* match name with
      | Some n =>
          let* locals := gets locals in
          if JSMap.has locals n then throw (Error "duplicate local name")
          else modify (with_locals (JSMap.set locals n local))
      | None => ret tt
      end in
  do* modify (fun s => with_additionalLocals (additionalLocals s ++ [type])%list s) in
  ret local.

(** The free list of a native type. *)
Definition temps (n : NativeType.t) (s : t) : option (list lref) :=
  match n with
  | NativeType.I32 => tempI32s s
  | NativeType.I64 => tempI64s s
  | NativeType.F32 => tempF32s s
  | NativeType.F64 => tempF64s s
  | NativeType.OTHER => None
  end.

Definition with_temps (n : NativeType.t) (x : option (list lref)) (s : t) : t :=
  match n with
  | NativeType.I32 => with_tempI32s x s
  | NativeType.I64 => with_tempI64s x s
  | NativeType.F32 => with_tempF32s x s
  | NativeType.F64 => with_tempF64s x s
  | NativeType.OTHER => s
  end.

Section Temps.

(** [Type.toNativeType] of types.ts, which is not among the sources. *)
Variable toNativeType : Type_ → NativeType.t.

(** The field that the [switch] on the native type selects, or the
    [default] case. *)
Definition tempsOf (n : NativeType.t) : M (option (list lref)) :=
  match n with
  | NativeType.I32 => gets tempI32s
  | NativeType.I64 => gets tempI64s
  | NativeType.F32 => gets tempF32s
  | NativeType.F64 => gets tempF64s
  | NativeType.OTHER => throw (Error "concrete type expected")
  end.

Definition setTempsOf (n : NativeType.t) (temps : option (list lref)) : M unit :=
  match n with
  | NativeType.I32 => modify (with_tempI32s temps)
  | NativeType.I64 => modify (with_tempI64s temps)
  | NativeType.F32 => modify (with_tempF32s temps)
  | NativeType.F64 => modify (with_tempF64s temps)
  | NativeType.OTHER => throw (Error "concrete type expected")
  end.

(** [Function.getTempLocal] (lines 2848-2876). *)
Definition getTempLocal (type : Type_) : M lref :=
  let n := toNativeType type in
  let* temps := tempsOf n in
  match temps with
  | Some ((_ :: _) as temps) =>
      let* ret_ := deref (last temps) in
      do* setTempsOf n (Some (removelast temps)) in
      do* updLocal ret_ (with_type type) in
      ret ret_
  | _ => addLocal type None
  end.

(** [Function.freeTempLocal] (lines 2878-2905). *)
Definition freeTempLocal (local : lref) : M unit :=
  let* l := getLocal local in
  if flags_is (l_flags l) CommonFlags.INLINED then ret tt
  else
    do* assert (0 <=? l_index l) in
    let n := toNativeType (l_type l) in
    let* temps := tempsOf n in
    let temps := default [] temps in
    do* setTempsOf n (Some temps) in
    do* assert (0 <=? l_index l) in
    setTempsOf n (Some (temps ++ [local])%list).

(** [Function.getAndFreeTempLocal] (lines 2907-2935). *)
Definition getAndFreeTempLocal (type : Type_) : M lref :=
  let n := toNativeType type in
  let* temps := tempsOf n in
  let temps := default [] temps in
  do* setTempsOf n (Some temps) in
  if (0 <? length temps)%nat then deref (last temps)
  else
    let* local := addLocal type None in
    do* setTempsOf n (Some (temps ++ [local])%list) in
    ret local.

(** [Function.enterBreakContext] (lines 2937-2946); [nextBreakId] is an
    [i32]. *)
Definition enterBreakContext : M string :=
  let* id := gets nextBreakId in
  do* modify (with_nextBreakId (i32 (id + 1))) in
  let* breakStack := gets breakStack in
  do* modify (with_breakStack
                (Some (match breakStack with
                       | None => [id]
                       | Some stack => (stack ++ [id])%list
                       end))) in
  do* modify (with_breakContext (Some (pretty id))) in
  ret (pretty id).

(** [Function.leaveBreakContext] (lines 2948-2960). *)
Definition leaveBreakContext : M unit :=
  let* breakStack := gets breakStack in
  do* assert (bool_decide (is_Some breakStack)) in
  let* stack := deref breakStack in
  let length_ := length stack in
  do* assert (0 <? length_)%nat in
  do* modify (with_breakStack (Some (removelast stack))) in
  if (1 <? length_)%nat then
    let* id := deref (removelast stack !! (length_ - 2)%nat) in
    modify (with_breakContext (Some (pretty id)))
  else
    do* modify (with_breakContext None) in
    modify (with_breakStack None).

(** [Flow.create] (lines 3532-3544). *)
Definition flowCreate : M fref :=
  let* returnType := gets (fun s => sig_returnType (signature s)) in
  let* contextualTypeArguments := gets contextualTypeArguments in
  allocFlow
    {| parent := None; fl_flags := FlowFlags.NONE;
       continueLabel := None; breakLabel := None; returnLabel := None;
       returnType := returnType;
       fl_contextualTypeArguments := contextualTypeArguments;
       scopedLocals := None |}.

(** [Flow.is], [Flow.set] and [Flow.unset] (lines 3548-3553). *)
Definition flowIs (this : fref) (flag : Z) : M bool :=
  let* f := getFlow this in
  ret (flags_is (fl_flags f) flag).
Definition flowSet (this : fref) (flag : Z) : M unit :=
  updFlow this (fun f => with_fl_flags (flags_set (fl_flags f) flag) f).
Definition flowUnset (this : fref) (flag : Z) : M unit :=
  updFlow this (fun f => with_fl_flags (flags_unset (fl_flags f) flag) f).

(** [Flow.enterBranchOrScope] (lines 3555-3567). *)
Definition enterBranchOrScope (this : fref) : M fref :=
  let* f := getFlow this in
  allocFlow
    {| parent := Some this; fl_flags := fl_flags f;
       continueLabel := continueLabel f; breakLabel := breakLabel f;
       returnLabel := returnLabel f; returnType := returnType f;
       fl_contextualTypeArguments := fl_contextualTypeArguments f;
       scopedLocals := None |}.

(** [Flow.leaveBranchOrScope] (lines 3569-3599). *)
Definition leaveBranchOrScope (this : fref) : M fref :=
  let* f := getFlow this in
  let* parent := assertSome (parent f) in
  do* match scopedLocals f with
      | Some scopedLocals =>
          do* forEach (JSMap.values scopedLocals) freeTempLocal in
          updFlow this (with_scopedLocals None)
      | None => ret tt
      end in
  let* returns := flowIs this FlowFlags.RETURNS in
  do* when returns (flowSet parent FlowFlags.CONDITIONALLY_RETURNS) in
  let* throws := flowIs this FlowFlags.THROWS in
  do* when throws (flowSet parent FlowFlags.CONDITIONALLY_THROWS) in
  let* breaks := flowIs this FlowFlags.BREAKS in
  let* breaks :=
    if breaks then
      let* p := getFlow parent in
      let* f := getFlow this in
      ret (bool_decide (breakLabel p = breakLabel f))
    else ret false in
  do* when breaks (flowSet parent FlowFlags.CONDITIONALLY_BREAKS) in
  let* continues := flowIs this FlowFlags.CONTINUES in
  let* continues :=
    if continues then
      let* p := getFlow parent in
      let* f := getFlow this in
      ret (bool_decide (continueLabel p = continueLabel f))
    else ret false in
  do* when continues (flowSet parent FlowFlags.CONDITIONALLY_CONTINUES) in
  let* allocates := flowIs this FlowFlags.ALLOCATES in
  do* when allocates (flowSet parent FlowFlags.CONDITIONALLY_ALLOCATES) in
  ret parent.

(** [Flow.addScopedLocal] (lines 3601-3619). *)
Definition addScopedLocal (this : fref) (type : Type_) (name : string)
    (declaration : option VariableDeclaration) : M lref :=
  let* scopedLocal := getTempLocal type in
  let* f := getFlow this in
  match scopedLocals f with
  | None =>
      do* updFlow this (with_scopedLocals (Some [(name, scopedLocal)])) in
      ret scopedLocal
  | Some scopedLocals =>
      match JSMap.get scopedLocals name with
      | Some existingLocal =>
          do* match declaration with
              | Some _ => error DiagnosticCode.Duplicate_identifier_0 []
              | None => assert false
              end in
          ret existingLocal
      | None =>
          do* updFlow this
                (with_scopedLocals (Some (JSMap.set scopedLocals name scopedLocal))) in
          ret scopedLocal
      end
  end.

(** The [do ... while (current = current.parent)] loop of [getScopedLocal]
    (lines 3625-3629), one unit of fuel per iteration: the local found, or
    [None] where the chain of parents ends. *)
Fixpoint walkScopes (fuel : nat) (current : fref) (name : string)
    : M (option lref) :=
  match fuel with
  | O => outOfFuel
  | S fuel' =>
      let* f := getFlow current in
      match scopedLocals f ≫= λ m, JSMap.get m name with
      | Some local => ret (Some local)
      | None =>
          match parent f with
          | Some parent => walkScopes fuel' parent name
          | None => ret None
          end
      end
  end.

(** [Flow.getScopedLocal] (lines 3621-3631). *)
Definition getScopedLocal (fuel : nat) (this : fref) (name : string)
    : M (option lref) :=
  let* local := walkScopes fuel this name in
  match local with
  | Some local => ret (Some local)
  | None =>
      let* locals := gets locals in
      ret (JSMap.get locals name)
  end.

(** [Flow.finalize] (lines 3654-3661). *)
Definition flowFinalize (this : fref) : M unit :=
  let* f := getFlow this in
  do* assert (bool_decide (parent f = None)) in
  updFlow this (fun f =>
    {| parent := parent f; fl_flags := fl_flags f;
       continueLabel := None; breakLabel := None; returnLabel := None;
       returnType := returnType f;
       fl_contextualTypeArguments := None;
       scopedLocals := scopedLocals f |}).

End Temps.

End Frame.

(** The frame of a [Function] as its constructor (lines 2762-2819) leaves
    it, before [Flow.create]: the locals are [this] and the parameters. *)
Definition frameOf (e : Element) (d : FunctionData) : Frame.t :=
  {| Frame.flags := flags e;
     Frame.signature := f_signature d;
     Frame.contextualTypeArguments := f_contextualTypeArguments d;
     Frame.locals := imap (fun l '(name, _) => (name, l)) (f_locals d);
     Frame.additionalLocals := [];
     Frame.breakContext := None;
     Frame.nextBreakId := 0;
     Frame.breakStack := None;
     Frame.tempI32s := None; Frame.tempI64s := None; Frame.tempF32s := None; Frame.tempF64s := None;
     Frame.localStore :=
       map (fun '(name, (index, type)) =>
              {| Frame.l_simpleName := name; Frame.l_index := index; Frame.l_type := type;
                 Frame.l_flags := CommonFlags.NONE |})
         (f_locals d);
     Frame.flowStore := [];
     Frame.diagnostics := [] |}.


(** *** Observations and invariants of a frame *)

(** The number of locals the function has: the parameters, [this] in an
    instance method, and the additional locals. *)
Definition localCount (s : Frame.t) : Z :=
  Z.of_nat (length (sig_parameterTypes (Frame.signature s)))
  + Z.of_nat (length (Frame.additionalLocals s))
  + (if flags_is (Frame.flags s) CommonFlags.INSTANCE then 1 else 0).

(** Every [Local] of the function has an index below the number of its
    locals. *)
Definition indicesInRange (s : Frame.t) : Prop :=
  ∀ l d, Frame.localStore s !! l = Some d → 0 ≤ Frame.l_index d < localCount s.

(** Every local in a free list has the native type of the list. *)
Definition poolsTyped (toNativeType : Type_ → NativeType.t) (s : Frame.t)
    : Prop :=
  ∀ n temps l, Frame.temps n s = Some temps → l ∈ temps →
    ∃ d, Frame.localStore s !! l = Some d ∧ toNativeType (Frame.l_type d) = n.

(** The break stack is [null] or holds a context, and [breakContext] is the
    label of its top. *)
Definition breakWellFormed (s : Frame.t) : Prop :=
  match Frame.breakStack s with
  | None => Frame.breakContext s = None
  | Some stack =>
      ∃ id, last stack = Some id ∧ Frame.breakContext s = Some (pretty id)
  end.

(** The parent of a flow is a flow that was made before it. *)
Definition flowsWellFormed (s : Frame.t) : Prop :=
  ∀ f d p, Frame.flowStore s !! f = Some d → Frame.parent d = Some p →
           (p < f)%nat.

(** [flow.scopedLocals.get(name)], where the flow has scoped locals. *)
Definition scopedLocalOf (s : Frame.t) (flow : Frame.fref) (name : string)
    : option Frame.lref :=
  Frame.flowStore s !! flow ≫= λ d,
  Frame.scopedLocals d ≫= λ m, JSMap.get m name.

Definition flowFlagsOf (s : Frame.t) (flow : Frame.fref) : option Z :=
  Frame.fl_flags <$> Frame.flowStore s !! flow.

(** The binding of [name] that is visible in a flow: that of the nearest
    enclosing scope that binds it, or none. *)
Inductive visibleIn (s : Frame.t) (name : string)
    : Frame.fref → option Frame.lref → Prop :=
| visibleIn_here flow local :
    scopedLocalOf s flow name = Some local →
    visibleIn s name flow (Some local)
| visibleIn_root flow d :
    Frame.flowStore s !! flow = Some d →
    scopedLocalOf s flow name = None →
    Frame.parent d = None →
    visibleIn s name flow None
| visibleIn_parent flow d parent local :
    Frame.flowStore s !! flow = Some d →
    scopedLocalOf s flow name = None →
    Frame.parent d = Some parent →
    visibleIn s name parent local →
    visibleIn s name flow local.

(** The frames that the methods return in, from the frame of a function as
    its constructor leaves it. *)
Inductive FrameReachable (toNativeType : Type_ → NativeType.t)
    : Frame.t → Prop :=
| reach_frameOf e d : FrameReachable toNativeType (frameOf e d)
| reach_addLocal s type name l s' :
    FrameReachable toNativeType s →
    Frame.addLocal type name s = Frame.Ret l s' →
    FrameReachable toNativeType s'
| reach_getTempLocal s type l s' :
    FrameReachable toNativeType s →
    Frame.getTempLocal toNativeType type s = Frame.Ret l s' →
    FrameReachable toNativeType s'
| reach_freeTempLocal s l s' :
    FrameReachable toNativeType s →
    Frame.freeTempLocal toNativeType l s = Frame.Ret tt s' →
    FrameReachable toNativeType s'
| reach_getAndFreeTempLocal s type l s' :
    FrameReachable toNativeType s →
    Frame.getAndFreeTempLocal toNativeType type s = Frame.Ret l s' →
    FrameReachable toNativeType s'
| reach_enterBreakContext s label s' :
    FrameReachable toNativeType s →
    Frame.enterBreakContext s = Frame.Ret label s' →
    FrameReachable toNativeType s'
| reach_leaveBreakContext s s' :
    FrameReachable toNativeType s →
    Frame.leaveBreakContext s = Frame.Ret tt s' →
    FrameReachable toNativeType s'
| reach_flowCreate s flow s' :
    FrameReachable toNativeType s →
    Frame.flowCreate s = Frame.Ret flow s' →
    FrameReachable toNativeType s'
| reach_flowSet s this flag s' :
    FrameReachable toNativeType s →
    Frame.flowSet this flag s = Frame.Ret tt s' →
    FrameReachable toNativeType s'
| reach_flowUnset s this flag s' :
    FrameReachable toNativeType s →
    Frame.flowUnset this flag s = Frame.Ret tt s' →
    FrameReachable toNativeType s'
| reach_enterBranchOrScope s this branch s' :
    FrameReachable toNativeType s →
    Frame.enterBranchOrScope this s = Frame.Ret branch s' →
    FrameReachable toNativeType s'
| reach_leaveBranchOrScope s this parent s' :
    FrameReachable toNativeType s →
    Frame.leaveBranchOrScope toNativeType this s = Frame.Ret parent s' →
    FrameReachable toNativeType s'
| reach_addScopedLocal s this type name declaration l s' :
    FrameReachable toNativeType s →
    Frame.addScopedLocal toNativeType this type name declaration s
    = Frame.Ret l s' →
    FrameReachable toNativeType s'
| reach_flowFinalize s this s' :
    FrameReachable toNativeType s →
    Frame.flowFinalize this s = Frame.Ret tt s' →
    FrameReachable toNativeType s'.

(** A computation on a frame keeps [I]: where it returns from a frame with
    [I], the frame it leaves has [I]. *)
Definition FrameKeeps (I : Frame.t → Prop) {A} (m : Frame.M A) : Prop :=
  ∀ s a s', I s → m s = Frame.Ret a s' → I s'.

(** The name that [addLocal] takes as given: [null] and the empty string are
    no name. *)
Definition givenName (name : option string) : option string :=
  match name with
  | Some n => if String.eqb n "" then None else Some n
  | None => None
  end.

(** The [Local] that [addLocal] constructs in the frame [s]. *)
Definition newLocal (s : Frame.t) (type : Type_) (name : option string)
    : Frame.LocalData :=
  {| Frame.l_simpleName :=
       default ("var$" +:+ pretty (Frame.nextLocalIndex s)) (givenName name);
     Frame.l_index := Frame.nextLocalIndex s;
     Frame.l_type := type;
     Frame.l_flags := CommonFlags.NONE |}.

(** The flags of the parent after [leaveBranchOrScope] of a branch with the
    flags and labels of [d], where the parent has those of [pd]. *)
Definition propagatedFlags (d pd : Frame.FlowData) : Z :=
  let z := Frame.fl_flags pd in
  let z :=
    if flags_is (Frame.fl_flags d) FlowFlags.RETURNS
    then flags_set z FlowFlags.CONDITIONALLY_RETURNS else z in
  let z :=
    if flags_is (Frame.fl_flags d) FlowFlags.THROWS
    then flags_set z FlowFlags.CONDITIONALLY_THROWS else z in
  let z :=
    if flags_is (Frame.fl_flags d) FlowFlags.BREAKS
       && bool_decide (Frame.breakLabel pd = Frame.breakLabel d)
    then flags_set z FlowFlags.CONDITIONALLY_BREAKS else z in
  let z :=
    if flags_is (Frame.fl_flags d) FlowFlags.CONTINUES
       && bool_decide (Frame.continueLabel pd = Frame.continueLabel d)
    then flags_set z FlowFlags.CONDITIONALLY_CONTINUES else z in
  if flags_is (Frame.fl_flags d) FlowFlags.ALLOCATES
  then flags_set z FlowFlags.CONDITIONALLY_ALLOCATES else z.

(** The locals among [locals] that [freeTempLocal] puts on the free list of
    the native type [n]: those of that native type that are not inlined. *)
Definition releasedTo (toNativeType : Type_ → NativeType.t) (s : Frame.t)
    (n : NativeType.t) (locals : list Frame.lref) : list Frame.lref :=
  List.filter (λ l, match Frame.localStore s !! l with
                    | Some d =>
                        negb (flags_is (Frame.l_flags d) CommonFlags.INLINED)
                        && bool_decide (toNativeType (Frame.l_type d) = n)
                    | None => false
                    end) locals.

(** ** [Class.lookupOverload] (lines 3417-3428)

    The [do ... while (instance = instance.base)] loop takes one unit of fuel
    per iteration. *)
Fixpoint lookupOverload (fuel : nat) (instance : handle) (kind : OperatorKind.t)
    : M (option handle) :=
  match fuel with
  | O => outOfFuel
  | S fuel' =>
      let! c := getClass instance in
      let overload :=
        match c_overloads c with
        | Some overloads => JSMap.get overloads kind
        | None => None
        end in
      match overload with
      | Some overload => ret (Some overload)
      | None =>
          match c_base c with
          | Some base => lookupOverload fuel' base kind
          | None => ret None
          end
      end
  end.

(** [instance.overloads.get(kind)], where the class has overloads. *)
Definition overloadOf (s : Program) (instance : handle) (kind : OperatorKind.t)
    : option handle :=
  classOf s instance ≫= λ d, c_overloads d ≫= λ overloads,
    JSMap.get overloads kind.

(** The overload of [kind] that a class declares or inherits: that of the
    nearest class on its base chain that has one. *)
Inductive inheritedOverload (s : Program) (kind : OperatorKind.t)
    : handle → option handle → Prop :=
| inheritedOverload_own c d overload :
    classOf s c = Some d → overloadOf s c kind = Some overload →
    inheritedOverload s kind c (Some overload)
| inheritedOverload_none c d :
    classOf s c = Some d → overloadOf s c kind = None → c_base d = None →
    inheritedOverload s kind c None
| inheritedOverload_base c d base result :
    classOf s c = Some d → overloadOf s c kind = None →
    c_base d = Some base → inheritedOverload s kind base result →
    inheritedOverload s kind c result.

(** ** [Program.getSource] and [Program.lookupSourceByPath] (lines 201-219)

    [sources] is the field [Program.sources]. *)
Fixpoint getSource (sources : list Source) (path : string) : option Source :=
  match sources with
  | [] => None
  | source :: sources' =>
      if String.eqb (normalizedPath source) path then Some source
      else getSource sources' path
  end.

Definition lookupSourceByPath (sources : list Source)
    (normalizedPathWithoutExtension : string) : option Source :=
  match getSource sources (normalizedPathWithoutExtension +:+ ".ts") with
  | Some source => Some source
  | None =>
  match getSource sources (normalizedPathWithoutExtension +:+ "/index.ts") with
  | Some source => Some source
  | None =>
  match getSource sources
          (LIBRARY_PREFIX +:+ normalizedPathWithoutExtension +:+ ".ts") with
  | Some source => Some source
  | None =>
      getSource sources
        (LIBRARY_PREFIX +:+ normalizedPathWithoutExtension +:+ "/index.ts")
  end end end.

(** The paths [lookupSourceByPath] tries, in the order it tries them. *)
Definition candidatePaths (normalizedPathWithoutExtension : string)
    : list string :=
  [ normalizedPathWithoutExtension +:+ ".ts";
    normalizedPathWithoutExtension +:+ "/index.ts";
    LIBRARY_PREFIX +:+ normalizedPathWithoutExtension +:+ ".ts";
    LIBRARY_PREFIX +:+ normalizedPathWithoutExtension +:+ "/index.ts" ].

Definition with_typeAliases (m : gmap string TypeAlias) (p : Program) : Program :=
  {| options := options p; diagnostics := diagnostics p; heap := heap p;
     elementsLookup := elementsLookup p; typesLookup := typesLookup p;
     typeAliases := m; fileLevelExports := fileLevelExports p;
     moduleLevelExports := moduleLevelExports p;
     arrayPrototype := arrayPrototype p;
     arrayBufferViewPrototype := arrayBufferViewPrototype p;
     stringInstance := stringInstance p |}.

(** ** [Program.initializeTypeAlias] (lines 1529-1544)

    [name], [typeParameters] and [type] are [declaration.name.text],
    [declaration.typeParameters] and [declaration.type]. *)
Definition initializeTypeAlias (name : string)
    (typeParameters : option (list TypeParameterNode)) (type : CommonTypeNode)
    : M unit :=
  let! types := gets typesLookup in
  let! aliases := gets typeAliases in
  if hasKey types name || hasKey aliases name then
    error DiagnosticCode.Duplicate_identifier_0 [name]
  else
    modify (fun s =>
      with_typeAliases
        (<[name := {| ta_typeParameters := typeParameters; ta_type := type |}]>
           (typeAliases s)) s).

(** Locals by name whose indices are distinct and lie in [0, bound). *)
Definition numbered (bound : Z) (locals : list (string * (Z * Type_))) : Prop :=
  Forall (λ entry, 0 ≤ entry.2.1 < bound) locals
  ∧ NoDup ((λ entry, entry.2.1) <$> locals).

(** The element that a type name refers to in [resolveType] (lines
    1686-1692): the one of the file, or else the global one. *)
Definition elementNamed (s : Program) (source : Source) (simpleName : string)
    : option handle :=
  match elementsLookup s
          !! (internalPath source +:+ PATH_DELIMITER +:+ simpleName) with
  | Some element => Some element
  | None => elementsLookup s !! simpleName
  end.

(** The name refers to no class prototype. *)
Definition noClassPrototypeNamed (s : Program) (source : Source)
    (simpleName : string) : Prop :=
  match elementNamed s source simpleName with
  | Some element =>
      ∃ e, heap s !! element = Some e ∧ kind e ≠ ElementKind.CLASS_PROTOTYPE
  | None => True
  end.

(** The flag of a decorator, as [filterDecorators] computes it: that of its
    kind where its name is an identifier. *)
Definition decoratorFlagOf (decorator : DecoratorNode) : Z :=
  match dn_name decorator with
  | Identifier name => decoratorKindToFlag (stringToDecoratorKind name)
  | _ => DecoratorFlags.NONE
  end.

(** What [filterDecorators] has after the decorators [seen]: the flags that
    are accepted and that a decorator had, and diagnostics of the two
    kinds. *)
Definition filtered (acceptedFlags : Z) (seen : list DecoratorNode)
    (presentFlags : Z) (reported : list DiagnosticMessage) : Prop :=
  0 ≤ presentFlags
  ∧ (∀ k, 0 ≤ k →
       Z.testbit presentFlags k = true ↔
       Z.testbit acceptedFlags k = true
       ∧ ∃ decorator, decorator ∈ seen
                      ∧ decoratorFlagOf decorator = Z.shiftl 1 k)
  ∧ Forall (λ d, code d = DiagnosticCode.Decorator_0_is_not_valid_here
                 ∨ code d = DiagnosticCode.Duplicate_decorator) reported.

(** ** What resolution leaves alone *)

(** The data of an element without the fields that are assigned after its
    construction: the caches of instances, the partial prototype's type
    arguments and operator kind, the offsets, the accessors of a property,
    and the constructor, overloads and contextual type arguments of a
    class. *)
Definition identityOfData (d : ElementData) : ElementData :=
  match d with
  | FunctionPrototypeD d =>
      FunctionPrototypeD
        {| fp_declaration := fp_declaration d;
           fp_classPrototype := fp_classPrototype d;
           fp_instances := ∅;
           fp_classTypeArguments := None;
           fp_operatorKind := OperatorKind.INVALID |}
  | ClassPrototypeD d =>
      ClassPrototypeD
        {| cp_declaration := cp_declaration d;
           cp_instances := ∅;
           cp_instanceMembers := cp_instanceMembers d;
           cp_basePrototype := cp_basePrototype d;
           cp_constructorPrototype := cp_constructorPrototype d;
           cp_overloadPrototypes := cp_overloadPrototypes d |}
  | ClassD d =>
      ClassD
        {| c_prototype := c_prototype d;
           c_typeArguments := c_typeArguments d;
           c_type := c_type d;
           c_base := c_base d;
           c_contextualTypeArguments := None;
           c_currentMemoryOffset := 0;
           c_constructorInstance := None;
           c_overloads := None |}
  | FieldD prototype type _ => FieldD prototype type 0
  | PropertyD parent _ _ => PropertyD parent None None
  | GlobalData _ | FunctionD _ | FieldPrototypeD _ _ | NoData => d
  end.

(** An element without what is assigned after its construction: its kind,
    simple name, decorators and namespace, and the rest of its data. *)
Definition identityOf (e : Element) : Element :=
  {| kind := kind e; simpleName := simpleName e; internalName := "";
     flags := CommonFlags.NONE; decoratorFlags := decoratorFlags e;
     members := None; namespace := namespace e;
     data := identityOfData (data e) |}.

(** The program without its elements and diagnostics: the options, the
    lookup tables of elements, types and aliases, the exports and the
    well-known prototypes. *)
Definition tablesOf (s : Program) : Program :=
  with_heap [] (with_diagnostics [] s).

(** [s'] is [s] with more diagnostics and more elements: the tables are the
    same, the diagnostics of [s] are the first of [s'], and the elements of
    [s] are the first of [s'] with their identities. *)
Definition grown (s s' : Program) : Prop :=
  tablesOf s' = tablesOf s
  ∧ (∃ reported, diagnostics s' = (diagnostics s ++ reported)%list)
  ∧ (∃ new, identityOf <$> heap s' = ((identityOf <$> heap s) ++ new)%list).

(** A computation only adds diagnostics and elements. *)
Definition Grows {A} (m : M A) : Prop :=
  ∀ s, match m s with
       | Ret _ s' | Throw _ s' => grown s s'
       | OutOfFuel => True
       end.

(** The options are [o], and the types by name are the built-in ones of
    [initialize] (lines 227-244), with ["string"] where the program has
    registered it (line 420). *)
Definition typesKnown (o : Options) (s : Program) : Prop :=
  options s = o
  ∧ (typesLookup s = initialTypesLookup o
     ∨ ∃ type, typesLookup s = <["string" := type]> (initialTypesLookup o)).

(** [name] has a path delimiter in it. *)
Fixpoint hasDelimiter (name : string) : bool :=
  match name with
  | EmptyString => false
  | String c name' =>
      String.eqb (String c EmptyString) PATH_DELIMITER || hasDelimiter name'
  end.

(** ** Enums and variables (program.ts, lines 965-1051 and 1546-1608)

    The fields of the declarations that program.ts reads.  An [Enum] and an
    [EnumValue] are elements without data of their own: the initializer
    reads neither the parent [enum] nor the [constantValue] of a value. *)
Record EnumValueDeclaration : Type := {
  ev_name : string;
  ev_fileLevelInternalName : string
}.

Record EnumDeclaration : Type := {
  en_name : string;
  en_flags : Z;
  en_values : list EnumValueDeclaration;
  en_fileLevelInternalName : string;
  en_source : Source;
  en_ancestors : list NodeKind.t
}.

(** The constructors of [Enum] and [EnumValue] (lines 2362-2372 and
    2386-2397). *)
Definition newEnum (simpleName internalName : string)
    (declaration : EnumDeclaration) : Element :=
  with_flags (en_flags declaration)
    (newElement ElementKind.ENUM simpleName internalName NoData).

Definition newEnumValue (simpleName internalName : string) : Element :=
  newElement ElementKind.ENUMVALUE simpleName internalName NoData.

(** Lines 1022-1045. *)
Definition initializeEnumValue (declaration : EnumValueDeclaration)
    (enm : handle) : M unit :=
  let name := ev_name declaration in
  let internalName := ev_fileLevelInternalName declaration in
  let! e := getElement enm in
  let isModuleExport := is_ e CommonFlags.MODULE_EXPORT in
  let duplicate :=
    match members e with
    | Some m => JSMap.has m name
    | None => false
    end in
  if duplicate then
    error DiagnosticCode.Duplicate_identifier_0 [internalName]
  else
    let! value := alloc (newEnumValue name internalName) in
    do! membersSet enm name value in
    when isModuleExport (updElement value (set_ CommonFlags.MODULE_EXPORT)).

(** Lines 965-1020. *)
Definition initializeEnum (declaration : EnumDeclaration)
    (namespace : option handle) : M unit :=
  let internalName := en_fileLevelInternalName declaration in
  let! lookup := gets elementsLookup in
  if hasKey lookup internalName then
    error DiagnosticCode.Duplicate_identifier_0 [internalName]
  else
    let simpleName := en_name declaration in
    let! element :=
      alloc (with_namespace namespace
               (newEnum simpleName internalName declaration)) in
    do! setElementsLookup internalName element in
    let! e := getElement element in
    let! registered :=
      match namespace with
      | Some ns =>
          let! nse := getElement ns in
          let duplicate :=
            match members nse with
            | Some m => JSMap.has m simpleName
            | None => false
            end in
          if duplicate then
            do! error DiagnosticCode.Duplicate_identifier_0 [internalName] in
            ret false
          else
            do! membersSet ns simpleName element in
            do! when (is_ nse CommonFlags.MODULE_EXPORT)
                  (updElement element (set_ CommonFlags.MODULE_EXPORT)) in
            ret true
      | None =>
          if is_ e CommonFlags.EXPORT then
            let! exports := gets fileLevelExports in
            if hasKey exports internalName then
              do! error DiagnosticCode.Export_declaration_conflicts_with_exported_declaration_of_0
                    [internalName] in
              ret false
            else
              do! setFileLevelExports internalName element in
              if isEntry (en_source declaration) then
                let! moduleExports := gets moduleLevelExports in
                if hasKey moduleExports internalName then
                  do! error DiagnosticCode.Export_declaration_conflicts_with_exported_declaration_of_0
                        [internalName] in
                  ret false
                else
                  do! updElement element (set_ CommonFlags.MODULE_EXPORT) in
                  do! setModuleLevelExports internalName element in
                  ret true
              else ret true
          else ret true
      end in
    if registered then
      do! forEach (en_values declaration)
            (fun value => initializeEnumValue value element) in
      checkGlobalOptions element (en_name declaration)
        (en_source declaration) (en_ancestors declaration)
    else ret tt.

(** One declaration of the loop of [initializeVariables] (lines 1548-1607);
    a [continue] ends the round. *)
Definition initializeVariable (declaration : VariableDeclaration)
    (namespace : option handle) : M unit :=
  let internalName := vd_fileLevelInternalName declaration in
  let! lookup := gets elementsLookup in
  if hasKey lookup internalName then
    error DiagnosticCode.Duplicate_identifier_0 [internalName]
  else
    let simpleName := vd_name declaration in
    let! global :=
      alloc (with_namespace namespace
               (newGlobal simpleName internalName Ty.void
                  (Some (vd_flags declaration)))) in
    do! setElementsLookup internalName global in
    let! g := getElement global in
    let! registered :=
      match namespace with
      | Some ns =>
          let! nse := getElement ns in
          let duplicate :=
            match members nse with
            | Some m => JSMap.has m simpleName
            | None => false
            end in
          if duplicate then
            do! error DiagnosticCode.Duplicate_identifier_0 [internalName] in
            ret false
          else
            do! membersSet ns simpleName global in
            do! when (is_ nse CommonFlags.MODULE_EXPORT
                      && is_ g CommonFlags.EXPORT)
                  (updElement global (set_ CommonFlags.MODULE_EXPORT)) in
            ret true
      | None =>
          if is_ g CommonFlags.EXPORT then
            let! exports := gets fileLevelExports in
            do! (if hasKey exports internalName then
                   error DiagnosticCode.Duplicate_identifier_0 [internalName]
                 else setFileLevelExports internalName global) in
            if isEntry (vd_source declaration) then
              let! moduleExports := gets moduleLevelExports in
              if hasKey moduleExports internalName then
                do! error DiagnosticCode.Duplicate_identifier_0 [internalName] in
                ret false
              else
                do! updElement global (set_ CommonFlags.MODULE_EXPORT) in
                do! setModuleLevelExports internalName global in
                ret true
            else ret true
          else ret true
      end in
    if registered then
      checkGlobalOptions global (vd_name declaration)
        (vd_source declaration) (vd_ancestors declaration)
    else ret tt.

(** [initializeVariables] (lines 1546-1608); [declarations] is
    [statement.declarations]. *)
Definition initializeVariables (declarations : list VariableDeclaration)
    (namespace : option handle) : M unit :=
  forEach declarations (fun declaration =>
    initializeVariable declaration namespace).

(** ** Names that stay bound *)

(** Every name that is bound in [s] is bound to the same element in
    [s']. *)
Definition namesKept (s s' : Program) : Prop :=
  ∀ name element,
    elementsLookup s !! name = Some element →
    elementsLookup s' !! name = Some element.

(** A computation rebinds no name. *)
Definition KeepsNames {A} (m : M A) : Prop :=
  ∀ s, match m s with
       | Ret _ s' | Throw _ s' => namesKept s s'
       | OutOfFuel => True
       end.

(** A computation that starts with the names [lookup] rebinds none of
    them. *)
Definition KeepsNamesFrom (lookup : gmap string handle) {A} (m : M A) : Prop :=
  ∀ s, elementsLookup s = lookup →
       match m s with
       | Ret _ s' | Throw _ s' =>
           ∀ name element,
             lookup !! name = Some element →
             elementsLookup s' !! name = Some element
       | OutOfFuel => True
       end.

(** ** [FunctionPrototype.resolveBuiltinTypeArguments] (lines 2700-2720) *)
Definition resolveBuiltinTypeArguments (typesToString : list Type_ → string)
    (fuel : nat) (this : handle)
    (typeArgumentNodes : option (list CommonTypeNode))
    (contextualTypeArguments : option (gmap string Type_))
    : M (option (list Type_)) :=
  let! p := getElement this in
  do! assert (is_ p CommonFlags.BUILTIN) in
  match typeArgumentNodes with
  | Some typeArgumentNodes =>
      let! types :=
        forLoop (fun resolvedTypeArguments node =>
          let! resolvedType :=
            resolveType typesToString fuel node contextualTypeArguments true in
          match resolvedType with
          | None => ret (Return tt)
          | Some resolvedType =>
              ret (Continue (resolvedTypeArguments ++ [resolvedType])%list)
          end)
          [] typeArgumentNodes in
      match types with
      | Return _ => ret None
      | Continue resolvedTypeArguments => ret (Some resolvedTypeArguments)
      end
  | None => ret None
  end.

(** [resolveType(node, contextualTypeArguments, true)] returns [type] in
    some state. *)
Definition resolvesTo (r : Resolver)
    (contextualTypeArguments : option (gmap string Type_))
    (node : CommonTypeNode) (type : Type_) : Prop :=
  ∃ s1 s2, r_resolveType r node contextualTypeArguments true s1
           = Ret (Some type) s2.

(** ** Class types *)

(** The type of every class refers to the class: [c.type.classReference]
    is [c]. *)
Definition typesReferBack (s : Program) : Prop :=
  ∀ h d, classOf s h = Some d → classReference (c_type d) = Some h.

(** The class prototype that a type name refers to in [resolveType]. *)
Definition classPrototypeNamed (s : Program) (source : Source)
    (simpleName : string) (prototype : handle) : Prop :=
  elementNamed s source simpleName = Some prototype
  ∧ ∃ e, heap s !! prototype = Some e ∧ kind e = ElementKind.CLASS_PROTOTYPE.

(** ** Scenarios

    Small programs, written as the parser would hand them over, on which the
    statements below are run. *)

Definition exampleOptions : Options :=
  {| isizeType := Ty.isize32; usizeType := Ty.usize32; globalAliases := None |}.

(** A canonical key for the scenarios: the names of the types, joined by
    commas; a class type is named by its instance. *)
Definition exampleTypeToString (t : Type_) : string :=
  match classReference t with
  | Some c => "class" +:+ pretty (N.of_nat c)
  | None =>
      match t_kind t with
      | TypeKind.I8 => "i8" | TypeKind.I16 => "i16" | TypeKind.I32 => "i32"
      | TypeKind.I64 => "i64" | TypeKind.ISIZE => "isize"
      | TypeKind.U8 => "u8" | TypeKind.U16 => "u16" | TypeKind.U32 => "u32"
      | TypeKind.U64 => "u64" | TypeKind.USIZE => "usize"
      | TypeKind.BOOL => "bool" | TypeKind.F32 => "f32" | TypeKind.F64 => "f64"
      | TypeKind.VOID => "void"
      end
  end.
Definition exampleTypesToString (types : list Type_) : string :=
  String.concat "," (map exampleTypeToString types).

Definition exampleSource (path : string) (entry : bool) : Source :=
  {| normalizedPath := path +:+ ".ts"; internalPath := path;
     isEntry := entry; isLibrary := false |}.

Definition namedType (source : Source) (name : string) : CommonTypeNode :=
  TypeNode name None source.

Definition instanceField (source : Source) (className name type : string)
    : ClassMember :=
  FieldMember
    {| fd_name := name;
       fd_type := Some (namedType source type);
       fd_flags := CommonFlags.INSTANCE;
       fd_fileLevelInternalName :=
         internalPath source +:+ PATH_DELIMITER +:+ className
           +:+ INSTANCE_DELIMITER +:+ name |}.

Definition plainDecorator (name : string) : DecoratorNode :=
  {| decoratorKind := stringToDecoratorKind name;
     dn_name := Identifier name;
     arguments := None |}.

(** [@operator(symbol) name(other: className): className] *)
Definition operatorMethod (source : Source) (className name symbol : string)
    : ClassMember :=
  MethodMember
    {| fn_name := name;
       fn_nameKind := NodeKind.IDENTIFIER;
       fn_typeParameters := None;
       fn_signature :=
         mkSignatureNode
           [mkParameterNode "other" (Some (namedType source className))
              ParameterKind.DEFAULT]
           (Some (namedType source className)) None;
       fn_flags := CommonFlags.INSTANCE;
       fn_decorators := Some [operatorDecorator symbol];
       fn_fileLevelInternalName :=
         internalPath source +:+ PATH_DELIMITER +:+ className
           +:+ INSTANCE_DELIMITER +:+ name;
       fn_source := source;
       fn_ancestors := [NodeKind.CLASSDECLARATION; NodeKind.SOURCE] |}.

(** [constructor() {}] *)
Definition constructorMethod (source : Source) (className : string) : ClassMember :=
  MethodMember
    {| fn_name := "constructor";
       fn_nameKind := NodeKind.CONSTRUCTOR;
       fn_typeParameters := None;
       fn_signature := mkSignatureNode [] None None;
       fn_flags := CommonFlags.INSTANCE;
       fn_decorators := None;
       fn_fileLevelInternalName :=
         internalPath source +:+ PATH_DELIMITER +:+ className
           +:+ INSTANCE_DELIMITER +:+ "constructor";
       fn_source := source;
       fn_ancestors := [NodeKind.CLASSDECLARATION; NodeKind.SOURCE] |}.

Definition classDeclaration (source : Source) (name : string)
    (extendsName : option string) (decorators : list string)
    (classMembers : list ClassMember) : Statement :=
  ClassDeclarationS
    {| cd_name := name;
       cd_typeParameters := [];
       cd_extendsType := namedType source <$> extendsName;
       cd_implementsTypes := None;
       cd_members := classMembers;
       cd_flags := CommonFlags.NONE;
       cd_decorators := Some (map plainDecorator decorators);
       cd_fileLevelInternalName := internalPath source +:+ PATH_DELIMITER +:+ name;
       cd_programLevelInternalName := internalPath source +:+ PATH_DELIMITER +:+ name;
       cd_source := source;
       cd_ancestors := [NodeKind.SOURCE] |}.

(** [function name(): void {}], with the given flags. *)
Definition functionDeclaration (source : Source) (name : string) (declFlags : Z)
    : Statement :=
  FunctionDeclarationS
    {| fn_name := name;
       fn_nameKind := NodeKind.IDENTIFIER;
       fn_typeParameters := None;
       fn_signature := mkSignatureNode [] (Some (namedType source "void")) None;
       fn_flags := declFlags;
       fn_decorators := None;
       fn_fileLevelInternalName := internalPath source +:+ PATH_DELIMITER +:+ name;
       fn_source := source;
       fn_ancestors := [NodeKind.SOURCE] |}.

(** [export { name }], or [export { name } from "./path"]. *)
Definition exportStatement (source : Source) (name : string)
    (from : option string) : Statement :=
  ExportS
    {| es_members :=
         [{| em_name := {| text := name; id_source := source |};
             em_externalName := {| text := name; id_source := source |};
             em_source := source;
             em_path := from |}];
       es_path := from;
       es_internalPath := from |}.

(** [import { name } from "./path"] *)
Definition importStatement (source : Source) (name path : string) : Statement :=
  ImportS
    {| is_declarations :=
         Some [{| id_name := {| text := name; id_source := source |};
                  id_externalName := {| text := name; id_source := source |};
                  id_fileLevelInternalName :=
                    internalPath source +:+ PATH_DELIMITER +:+ name |}];
       is_namespaceName := None;
       is_path := path;
       is_internalPath := path;
       is_source := source |}.

(** [(a: i32, b?: i32, c: i32, d?: i32)] *)
Definition mixedSignature : SignatureNode :=
  mkSignatureNode
    [mkParameterNode "a" (Some (namedType (exampleSource "a" true) "i32"))
       ParameterKind.DEFAULT;
     mkParameterNode "b" (Some (namedType (exampleSource "a" true) "i32"))
       ParameterKind.OPTIONAL;
     mkParameterNode "c" (Some (namedType (exampleSource "a" true) "i32"))
       ParameterKind.DEFAULT;
     mkParameterNode "d" (Some (namedType (exampleSource "a" true) "i32"))
       ParameterKind.OPTIONAL]
    None None.

(** The signature [(...rest: i32) => void]. *)
Definition restSignature : SignatureNode :=
  mkSignatureNode
    [mkParameterNode "rest" (Some (namedType (exampleSource "a" true) "i32"))
       ParameterKind.REST]
    None None.

(** The state after [initialize] on the given sources, where it returns. *)
Definition initialized (fuel : nat) (sources : list (list Statement)) : Program :=
  match initialize exampleTypesToString fuel exampleOptions sources
          (newProgram exampleOptions) with
  | Ret _ s => s
  | _ => newProgram exampleOptions
  end.

(** The state after [prototype.resolve(null)], where it returns. *)
Definition resolved (fuel : nat) (classPrototype : handle) (s : Program) : Program :=
  match classResolve exampleTypesToString fuel classPrototype None None s with
  | Ret _ s' => s'
  | _ => s
  end.

(** The state after the instantiation part of [prototype.resolve(null)]. *)
Definition instantiated (fuel : nat) (classPrototype : handle) (s : Program)
    : Program :=
  match classInstantiate exampleTypesToString (resolver exampleTypesToString fuel)
          classPrototype None None s with
  | Ret _ s' => s'
  | _ => s
  end.

(** The state after [prototype.resolve()] of a function prototype. *)
Definition functionResolved (fuel : nat) (prototype : handle) (s : Program)
    : Program :=
  match functionResolve exampleTypesToString fuel prototype None None s with
  | Ret _ s' => s'
  | _ => s
  end.

(** The state after one round of the loop over the instance members. *)
Definition memberResolved (fuel : nat) (this instance : handle) (name : string)
    (memoryOffset : Z) (member : handle) (s : Program) : Program :=
  match resolveInstanceMember exampleTypesToString
          (resolver exampleTypesToString fuel) this instance name None
          memoryOffset member s with
  | Ret _ s' => s'
  | _ => s
  end.

(** The state in which the instance of class [h] has the size [size]: a class
    whose fields take that many bytes. *)
Definition withClassSize (h : handle) (size : Z) (s : Program) : Program :=
  match updClass h (c_with_currentMemoryOffset size) s with
  | Ret _ s' => s'
  | _ => s
  end.

Definition entryA : Source := exampleSource "a" true.

(** S3: [class A { x: i8; y: i32 }] *)
Definition scenarioFields : list (list Statement) :=
  [[classDeclaration entryA "A" None []
      [instanceField entryA "A" "x" "i8"; instanceField entryA "A" "y" "i32"]]].

(** S4: [class A {}], [@sealed class B extends A {}], [class C extends B {}] *)
Definition scenarioSealed : list (list Statement) :=
  [[classDeclaration entryA "A" None [] [];
    classDeclaration entryA "B" (Some "A") ["sealed"] [];
    classDeclaration entryA "C" (Some "B") [] []]].

(** S5: [class Vec] with two methods annotated [@operator("+")] *)
Definition scenarioOperators : list (list Statement) :=
  [[classDeclaration entryA "Vec" None []
      [operatorMethod entryA "Vec" "add" "+";
       operatorMethod entryA "Vec" "plus" "+"]]].

(** [class Node { next: Node }] *)
Definition scenarioSelfReference : list (list Statement) :=
  [[classDeclaration entryA "Node" None []
      [instanceField entryA "Node" "next" "Node"]]].

(** [class B { a: A }], [class A extends B {}] *)
Definition scenarioBaseRefersToDerived : list (list Statement) :=
  [[classDeclaration entryA "B" None [] [instanceField entryA "B" "a" "A"];
    classDeclaration entryA "A" (Some "B") [] []]].

(** [class Big {}], [class D extends Big { h: i32 }] *)
Definition scenarioDerivedField : list (list Statement) :=
  [[classDeclaration entryA "Big" None [] [];
    classDeclaration entryA "D" (Some "Big") []
      [instanceField entryA "D" "h" "i32"]]].

(** [class K { constructor() {} }] *)
Definition scenarioConstructor : list (list Statement) :=
  [[classDeclaration entryA "K" None [] [constructorMethod entryA "K"]]].

(** a.ts: [export { x } from "./b"]; b.ts: [export { x } from "./a"];
    c.ts: [import { x } from "./b"] *)
Definition scenarioExportCycle : list (list Statement) :=
  [[exportStatement (exampleSource "a" false) "x" (Some "b")];
   [exportStatement (exampleSource "b" false) "x" (Some "a")];
   [importStatement (exampleSource "c" true) "x" "b"]].

(** The entry file a.ts: [export { f }; function f(): void {}] *)
Definition scenarioExportStatement : list (list Statement) :=
  [[exportStatement entryA "f" None;
    functionDeclaration entryA "f" CommonFlags.NONE]].

(** The entry file a.ts: [export function f(): void {}] *)
Definition scenarioExportedDeclaration : list (list Statement) :=
  [[functionDeclaration entryA "f" CommonFlags.EXPORT]].

(** *** Scenarios for frames and lookups *)

(** [class Vec] with [@operator("+") add], and [class Vec3 extends Vec {}] *)
Definition scenarioInheritedOperator : list (list Statement) :=
  [[classDeclaration entryA "Vec" None [] [operatorMethod entryA "Vec" "add" "+"];
    classDeclaration entryA "Vec3" (Some "Vec") [] []]].

(** A mapping of types to native types for the scenarios: by kind, and by
    width for the types of pointer size. *)
Definition exampleToNativeType (type : Type_) : NativeType.t :=
  match t_kind type with
  | TypeKind.I64 | TypeKind.U64 => NativeType.I64
  | TypeKind.ISIZE | TypeKind.USIZE =>
      if t_size type =? 64 then NativeType.I64 else NativeType.I32
  | TypeKind.F32 => NativeType.F32
  | TypeKind.F64 => NativeType.F64
  | TypeKind.VOID => NativeType.OTHER
  | _ => NativeType.I32
  end.

(** The signature [(x: i32) => void]. *)
Definition exampleSignature : Signature :=
  mkSignature [Ty.i32] ["x"] 1 false Ty.void None.

(** The frame of a function [f(x: i32): void] as its constructor leaves
    it. *)
Definition exampleFrame : Frame.t :=
  frameOf (newElement ElementKind.FUNCTION "f" "a/f" NoData)
    {| f_prototype := 0%nat;
       f_signature := exampleSignature;
       f_memberOf := None;
       f_locals := [("x", (0, Ty.i32))];
       f_contextualTypeArguments := None |}.

(** The frame after a computation, where it returns. *)
Definition frameAfter {A} (m : Frame.M A) (s : Frame.t) : Frame.t :=
  match m s with
  | Frame.Ret _ s' => s'
  | _ => s
  end.

(** The frame with the flow of the function, flow [0]. *)
Definition frameWithFlow : Frame.t := frameAfter Frame.flowCreate exampleFrame.

(** The frame in a branch of the flow of the function, flow [1]. *)
Definition frameInBranch : Frame.t :=
  frameAfter (Frame.enterBranchOrScope 0%nat) frameWithFlow.

(** The declaration of a variable [name] of the entry file a.ts. *)
Definition variableDeclaration (name : string) (declFlags : Z)
    : VariableDeclaration :=
  {| vd_name := name;
     vd_flags := declFlags;
     vd_fileLevelInternalName := internalPath entryA +:+ PATH_DELIMITER +:+ name;
     vd_source := entryA;
     vd_ancestors := [NodeKind.VARIABLE; NodeKind.SOURCE] |}.

(** The frame after [let y: i32] in the branch. *)
Definition frameScoped : Frame.t :=
  frameAfter
    (Frame.addScopedLocal exampleToNativeType 1%nat Ty.i32 "y"
       (Some (variableDeclaration "y" CommonFlags.NONE)))
    frameInBranch.

(** The frame after a temporary local of type [i64] was taken and freed. *)
Definition frameWithTemp : Frame.t :=
  frameAfter (Frame.getAndFreeTempLocal exampleToNativeType Ty.i64) exampleFrame.

(** A program whose only alias is [type A = A]. *)
Definition programWithCyclicAlias : Program :=
  with_typeAliases
    {["A" := {| ta_typeParameters := None; ta_type := namedType entryA "A" |}]}
    (newProgram exampleOptions).

(** * Properties *)

(** ** Insertion-ordered maps *)

Lemma JSMap_get_set_same {K V : Type} `{EqDecision K} (m : list (K * V)) k v :
  JSMap.get (JSMap.set m k v) k = Some v.
Proof.
  induction m as [|[k' v'] m IH]; simpl.
  - destruct (decide (k = k)); congruence.
  - destruct (decide (k' = k)) as [->|Hne]; simpl.
    + destruct (decide (k = k)); congruence.
    + destruct (decide (k' = k)); congruence.
Qed.

Lemma JSMap_get_set_other {K V : Type} `{EqDecision K} (m : list (K * V)) k k' v :
  k ≠ k' → JSMap.get (JSMap.set m k v) k' = JSMap.get m k'.
Proof.
  intros Hne. induction m as [|[k0 v0] m IH]; simpl.
  - destruct (decide (k = k')); congruence.
  - destruct (decide (k0 = k)) as [->|Hne0]; simpl.
    + destruct (decide (k = k')); congruence.
    + destruct (decide (k0 = k')); congruence.
Qed.

Lemma JSMap_set_present {K V : Type} `{EqDecision K} (m : list (K * V)) k v :
  JSMap.has m k = true → map fst (JSMap.set m k v) = map fst m.
Proof.
  unfold JSMap.has. induction m as [|[k0 v0] m IH]; simpl; [discriminate|].
  destruct (decide (k0 = k)) as [->|Hne]; simpl; [reflexivity|].
  intros H. f_equal. apply IH, H.
Qed.

(** ** The computation monad *)

Lemma bind_Ret {A B} (m : M A) (k : A → M B) s a s1 :
  m s = Ret a s1 → bind m k s = k a s1.
Proof. unfold bind. intros ->. reflexivity. Qed.

Lemma bind_Throw {A B} (m : M A) (k : A → M B) s e s1 :
  m s = Throw e s1 → bind m k s = Throw e s1.
Proof. unfold bind. intros ->. reflexivity. Qed.

Lemma bind_OutOfFuel {A B} (m : M A) (k : A → M B) s :
  m s = OutOfFuel → bind m k s = OutOfFuel.
Proof. unfold bind. intros ->. reflexivity. Qed.

Lemma bind_assoc {A B C} (m : M A) (k1 : A → M B) (k2 : B → M C) s :
  bind (bind m k1) k2 s = bind m (fun a => bind (k1 a) k2) s.
Proof. unfold bind. destruct (m s); reflexivity. Qed.

(** Runs the first call of a computation whose result is known. *)
Ltac mrun H := rewrite ?bind_assoc; rewrite (bind_Ret _ _ _ _ _ H).

Lemma bind_Ret_inv {A B} (m : M A) (k : A → M B) s b s' :
  bind m k s = Ret b s' → ∃ a s1, m s = Ret a s1 ∧ k a s1 = Ret b s'.
Proof.
  unfold bind. destruct (m s) as [a s1| |]; try discriminate. eauto.
Qed.

Lemma getElement_Ret s h e : heap s !! h = Some e → getElement h s = Ret e s.
Proof. unfold getElement. intros ->. reflexivity. Qed.

Lemma getElement_Ret_inv s h e s' :
  getElement h s = Ret e s' → heap s !! h = Some e ∧ s' = s.
Proof.
  unfold getElement. destruct (heap s !! h); intros H; inversion H; auto.
Qed.

Lemma getClassPrototype_Ret s h e d :
  heap s !! h = Some e → data e = ClassPrototypeD d →
  getClassPrototype h s = Ret d s.
Proof.
  intros He Hd. unfold getClassPrototype.
  rewrite (bind_Ret _ _ _ _ _ (getElement_Ret _ _ _ He)), Hd. reflexivity.
Qed.

Lemma getFunctionPrototype_Ret s h e d :
  heap s !! h = Some e → data e = FunctionPrototypeD d →
  getFunctionPrototype h s = Ret d s.
Proof.
  intros He Hd. unfold getFunctionPrototype.
  rewrite (bind_Ret _ _ _ _ _ (getElement_Ret _ _ _ He)), Hd. reflexivity.
Qed.

Lemma getClass_Ret s h e d :
  heap s !! h = Some e → data e = ClassD d → getClass h s = Ret d s.
Proof.
  intros He Hd. unfold getClass.
  rewrite (bind_Ret _ _ _ _ _ (getElement_Ret _ _ _ He)), Hd. reflexivity.
Qed.

Lemma getClass_Ret_inv s h d s' :
  getClass h s = Ret d s' → classOf s h = Some d ∧ s' = s.
Proof.
  unfold getClass, classOf. intros H.
  apply bind_Ret_inv in H as (e & s1 & He & Hd).
  apply getElement_Ret_inv in He as [He ->]. rewrite He.
  destruct (data e); inversion Hd; auto.
Qed.

Lemma updElement_Ret s h e f :
  heap s !! h = Some e →
  updElement h f s = Ret tt (with_heap (<[h := f e]> (heap s)) s).
Proof. unfold updElement. intros ->. reflexivity. Qed.

Lemma updClassPrototype_Ret s h e d f :
  heap s !! h = Some e → data e = ClassPrototypeD d →
  updClassPrototype h f s
  = Ret tt (with_heap (<[h := with_data (ClassPrototypeD (f d)) e]> (heap s)) s).
Proof.
  intros He Hd. unfold updClassPrototype.
  rewrite (bind_Ret _ _ _ _ _ (getClassPrototype_Ret _ _ _ _ He Hd)).
  apply updElement_Ret, He.
Qed.

Lemma updFunctionPrototype_Ret s h e d f :
  heap s !! h = Some e → data e = FunctionPrototypeD d →
  updFunctionPrototype h f s
  = Ret tt (with_heap (<[h := with_data (FunctionPrototypeD (f d)) e]> (heap s)) s).
Proof.
  intros He Hd. unfold updFunctionPrototype.
  rewrite (bind_Ret _ _ _ _ _ (getFunctionPrototype_Ret _ _ _ _ He Hd)).
  apply updElement_Ret, He.
Qed.

Lemma updClass_Ret s h e d f :
  heap s !! h = Some e → data e = ClassD d →
  updClass h f s
  = Ret tt (with_heap (<[h := with_data (ClassD (f d)) e]> (heap s)) s).
Proof.
  intros He Hd. unfold updClass.
  rewrite (bind_Ret _ _ _ _ _ (getClass_Ret _ _ _ _ He Hd)).
  apply updElement_Ret, He.
Qed.

Lemma getClassPrototype_Ret_inv s h d s' :
  getClassPrototype h s = Ret d s' →
  ∃ e, heap s !! h = Some e ∧ data e = ClassPrototypeD d ∧ s' = s.
Proof.
  unfold getClassPrototype. intros H.
  apply bind_Ret_inv in H as (e & s1 & He & Hd).
  apply getElement_Ret_inv in He as [He ->].
  exists e. destruct (data e); inversion Hd; subst; auto.
Qed.

Lemma updElement_Ret_inv s h f u s' :
  updElement h f s = Ret u s' →
  ∃ e, heap s !! h = Some e ∧ s' = with_heap (<[h := f e]> (heap s)) s.
Proof.
  unfold updElement. destruct (heap s !! h) as [e|]; intros H; inversion H. eauto.
Qed.

Lemma updClass_Ret_inv s h f u s' :
  updClass h f s = Ret u s' →
  ∃ e d, heap s !! h = Some e ∧ data e = ClassD d
         ∧ s' = with_heap (<[h := with_data (ClassD (f d)) e]> (heap s)) s.
Proof.
  unfold updClass. intros H.
  apply bind_Ret_inv in H as (d & s1 & Hd & H).
  unfold getClass in Hd. apply bind_Ret_inv in Hd as (e & s2 & He & Hd).
  apply getElement_Ret_inv in He as [He ->].
  destruct (data e) eqn:Hdata; inversion Hd; subst.
  apply updElement_Ret_inv in H as (e' & He' & ->).
  rewrite He in He'. inversion He'; subst. eauto.
Qed.

Lemma updClassPrototype_Ret_inv s h f u s' :
  updClassPrototype h f s = Ret u s' →
  ∃ e d, heap s !! h = Some e ∧ data e = ClassPrototypeD d
         ∧ s' = with_heap (<[h := with_data (ClassPrototypeD (f d)) e]> (heap s)) s.
Proof.
  unfold updClassPrototype. intros H.
  apply bind_Ret_inv in H as (d & s1 & Hd & H).
  apply getClassPrototype_Ret_inv in Hd as (e & He & Hdata & ->).
  apply updElement_Ret_inv in H as (e' & He' & ->).
  rewrite He in He'. inversion He'; subst. eauto.
Qed.

(** ** Operator decorators *)

Lemma operatorKindFromString_recognized (str : string) :
  operatorKindFromString str ≠ OperatorKind.INVALID ↔ In str operatorSymbols.
Proof.
  split.
  - unfold operatorKindFromString, operatorSymbols. intros H.
    repeat match type of H with
    | context [String.eqb str ?c] =>
        let E := fresh "E" in
        destruct (String.eqb str c) eqn:E;
        [apply String.eqb_eq in E; subst str; simpl; tauto|]
    end.
    congruence.
  - unfold operatorSymbols. simpl. intros H.
    repeat (destruct H as [<-|H]; [vm_compute; discriminate|]).
    destruct H.
Qed.

Lemma operatorKindFromString_injective (a b : string) :
  In a operatorSymbols → In b operatorSymbols →
  operatorKindFromString a = operatorKindFromString b → a = b.
Proof.
  unfold operatorSymbols. simpl. intros Ha Hb.
  repeat (destruct Ha as [<-|Ha]);
    try (destruct Ha);
    repeat (destruct Hb as [<-|Hb]);
    try (destruct Hb);
    vm_compute; intros H; first [reflexivity | discriminate H].
Qed.

Lemma operatorKindOf_inv s h k :
  operatorKindOf s h = Some k →
  ∃ e d, heap s !! h = Some e ∧ data e = FunctionPrototypeD d ∧ fp_operatorKind d = k.
Proof.
  unfold operatorKindOf. destruct (heap s !! h) as [e|]; [|discriminate].
  destruct (data e) eqn:E; try discriminate. intros [= <-]. eauto.
Qed.

Lemma overloadPrototypesOf_inv s h m :
  overloadPrototypesOf s h = Some m →
  ∃ e d, heap s !! h = Some e ∧ data e = ClassPrototypeD d
         ∧ cp_overloadPrototypes d = m.
Proof.
  unfold overloadPrototypesOf. destruct (heap s !! h) as [e|]; [|discriminate].
  destruct (data e) eqn:E; try discriminate. intros [= <-]. eauto.
Qed.

(** C6.  [operatorKindFromString] maps exactly the seventeen symbols
    [[] []= + - * / % ** & | ^ == != > >= < <=] to an operator kind, each to a
    different one.  [@operator("symbol")] on a method of a class: an unknown
    symbol emits "Operation not supported" and changes nothing else; a symbol
    whose kind the class's overload map already holds emits "Duplicate
    function implementation", and the map keeps the prototype it held and the
    method's [operatorKind] stays as it was; otherwise the method's
    [operatorKind] is set to the kind, the map gets the method under the kind,
    and nothing is emitted. *)
Theorem operator_decorator_spec :
  (∀ str, operatorKindFromString str ≠ OperatorKind.INVALID
          ↔ In str operatorSymbols)
  ∧ (∀ a b, In a operatorSymbols → In b operatorSymbols →
            operatorKindFromString a = operatorKindFromString b → a = b)
  ∧ (∀ s prototype classPrototype symbol kind0 overloads,
       operatorKindOf s prototype = Some kind0 →
       overloadPrototypesOf s classPrototype = Some overloads →
       ∃ s',
         checkOperatorDecorator prototype classPrototype
           (operatorDecorator symbol) s = Ret tt s'
         ∧ let kind := operatorKindFromString symbol in
           if decide (kind = OperatorKind.INVALID) then
             s' = withError DiagnosticCode.Operation_not_supported [] s
           else
             match JSMap.get overloads kind with
             | Some first =>
                 s' = withError DiagnosticCode.Duplicate_function_implementation [] s
                 ∧ overloadPrototypesOf s' classPrototype = Some overloads
                 ∧ operatorKindOf s' prototype = Some kind0
             | None =>
                 operatorKindOf s' prototype = Some kind
                 ∧ (overloadPrototypesOf s' classPrototype
                      ≫= λ m, JSMap.get m kind) = Some prototype
                 ∧ diagnostics s' = diagnostics s
             end).
Proof.
  split; [exact operatorKindFromString_recognized|].
  split; [exact operatorKindFromString_injective|].
  intros s prototype classPrototype symbol kind0 overloads Hp Hc.
  apply operatorKindOf_inv in Hp as (pe & pd & Hpe & Hpd & Hk0).
  apply overloadPrototypesOf_inv in Hc as (ce & cd & Hce & Hcd & Hov).
  assert (Hne : prototype ≠ classPrototype).
  { intros ->. rewrite Hpe in Hce. injection Hce as ->. congruence. }
  unfold checkOperatorDecorator, operatorDecorator. cbn.
  rewrite !decide_True by reflexivity.
  change (bind (ret ?x) ?k) with (k x). cbv beta iota.
  destruct (decide (operatorKindFromString symbol = OperatorKind.INVALID))
    as [Hinv|Hval].
  - eexists. split; reflexivity.
  - rewrite (bind_Ret _ _ _ _ _ (getClassPrototype_Ret _ _ _ _ Hce Hcd)).
    rewrite Hov. unfold JSMap.has.
    destruct (JSMap.get overloads (operatorKindFromString symbol)) as [first|] eqn:Hget.
    + eexists. split; [reflexivity|]. split; [reflexivity|].
      unfold overloadPrototypesOf, operatorKindOf, withError. cbn.
      rewrite Hce, Hcd, Hpe, Hpd, Hov, Hk0. auto.
    + rewrite (bind_Ret _ _ _ _ _ (updFunctionPrototype_Ret _ _ _ _ _ Hpe Hpd)).
      set (s1 := with_heap _ s).
      assert (Hce1 : heap s1 !! classPrototype = Some ce).
      { subst s1. cbn. rewrite list_lookup_insert_ne by exact Hne. exact Hce. }
      rewrite (updClassPrototype_Ret _ _ _ _ _ Hce1 Hcd).
      eexists. split; [reflexivity|].
      assert (Hlp : (prototype < length (heap s))%nat)
        by (eapply lookup_lt_Some; eassumption).
      assert (Hlc : (classPrototype < length (heap s1))%nat)
        by (eapply lookup_lt_Some; eassumption).
      unfold operatorKindOf, overloadPrototypesOf. cbn.
      rewrite list_lookup_insert_ne by (intros E; apply Hne; symmetry; exact E).
      rewrite list_lookup_insert_eq by exact Hlp.
      rewrite list_lookup_insert_eq by exact Hlc.
      cbn. rewrite Hov, JSMap_get_set_same. auto.
Qed.

(** C6, on scenario S5: the second method annotated [@operator("+")] of
    [Vec]. *)
Lemma operator_decorator_spec_witness :
  operatorKindOf (initialized 10 scenarioOperators) 2%nat
    = Some OperatorKind.INVALID
  ∧ overloadPrototypesOf (initialized 10 scenarioOperators) 0%nat
    = Some [(OperatorKind.ADD, 1%nat)]
  ∧ ∃ s',
      checkOperatorDecorator 2%nat 0%nat (operatorDecorator "+")
        (initialized 10 scenarioOperators) = Ret tt s'
      ∧ s' = withError DiagnosticCode.Duplicate_function_implementation []
               (initialized 10 scenarioOperators)
      ∧ overloadPrototypesOf s' 0%nat = Some [(OperatorKind.ADD, 1%nat)]
      ∧ operatorKindOf s' 2%nat = Some OperatorKind.INVALID.
Proof.
  assert (H1 : operatorKindOf (initialized 10 scenarioOperators) 2%nat
               = Some OperatorKind.INVALID) by (vm_compute; reflexivity).
  assert (H2 : overloadPrototypesOf (initialized 10 scenarioOperators) 0%nat
               = Some [(OperatorKind.ADD, 1%nat)]) by (vm_compute; reflexivity).
  split; [exact H1|]. split; [exact H2|].
  exact (proj2 (proj2 operator_decorator_spec) _ 2%nat 0%nat "+" _ _ H1 H2).
Defined.

(** ** Imports and exports *)

Lemma tryResolveImport_returns s queuedExports name n :
  chainEnds s queuedExports name n →
  ∀ fuel, (n < fuel)%nat →
    ∃ element, tryResolveImport fuel name queuedExports s = Ret element s.
Proof.
  induction 1 as [name n element Hfile|name n Hfile Hget
                 |name n qe Hfile Hget Hre|name n qe Hfile Hget Hre _ IH];
    intros [|fuel] Hfuel; try lia;
    cbn [tryResolveImport]; unfold bind at 1, gets; rewrite Hfile.
  - eauto.
  - rewrite Hget. eauto.
  - rewrite Hget, Hre. eauto.
  - rewrite Hget, Hre. apply IH. lia.
Qed.

Lemma tryResolveImport_Ret_inv fuel :
  ∀ name queuedExports s element s',
    tryResolveImport fuel name queuedExports s = Ret element s' →
    s' = s ∧ chainEnds s queuedExports name fuel.
Proof.
  induction fuel as [|fuel IH]; intros name queuedExports s element s' Hrun;
    [discriminate Hrun|].
  cbn [tryResolveImport] in Hrun. unfold bind at 1, gets in Hrun.
  destruct (fileLevelExports s !! name) as [e|] eqn:Hfile.
  { injection Hrun as _ <-. split; [reflexivity|]. eapply chainEnds_export, Hfile. }
  destruct (JSMap.get queuedExports name) as [qe|] eqn:Hget.
  2:{ injection Hrun as _ <-. split; [reflexivity|].
      apply chainEnds_unknown; assumption. }
  destruct (qe_isReExport qe) eqn:Hre.
  - apply IH in Hrun as [-> Hchain]. split; [reflexivity|].
    eapply chainEnds_link; eassumption.
  - injection Hrun as _ <-. split; [reflexivity|].
    eapply chainEnds_local; eassumption.
Qed.

Lemma tryResolveImport_no_Throw fuel :
  ∀ name queuedExports s e s',
    tryResolveImport fuel name queuedExports s ≠ Throw e s'.
Proof.
  induction fuel as [|fuel IH]; intros name queuedExports s e s' Hrun;
    [discriminate Hrun|].
  cbn [tryResolveImport] in Hrun. unfold bind at 1, gets in Hrun.
  destruct (fileLevelExports s !! name); [discriminate Hrun|].
  destruct (JSMap.get queuedExports name) as [qe|]; [|discriminate Hrun].
  destruct (qe_isReExport qe); [exact (IH _ _ _ _ _ Hrun)|discriminate Hrun].
Qed.

(** Inside a loop of re-exports no chain ends. *)
Lemma reexportLoop_no_end s queuedExports names :
  reexportLoop s queuedExports names →
  ∀ name n, names name → ¬ chainEnds s queuedExports name n.
Proof.
  intros Hloop name n Hname Hchain. revert Hname.
  induction Hchain as [name n element Hfile|name n Hfile Hget
                      |name n qe Hfile Hget Hre|name n qe Hfile Hget Hre _ IH];
    intros Hname;
    destruct (Hloop name Hname) as (Hfile' & qe' & Hget' & Hre' & Hnext);
    [congruence..|].
  apply IH. congruence.
Qed.

(** C3.  [tryResolveImport] does not return on a cycle of re-exports: where
    the referenced name lies in a set of names that the re-exports do not
    lead out of, the loop uses up any fuel it is given.  The files a.ts
    [export { x } from "./b"], b.ts [export { x } from "./a"] and c.ts
    [import { x } from "./b"] are such a case: after the statements are
    initialized, the queued export "b/x" is a re-export of "b/x", so that
    neither [tryResolveImport] on "b/x" nor [initialize] returns. *)
Theorem tryResolveImport_export_cycle_diverges :
  (∀ s queuedExports names name,
     reexportLoop s queuedExports names → names name →
     ∀ fuel, tryResolveImport fuel name queuedExports s = OutOfFuel)
  ∧ ∀ fuel,
      (let! q := initializeStatements scenarioExportCycle in
       tryResolveImport fuel "b/x" (queuedExports q))
        (newProgram exampleOptions) = OutOfFuel
      ∧ initialize exampleTypesToString fuel exampleOptions scenarioExportCycle
          (newProgram exampleOptions) = OutOfFuel.
Proof.
  assert (Hgeneral : ∀ s queuedExports names name,
            reexportLoop s queuedExports names → names name →
            ∀ fuel, tryResolveImport fuel name queuedExports s = OutOfFuel).
  { intros s queuedExports names name Hloop Hname fuel.
    destruct (tryResolveImport fuel name queuedExports s)
      as [element s'|e s'|] eqn:Hrun; [| |reflexivity].
    - apply tryResolveImport_Ret_inv in Hrun as [_ Hchain].
      destruct (reexportLoop_no_end _ _ _ Hloop _ _ Hname Hchain).
    - destruct (tryResolveImport_no_Throw _ _ _ _ _ _ Hrun). }
  assert (Hself : ∀ s queuedExports e,
            fileLevelExports s !! "b/x" = None →
            JSMap.get queuedExports "b/x" = Some e →
            qe_isReExport e = true → qe_referencedName e = "b/x" →
            ∀ fuel, tryResolveImport fuel "b/x" queuedExports s = OutOfFuel).
  { intros s queuedExports e Hfile Hget Hre Href.
    apply (Hgeneral s queuedExports (λ name, name = "b/x")); [|reflexivity].
    intros name ->. split; [exact Hfile|]. exists e. auto. }
  split; [exact Hgeneral|]. intros fuel. split.
  - assert (Hpass : ∃ q s, initializeStatements scenarioExportCycle
                             (newProgram exampleOptions) = Ret q s
                           ∧ fileLevelExports s !! "b/x" = None
                           ∧ ∃ e, JSMap.get (queuedExports q) "b/x" = Some e
                                  ∧ qe_isReExport e = true
                                  ∧ qe_referencedName e = "b/x").
    { eexists _, _. split; [vm_compute; reflexivity|].
      split; [vm_compute; reflexivity|].
      eexists. split; [vm_compute; reflexivity|]. split; reflexivity. }
    destruct Hpass as (q & s & Hq & Hfile & e & Hget & Hre & Href).
    rewrite (bind_Ret _ _ _ _ _ Hq).
    exact (Hself s _ e Hfile Hget Hre Href fuel).
  - unfold initialize.
    assert (Hpass : ∃ q s,
              (do! modify (with_options exampleOptions) in
               do! modify (with_typesLookup (initialTypesLookup exampleOptions)) in
               initializeStatements scenarioExportCycle)
                (newProgram exampleOptions) = Ret q s
              ∧ fileLevelExports s !! "b/x" = None
              ∧ (∃ i, queuedImports q = [i] ∧ qi_referencedName i = "b/x")
              ∧ ∃ e, JSMap.get (queuedExports q) "b/x" = Some e
                     ∧ qe_isReExport e = true
                     ∧ qe_referencedName e = "b/x").
    { eexists _, _. split; [vm_compute; reflexivity|].
      split; [vm_compute; reflexivity|].
      split; [eexists; split; vm_compute; reflexivity|].
      eexists. split; [vm_compute; reflexivity|]. split; reflexivity. }
    destruct Hpass as (q & s & Hq & Hfile & (i & Hi & Hiref) & e & Hget & Hre & Href).
    unfold bind at 1 2 3. unfold bind at 1 2 in Hq.
    destruct (modify (with_options exampleOptions) (newProgram exampleOptions))
      as [[] s1| |]; try discriminate Hq.
    destruct (modify (with_typesLookup (initialTypesLookup exampleOptions)) s1)
      as [[] s2| |]; try discriminate Hq.
    rewrite Hq, Hi. apply bind_OutOfFuel. cbn [forEach].
    apply bind_OutOfFuel. unfold drainQueuedImport. apply bind_OutOfFuel.
    rewrite Hiref.
    exact (Hself s _ e Hfile Hget Hre Href fuel).
Qed.

(** [tryResolveImport] never raises and leaves the program as it is.  It
    returns exactly when the chain of re-exports from the referenced name
    ends: a chain of [n] links is followed in [n + 1] rounds of the loop, and
    where the loop returns within [fuel] rounds the chain ends within [fuel]
    links.  On a chain that does not end it does not return. *)
Theorem tryResolveImport_returns_iff_chain_ends :
  ∀ s queuedExports name,
    (∀ n, chainEnds s queuedExports name n →
       ∀ fuel, (n < fuel)%nat →
         ∃ element, tryResolveImport fuel name queuedExports s = Ret element s)
    ∧ (∀ fuel element s',
         tryResolveImport fuel name queuedExports s = Ret element s' →
         s' = s ∧ chainEnds s queuedExports name fuel)
    ∧ (∀ fuel e s', tryResolveImport fuel name queuedExports s ≠ Throw e s')
    ∧ ((∀ n, ¬ chainEnds s queuedExports name n) →
       ∀ fuel, tryResolveImport fuel name queuedExports s = OutOfFuel).
Proof.
  intros s queuedExports name.
  split; [intros n Hchain; exact (tryResolveImport_returns _ _ _ _ Hchain)|].
  split; [intros fuel element s'; apply tryResolveImport_Ret_inv|].
  split; [intros fuel e s'; apply tryResolveImport_no_Throw|].
  intros Hnone fuel.
  destruct (tryResolveImport fuel name queuedExports s) as [element s'|e s'|] eqn:Hrun.
  - apply tryResolveImport_Ret_inv in Hrun as [_ Hchain].
    destruct (Hnone fuel Hchain).
  - destruct (tryResolveImport_no_Throw _ _ _ _ _ _ Hrun).
  - reflexivity.
Qed.

Section Relates.
Variable R : Program → Program → Prop.
Hypothesis R_refl : ∀ s, R s s.
Hypothesis R_trans : ∀ s1 s2 s3, R s1 s2 → R s2 s3 → R s1 s3.

Lemma Relates_ret {A} (a : A) : Relates R (ret a).
Proof. intros s a' s' [= <- <-]. apply R_refl. Qed.

Lemma Relates_throw {A} e : Relates R (throw (A := A) e).
Proof. intros s a s' [=]. Qed.

Lemma Relates_outOfFuel {A} : Relates R (outOfFuel (A := A)).
Proof. intros s a s' [=]. Qed.

Lemma Relates_gets {A} (f : Program → A) : Relates R (gets f).
Proof. intros s a s' [= <- <-]. apply R_refl. Qed.

Lemma Relates_deref {A} (o : option A) : Relates R (deref o).
Proof. destruct o; [apply Relates_ret|apply Relates_throw]. Qed.

Lemma Relates_bind {A B} (m : M A) (k : A → M B) :
  Relates R m → (∀ a, Relates R (k a)) → Relates R (bind m k).
Proof.
  intros Hm Hk s b s' H. apply bind_Ret_inv in H as (a & s1 & Ha & H).
  exact (R_trans _ _ _ (Hm _ _ _ Ha) (Hk _ _ _ _ H)).
Qed.

Lemma Relates_foldM {A B} (body : B → A → M B) b (l : list A) :
  (∀ b a, Relates R (body b a)) → Relates R (foldM body b l).
Proof.
  intros Hbody. revert b. induction l as [|a l IH]; intros b;
    [apply Relates_ret|].
  apply Relates_bind; [apply Hbody|]. intros b'. apply IH.
Qed.

End Relates.

Lemma moduleExportsKept_refl s : moduleExportsKept s s.
Proof. split; reflexivity. Qed.

Lemma moduleExportsKept_trans s1 s2 s3 :
  moduleExportsKept s1 s2 → moduleExportsKept s2 s3 → moduleExportsKept s1 s3.
Proof.
  intros [H1 H1'] [H2 H2']. split; [congruence|].
  intros h. rewrite H2', H1'. reflexivity.
Qed.

Lemma moduleExportsKept_error code args :
  Relates moduleExportsKept (error code args).
Proof. intros s a s' [= <- <-]. split; reflexivity. Qed.

(** [setExportAndCheckLibrary] sets the file-level export, and neither a
    module-level export nor a flag. *)
Lemma setExportAndCheckLibrary_effect name element identifier s u s' :
  setExportAndCheckLibrary name element identifier s = Ret u s' →
  fileLevelExports s' = <[name := element]> (fileLevelExports s)
  ∧ moduleExportsKept s s'.
Proof.
  unfold setExportAndCheckLibrary, setFileLevelExports, setElementsLookup.
  unfold bind at 1. cbn [modify].
  destruct (isLibrary (id_source identifier));
    [|intros [= <- <-]; repeat split].
  unfold bind at 1. cbn [gets].
  destruct (hasKey _ _); [intros [= <- <-]; repeat split|].
  intros H. apply bind_Ret_inv in H as (u1 & s1 & Hupd & H).
  apply updElement_Ret_inv in Hupd as (e & He & ->).
  injection H as <- <-. cbn. split; [reflexivity|]. split; [reflexivity|].
  intros h. unfold flagsOf. cbn.
  destruct (decide (element = h)) as [<-|Hne].
  - rewrite list_lookup_insert_eq by (eapply lookup_lt_Some, He).
    cbn in He. unfold handle in *. rewrite He. reflexivity.
  - rewrite list_lookup_insert_ne by exact Hne. reflexivity.
Qed.

Lemma moduleExportsKept_setExportAndCheckLibrary name element identifier :
  Relates moduleExportsKept (setExportAndCheckLibrary name element identifier).
Proof. intros s u s' H. apply (setExportAndCheckLibrary_effect _ _ _ _ _ _ H). Qed.

Ltac relates :=
  repeat lazymatch goal with
    | |- Relates _ (ret _) => apply Relates_ret, moduleExportsKept_refl
    | |- Relates _ (throw _) => apply Relates_throw
    | |- Relates _ outOfFuel => apply Relates_outOfFuel
    | |- Relates _ (gets _) => apply Relates_gets, moduleExportsKept_refl
    | |- Relates _ (deref _) => apply Relates_deref, moduleExportsKept_refl
    | |- Relates _ (error _ _) => apply moduleExportsKept_error
    | |- Relates _ (setExportAndCheckLibrary _ _ _) =>
        apply moduleExportsKept_setExportAndCheckLibrary
    | |- Relates _ (foldM _ _ _) =>
        apply Relates_foldM;
        [apply moduleExportsKept_refl|apply moduleExportsKept_trans|intros]
    | |- Relates _ (bind _ _) =>
        apply Relates_bind; [apply moduleExportsKept_trans| |intros]
    | |- Relates _ (match ?x with _ => _ end) => destruct x
    | |- Relates _ (let _ := _ in _) => cbv zeta
    end.

Lemma moduleExportsKept_walkQueuedExports fuel externalName member queuedExports :
  ∀ name seen,
    Relates moduleExportsKept
      (walkQueuedExports fuel externalName member queuedExports name seen).
Proof.
  induction fuel as [|fuel IH]; intros name seen; [apply Relates_outOfFuel|].
  cbn [walkQueuedExports]. relates. apply IH.
Qed.

(** An export statement, whether its members are set at once or queued,
    adds no module-level export and sets no flag. *)
Lemma moduleExportsKept_initializeExports statement queuedExports :
  Relates moduleExportsKept (initializeExports statement queuedExports).
Proof.
  unfold initializeExports, initializeExport. relates.
  apply moduleExportsKept_walkQueuedExports.
Qed.

(** Nor does a queued export when it is set in the drain phase. *)
Lemma moduleExportsKept_drainQueuedExport fuel exportName queuedExport
    queuedExports :
  ∀ currentExport,
    Relates moduleExportsKept
      (drainQueuedExport fuel exportName queuedExport queuedExports
         currentExport).
Proof.
  induction fuel as [|fuel IH]; intros currentExport; [apply Relates_outOfFuel|].
  cbn [drainQueuedExport]. relates. apply IH.
Qed.

(** C4.  An export statement adds no module-level export and sets no flag,
    neither where its members are set at once nor where a queued export is
    set in the drain phase.  In the entry file a.ts,
    [export { f }; function f(): void {}]: the export is queued and set in
    the drain phase; [f] ends as the file-level export "a/f", but "a/f" is no
    module-level export and [f] does not carry [MODULE_EXPORT].  The exported
    declaration [export function f(): void {}] of the same file ends as both,
    with the flag. *)
Theorem export_statement_not_module_export :
  (∀ statement queuedExports,
     Relates moduleExportsKept (initializeExports statement queuedExports))
  ∧ (∀ fuel exportName queuedExport queuedExports currentExport,
       Relates moduleExportsKept
         (drainQueuedExport fuel exportName queuedExport queuedExports
            currentExport))
  ∧ (∃ s f fl,
       initialize exampleTypesToString 10 exampleOptions scenarioExportStatement
         (newProgram exampleOptions) = Ret tt s
       ∧ fileLevelExports s !! "a/f" = Some f
       ∧ moduleLevelExports s !! "a/f" = None
       ∧ flagsOf s f = Some fl
       ∧ flags_is fl CommonFlags.MODULE_EXPORT = false)
  ∧ (∃ s f fl,
       initialize exampleTypesToString 10 exampleOptions
         scenarioExportedDeclaration (newProgram exampleOptions) = Ret tt s
       ∧ fileLevelExports s !! "a/f" = Some f
       ∧ moduleLevelExports s !! "a/f" = Some f
       ∧ flagsOf s f = Some fl
       ∧ flags_is fl CommonFlags.MODULE_EXPORT = true).
Proof.
  split; [exact moduleExportsKept_initializeExports|].
  split; [exact moduleExportsKept_drainQueuedExport|].
  split.
  - exists (initialized 10 scenarioExportStatement), 0%nat, CommonFlags.NONE.
    repeat apply conj; vm_compute; reflexivity.
  - exists (initialized 10 scenarioExportedDeclaration), 0%nat,
      (Z.lor CommonFlags.EXPORT CommonFlags.MODULE_EXPORT).
    repeat apply conj; vm_compute; reflexivity.
Qed.

(** ** Type arguments *)

Lemma resolveTypeArguments_S tts fuel :
  resolveTypeArguments tts (S fuel)
  = resolveTypeArguments_body (resolver tts fuel).
Proof. reflexivity. Qed.

(** C8, as amended.  When the number of supplied type-argument nodes differs
    from the number of type parameters, [resolveTypeArguments] returns [null].
    It emits "Expected N type arguments but got M" when at least one argument
    was supplied or an alternative report node was given; with no argument
    and no alternative report node it emits nothing. *)
Theorem resolveTypeArguments_arity_mismatch :
  ∀ tts fuel typeParameters typeArgumentNodes ctx alternativeReportNode s,
    length typeParameters ≠ length (default [] typeArgumentNodes) →
    resolveTypeArguments tts (S fuel) typeParameters typeArgumentNodes ctx
      alternativeReportNode s
    = Ret None
        (if negb (bool_decide (length (default [] typeArgumentNodes) = 0%nat))
            || bool_decide (is_Some alternativeReportNode)
         then withError DiagnosticCode.Expected_0_type_arguments_but_got_1
                [pretty (N.of_nat (length typeParameters));
                 pretty (N.of_nat (length (default [] typeArgumentNodes)))] s
         else s).
Proof.
  intros tts fuel typeParameters typeArgumentNodes ctx alt s Hne.
  rewrite resolveTypeArguments_S. unfold resolveTypeArguments_body.
  assert (Hlen : match typeArgumentNodes with
                 | Some nodes => length nodes
                 | None => 0%nat
                 end = length (default [] typeArgumentNodes))
    by (destruct typeArgumentNodes; reflexivity).
  rewrite Hlen. rewrite bool_decide_false by exact Hne. cbn [negb].
  destruct (bool_decide (length (default [] typeArgumentNodes) = 0%nat)) eqn:Hzero;
    cbn [negb orb].
  - apply bool_decide_eq_true in Hzero. rewrite Hzero.
    destruct (bool_decide (is_Some alt)); reflexivity.
  - reflexivity.
Qed.

(** C8 on a class with one type parameter, one type argument and no
    alternative report node. *)
Lemma resolveTypeArguments_arity_mismatch_witness :
  length [{| tp_name := "T" |}]
    ≠ length (default [] (Some [namedType entryA "i32"; namedType entryA "i32"]))
  ∧ resolveTypeArguments exampleTypesToString 1 [{| tp_name := "T" |}]
      (Some [namedType entryA "i32"; namedType entryA "i32"]) None None
      (newProgram exampleOptions)
    = Ret None
        (withError DiagnosticCode.Expected_0_type_arguments_but_got_1 ["1"; "2"]
           (newProgram exampleOptions)).
Proof.
  assert (H : length [{| tp_name := "T" |}]
              ≠ length (default [] (Some [namedType entryA "i32";
                                          namedType entryA "i32"])))
    by (cbn; lia).
  split; [exact H|].
  exact (resolveTypeArguments_arity_mismatch exampleTypesToString 0
           [{| tp_name := "T" |}]
           (Some [namedType entryA "i32"; namedType entryA "i32"]) None None
           (newProgram exampleOptions) H).
Defined.

(** C8 as stated fails: one type parameter, no type argument and no
    alternative report node; [resolveTypeArguments] returns [null] and emits
    no diagnostic at all. *)
Lemma resolveTypeArguments_mismatch_silent :
  length [{| tp_name := "T" |}] ≠ length (default [] (None : option (list CommonTypeNode)))
  ∧ ∃ s',
      resolveTypeArguments exampleTypesToString 1 [{| tp_name := "T" |}] None
        None None (newProgram exampleOptions) = Ret None s'
      ∧ diagnostics s' = [].
Proof.
  split; [cbn; lia|].
  eexists. split; reflexivity.
Qed.

(** ** Signatures *)

Lemma resolveSignature_S tts fuel :
  resolveSignature tts (S fuel) = resolveSignature_body (resolver tts fuel).
Proof. reflexivity. Qed.

(** The loop over the parameters gets past no rest parameter: at index
    [i < numParameters] the assertion [i == numParameters] fails. *)
Lemma resolveSignatureParameters_no_rest r ctx rep numParameters :
  ∀ l state s res s',
    state.1.1.1.1 + Z.of_nat (length l) ≤ numParameters →
    forLoop (resolveSignatureParameter r ctx rep numParameters) state l s
    = Ret (Continue res) s' →
    Forall (λ p, pn_parameterKind p ≠ ParameterKind.REST) l.
Proof.
  induction l as [|p l IH]; intros state s res s' Hlen Hrun; [constructor|].
  cbn [forLoop] in Hrun.
  apply bind_Ret_inv in Hrun as (st & s1 & Hbody & Hrest).
  destruct state as [[[[i pts] pns] req] hr]. cbn [fst] in Hlen.
  rewrite length_cons, Nat2Z.inj_succ in Hlen.
  constructor.
  - intros Hkind. unfold resolveSignatureParameter in Hbody. rewrite Hkind in Hbody.
    assert (Hfalse : (i =? numParameters) = false) by (apply Z.eqb_neq; lia).
    rewrite Hfalse in Hbody. discriminate Hbody.
  - destruct st as [state'|[]]; [|discriminate Hrest].
    eapply IH; [|exact Hrest].
    unfold resolveSignatureParameter in Hbody.
    apply bind_Ret_inv in Hbody as ([req' hr'] & s2 & _ & Hbody).
    apply bind_Ret_inv in Hbody as (tn & s3 & _ & Hbody).
    apply bind_Ret_inv in Hbody as (pt & s4 & _ & Hbody).
    destruct pt; inversion Hbody; subst. cbn [fst]. lia.
Qed.

(** C7.  A signature node that declares a rest parameter, in whatever
    position, is never resolved to a signature: [resolveSignature] returns
    [null], raises or does not return, and so no signature with [hasRest]
    set is ever produced. *)
Theorem resolveSignature_rest_never_succeeds :
  ∀ tts fuel node ctx reportNotFound s signature s',
    hasRestParameter node →
    resolveSignature tts fuel node ctx reportNotFound s ≠ Ret (Some signature) s'.
Proof.
  intros tts fuel node ctx rep s signature s' (p & Hin & Hkind) Hrun.
  destruct fuel as [|fuel]; [discriminate Hrun|].
  rewrite resolveSignature_S in Hrun. unfold resolveSignature_body in Hrun.
  apply bind_Ret_inv in Hrun as (thisType & s1 & _ & Hrun).
  destruct thisType as [thisType|[]]; [|discriminate Hrun].
  apply bind_Ret_inv in Hrun as (params & s2 & Hloop & Hrun).
  destruct params as [res|[]]; [|discriminate Hrun].
  apply resolveSignatureParameters_no_rest in Hloop; [|cbn; lia].
  rewrite Forall_forall in Hloop. apply (Hloop p); [|exact Hkind].
  apply list_elem_of_In, Hin.
Qed.

(** C7 on [(...rest: i32) => void], whose single rest parameter is in
    terminal position: the assertion fails. *)
Lemma resolveSignature_rest_never_succeeds_witness :
  hasRestParameter restSignature
  ∧ resolveSignature exampleTypesToString 2 restSignature None true
      (initialized 10 scenarioFields)
    = Throw AssertionError (initialized 10 scenarioFields)
  ∧ ∀ signature s',
      resolveSignature exampleTypesToString 2 restSignature None true
        (initialized 10 scenarioFields) ≠ Ret (Some signature) s'.
Proof.
  assert (H : hasRestParameter restSignature).
  { eexists. split; [left; reflexivity|reflexivity]. }
  split; [exact H|]. split; [vm_compute; reflexivity|].
  intros signature s'.
  exact (resolveSignature_rest_never_succeeds exampleTypesToString 2
           restSignature None true _ signature s' H).
Defined.

(** The loop over the parameters, where it runs to its end: the names are
    those of the nodes, [requiredParameters] is one past the last parameter
    of kind [DEFAULT], and [hasRest] stays as it was. *)
Lemma resolveSignatureParameters_spec r ctx rep numParameters :
  ∀ l i pts pns req hr s i' pts' pns' req' hr' s',
    0 ≤ i → i + Z.of_nat (length l) ≤ numParameters →
    forLoop (resolveSignatureParameter r ctx rep numParameters)
      (i, pts, pns, req, hr) l s
    = Ret (Continue (i', pts', pns', req', hr')) s' →
    i' = i + Z.of_nat (length l)
    ∧ length pts' = (length pts + length l)%nat
    ∧ pns' = (pns ++ (pn_name <$> l))%list
    ∧ hr' = hr
    ∧ ((req' = req ∧ Forall (λ p, pn_parameterKind p ≠ ParameterKind.DEFAULT) l)
       ∨ ∃ k p, l !! k = Some p
                ∧ pn_parameterKind p = ParameterKind.DEFAULT
                ∧ req' = i + Z.of_nat k + 1
                ∧ ∀ j q, (k < j)%nat → l !! j = Some q →
                         pn_parameterKind q ≠ ParameterKind.DEFAULT).
Proof.
  induction l as [|p l IH];
    intros i pts pns req hr s i' pts' pns' req' hr' s' Hi Hlen Hrun.
  - injection Hrun as <- <- <- <- <- <-. cbn.
    rewrite app_nil_r. repeat split; try lia. left. split; [reflexivity|constructor].
  - cbn [forLoop] in Hrun.
    apply bind_Ret_inv in Hrun as (st & s1 & Hbody & Hrest).
    rewrite length_cons, Nat2Z.inj_succ in Hlen.
    unfold resolveSignatureParameter in Hbody.
    apply bind_Ret_inv in Hbody as ([req1 hr1] & s2 & Hkind & Hbody).
    apply bind_Ret_inv in Hbody as (tn & s3 & _ & Hbody).
    apply bind_Ret_inv in Hbody as (pt & s4 & _ & Hbody).
    destruct pt as [pt|]; [|injection Hbody as <- <-; discriminate Hrest].
    injection Hbody as <- <-.
    assert (Hstep : hr1 = hr
              ∧ ((pn_parameterKind p = ParameterKind.DEFAULT ∧ req1 = i + 1)
                 ∨ (pn_parameterKind p ≠ ParameterKind.DEFAULT ∧ req1 = req))).
    { destruct (pn_parameterKind p) eqn:Hk.
      - injection Hkind as <- <- <-. split; [reflexivity|]. left. auto.
      - injection Hkind as <- <- <-. split; [reflexivity|]. right. split; [discriminate|reflexivity].
      - assert (Hfalse : (i =? numParameters) = false) by (apply Z.eqb_neq; lia).
        rewrite Hfalse in Hkind. discriminate Hkind. }
    destruct Hstep as [-> Hreq].
    apply IH in Hrest as (-> & Hpts & -> & -> & Hreq'); [|lia|lia].
    rewrite length_cons, Nat2Z.inj_succ.
    split; [lia|]. split; [rewrite Hpts, length_app; cbn; lia|].
    split; [rewrite <- app_assoc; reflexivity|]. split; [reflexivity|].
    destruct Hreq' as [[-> Hnone]|(k & q & Hq & Hkq & -> & Hlater)].
    + destruct Hreq as [[Hkp ->]|[Hkp ->]].
      * right. exists 0%nat, p. split; [reflexivity|]. split; [exact Hkp|].
        split; [lia|]. intros j q Hj Hq. destruct j as [|j]; [lia|].
        cbn in Hq. rewrite Forall_forall in Hnone.
        apply Hnone. eapply list_elem_of_lookup_2, Hq.
      * left. split; [reflexivity|]. constructor; assumption.
    + right. exists (S k), q. split; [exact Hq|]. split; [exact Hkq|].
      split; [lia|]. intros j q' Hj Hq'. destruct j as [|j]; [lia|].
      cbn in Hq'. apply (Hlater j q'); [lia|exact Hq'].
Qed.

(** Where [resolveSignature] returns a signature: it has no rest parameter,
    its parameter names are those of the nodes, [requiredParameters] is the
    index of the last parameter of kind [DEFAULT] plus one, the return type
    is [void] where the node has no return type, and there is no [this] type
    where the node has none. *)
Theorem resolveSignature_returns :
  ∀ tts fuel node ctx reportNotFound s signature s',
    resolveSignature tts fuel node ctx reportNotFound s = Ret (Some signature) s' →
    sig_hasRest signature = false
    ∧ sig_parameterNames signature = pn_name <$> sn_parameterTypes node
    ∧ length (sig_parameterTypes signature) = length (sn_parameterTypes node)
    ∧ lastDefaultAt (sn_parameterTypes node) (sig_requiredParameters signature)
    ∧ (sn_returnType node = None → sig_returnType signature = Ty.void)
    ∧ (sn_explicitThisType node = None → sig_thisType signature = None).
Proof.
  intros tts fuel node ctx rep s signature s' Hrun.
  destruct fuel as [|fuel]; [discriminate Hrun|].
  rewrite resolveSignature_S in Hrun. unfold resolveSignature_body in Hrun.
  apply bind_Ret_inv in Hrun as (thisType & s1 & Hthis & Hrun).
  destruct thisType as [thisType|[]]; [|discriminate Hrun].
  apply bind_Ret_inv in Hrun as (params & s2 & Hloop & Hrun).
  destruct params as [[[[[i pts] pns] req] hr]|[]]; [|discriminate Hrun].
  apply resolveSignatureParameters_spec in Hloop
    as (_ & Hpts & -> & -> & Hreq); [|lia|cbn; lia].
  apply bind_Ret_inv in Hrun as (returnType & s3 & Hret & Hrun).
  destruct returnType as [returnType|]; [|discriminate Hrun].
  injection Hrun as <- <-. cbn.
  split; [reflexivity|]. split; [reflexivity|]. split; [exact Hpts|].
  split.
  { destruct Hreq as [[-> Hnone]|(k & p & Hp & Hk & -> & Hlater)].
    - left. auto.
    - right. exists k, p. split; [exact Hp|]. split; [exact Hk|].
      split; [lia|exact Hlater]. }
  split.
  - intros Hnone. rewrite Hnone in Hret. injection Hret as <- _. reflexivity.
  - intros Hnone. rewrite Hnone in Hthis. injection Hthis as <- _. reflexivity.
Qed.

Lemma resolveSignature_returns_witness :
  ∃ signature s',
    resolveSignature exampleTypesToString 3 mixedSignature None true
      (initialized 10 scenarioFields) = Ret (Some signature) s'
    ∧ sig_requiredParameters signature = 3
    ∧ sig_parameterNames signature = ["a"; "b"; "c"; "d"]
    ∧ sig_hasRest signature = false
    ∧ sig_returnType signature = Ty.void
    ∧ lastDefaultAt (sn_parameterTypes mixedSignature)
        (sig_requiredParameters signature).
Proof.
  eexists _, _. split; [vm_compute; reflexivity|].
  split; [reflexivity|]. split; [reflexivity|]. split; [reflexivity|].
  split; [reflexivity|].
  refine (proj1 (proj2 (proj2 (proj2
            (resolveSignature_returns exampleTypesToString 3 mixedSignature
               None true (initialized 10 scenarioFields) _ _ _))))).
  vm_compute. reflexivity.
Defined.

(** ** Assignability *)

Lemma isAssignableTo_unfold fuel current target s :
  isAssignableTo (S fuel) current target s
  = if decide (current = target) then Ret true s
    else match classOf s current with
         | Some d =>
             match c_base d with
             | Some base => isAssignableTo fuel base target s
             | None => Ret false s
             end
         | None => Throw TypeError s
         end.
Proof.
  cbn [isAssignableTo]. repeat case_decide; try congruence; [reflexivity|].
  unfold bind, getClass, bind, getElement, classOf, ret, throw.
  destruct (heap s !! current) as [e|]; [|reflexivity].
  destruct (data e) as [| | | |d| | | |]; try reflexivity.
  destruct (c_base d); reflexivity.
Qed.

Lemma isAssignableTo_sound fuel :
  ∀ current target s s',
    isAssignableTo fuel current target s = Ret true s' →
    onBaseChain s current target.
Proof.
  induction fuel as [|fuel IH]; intros current target s s' H; [discriminate H|].
  rewrite isAssignableTo_unfold in H.
  case_decide as Heq; [subst; constructor|].
  destruct (classOf s current) as [d|] eqn:Hd; [|discriminate H].
  destruct (c_base d) as [b|] eqn:Hb; [|discriminate H].
  eapply onBaseChain_base; eauto.
Qed.

Lemma isAssignableTo_complete s :
  basesDecrease s →
  ∀ current target,
    is_Some (classOf s current) →
    ∀ fuel, (current < fuel)%nat →
      ∃ result,
        isAssignableTo fuel current target s = Ret result s
        ∧ (result = true ↔ onBaseChain s current target).
Proof.
  intros Hwf current target.
  induction current as [current IH] using lt_wf_ind.
  intros [d Hd] fuel Hfuel.
  destruct fuel as [|fuel]; [lia|].
  rewrite isAssignableTo_unfold.
  case_decide as Heq.
  { exists true. split; [reflexivity|]. subst target.
    split; [constructor|reflexivity]. }
  rewrite Hd. destruct (c_base d) as [b|] eqn:Hb.
  - destruct (Hwf _ _ _ Hd Hb) as [Hlt Hcls].
    destruct (IH b Hlt Hcls fuel) as (result & Hrun & Hiff); [lia|].
    exists result. split; [exact Hrun|]. rewrite Hiff. split.
    + intros H. eapply onBaseChain_base; eauto.
    + intros H. inversion H as [|c' d' b' t' Hd' Hb' Hchain]; subst; [congruence|].
      rewrite Hd in Hd'. injection Hd' as <-. rewrite Hb in Hb'.
      injection Hb' as <-. exact Hchain.
  - exists false. split; [reflexivity|]. split; [discriminate|].
    intros H. inversion H as [|c' d' b' t' Hd' Hb' Hchain]; subst; [congruence|].
    rewrite Hd in Hd'. injection Hd' as <-. congruence.
Qed.

Lemma onBaseChain_trans s a b c :
  onBaseChain s a b → onBaseChain s b c → onBaseChain s a c.
Proof.
  induction 1; [auto|]. intros H'. eapply onBaseChain_base; eauto.
Qed.

Lemma basesDecreaseb_correct s : basesDecreaseb s = true → basesDecrease s.
Proof.
  unfold basesDecreaseb, basesDecrease. intros H c d b Hd Hb.
  rewrite forallb_forall in H.
  unfold classOf in Hd. destruct (heap s !! c) as [e|] eqn:He; [|discriminate].
  destruct (data e) eqn:Hdata; try discriminate. injection Hd as ->.
  specialize (H (c, e)).
  assert (Hin : In (c, e) (imap (λ c e, (c, e)) (heap s))).
  { apply list_elem_of_In, elem_of_lookup_imap. eauto. }
  specialize (H Hin). cbn in H. rewrite Hdata, Hb in H.
  apply andb_prop in H as [Hlt Hcls]. apply Nat.ltb_lt in Hlt.
  split; [exact Hlt|]. destruct (classOf s b); [eauto|discriminate].
Qed.

(** ** Class resolution *)

Lemma classResolve_S tts fuel :
  classResolve tts (S fuel) = classResolve_body tts (resolver tts fuel).
Proof. reflexivity. Qed.

Lemma instancesOf_inv s h key i :
  instancesOf s h key = Some i →
  ∃ e d, heap s !! h = Some e ∧ data e = ClassPrototypeD d
         ∧ cp_instances d !! key = Some i.
Proof.
  unfold instancesOf. destruct (heap s !! h) as [e|]; [|discriminate].
  destruct (data e) eqn:E; try discriminate. eauto.
Qed.

(** A hit in the cache: [resolve] returns the cached instance and changes
    nothing, whatever the nested calls would do. *)
Lemma classResolve_body_hit tts r s this typeArguments ctx instance :
  instancesOf s this (instanceKeyOf tts typeArguments) = Some instance →
  classResolve_body tts r this typeArguments ctx s = Ret (Some instance) s.
Proof.
  intros H. apply instancesOf_inv in H as (e & d & He & Hd & Hi).
  unfold classResolve_body.
  rewrite (bind_Ret _ _ _ _ _ (getClassPrototype_Ret _ _ _ _ He Hd)), Hi.
  reflexivity.
Qed.

(** C5.  A class whose [extends] clause resolves to a class instance that
    carries [@sealed]: the first resolution of the class for a key emits
    "Class X is sealed and cannot be extended", X being the internal name of
    the base, and returns [null]; besides the diagnostic the state is the one
    the resolution of the base left, so no [Class] is constructed for the
    derived class and none gets the sealed class as its base. *)
Theorem resolve_sealed_base_rejected :
  ∀ tts fuel s this typeArguments ctx extendsType baseType s1 baseClass name,
    extendsTypeOf s this = Some extendsType →
    instancesOf s this (instanceKeyOf tts typeArguments) = None →
    resolveType tts fuel extendsType None true s = Ret (Some baseType) s1 →
    classReference baseType = Some baseClass →
    sealedAs s1 baseClass name →
    classResolve tts (S fuel) this typeArguments ctx s
    = Ret None
        (withError DiagnosticCode.Class_0_is_sealed_and_cannot_be_extended
           [name] s1).
Proof.
  intros tts fuel s this typeArguments ctx extendsType baseType s1
    baseClass name Hext Hmiss Hbase Href (be & Hbe & Hsealed & Hname).
  unfold extendsTypeOf, instancesOf in Hext, Hmiss.
  destruct (heap s !! this) as [pe|] eqn:Hpe; [|discriminate Hext].
  destruct (data pe) as [| |  |pd| | | | |] eqn:Hpd; try discriminate Hext.
  rewrite classResolve_S. unfold classResolve_body.
  mrun (getClassPrototype_Ret _ _ _ _ Hpe Hpd). rewrite Hmiss.
  unfold classInstantiate.
  mrun (getClassPrototype_Ret _ _ _ _ Hpe Hpd).
  rewrite Hext. unfold resolveType in Hbase.
  mrun Hbase. rewrite Href.
  mrun (getElement_Ret _ _ _ Hbe).
  rewrite Hsealed, Hname. reflexivity.
Qed.

(** C5 on scenario S4: [class C extends B], [B] sealed. *)
Lemma resolve_sealed_base_rejected_witness :
  extendsTypeOf (initialized 10 scenarioSealed) 2%nat = Some (namedType entryA "B")
  ∧ instancesOf (initialized 10 scenarioSealed) 2%nat
      (instanceKeyOf exampleTypesToString None) = None
  ∧ resolveType exampleTypesToString 10 (namedType entryA "B") None true
      (initialized 10 scenarioSealed)
    = Ret (Some (Ty.asClass Ty.usize32 4%nat))
        (resolved 8 1%nat (initialized 10 scenarioSealed))
  ∧ sealedAs (resolved 8 1%nat (initialized 10 scenarioSealed)) 4%nat "a/B"
  ∧ classResolve exampleTypesToString 11 2%nat None None
      (initialized 10 scenarioSealed)
    = Ret None
        (withError DiagnosticCode.Class_0_is_sealed_and_cannot_be_extended
           ["a/B"] (resolved 8 1%nat (initialized 10 scenarioSealed))).
Proof.
  assert (H1 : extendsTypeOf (initialized 10 scenarioSealed) 2%nat
               = Some (namedType entryA "B")) by (vm_compute; reflexivity).
  assert (H2 : instancesOf (initialized 10 scenarioSealed) 2%nat
                 (instanceKeyOf exampleTypesToString None) = None)
    by (vm_compute; reflexivity).
  assert (H3 : resolveType exampleTypesToString 10 (namedType entryA "B") None
                 true (initialized 10 scenarioSealed)
               = Ret (Some (Ty.asClass Ty.usize32 4%nat))
                   (resolved 8 1%nat (initialized 10 scenarioSealed)))
    by (vm_compute; reflexivity).
  assert (H4 : sealedAs (resolved 8 1%nat (initialized 10 scenarioSealed))
                 4%nat "a/B").
  { eexists. split; [vm_compute; reflexivity|].
    split; vm_compute; reflexivity. }
  split; [exact H1|]. split; [exact H2|]. split; [exact H3|]. split; [exact H4|].
  exact (resolve_sealed_base_rejected exampleTypesToString 10 _ 2%nat None None
           _ _ _ 4%nat "a/B" H1 H2 H3 eq_refl H4).
Defined.

(** ** Instantiation enters the cache *)

(** [new Class(...)] allocates one element, a class without members,
    constructor instance or overloads. *)
Lemma newClass_Ret_inv prototype sn iname typeArguments base s this s' :
  newClass prototype sn iname typeArguments base s = Ret this s' →
  this = length (heap s)
  ∧ ∃ e d, s' = with_heap (heap s ++ [e])%list s
           ∧ data e = ClassD d ∧ members e = None
           ∧ c_prototype d = prototype ∧ c_base d = base
           ∧ c_typeArguments d = typeArguments
           ∧ c_constructorInstance d = None ∧ c_overloads d = None.
Proof.
  unfold newClass. intros H.
  apply bind_Ret_inv in H as (p & s1 & Hp & H).
  apply getElement_Ret_inv in Hp as [_ ->].
  apply bind_Ret_inv in H as (pd & s1 & Hpd & H).
  apply getClassPrototype_Ret_inv in Hpd as (_ & _ & _ & ->).
  apply bind_Ret_inv in H as (u & s1 & Hu & H). inversion Hu; subst s1; clear Hu.
  apply bind_Ret_inv in H as (h & s1 & Hh & H). inversion Hh; subst s1; clear Hh.
  apply bind_Ret_inv in H as (inh & s1 & Hinh & H).
  assert (s1 = s) as ->.
  { destruct base as [b|]; [|inversion Hinh; reflexivity].
    apply bind_Ret_inv in Hinh as (bd & s2 & Hbd & Hinh).
    apply getClass_Ret_inv in Hbd as [_ ->]. inversion Hinh; reflexivity. }
  apply bind_Ret_inv in H as (cta & s1 & Hcta & H).
  assert (s1 = s) as ->.
  { destruct typeArguments as [ta|]; repeat case_match;
      inversion Hcta; reflexivity. }
  inversion H; subst. split; [reflexivity|].
  eexists _, _. split; [reflexivity|]. simpl. auto 10.
Qed.

(** Where [classInstantiate] goes on to the members, the new class is in the
    cache of the prototype under the key, and nothing of it is resolved. *)
Lemma classInstantiate_caches tts r this typeArguments ctx s instance base name s1 :
  classInstantiate tts r this typeArguments ctx s
  = Ret (Continue (instance, base, name)) s1 →
  instancesOf s1 this (instanceKeyOf tts typeArguments) = Some instance
  ∧ ∃ d, classOf s1 instance = Some d
         ∧ c_prototype d = this ∧ c_base d = base
         ∧ c_constructorInstance d = None ∧ c_overloads d = None
         ∧ memberOf s1 instance = fun _ => None.
Proof.
  unfold classInstantiate. intros H.
  apply bind_Ret_inv in H as (pd & s0 & Hpd & H).
  apply getClassPrototype_Ret_inv in Hpd as (_ & _ & _ & ->).
  apply bind_Ret_inv in H as (st & sb & _ & H).
  destruct st as [baseClass|]; [|inversion H].
  apply bind_Ret_inv in H as (cta & s2 & Hcta & H).
  assert (s2 = sb) as ->.
  { destruct typeArguments as [ta|]; repeat case_match;
      inversion Hcta; reflexivity. }
  apply bind_Ret_inv in H as (p & s2 & Hp & H).
  apply getElement_Ret_inv in Hp as [Hp ->].
  apply bind_Ret_inv in H as (inst & s2 & Hnew & H).
  apply newClass_Ret_inv in Hnew
    as (-> & e & d & -> & Hd & Hm & Hproto & Hbase & _ & Hctor & Hov).
  apply bind_Ret_inv in H as (u & s2 & Hupd & H).
  apply updClass_Ret_inv in Hupd as (e' & d' & He' & Hd' & ->).
  cbn [heap with_heap] in He'.
  rewrite list_lookup_middle in He' by reflexivity. inversion He'; subst e'.
  rewrite Hd in Hd'. inversion Hd'; subst d'.
  apply bind_Ret_inv in H as (u' & s2 & Hupd & H).
  apply updClassPrototype_Ret_inv in Hupd as (pe & pd' & Hpe & Hpd' & ->).
  revert Hproto Hbase. inversion H; subst; clear H. intros Hproto Hbase.
  cbn [heap with_heap] in Hpe |- *.
  pose proof (lookup_lt_Some _ _ _ Hp) as Hlt.
  pose proof (lookup_lt_Some _ _ _ Hpe) as Hlt'.
  assert (this ≠ length (heap sb)) as Hne by lia.
  split.
  - unfold instancesOf. cbn [heap with_heap].
    rewrite list_lookup_insert_eq by exact Hlt'. cbn.
    apply lookup_insert_eq.
  - eexists. unfold classOf, memberOf. cbn [heap with_heap].
    rewrite list_lookup_insert_ne by exact Hne.
    rewrite list_lookup_insert_eq
      by (rewrite length_app; cbn; lia).
    cbn. rewrite Hm. repeat apply conj; auto.
Qed.

(** ** Invariants of the heap *)

Section Preserves.
Variable I : Program → Prop.

Lemma Preserves_ret {A} (a : A) : Preserves I (ret a).
Proof. intros s H. exact H. Qed.

Lemma Preserves_throw {A} e : Preserves I (throw (A := A) e).
Proof. intros s H. exact H. Qed.

Lemma Preserves_outOfFuel {A} : Preserves I (outOfFuel (A := A)).
Proof. intros s H. exact Logic.I. Qed.

Lemma Preserves_gets {A} (f : Program → A) : Preserves I (gets f).
Proof. intros s H. exact H. Qed.

Lemma Preserves_bind {A B} (m : M A) (k : A → M B) :
  Preserves I m → (∀ a, Preserves I (k a)) → Preserves I (bind m k).
Proof.
  intros Hm Hk s H. unfold bind. specialize (Hm s H).
  destruct (m s) as [a s1|e s1|]; [apply Hk, Hm|exact Hm|exact Logic.I].
Qed.

Lemma Preserves_assert b : Preserves I (assert b).
Proof. destruct b; intros s H; exact H. Qed.

Lemma Preserves_assertSome {A} (o : option A) : Preserves I (assertSome o).
Proof. destruct o; intros s H; exact H. Qed.

Lemma Preserves_deref {A} (o : option A) : Preserves I (deref o).
Proof. destruct o; intros s H; exact H. Qed.

Lemma Preserves_when b m : Preserves I m → Preserves I (when b m).
Proof. destruct b; [auto|]. intros _ s H. exact H. Qed.

Lemma Preserves_getElement h : Preserves I (getElement h).
Proof. intros s H. unfold getElement. destruct (heap s !! h); exact H. Qed.

Lemma Preserves_getClass h : Preserves I (getClass h).
Proof.
  apply Preserves_bind; [apply Preserves_getElement|].
  intros e. destruct (data e); first [apply Preserves_ret|apply Preserves_throw].
Qed.

Lemma Preserves_getClassPrototype h : Preserves I (getClassPrototype h).
Proof.
  apply Preserves_bind; [apply Preserves_getElement|].
  intros e. destruct (data e); first [apply Preserves_ret|apply Preserves_throw].
Qed.

Lemma Preserves_getFunctionPrototype h : Preserves I (getFunctionPrototype h).
Proof.
  apply Preserves_bind; [apply Preserves_getElement|].
  intros e. destruct (data e); first [apply Preserves_ret|apply Preserves_throw].
Qed.

Lemma Preserves_getProperty h : Preserves I (getProperty h).
Proof.
  apply Preserves_bind; [apply Preserves_getElement|].
  intros e. destruct (data e); first [apply Preserves_ret|apply Preserves_throw].
Qed.

Lemma Preserves_forEach {A} (l : list A) (body : A → M unit) :
  (∀ a, Preserves I (body a)) → Preserves I (forEach l body).
Proof.
  intros Hbody. induction l as [|a l IH]; [apply Preserves_ret|].
  apply Preserves_bind; [apply Hbody|]. intros _. exact IH.
Qed.

Lemma Preserves_foldM {A B} (body : B → A → M B) b (l : list A) :
  (∀ b a, Preserves I (body b a)) → Preserves I (foldM body b l).
Proof.
  intros Hbody. revert b. induction l as [|a l IH]; intros b;
    [apply Preserves_ret|].
  apply Preserves_bind; [apply Hbody|]. intros b'. apply IH.
Qed.

Lemma Preserves_forLoop {A B R} (body : B → A → M (Step B R)) b (l : list A) :
  (∀ b a, Preserves I (body b a)) → Preserves I (forLoop body b l).
Proof.
  intros Hbody. revert b. induction l as [|a l IH]; intros b;
    [apply Preserves_ret|].
  apply Preserves_bind; [apply Hbody|].
  intros [b'|r]; [apply IH|apply Preserves_ret].
Qed.

(** A step that is known to keep [I] where it starts from a state with [Q],
    after a step that establishes [Q]. *)
Lemma Preserves_bind_with {A B} (m : M A) (k : A → M B)
    (Q : A → Program → Prop) :
  (∀ s, I s → match m s with
              | Ret a s' => I s' ∧ Q a s'
              | Throw _ s' => I s'
              | OutOfFuel => True
              end) →
  (∀ a s, I s → Q a s → match k a s with
                        | Ret _ s' | Throw _ s' => I s'
                        | OutOfFuel => True
                        end) →
  Preserves I (bind m k).
Proof.
  intros Hm Hk s H. unfold bind. specialize (Hm s H).
  destruct (m s) as [a s1|e s1|]; [|exact Hm|exact Logic.I].
  destruct Hm as [HI HQ]. exact (Hk a s1 HI HQ).
Qed.

End Preserves.

Section HeapInvariant.
Context {X : Type} {I : Program → Prop} {view : Element → X}.
Context `{!HeapInvariant I view}.

Lemma Preserves_modify f : (∀ s, heap (f s) = heap s) → Preserves I (modify f).
Proof.
  intros Hf s H. cbn. apply (inv_view s); [|exact H]. rewrite Hf. reflexivity.
Qed.

Lemma Preserves_error code args : Preserves I (error code args).
Proof. apply Preserves_modify. reflexivity. Qed.

Lemma Preserves_alloc e : (∀ d, data e ≠ ClassD d) → Preserves I (alloc e).
Proof. intros He s H. cbn. apply inv_alloc; assumption. Qed.

(** An assignment that leaves the view of the objects of [Q] alone, to an
    object of [Q]. *)
Lemma updElement_keeps (Q : Element → Prop) h f s :
  (∀ e, Q e → view (f e) = view e) →
  I s → (∀ e, heap s !! h = Some e → Q e) →
  match updElement h f s with
  | Ret _ s' | Throw _ s' => I s'
  | OutOfFuel => True
  end.
Proof.
  intros Hf H HQ. unfold updElement.
  destruct (heap s !! h) as [e|] eqn:He; [|exact H].
  apply (inv_view s); [|exact H]. cbn [heap with_heap].
  rewrite list_fmap_insert, (Hf e (HQ e eq_refl)).
  apply list_insert_id. rewrite list_lookup_fmap.
  unfold handle in He. rewrite He. reflexivity.
Qed.

Lemma Preserves_updElement h f :
  (∀ e, view (f e) = view e) → Preserves I (updElement h f).
Proof.
  intros Hf s H. apply (updElement_keeps (λ _, True)); auto.
Qed.

Lemma Preserves_updClass h f :
  (∀ d, c_base (f d) = c_base d) → Preserves I (updClass h f).
Proof.
  intros Hf s H. unfold updClass, bind.
  destruct (getClass h s) as [d s1|e s1|] eqn:Hd; [| |exact Logic.I].
  - apply getClass_Ret_inv in Hd as [Hd ->].
    apply (updElement_keeps (λ e, data e = ClassD d)); [|exact H|].
    + intros e He. apply (view_class e d); [exact He|apply Hf].
    + intros e He. unfold classOf in Hd. rewrite He in Hd.
      destruct (data e); congruence.
  - pose proof (Preserves_getClass I h s H) as Hg. rewrite Hd in Hg. exact Hg.
Qed.

Lemma Preserves_updClassPrototype h f :
  (∀ d, cp_instances (f d) = cp_instances d) →
  Preserves I (updClassPrototype h f).
Proof.
  intros Hf s H. unfold updClassPrototype, bind.
  destruct (getClassPrototype h s) as [d s1|e s1|] eqn:Hd; [| |exact Logic.I].
  - apply getClassPrototype_Ret_inv in Hd as (e & He & Hd & ->).
    apply (updElement_keeps (λ e, data e = ClassPrototypeD d)); [|exact H|].
    + intros e' He'. apply (view_classPrototype e' d); [exact He'|apply Hf].
    + intros e' He'. congruence.
  - pose proof (Preserves_getClassPrototype I h s H) as Hg.
    rewrite Hd in Hg. exact Hg.
Qed.

Lemma getFunctionPrototype_Ret_inv s h d s' :
  getFunctionPrototype h s = Ret d s' →
  ∃ e, heap s !! h = Some e ∧ data e = FunctionPrototypeD d ∧ s' = s.
Proof.
  unfold getFunctionPrototype. intros H.
  apply bind_Ret_inv in H as (e & s1 & He & Hd).
  apply getElement_Ret_inv in He as [He ->].
  exists e. destruct (data e); inversion Hd; subst; auto.
Qed.

Lemma Preserves_updFunctionPrototype h f :
  (∀ d, fp_instances (f d) = fp_instances d) →
  Preserves I (updFunctionPrototype h f).
Proof.
  intros Hf s H. unfold updFunctionPrototype, bind.
  destruct (getFunctionPrototype h s) as [d s1|e s1|] eqn:Hd; [| |exact Logic.I].
  - apply getFunctionPrototype_Ret_inv in Hd as (e & He & Hd & ->).
    apply (updElement_keeps (λ e, data e = FunctionPrototypeD d)); [|exact H|].
    + intros e' He'. apply (view_functionPrototype e' d); [exact He'|apply Hf].
    + intros e' He'. congruence.
  - pose proof (Preserves_getFunctionPrototype I h s H) as Hg.
    rewrite Hd in Hg. exact Hg.
Qed.

Lemma Preserves_setMemoryOffset h o : Preserves I (setMemoryOffset h o).
Proof.
  intros s H. unfold setMemoryOffset, bind, getElement.
  destruct (heap s !! h) as [e|] eqn:He; [|exact H].
  destruct (data e) eqn:Hd; try exact H.
  apply (updElement_keeps (λ e', e' = e)); [|exact H|].
  - intros e' ->. eapply view_field, Hd.
  - intros e' He'. congruence.
Qed.

Lemma Preserves_setGetterPrototype h p : Preserves I (setGetterPrototype h p).
Proof.
  intros s H. unfold setGetterPrototype, getProperty, bind, getElement.
  destruct (heap s !! h) as [e|] eqn:He; [|exact H].
  destruct (data e) eqn:Hd; try exact H.
  apply (updElement_keeps (λ e', e' = e)); [|exact H|].
  - intros e' ->. eapply view_property, Hd.
  - intros e' He'. congruence.
Qed.

Lemma Preserves_setSetterPrototype h p : Preserves I (setSetterPrototype h p).
Proof.
  intros s H. unfold setSetterPrototype, getProperty, bind, getElement.
  destruct (heap s !! h) as [e|] eqn:He; [|exact H].
  destruct (data e) eqn:Hd; try exact H.
  apply (updElement_keeps (λ e', e' = e)); [|exact H|].
  - intros e' ->. eapply view_property, Hd.
  - intros e' He'. congruence.
Qed.

End HeapInvariant.

Ltac solve_view :=
  intros;
  first [ reflexivity
        | apply view_members | apply view_internalName | apply view_flags
        | unfold set_; apply view_flags ].

Ltac preserves_step :=
  lazymatch goal with
  | |- Preserves _ (ret _) => apply Preserves_ret
  | |- Preserves _ (throw _) => apply Preserves_throw
  | |- Preserves _ outOfFuel => apply Preserves_outOfFuel
  | |- Preserves _ (gets _) => apply Preserves_gets
  | |- Preserves _ (assert _) => apply Preserves_assert
  | |- Preserves _ (assertSome _) => apply Preserves_assertSome
  | |- Preserves _ (deref _) => apply Preserves_deref
  | |- Preserves _ (when _ _) => apply Preserves_when
  | |- Preserves _ (getElement _) => apply Preserves_getElement
  | |- Preserves _ (getClass _) => apply Preserves_getClass
  | |- Preserves _ (getClassPrototype _) => apply Preserves_getClassPrototype
  | |- Preserves _ (getFunctionPrototype _) => apply Preserves_getFunctionPrototype
  | |- Preserves _ (getProperty _) => apply Preserves_getProperty
  | |- Preserves _ (error _ _) => apply Preserves_error
  | |- Preserves _ (modify _) => apply Preserves_modify; intros; reflexivity
  | |- Preserves _ (alloc _) => apply Preserves_alloc; intros ?; cbn; discriminate
  | |- Preserves _ (updClass _ _) => apply Preserves_updClass; intros; reflexivity
  | |- Preserves _ (updClassPrototype _ _) =>
      apply Preserves_updClassPrototype; intros; reflexivity
  | |- Preserves _ (updFunctionPrototype _ _) =>
      apply Preserves_updFunctionPrototype; intros; reflexivity
  | |- Preserves _ (setMemoryOffset _ _) => apply Preserves_setMemoryOffset
  | |- Preserves _ (setGetterPrototype _ _) => apply Preserves_setGetterPrototype
  | |- Preserves _ (setSetterPrototype _ _) => apply Preserves_setSetterPrototype
  | |- Preserves _ (updElement _ _) => apply Preserves_updElement; solve_view
  | |- Preserves _ (forEach _ _) => apply Preserves_forEach; intros
  | |- Preserves _ (foldM _ _ _) => apply Preserves_foldM; intros
  | |- Preserves _ (forLoop _ _ _) => apply Preserves_forLoop; intros
  | |- Preserves _ (bind _ _) => apply Preserves_bind; [|intros]
  | |- Preserves _ (match ?x with _ => _ end) => destruct x
  | |- Preserves _ ((match ?x with _ => _ end) _) => destruct x
  | |- Preserves _ (let _ := _ in _) => cbv zeta
  | H : ResolverPreserves _ ?r |- Preserves _ (r_resolveSignature ?r _ _ _) =>
      apply (rp_resolveSignature _ _ H)
  | H : ResolverPreserves _ ?r |- Preserves _ (r_resolveType ?r _ _ _) =>
      apply (rp_resolveType _ _ H)
  | H : ResolverPreserves _ ?r |- Preserves _ (r_resolveTypeArguments ?r _ _ _ _) =>
      apply (rp_resolveTypeArguments _ _ H)
  | H : ResolverPreserves _ ?r |- Preserves _ (r_classResolve ?r _ _ _) =>
      apply (rp_classResolve _ _ H)
  | H : ResolverPreserves _ ?r
    |- Preserves _ (r_classResolveUsingTypeArguments ?r _ _ _ _) =>
      apply (rp_classResolveUsingTypeArguments _ _ H)
  | H : ResolverPreserves _ ?r |- Preserves _ (r_functionResolve ?r _ _ _) =>
      apply (rp_functionResolve _ _ H)
  end.

Ltac preserves := repeat preserves_step.

Section ResolverInvariant.
Context {X : Type} {I : Program → Prop} {view : Element → X}.
Context `{!HeapInvariant I view}.
Variable tts : list Type_ → string.
Variable r : Resolver.
Hypothesis HR : ResolverPreserves I r.

Lemma Preserves_resolveSignature_body node ctx report :
  Preserves I (resolveSignature_body r node ctx report).
Proof. unfold resolveSignature_body, resolveSignatureParameter. preserves. Qed.

Lemma Preserves_resolveTypeArguments_body ps nodes ctx alt :
  Preserves I (resolveTypeArguments_body r ps nodes ctx alt).
Proof. unfold resolveTypeArguments_body. preserves. Qed.

Lemma Preserves_resolveType_body node ctx report :
  Preserves I (resolveType_body tts r node ctx report).
Proof. unfold resolveType_body. preserves. Qed.

Lemma Preserves_classResolveUsingTypeArguments_body this nodes ctx alt :
  Preserves I (classResolveUsingTypeArguments_body r this nodes ctx alt).
Proof. unfold classResolveUsingTypeArguments_body. preserves. Qed.

Lemma Preserves_functionResolveUsingTypeArguments_body this nodes ctx alt :
  Preserves I (functionResolveUsingTypeArguments_body r this nodes ctx alt).
Proof. unfold functionResolveUsingTypeArguments_body. preserves. Qed.

Lemma Preserves_newField p iname t : Preserves I (newField p iname t).
Proof. unfold newField. preserves. Qed.

Lemma Preserves_newFunction p iname sig m ctx :
  Preserves I (newFunction p iname sig m ctx).
Proof. unfold newFunction. preserves. Qed.

Lemma Preserves_resolvePartial this args :
  Preserves I (resolvePartial tts this args).
Proof. unfold resolvePartial. preserves. Qed.

Lemma Preserves_resolveInstanceMember this inst iname args offset member :
  Preserves I (resolveInstanceMember tts r this inst iname args offset member).
Proof.
  unfold resolveInstanceMember, instanceMembersSet, membersSet.
  preserves; first [apply Preserves_newField|apply Preserves_resolvePartial].
Qed.

Lemma Preserves_resolveOverload inst args overload :
  Preserves I (resolveOverload tts r inst args overload).
Proof.
  unfold resolveOverload. preserves; apply Preserves_resolvePartial.
Qed.

Lemma Preserves_classResolveMembers this inst base iname args :
  Preserves I (classResolveMembers tts r this inst base iname args).
Proof.
  unfold classResolveMembers, instanceMembersSet, membersSet.
  preserves;
    first [ apply Preserves_resolvePartial
          | apply Preserves_resolveInstanceMember
          | apply Preserves_resolveOverload ].
Qed.

(** [FunctionPrototype.resolve] keeps [I] where the entry into the cache
    does. *)
Lemma Preserves_functionResolve_body_miss this args ctx :
  (∀ instance,
     Preserves I
       (updFunctionPrototype this (fun d =>
          fp_with_instances
            (<[instanceKeyOf tts args := instance]> (fp_instances d)) d))) →
  Preserves I (functionResolve_body tts r this args ctx).
Proof.
  intros Hinsert. unfold functionResolve_body.
  preserves; first [apply Preserves_newFunction|apply Hinsert].
Qed.

End ResolverInvariant.

(** ** Entries of the instance caches stay *)

Lemma cached_lookup c prototype key instance s :
  cached c prototype key instance s
  ↔ ∃ e m, heap s !! prototype = Some e ∧ cacheOf c e = Some m
           ∧ m !! key = Some instance.
Proof.
  unfold cached, instancesOf, functionInstancesOf, cacheOf. split.
  - destruct c; (destruct (heap s !! prototype) as [e|]; [|discriminate]);
      destruct (data e) as [| | d| d| | | | |] eqn:Hd; try discriminate;
      intros Hi; exists e; eexists; rewrite Hd; eauto.
  - intros (e & m & -> & Hm & Hi).
    destruct c, (data e); try discriminate Hm; injection Hm as <-; exact Hi.
Qed.

Lemma cached_alloc c prototype key instance s e :
  cached c prototype key instance s →
  cached c prototype key instance (with_heap (heap s ++ [e])%list s).
Proof.
  intros H. apply cached_lookup in H as (pe & m & Hpe & Hm & Hi).
  apply cached_lookup. exists pe, m. cbn [heap with_heap].
  rewrite lookup_app_l by (eapply lookup_lt_Some, Hpe). auto.
Qed.

#[global] Instance cached_invariant c prototype key instance :
  HeapInvariant (cached c prototype key instance) (cacheOf c).
Proof.
  split.
  - intros s s' Hview H. apply cached_lookup in H as (pe & m & Hpe & Hm & Hi).
    apply (f_equal (λ l, l !! prototype)) in Hview.
    rewrite !list_lookup_fmap in Hview. unfold handle in *.
    rewrite Hpe in Hview.
    destruct (heap s' !! prototype) as [pe'|] eqn:Hpe'; cbn in Hview;
      [|discriminate Hview].
    injection Hview as Hview. apply cached_lookup. exists pe', m.
    split; [exact Hpe'|]. rewrite Hview. auto.
  - intros s e _. apply cached_alloc.
  - reflexivity.
  - reflexivity.
  - reflexivity.
  - intros e d d' He _. unfold cacheOf. cbn. rewrite He. destruct c; reflexivity.
  - intros e p t o o' He. unfold cacheOf. cbn. rewrite He. destruct c; reflexivity.
  - intros e p g s p' g' s' He. unfold cacheOf. cbn. rewrite He.
    destruct c; reflexivity.
  - intros e d d' He Hd. unfold cacheOf. cbn. rewrite He, Hd. reflexivity.
  - intros e d d' He Hd. unfold cacheOf. cbn. rewrite He, Hd. reflexivity.
Qed.

Section Cached.
Variable c : CacheKind.
Variable prototype : handle.
Variable key : string.
Variable instance : handle.

(** An entry into the cache of a class prototype: another entry. *)
Lemma cached_updClassPrototype h key' instance' :
  ¬ (c = ClassCache ∧ h = prototype ∧ key' = key) →
  Preserves (cached c prototype key instance)
    (updClassPrototype h (fun d =>
       cp_with_instances (<[key' := instance']> (cp_instances d)) d)).
Proof.
  intros Hne s H. unfold updClassPrototype, bind.
  destruct (getClassPrototype h s) as [d s1|e s1|] eqn:Hd; [| |exact Logic.I].
  - apply getClassPrototype_Ret_inv in Hd as (e & He & Hd & ->).
    apply cached_lookup in H as (pe & m & Hpe & Hm & Hi).
    unfold updElement. rewrite He. apply cached_lookup. cbn [heap with_heap].
    destruct (decide (h = prototype)) as [->|Hh].
    + rewrite Hpe in He. injection He as <-.
      eexists _, _. rewrite list_lookup_insert_eq by (eapply lookup_lt_Some, Hpe).
      split; [reflexivity|]. unfold cacheOf in Hm |- *. cbn. rewrite Hd in Hm.
      destruct c; [|discriminate Hm]. injection Hm as <-.
      split; [reflexivity|]. rewrite lookup_insert_ne; [exact Hi|].
      intros ->. apply Hne. auto.
    + exists pe, m. rewrite list_lookup_insert_ne by exact Hh. auto.
  - pose proof (Preserves_getClassPrototype _ h s H) as Hg.
    rewrite Hd in Hg. exact Hg.
Qed.

Lemma cached_updFunctionPrototype h key' instance' :
  ¬ (c = FunctionCache ∧ h = prototype ∧ key' = key) →
  Preserves (cached c prototype key instance)
    (updFunctionPrototype h (fun d =>
       fp_with_instances (<[key' := instance']> (fp_instances d)) d)).
Proof.
  intros Hne s H. unfold updFunctionPrototype, bind.
  destruct (getFunctionPrototype h s) as [d s1|e s1|] eqn:Hd; [| |exact Logic.I].
  - apply getFunctionPrototype_Ret_inv in Hd as (e & He & Hd & ->).
    apply cached_lookup in H as (pe & m & Hpe & Hm & Hi).
    unfold updElement. rewrite He. apply cached_lookup. cbn [heap with_heap].
    destruct (decide (h = prototype)) as [->|Hh].
    + rewrite Hpe in He. injection He as <-.
      eexists _, _. rewrite list_lookup_insert_eq by (eapply lookup_lt_Some, Hpe).
      split; [reflexivity|]. unfold cacheOf in Hm |- *. cbn. rewrite Hd in Hm.
      destruct c; [discriminate Hm|]. injection Hm as <-.
      split; [reflexivity|]. rewrite lookup_insert_ne; [exact Hi|].
      intros ->. apply Hne. auto.
    + exists pe, m. rewrite list_lookup_insert_ne by exact Hh. auto.
  - pose proof (Preserves_getFunctionPrototype _ h s H) as Hg.
    rewrite Hd in Hg. exact Hg.
Qed.

Variable tts : list Type_ → string.
Variable r : Resolver.
Hypothesis HR : ResolverPreserves (cached c prototype key instance) r.

Lemma cached_newClass p sn iname args base :
  Preserves (cached c prototype key instance) (newClass p sn iname args base).
Proof.
  unfold newClass. preserves. intros s H. apply cached_alloc, H.
Qed.

(** The instantiation of a class keeps an entry that is not the one it
    writes. *)
Lemma cached_classInstantiate this args ctx :
  ¬ (c = ClassCache ∧ this = prototype ∧ instanceKeyOf tts args = key) →
  Preserves (cached c prototype key instance)
    (classInstantiate tts r this args ctx).
Proof.
  intros Hne. unfold classInstantiate.
  preserves;
    first [apply cached_newClass|apply cached_updClassPrototype, Hne].
Qed.

(** [resolve] of a class prototype keeps a cached entry: where the entry is
    its own there is a hit, and elsewhere it writes another entry. *)
Lemma cached_classResolve_body this args ctx :
  Preserves (cached c prototype key instance)
    (classResolve_body tts r this args ctx).
Proof.
  destruct (decide (c = ClassCache ∧ this = prototype
                    ∧ instanceKeyOf tts args = key)) as [(-> & -> & <-)|Hne].
  - intros s H.
    rewrite (classResolve_body_hit tts r s prototype args ctx instance);
      exact H.
  - unfold classResolve_body. preserves.
    + apply cached_classInstantiate, Hne.
    + apply Preserves_classResolveMembers, HR.
Qed.

Lemma cached_functionResolve_body this args ctx :
  Preserves (cached c prototype key instance)
    (functionResolve_body tts r this args ctx).
Proof.
  destruct (decide (c = FunctionCache ∧ this = prototype
                    ∧ instanceKeyOf tts args = key)) as [(-> & -> & <-)|Hne].
  - intros s H. pose proof H as Hc.
    apply cached_lookup in Hc as (pe & m & Hpe & Hm & Hi).
    unfold cacheOf in Hm. destruct (data pe) eqn:Hd; try discriminate Hm.
    injection Hm as <-. unfold functionResolve_body.
    rewrite (bind_Ret _ _ _ _ _ (getFunctionPrototype_Ret _ _ _ _ Hpe Hd)), Hi.
    exact H.
  - apply Preserves_functionResolve_body_miss; [exact HR|].
    intros instance'. apply cached_updFunctionPrototype, Hne.
Qed.

End Cached.

(** Every method of the resolver keeps every cached entry. *)
Lemma resolver_preserves_cached c prototype key instance tts fuel :
  ResolverPreserves (cached c prototype key instance) (resolver tts fuel).
Proof.
  induction fuel as [|fuel IH].
  - split; intros; apply Preserves_outOfFuel.
  - split; intros; cbn [resolver r_resolveSignature r_resolveType
      r_resolveTypeArguments r_classResolve r_classResolveUsingTypeArguments
      r_functionResolve].
    + apply Preserves_resolveSignature_body, IH.
    + apply Preserves_resolveType_body, IH.
    + apply Preserves_resolveTypeArguments_body, IH.
    + apply cached_classResolve_body, IH.
    + apply Preserves_classResolveUsingTypeArguments_body, IH.
    + apply cached_functionResolve_body, IH.
Qed.

(** ** Base chains *)

Lemma baseView_class e e' d :
  baseView e' = baseView e → data e = ClassD d →
  ∃ d', data e' = ClassD d' ∧ c_base d' = c_base d
        ∧ decoratorFlags e' = decoratorFlags e.
Proof.
  unfold baseView. intros [= H1 H2] Hd. rewrite Hd in H1.
  destruct (data e') as [| | | |d'| | | |]; try discriminate H1.
  injection H1 as H1. eauto.
Qed.

Lemma view_lookup {X} (view : Element → X) (l l' : list Element) (h : nat) e :
  view <$> l' = view <$> l → l !! h = Some e →
  ∃ e', l' !! h = Some e' ∧ view e' = view e.
Proof.
  intros Hview He. apply (f_equal (λ l, l !! h)) in Hview.
  rewrite !list_lookup_fmap, He in Hview.
  destruct (l' !! h) as [e'|]; [|discriminate Hview].
  injection Hview as Hview. eauto.
Qed.

#[global] Instance basesWellFormed_invariant :
  HeapInvariant basesWellFormed baseView.
Proof.
  split.
  - intros s s' Hview H c e' d' b He' Hd' Hb.
    destruct (view_lookup baseView (heap s') (heap s) c e' (eq_sym Hview) He')
      as (e & He & Hv).
    destruct (baseView_class e' e d' Hv Hd') as (d & Hd & Hbase & _).
    destruct (H c e d b He Hd ltac:(congruence))
      as (Hlt & be & bd & Hbe & Hbd & Hsealed).
    split; [exact Hlt|].
    destruct (view_lookup baseView (heap s) (heap s') b be Hview Hbe)
      as (be' & Hbe' & Hv').
    destruct (baseView_class be be' bd Hv' Hbd) as (bd' & Hbd' & _ & Hflags).
    exists be', bd'. unfold hasDecorator in *. rewrite Hflags. auto.
  - intros s e0 Hnonclass H c e d b He Hd Hb. cbn [heap with_heap] in *.
    destruct (decide (c < length (heap s))%nat) as [Hlt|Hge].
    + rewrite lookup_app_l in He by exact Hlt.
      destruct (H c e d b He Hd Hb) as (Hbc & be & bd & Hbe & Hbd & Hsealed).
      split; [exact Hbc|]. exists be, bd.
      rewrite lookup_app_l by (eapply lookup_lt_Some, Hbe). auto.
    + rewrite lookup_app_r in He by lia.
      destruct (c - length (heap s))%nat; [|destruct n; discriminate He].
      injection He as <-. destruct (Hnonclass d Hd).
  - reflexivity.
  - reflexivity.
  - reflexivity.
  - intros e d d' He Hd. unfold baseView. cbn. rewrite He, Hd. reflexivity.
  - intros e p t o o' He. unfold baseView. cbn. rewrite He. reflexivity.
  - intros e p g s p' g' s' He. unfold baseView. cbn. rewrite He. reflexivity.
  - intros e d d' He _. unfold baseView. cbn. rewrite He. reflexivity.
  - intros e d d' He _. unfold baseView. cbn. rewrite He. reflexivity.
Qed.

(** The entries into the caches do not touch the base chains. *)
Lemma bases_updClassPrototype h f :
  Preserves basesWellFormed (updClassPrototype h f).
Proof.
  intros s H. unfold updClassPrototype, bind.
  destruct (getClassPrototype h s) as [d s1|e s1|] eqn:Hd; [| |exact Logic.I].
  - apply getClassPrototype_Ret_inv in Hd as (e & He & Hd & ->).
    apply (updElement_keeps (λ e, data e = ClassPrototypeD d)); [|exact H|].
    + intros e' He'. unfold baseView. cbn. rewrite He'. reflexivity.
    + intros e' He'. congruence.
  - pose proof (Preserves_getClassPrototype _ h s H) as Hg.
    rewrite Hd in Hg. exact Hg.
Qed.

Lemma bases_updFunctionPrototype h f :
  Preserves basesWellFormed (updFunctionPrototype h f).
Proof.
  intros s H. unfold updFunctionPrototype, bind.
  destruct (getFunctionPrototype h s) as [d s1|e s1|] eqn:Hd; [| |exact Logic.I].
  - apply getFunctionPrototype_Ret_inv in Hd as (e & He & Hd & ->).
    apply (updElement_keeps (λ e, data e = FunctionPrototypeD d)); [|exact H|].
    + intros e' He'. unfold baseView. cbn. rewrite He'. reflexivity.
    + intros e' He'. congruence.
  - pose proof (Preserves_getFunctionPrototype _ h s H) as Hg.
    rewrite Hd in Hg. exact Hg.
Qed.

(** A class can be allocated whose base is a class in the heap that is not
    sealed. *)
Lemma bases_alloc_class s e d :
  basesWellFormed s → data e = ClassD d →
  (∀ b, c_base d = Some b →
     ∃ be bd, heap s !! b = Some be ∧ data be = ClassD bd
              ∧ hasDecorator be DecoratorFlags.SEALED = false) →
  basesWellFormed (with_heap (heap s ++ [e])%list s).
Proof.
  intros H Hd Hbase c e' d' b He' Hd' Hb. cbn [heap with_heap] in *.
  destruct (decide (c < length (heap s))%nat) as [Hlt|Hge].
  - rewrite lookup_app_l in He' by exact Hlt.
    destruct (H c e' d' b He' Hd' Hb) as (Hbc & be & bd & Hbe & Hbd & Hsealed).
    split; [exact Hbc|]. exists be, bd.
    rewrite lookup_app_l by (eapply lookup_lt_Some, Hbe). auto.
  - rewrite lookup_app_r in He' by lia.
    destruct (c - length (heap s))%nat eqn:Hc; [|destruct n; discriminate He'].
    injection He' as <-. rewrite Hd in Hd'. injection Hd' as <-.
    destruct (Hbase b Hb) as (be & bd & Hbe & Hbd & Hsealed).
    pose proof (lookup_lt_Some _ _ _ Hbe) as Hlt.
    split; [lia|]. exists be, bd. rewrite lookup_app_l by exact Hlt. auto.
Qed.

(** Computations that read the state. *)
Lemma bind_Throw_inv {A B} (m : M A) (k : A → M B) s e s' :
  bind m k s = Throw e s' →
  m s = Throw e s' ∨ ∃ a s1, m s = Ret a s1 ∧ k a s1 = Throw e s'.
Proof.
  unfold bind. destruct (m s) as [a s1|e1 s1|]; intros H.
  - right. exists a, s1. split; [reflexivity|exact H].
  - left. injection H as -> ->. reflexivity.
  - discriminate H.
Qed.

Lemma unchanged_Ret {A} (m : M A) s a s' :
  Unchanged m → m s = Ret a s' → s' = s.
Proof. intros Hm H. specialize (Hm s). rewrite H in Hm. exact Hm. Qed.

Lemma unchanged_Throw {A} (m : M A) s e s' :
  Unchanged m → m s = Throw e s' → s' = s.
Proof. intros Hm H. specialize (Hm s). rewrite H in Hm. exact Hm. Qed.

Lemma Unchanged_ret {A} (a : A) : Unchanged (ret a).
Proof. intros s. reflexivity. Qed.

Lemma Unchanged_throw {A} e : Unchanged (throw (A := A) e).
Proof. intros s. reflexivity. Qed.

Lemma Unchanged_gets {A} (f : Program → A) : Unchanged (gets f).
Proof. intros s. reflexivity. Qed.

Lemma Unchanged_bind {A B} (m : M A) (k : A → M B) :
  Unchanged m → (∀ a, Unchanged (k a)) → Unchanged (bind m k).
Proof.
  intros Hm Hk s. unfold bind. specialize (Hm s).
  destruct (m s) as [a s1|e s1|]; [|exact Hm|exact Logic.I].
  subst s1. apply Hk.
Qed.

Lemma Unchanged_getElement h : Unchanged (getElement h).
Proof. intros s. unfold getElement. destruct (heap s !! h); reflexivity. Qed.

Ltac unchanged :=
  repeat lazymatch goal with
    | |- Unchanged (ret _) => apply Unchanged_ret
    | |- Unchanged (throw _) => apply Unchanged_throw
    | |- Unchanged (gets _) => apply Unchanged_gets
    | |- Unchanged (getElement _) => apply Unchanged_getElement
    | |- Unchanged (getClass _) => unfold getClass
    | |- Unchanged (getClassPrototype _) => unfold getClassPrototype
    | |- Unchanged (bind _ _) => apply Unchanged_bind; [|intros]
    | |- Unchanged (match ?x with _ => _ end) => destruct x
    | |- Unchanged (if ?x then _ else _) => destruct x
    end.

(** The constructor of [Class]. *)
Lemma bases_newClass p sn iname args base s :
  basesWellFormed s →
  (∀ b, base = Some b →
     ∃ be, heap s !! b = Some be
           ∧ hasDecorator be DecoratorFlags.SEALED = false) →
  match newClass p sn iname args base s with
  | Ret _ s' | Throw _ s' => basesWellFormed s'
  | OutOfFuel => True
  end.
Proof.
  intros H Hbase.
  destruct (newClass p sn iname args base s) as [this s'|ex s'|] eqn:Hnew;
    [| |exact Logic.I].
  - pose proof Hnew as Hinv.
    apply newClass_Ret_inv in Hinv
      as (-> & e & d & -> & Hd & _ & _ & Hb & _).
    apply (bases_alloc_class s e d H Hd). intros b Hbd.
    rewrite Hb in Hbd. destruct (Hbase b Hbd) as (be & Hbe & Hsealed).
    (* the constructor has read the base as a class *)
    unfold newClass in Hnew.
    apply bind_Ret_inv in Hnew as (pe & s1 & Hp & Hnew).
    apply getElement_Ret_inv in Hp as [_ ->].
    apply bind_Ret_inv in Hnew as (pd & s1 & Hpd & Hnew).
    apply getClassPrototype_Ret_inv in Hpd as (_ & _ & _ & ->).
    apply bind_Ret_inv in Hnew as (u & s1 & Hu & Hnew).
    injection Hu as <- <-.
    apply bind_Ret_inv in Hnew as (u' & s1 & Hu & Hnew).
    injection Hu as <- <-.
    apply bind_Ret_inv in Hnew as (inh & s1 & Hinh & _).
    rewrite Hbd in Hinh.
    apply bind_Ret_inv in Hinh as (bd & s2 & Hbd' & _).
    apply getClass_Ret_inv in Hbd' as [Hbd' _].
    unfold classOf in Hbd'. rewrite Hbe in Hbd'.
    destruct (data be) eqn:Hdata; try discriminate Hbd'. eauto.
  - (* an exception leaves the state as it is *)
    enough (s' = s) as -> by exact H.
    unfold newClass in Hnew.
    repeat first
      [ apply bind_Throw_inv in Hnew as [Hnew|(? & ? & Hstep & Hnew)];
        [apply unchanged_Throw in Hnew; [exact Hnew|unchanged]
        |apply unchanged_Ret in Hstep; [subst|unchanged]]
      | discriminate Hnew ].
Qed.

Section Bases.
Variable tts : list Type_ → string.
Variable r : Resolver.
Hypothesis HR : ResolverPreserves basesWellFormed r.

(** The resolution of the [extends] clause goes on with a class that is not
    sealed. *)
Lemma bases_resolveBase this (pd : ClassPrototypeData) s :
  basesWellFormed s →
  match
    match cd_extendsType (cp_declaration pd) with
    | Some extendsType =>
        let! baseClassType := r_resolveType r extendsType None true in
        match baseClassType with
        | None => ret (Return tt)
        | Some baseClassType =>
            match classReference baseClassType with
            | None =>
                do! error DiagnosticCode.A_class_may_only_extend_another_class [] in
                ret (Return tt)
            | Some baseClass =>
                let! b := getElement baseClass in
                if hasDecorator b DecoratorFlags.SEALED then
                  do! error DiagnosticCode.Class_0_is_sealed_and_cannot_be_extended
                        [internalName b] in
                  ret (Return tt)
                else
                  let! p := getElement this in
                  if negb (eqb (hasDecorator b DecoratorFlags.UNMANAGED)
                             (hasDecorator p DecoratorFlags.UNMANAGED)) then
                    do! error DiagnosticCode.Unmanaged_classes_cannot_extend_managed_classes_and_vice_versa [] in
                    ret (Return tt)
                  else ret (Continue (Some baseClass))
            end
        end
    | None => ret (Continue None)
    end s
  with
  | Ret base s' =>
      basesWellFormed s'
      ∧ ∀ b, base = Continue (Some b) →
          ∃ be, heap s' !! b = Some be
                ∧ hasDecorator be DecoratorFlags.SEALED = false
  | Throw _ s' => basesWellFormed s'
  | OutOfFuel => True
  end.
Proof.
  intros H. destruct (cd_extendsType (cp_declaration pd)) as [extendsType|];
    [|split; [exact H|intros b [=]]].
  unfold bind. pose proof (rp_resolveType _ _ HR extendsType None true s H) as Hb.
  destruct (r_resolveType r extendsType None true s) as [[t|] sb|ex sb|];
    [| |exact Hb|exact Logic.I].
  - destruct (classReference t) as [baseClass|]; [|split; [exact Hb|intros b [=]]].
    unfold getElement.
    destruct (heap sb !! baseClass) as [be|] eqn:Hbe; [|exact Hb].
    destruct (hasDecorator be DecoratorFlags.SEALED) eqn:Hsealed;
      [split; [exact Hb|intros b [=]]|].
    destruct (heap sb !! this) as [p|]; [|exact Hb].
    destruct (negb _); [split; [exact Hb|intros b [=]]|].
    split; [exact Hb|]. intros b [= <-]. eauto.
  - split; [exact Hb|intros b [=]].
Qed.

Lemma bases_classInstantiate this args ctx :
  Preserves basesWellFormed (classInstantiate tts r this args ctx).
Proof.
  unfold classInstantiate. cbv zeta.
  apply Preserves_bind; [apply Preserves_getClassPrototype|]. intros pd.
  apply Preserves_bind_with
    with (Q := λ base s', ∀ b, base = Continue (Some b) →
                 ∃ be, heap s' !! b = Some be
                       ∧ hasDecorator be DecoratorFlags.SEALED = false).
  - intros s H. apply bases_resolveBase, H.
  - intros [baseClass|[]] s H Hbase; [|exact H].
    unfold bind at 1.
    match goal with
    | |- context [match ?m s with _ => _ end] =>
        assert (Hctx : Unchanged m) by unchanged;
        specialize (Hctx s); destruct (m s) as [cta s1|ex s1|];
        [subst s1|subst s1; exact H|exact Logic.I]
    end.
    unfold bind at 1, getElement at 1.
    destruct (heap s !! this) as [p|]; [|exact H].
    unfold bind at 1.
    match goal with
    | |- context [newClass ?a ?b ?c ?d ?e s] =>
        pose proof (bases_newClass a b c d e s H) as Hnew;
        destruct (newClass a b c d e s) as [inst s1|ex s1|];
        [|apply Hnew|exact Logic.I]
    end.
    + assert (Hs1 : basesWellFormed s1).
      { apply Hnew. intros b ->. apply Hbase. reflexivity. }
      revert s1 Hs1 Hnew. 
      match goal with
      | |- ∀ s1, _ → _ → match ?m s1 with _ => _ end =>
          enough (Hrest : Preserves basesWellFormed m)
            by (intros s1 Hs1 _; exact (Hrest s1 Hs1))
      end.
      preserves. apply bases_updClassPrototype.
    + intros b ->. apply Hbase. reflexivity.
Qed.

Lemma bases_classResolve_body this args ctx :
  Preserves basesWellFormed (classResolve_body tts r this args ctx).
Proof.
  unfold classResolve_body. preserves.
  - apply bases_classInstantiate.
  - apply Preserves_classResolveMembers, HR.
Qed.

Lemma bases_functionResolve_body this args ctx :
  Preserves basesWellFormed (functionResolve_body tts r this args ctx).
Proof.
  apply Preserves_functionResolve_body_miss; [exact HR|].
  intros instance. apply bases_updFunctionPrototype.
Qed.

End Bases.

(** Every method of the resolver keeps the base chains well formed. *)
Lemma resolver_preserves_bases tts fuel :
  ResolverPreserves basesWellFormed (resolver tts fuel).
Proof.
  induction fuel as [|fuel IH].
  - split; intros; apply Preserves_outOfFuel.
  - split; intros; cbn [resolver r_resolveSignature r_resolveType
      r_resolveTypeArguments r_classResolve r_classResolveUsingTypeArguments
      r_functionResolve].
    + apply Preserves_resolveSignature_body, IH.
    + apply Preserves_resolveType_body, IH.
    + apply Preserves_resolveTypeArguments_body, IH.
    + apply bases_classResolve_body, IH.
    + apply Preserves_classResolveUsingTypeArguments_body, IH.
    + apply bases_functionResolve_body, IH.
Qed.

(** ** The initializer keeps the invariants of the heap *)

Section Initializer.
Context {X : Type} {I : Program → Prop} {view : Element → X}.
Context `{!HeapInvariant I view}.

Lemma Preserves_tryResolveImport fuel name queuedExports :
  Preserves I (tryResolveImport fuel name queuedExports).
Proof.
  revert name. induction fuel as [|fuel IH]; intros name;
    [apply Preserves_outOfFuel|].
  cbn [tryResolveImport]. preserves. apply IH.
Qed.

Lemma Preserves_filterDecorators decorators acceptedFlags :
  Preserves I (filterDecorators decorators acceptedFlags).
Proof. unfold filterDecorators. preserves. Qed.

Lemma Preserves_checkGlobalOptions element name source ancestors :
  Preserves I (checkGlobalOptions element name source ancestors).
Proof.
  unfold checkGlobalOptions, setElementsLookup. preserves.
Qed.

Lemma Preserves_setElementsLookup name element :
  Preserves I (setElementsLookup name element).
Proof. unfold setElementsLookup. preserves. Qed.

Lemma Preserves_setFileLevelExports name element :
  Preserves I (setFileLevelExports name element).
Proof. unfold setFileLevelExports. preserves. Qed.

Lemma Preserves_setModuleLevelExports name element :
  Preserves I (setModuleLevelExports name element).
Proof. unfold setModuleLevelExports. preserves. Qed.

Lemma Preserves_membersSet owner name element :
  Preserves I (membersSet owner name element).
Proof. unfold membersSet. preserves. Qed.

Ltac leaves :=
  first [ apply Preserves_tryResolveImport
        | apply Preserves_filterDecorators
        | apply Preserves_checkGlobalOptions
        | apply Preserves_setElementsLookup
        | apply Preserves_setFileLevelExports
        | apply Preserves_setModuleLevelExports
        | apply Preserves_membersSet ].

Lemma Preserves_initializeField declaration classPrototype :
  Preserves I (initializeField declaration classPrototype).
Proof. unfold initializeField. preserves; leaves. Qed.

Lemma Preserves_checkOperatorOverloads decorators prototype classPrototype :
  Preserves I (checkOperatorOverloads decorators prototype classPrototype).
Proof.
  unfold checkOperatorOverloads, checkOperatorDecorator. preserves; leaves.
Qed.

Lemma Preserves_initializeMethod declaration classPrototype :
  Preserves I (initializeMethod declaration classPrototype).
Proof.
  unfold initializeMethod.
  preserves; first [leaves|apply Preserves_checkOperatorOverloads].
Qed.

Lemma Preserves_initializeAccessor declaration classPrototype :
  Preserves I (initializeAccessor declaration classPrototype).
Proof. unfold initializeAccessor. preserves; leaves. Qed.

Lemma Preserves_initializeClass declaration queuedExtends queuedImplements ns :
  Preserves I (initializeClass declaration queuedExtends queuedImplements ns).
Proof.
  unfold initializeClass.
  preserves;
    first [ leaves | apply Preserves_initializeField
          | apply Preserves_initializeMethod
          | apply Preserves_initializeAccessor ].
Qed.

Lemma Preserves_setExportAndCheckLibrary name element identifier :
  Preserves I (setExportAndCheckLibrary name element identifier).
Proof. unfold setExportAndCheckLibrary. preserves; leaves. Qed.

Lemma Preserves_walkQueuedExports fuel externalName member queuedExports name seen :
  Preserves I
    (walkQueuedExports fuel externalName member queuedExports name seen).
Proof.
  revert name seen. induction fuel as [|fuel IH]; intros name seen;
    [apply Preserves_outOfFuel|].
  cbn [walkQueuedExports].
  preserves; first [apply Preserves_setExportAndCheckLibrary|apply IH].
Qed.

Lemma Preserves_initializeExport member path queuedExports :
  Preserves I (initializeExport member path queuedExports).
Proof.
  unfold initializeExport.
  preserves;
    first [ leaves | apply Preserves_setExportAndCheckLibrary
          | apply Preserves_walkQueuedExports ].
Qed.

Lemma Preserves_initializeExports statement queuedExports :
  Preserves I (initializeExports statement queuedExports).
Proof.
  unfold initializeExports. preserves; apply Preserves_initializeExport.
Qed.

Lemma Preserves_initializeFunction declaration ns :
  Preserves I (initializeFunction declaration ns).
Proof. unfold initializeFunction. preserves; leaves. Qed.

Lemma Preserves_initializeImport declaration path queuedExports queuedImports :
  Preserves I (initializeImport declaration path queuedExports queuedImports).
Proof. unfold initializeImport. preserves; leaves. Qed.

Lemma Preserves_initializeImports statement queuedImports :
  Preserves I (initializeImports statement queuedImports).
Proof.
  unfold initializeImports. preserves; apply Preserves_initializeImport.
Qed.

Lemma Preserves_resolveIdentifier identifier :
  Preserves I (resolveIdentifier identifier).
Proof. unfold resolveIdentifier. preserves. Qed.

Lemma Preserves_initializeStatement q statement :
  Preserves I (initializeStatement q statement).
Proof.
  unfold initializeStatement.
  preserves;
    first [ apply Preserves_initializeClass | apply Preserves_initializeFunction
          | apply Preserves_initializeExports
          | apply Preserves_initializeImports ].
Qed.

Lemma Preserves_drainQueuedImport fuel queuedExports queuedImport :
  Preserves I (drainQueuedImport fuel queuedExports queuedImport).
Proof. unfold drainQueuedImport. preserves; leaves. Qed.

Lemma Preserves_drainQueuedExport fuel exportName queuedExport queuedExports
    currentExport :
  Preserves I
    (drainQueuedExport fuel exportName queuedExport queuedExports currentExport).
Proof.
  revert currentExport. induction fuel as [|fuel IH]; intros currentExport;
    [apply Preserves_outOfFuel|].
  cbn [drainQueuedExport].
  preserves; first [apply Preserves_setExportAndCheckLibrary|apply IH].
Qed.

Lemma Preserves_drainQueuedExtends derivedPrototype :
  Preserves I (drainQueuedExtends derivedPrototype).
Proof.
  unfold drainQueuedExtends. preserves; apply Preserves_resolveIdentifier.
Qed.

Lemma Preserves_initializeStatements sources :
  Preserves I (initializeStatements sources).
Proof.
  unfold initializeStatements. preserves. apply Preserves_initializeStatement.
Qed.

(** [Program.initialize] keeps an invariant that the resolver keeps. *)
Lemma Preserves_initialize tts fuel options sources :
  ResolverPreserves I (resolver tts fuel) →
  Preserves I (initialize tts fuel options sources).
Proof.
  intros HR. unfold initialize.
  preserves;
    first [ leaves | apply Preserves_initializeStatements
          | apply Preserves_drainQueuedImport
          | apply Preserves_drainQueuedExport
          | apply Preserves_drainQueuedExtends
          | apply (rp_classResolve _ _ HR) ].
Qed.

End Initializer.

(** ** What [resolve] returns is what the cache holds *)

Lemma Post_ret {A} (a : A) (Q : A → Program → Prop) :
  (∀ s, Q a s) → Post (ret a) Q.
Proof. intros H s a' s' [= <- <-]. apply H. Qed.

Lemma Post_throw {A} e (Q : A → Program → Prop) : Post (throw e) Q.
Proof. intros s a s' [=]. Qed.

Lemma Post_bind {A B} (m : M A) (k : A → M B) (Q : B → Program → Prop) :
  (∀ a, Post (k a) Q) → Post (bind m k) Q.
Proof.
  intros Hk s b s' H. apply bind_Ret_inv in H as (a & s1 & _ & H).
  exact (Hk a s1 b s' H).
Qed.

Lemma Post_bind_with {A B} (m : M A) (k : A → M B) (P : A → Prop)
    (Q : B → Program → Prop) :
  Post m (λ a _, P a) → (∀ a, P a → Post (k a) Q) → Post (bind m k) Q.
Proof.
  intros Hm Hk s b s' H. apply bind_Ret_inv in H as (a & s1 & Ha & H).
  exact (Hk a (Hm s a s1 Ha) s1 b s' H).
Qed.

Lemma Post_forLoop {A B R} (body : B → A → M (Step B R)) b (l : list A)
    (P : R → Prop) :
  (∀ b a, Post (body b a) (λ st _, ∀ r, st = Return r → P r)) →
  Post (forLoop body b l) (λ st _, ∀ r, st = Return r → P r).
Proof.
  intros Hbody. revert b. induction l as [|a l IH]; intros b.
  - apply Post_ret. intros _ r [=].
  - cbn [forLoop].
    apply Post_bind_with with (P := λ st, ∀ r, st = Return r → P r);
      [apply Hbody|].
    intros [b'|r] Hst; [apply IH|].
    apply Post_ret. intros _ r' [= <-]. apply Hst. reflexivity.
Qed.

Ltac post_step :=
  lazymatch goal with
  | |- Post (ret _) _ => apply Post_ret
  | |- Post (throw _) _ => apply Post_throw
  | |- Post (bind _ _) _ => apply Post_bind; intros
  | |- Post (match ?x with _ => _ end) _ => destruct x
  | |- Post (let _ := _ in _) _ => cbv zeta
  end.

Section Returned.
Variable tts : list Type_ → string.
Variable r : Resolver.

Lemma resolveInstanceMember_returns this inst iname args offset member :
  Post (resolveInstanceMember tts r this inst iname args offset member)
    (λ st _, ∀ res, st = Return res → res = None).
Proof.
  unfold resolveInstanceMember. repeat post_step.
  all: intros; congruence.
Qed.

(** [resolve] returns the class it has instantiated, or [null]. *)
Lemma classResolveMembers_returns this inst base iname args :
  Post (classResolveMembers tts r this inst base iname args)
    (λ res _, res = Some inst ∨ res = None).
Proof.
  unfold classResolveMembers. do 4 (apply Post_bind; intros).
  apply Post_bind_with with (P := λ st, ∀ res, st = Return res → res = None).
  - destruct (cp_instanceMembers _).
    + apply Post_forLoop. intros. apply resolveInstanceMember_returns.
    + apply Post_ret. intros _ res [=].
  - intros [mo|res] Hst; repeat post_step; auto.
Qed.

End Returned.

(** Where [resolve] of a class prototype returns a class, the cache holds
    this class under the key. *)
Lemma classResolve_returns_cached tts fuel this args ctx s instance s' :
  classResolve tts fuel this args ctx s = Ret (Some instance) s' →
  instancesOf s' this (instanceKeyOf tts args) = Some instance.
Proof.
  destruct fuel as [|fuel]; [discriminate|].
  rewrite classResolve_S. unfold classResolve_body. intros H.
  apply bind_Ret_inv in H as (pd & s0 & Hpd & H).
  apply getClassPrototype_Ret_inv in Hpd as (pe & Hpe & Hd & ->).
  destruct (cp_instances pd !! instanceKeyOf tts args) as [i|] eqn:Hi.
  - injection H as <- <-. unfold instancesOf. rewrite Hpe, Hd. exact Hi.
  - apply bind_Ret_inv in H as ([[[inst base] name]|[]] & s1 & Hinst & H);
      [|discriminate H].
    pose proof (classInstantiate_caches _ _ _ _ _ _ _ _ _ _ Hinst) as [Hc _].
    pose proof (Preserves_classResolveMembers tts (resolver tts fuel)
                  (resolver_preserves_cached ClassCache this
                     (instanceKeyOf tts args) inst tts fuel)
                  this inst base name args s1 Hc) as Hkeep.
    rewrite H in Hkeep.
    destruct (classResolveMembers_returns _ _ _ _ _ _ _ _ _ _ H) as [[= ->]|[=]].
    exact Hkeep.
Qed.

Lemma updFunctionPrototype_Ret_inv s h f u s' :
  updFunctionPrototype h f s = Ret u s' →
  ∃ e d, heap s !! h = Some e ∧ data e = FunctionPrototypeD d
         ∧ s' = with_heap
                  (<[h := with_data (FunctionPrototypeD (f d)) e]> (heap s)) s.
Proof.
  unfold updFunctionPrototype, getFunctionPrototype. intros H.
  apply bind_Ret_inv in H as (d & s1 & Hd & H).
  apply bind_Ret_inv in Hd as (e & s2 & He & Hd).
  apply getElement_Ret_inv in He as [He ->].
  destruct (data e) eqn:Hdata; inversion Hd; subst; clear Hd.
  apply updElement_Ret_inv in H as (e' & He' & ->).
  rewrite He in He'. injection He' as <-. eauto.
Qed.

(** Where [resolve] of a function prototype returns a function, the cache
    holds this function under the key. *)
Lemma functionResolve_returns_cached tts fuel this args ctx s instance s' :
  functionResolve tts fuel this args ctx s = Ret (Some instance) s' →
  functionInstancesOf s' this (instanceKeyOf tts args) = Some instance.
Proof.
  destruct fuel as [|fuel]; [discriminate|].
  change (functionResolve tts (S fuel))
    with (functionResolve_body tts (resolver tts fuel)).
  unfold functionResolve_body. intros H.
  apply bind_Ret_inv in H as (pd & s0 & Hpd & H).
  unfold getFunctionPrototype in Hpd.
  apply bind_Ret_inv in Hpd as (pe & s1 & Hpe & Hpd).
  apply getElement_Ret_inv in Hpe as [Hpe ->].
  destruct (data pe) eqn:Hd; inversion Hpd; subst; clear Hpd.
  destruct (fp_instances pd !! instanceKeyOf tts args) as [i|] eqn:Hi.
  - injection H as <- <-. unfold functionInstancesOf. rewrite Hpe, Hd. exact Hi.
  - revert s0 instance s' Hpe H.
    match goal with
    | |- ∀ s0 instance s', _ → ?m s0 = Ret (Some instance) s' → _ =>
        enough (Hpost : Post m (λ res s', ∀ i, res = Some i →
                  functionInstancesOf s' this (instanceKeyOf tts args) = Some i))
          by (intros s0 instance s' _ H; exact (Hpost _ _ _ H _ eq_refl))
    end.
    repeat lazymatch goal with
           | |- Post (bind (updFunctionPrototype _ _) _) _ => fail
           | _ => post_step
           end; try (intros; discriminate).
    all: intros s0 res s1 H; apply bind_Ret_inv in H as (u & s2 & Hupd & H);
      injection H as <- <-; intros i [= <-];
      apply updFunctionPrototype_Ret_inv in Hupd as (e & d & He & Hd' & ->);
      unfold functionInstancesOf; cbn;
      rewrite list_lookup_insert_eq by (eapply lookup_lt_Some, He); cbn;
      apply lookup_insert_eq.
Qed.

(** C9.  On a miss, [ClassPrototype.resolve] is [classInstantiate] followed
    by [classResolveMembers] (the constructor, the instance members and the
    operator overloads).  In the state between the two the new class is
    cached under the key while it has no constructor instance, no overloads
    and no members yet.  No call of a resolver method takes the entry away or
    replaces it, nor does the resolution of the members as a whole.  In any
    state in which the cache of the prototype holds the instance under the
    key, [resolve] with a key that is equal returns this instance without
    changing the state: no nested call is made and no second instance is
    constructed.  And the call itself returns this instance or [null]. *)
Theorem resolve_caches_before_members :
  ∀ tts fuel s this typeArguments ctx instance base name s1,
    instancesOf s this (instanceKeyOf tts typeArguments) = None →
    classInstantiate tts (resolver tts fuel) this typeArguments ctx s
    = Ret (Continue (instance, base, name)) s1 →
    classResolve tts (S fuel) this typeArguments ctx s
    = classResolveMembers tts (resolver tts fuel) this instance base name
        typeArguments s1
    ∧ instancesOf s1 this (instanceKeyOf tts typeArguments) = Some instance
    ∧ (∃ d, classOf s1 instance = Some d
            ∧ c_prototype d = this ∧ c_base d = base
            ∧ c_constructorInstance d = None ∧ c_overloads d = None
            ∧ ∀ n, memberOf s1 instance n = None)
    ∧ (∀ fuel',
         ResolverPreserves
           (cached ClassCache this (instanceKeyOf tts typeArguments) instance)
           (resolver tts fuel'))
    ∧ Preserves
        (cached ClassCache this (instanceKeyOf tts typeArguments) instance)
        (classResolveMembers tts (resolver tts fuel) this instance base name
           typeArguments)
    ∧ (∀ fuel' typeArguments' ctx' s2,
         instanceKeyOf tts typeArguments' = instanceKeyOf tts typeArguments →
         instancesOf s2 this (instanceKeyOf tts typeArguments) = Some instance →
         classResolve tts (S fuel') this typeArguments' ctx' s2
         = Ret (Some instance) s2)
    ∧ ∀ res s',
        classResolve tts (S fuel) this typeArguments ctx s = Ret res s' →
        (res = Some instance ∨ res = None)
        ∧ instancesOf s' this (instanceKeyOf tts typeArguments) = Some instance.
Proof.
  intros tts fuel s this typeArguments ctx instance base name s1 Hmiss Hinst.
  assert (Hdec : classResolve tts (S fuel) this typeArguments ctx s
                 = classResolveMembers tts (resolver tts fuel) this instance
                     base name typeArguments s1).
  { rewrite classResolve_S. unfold classResolve_body.
    unfold instancesOf in Hmiss.
    pose proof Hinst as Hpd. unfold classInstantiate in Hpd.
    apply bind_Ret_inv in Hpd as (pd & s0 & Hpd & _).
    pose proof Hpd as Hpd'.
    apply getClassPrototype_Ret_inv in Hpd' as (pe & Hpe & Hdata & ->).
    rewrite Hpe, Hdata in Hmiss.
    mrun Hpd. rewrite Hmiss. mrun Hinst. reflexivity. }
  destruct (classInstantiate_caches _ _ _ _ _ _ _ _ _ _ Hinst)
    as (Hcached & d & Hd & Hp & Hb & Hc & Ho & Hm).
  assert (Hkeep : Preserves
            (cached ClassCache this (instanceKeyOf tts typeArguments) instance)
            (classResolveMembers tts (resolver tts fuel) this instance base name
               typeArguments))
    by apply Preserves_classResolveMembers, resolver_preserves_cached.
  split; [exact Hdec|]. split; [exact Hcached|].
  split; [exists d; rewrite Hm; auto 10|].
  split; [intros fuel'; apply resolver_preserves_cached|].
  split; [exact Hkeep|]. split.
  - intros fuel' typeArguments' ctx' s2 Hkey Hhit.
    rewrite classResolve_S. apply classResolve_body_hit.
    rewrite Hkey. exact Hhit.
  - intros res s' Hres. rewrite Hdec in Hres. split.
    + exact (classResolveMembers_returns _ _ _ _ _ _ _ _ _ _ Hres).
    + specialize (Hkeep s1 Hcached). rewrite Hres in Hkeep. exact Hkeep.
Qed.

(** C9 on [class Node { next: Node }]: the field refers to the one instance
    of the class, and the heap holds the prototype, the field prototype, the
    instance and its field. *)
Lemma resolve_caches_before_members_witness :
  instancesOf (initialized 10 scenarioSelfReference) 0%nat "" = None
  ∧ instancesOf (instantiated 10 0%nat (initialized 10 scenarioSelfReference))
      0%nat "" = Some 2%nat
  ∧ classResolve exampleTypesToString 9 0%nat None None
      (instantiated 10 0%nat (initialized 10 scenarioSelfReference))
    = Ret (Some 2%nat)
        (instantiated 10 0%nat (initialized 10 scenarioSelfReference))
  ∧ ∃ s', classResolve exampleTypesToString 11 0%nat None None
            (initialized 10 scenarioSelfReference) = Ret (Some 2%nat) s'
          ∧ instancesOf s' 0%nat "" = Some 2%nat
          ∧ fieldOf s' 3%nat = Some (1%nat, Ty.asClass Ty.usize32 2%nat, 0)
          ∧ length (heap s') = 4%nat.
Proof.
  set (s := initialized 10 scenarioSelfReference).
  set (s1 := instantiated 10 0%nat s).
  assert (Hmiss : instancesOf s 0%nat (instanceKeyOf exampleTypesToString None) = None)
    by (vm_compute; reflexivity).
  assert (Hinst : classInstantiate exampleTypesToString
                    (resolver exampleTypesToString 10) 0%nat None None s
                  = Ret (Continue (2%nat, None, "a/Node")) s1)
    by (vm_compute; reflexivity).
  assert (Hrun : classResolve exampleTypesToString 11 0%nat None None s
                 = Ret (Some 2%nat) (resolved 11 0%nat s))
    by (vm_compute; reflexivity).
  destruct (resolve_caches_before_members exampleTypesToString 10 s 0%nat None
              None 2%nat None "a/Node" s1 Hmiss Hinst)
    as (_ & Hcached & _ & _ & _ & Hre & Hpost).
  split; [exact Hmiss|]. split; [exact Hcached|].
  split; [exact (Hre 8%nat None None s1 eq_refl Hcached)|].
  exists (resolved 11 0%nat s).
  split; [exact Hrun|].
  split; [exact (proj2 (Hpost _ _ Hrun))|].
  split; vm_compute; reflexivity.
Defined.





(** ** Base chains of the states the program reaches *)

Lemma basesWellFormed_newProgram options : basesWellFormed (newProgram options).
Proof. intros c e d b He. discriminate He. Qed.

Lemma basesWellFormed_decrease s : basesWellFormed s → basesDecrease s.
Proof.
  intros H c d b Hc Hb. unfold classOf in Hc.
  destruct (heap s !! c) as [e|] eqn:He; [|discriminate Hc].
  destruct (data e) eqn:Hd; try discriminate Hc. injection Hc as ->.
  destruct (H c e d b He Hd Hb) as (Hlt & be & bd & Hbe & Hbd & _).
  split; [exact Hlt|]. unfold classOf. rewrite Hbe, Hbd. eauto.
Qed.

Lemma basesWellFormed_not_sealed s c d b name :
  basesWellFormed s → classOf s c = Some d → c_base d = Some b →
  ¬ sealedAs s b name.
Proof.
  intros H Hc Hb (be' & Hbe' & Hsealed' & _). unfold classOf in Hc.
  destruct (heap s !! c) as [e|] eqn:He; [|discriminate Hc].
  destruct (data e) eqn:Hd; try discriminate Hc. injection Hc as ->.
  destruct (H c e d b He Hd Hb) as (_ & be & bd & Hbe & _ & Hsealed).
  congruence.
Qed.

(** The states that [initialize] and the methods of the resolver return in
    have well-formed base chains. *)
Lemma reachable_basesWellFormed tts s : Reachable tts s → basesWellFormed s.
Proof.
  induction 1 as [fuel options sources s Hrun
                 |fuel node ctx report s res s' _ IH Hrun
                 |fuel node ctx report s res s' _ IH Hrun
                 |fuel ps nodes ctx alt s res s' _ IH Hrun
                 |fuel this args ctx s res s' _ IH Hrun
                 |fuel this nodes ctx alt s res s' _ IH Hrun
                 |fuel this args ctx s res s' _ IH Hrun
                 |fuel this nodes ctx alt s res s' _ IH Hrun].
  - pose proof (Preserves_initialize tts fuel options sources
                  (resolver_preserves_bases tts fuel) _
                  (basesWellFormed_newProgram options)) as H.
    rewrite Hrun in H. exact H.
  - pose proof (rp_resolveSignature _ _ (resolver_preserves_bases tts fuel)
                  node ctx report s IH) as H.
    unfold resolveSignature in Hrun. rewrite Hrun in H. exact H.
  - pose proof (rp_resolveType _ _ (resolver_preserves_bases tts fuel)
                  node ctx report s IH) as H.
    unfold resolveType in Hrun. rewrite Hrun in H. exact H.
  - pose proof (rp_resolveTypeArguments _ _ (resolver_preserves_bases tts fuel)
                  ps nodes ctx alt s IH) as H.
    unfold resolveTypeArguments in Hrun. rewrite Hrun in H. exact H.
  - pose proof (rp_classResolve _ _ (resolver_preserves_bases tts fuel)
                  this args ctx s IH) as H.
    unfold classResolve in Hrun. rewrite Hrun in H. exact H.
  - pose proof (rp_classResolveUsingTypeArguments _ _
                  (resolver_preserves_bases tts fuel) this nodes ctx alt s IH)
      as H.
    unfold classResolveUsingTypeArguments in Hrun. rewrite Hrun in H. exact H.
  - pose proof (rp_functionResolve _ _ (resolver_preserves_bases tts fuel)
                  this args ctx s IH) as H.
    unfold functionResolve in Hrun. rewrite Hrun in H. exact H.
  - pose proof (Preserves_functionResolveUsingTypeArguments_body
                  (resolver tts fuel) (resolver_preserves_bases tts fuel)
                  this nodes ctx alt s IH) as H.
    unfold functionResolveUsingTypeArguments in Hrun.
    rewrite Hrun in H. exact H.
Qed.


(** The state after [prototype.resolve(null)] of class [B] of scenario S4 is
    one the program reaches. *)
Lemma reachable_scenarioSealed :
  Reachable exampleTypesToString (resolved 10 1%nat (initialized 10 scenarioSealed)).
Proof.
  apply (reach_classResolve exampleTypesToString 10 1%nat None None
           (initialized 10 scenarioSealed) (Some 4%nat)).
  - apply (reach_initialize exampleTypesToString 10 exampleOptions scenarioSealed).
    vm_compute. reflexivity.
  - vm_compute. reflexivity.
Defined.


(** ** Assignability in the states the program reaches *)



(** ** Field layout *)

Lemma land_low (m n : Z) : 0 ≤ n → Z.land m (Z.ones n) = m mod 2 ^ n.
Proof. intros H. apply Z.land_ones, H. Qed.

Lemma lor_low (m n : Z) :
  0 ≤ n → Z.lor m (Z.ones n) = m + Z.ones n - m mod 2 ^ n.
Proof.
  intros H. pose proof (Z.add_lor_land m (Z.ones n)) as H1.
  rewrite Z.land_ones in H1 by exact H. lia.
Qed.

Ltac euclid := Z.to_euclidean_division_equations; lia.

(** The [switch] aligns: it accepts the byte sizes 1, 2, 4 and 8, the offset
    it gives is a multiple of the byte size also as the [i32] that the field
    stores, and while the offsets stay below [2 ^ 31] it is the least multiple
    from the running offset on. *)
Lemma alignMemoryOffset_spec (m s a : Z) :
  alignMemoryOffset m s = Some a →
  s ∈ [1; 2; 4; 8]
  ∧ i32 a mod s = 0
  ∧ (0 ≤ m → m + s ≤ 2 ^ 31 →
     i32 a = a ∧ m ≤ a < m + s ∧ u32 (a + s) = a + s).
Proof.
  unfold alignMemoryOffset, u32, i32.
  change 1 with (Z.ones 1) at 2. change 3 with (Z.ones 2).
  change 7 with (Z.ones 3).
  rewrite !land_low, !lor_low by lia.
  change (Z.ones 1) with 1. change (Z.ones 2) with 3. change (Z.ones 3) with 7.
  change (2 ^ 1) with 2. change (2 ^ 2) with 4. change (2 ^ 3) with 8.
  change (2 ^ 32) with 4294967296. change (2 ^ 31) with 2147483648.
  destruct (Z.eqb_spec s 1) as [->|_].
  { intros [= <-]. split; [set_solver|]. split; [apply Z.mod_1_r|].
    intros. repeat split; euclid. }
  destruct (Z.eqb_spec s 2) as [->|_].
  { destruct (Z.eqb_spec (m mod 2) 0); cbn [negb]; intros [= <-];
      (split; [set_solver|]); (split; [euclid|]); intros;
      repeat split; euclid. }
  destruct (Z.eqb_spec s 4) as [->|_].
  { destruct (Z.eqb_spec (m mod 4) 0); cbn [negb]; intros [= <-];
      (split; [set_solver|]); (split; [euclid|]); intros;
      repeat split; euclid. }
  destruct (Z.eqb_spec s 8) as [->|_]; [|discriminate].
  destruct (Z.eqb_spec (m mod 8) 0); cbn [negb]; intros [= <-];
    (split; [set_solver|]); (split; [euclid|]); intros;
    repeat split; euclid.
Qed.

Lemma newField_Ret_inv prototype iname type s this s' :
  newField prototype iname type s = Ret this s' →
  this = length (heap s)
  ∧ ∃ e, s' = with_heap (heap s ++ [e])%list s
         ∧ data e = FieldD prototype type (-1).
Proof.
  unfold newField. intros H.
  apply bind_Ret_inv in H as (p & s1 & Hp & H).
  apply getElement_Ret_inv in Hp as [_ ->].
  inversion H; subst. eauto.
Qed.

Lemma setMemoryOffset_Ret_inv field memoryOffset s u s' :
  setMemoryOffset field memoryOffset s = Ret u s' →
  ∃ e prototype type o,
    heap s !! field = Some e ∧ data e = FieldD prototype type o
    ∧ s' = with_heap
             (<[field := with_data (FieldD prototype type memoryOffset) e]> (heap s)) s.
Proof.
  unfold setMemoryOffset. intros H.
  apply bind_Ret_inv in H as (e & s1 & He & H).
  apply getElement_Ret_inv in He as [He ->].
  destruct (data e) eqn:Hd; try discriminate H.
  apply updElement_Ret_inv in H as (e' & He' & ->).
  rewrite He in He'. injection He' as <-. eauto 10.
Qed.





(** ** Instances per key *)

(** C1.  The cache is consulted when [resolve] is entered and written when
    the instance has been constructed, and the class prototype resolves the
    base class, the function prototype the class, in between.

    [class B { a: A }  class A extends B {}], [A] (prototype 2) resolved
    first: the resolution of the base [B] lays out the field [a], which
    resolves [A] again, in the state in which [B] has just been instantiated.
    That call returns the class 4, the type of the field; the outer call then
    constructs the class 6, enters it under the same key and returns it.
    Both are instances of prototype 2 without type arguments.

    [class K { constructor() {} }], the constructor (prototype 1) resolved
    first: the resolution of [K] resolves the constructor to the function 3,
    the constructor instance of the class; the outer call constructs the
    function 4, enters it under the same key and returns it. *)
Theorem resolve_reentrant_instantiates_twice :
  (classResolve exampleTypesToString 12 2%nat None None
     (instantiated 10 0%nat (initialized 10 scenarioBaseRefersToDerived))
   = Ret (Some 4%nat)
       (resolved 12 2%nat
          (instantiated 10 0%nat (initialized 10 scenarioBaseRefersToDerived)))
   ∧ classResolve exampleTypesToString 12 2%nat None None
       (initialized 10 scenarioBaseRefersToDerived)
     = Ret (Some 6%nat)
         (resolved 12 2%nat (initialized 10 scenarioBaseRefersToDerived))
   ∧ instancesOf (resolved 12 2%nat (initialized 10 scenarioBaseRefersToDerived))
       2%nat "" = Some 6%nat
   ∧ fieldOf (resolved 12 2%nat (initialized 10 scenarioBaseRefersToDerived))
       5%nat = Some (1%nat, Ty.asClass Ty.usize32 4%nat, 0)
   ∧ (λ d, (c_prototype d, c_typeArguments d, c_base d))
       <$> classOf (resolved 12 2%nat (initialized 10 scenarioBaseRefersToDerived))
             4%nat = Some (2%nat, None, Some 3%nat)
   ∧ (λ d, (c_prototype d, c_typeArguments d, c_base d))
       <$> classOf (resolved 12 2%nat (initialized 10 scenarioBaseRefersToDerived))
             6%nat = Some (2%nat, None, Some 3%nat))
  ∧ functionResolve exampleTypesToString 12 1%nat None None
      (initialized 10 scenarioConstructor)
    = Ret (Some 4%nat) (functionResolved 12 1%nat (initialized 10 scenarioConstructor))
  ∧ functionInstancesOf
      (functionResolved 12 1%nat (initialized 10 scenarioConstructor)) 1%nat ""
    = Some 4%nat
  ∧ c_constructorInstance
      <$> classOf (functionResolved 12 1%nat (initialized 10 scenarioConstructor))
            2%nat = Some (Some 3%nat)
  ∧ f_prototype
      <$> functionOf (functionResolved 12 1%nat (initialized 10 scenarioConstructor))
            3%nat = Some 1%nat
  ∧ f_prototype
      <$> functionOf (functionResolved 12 1%nat (initialized 10 scenarioConstructor))
            4%nat = Some 1%nat.
Proof.
  repeat apply conj; vm_compute; reflexivity.
Qed.

(** ** Locals, break contexts and flows *)

(** *** The example frames *)

Lemma reachable_frameWithFlow :
  FrameReachable exampleToNativeType frameWithFlow.
Proof.
  apply (reach_flowCreate exampleToNativeType exampleFrame 0%nat).
  - apply reach_frameOf.
  - vm_compute. reflexivity.
Defined.

Lemma reachable_frameInBranch :
  FrameReachable exampleToNativeType frameInBranch.
Proof.
  apply (reach_enterBranchOrScope exampleToNativeType frameWithFlow 0%nat 1%nat).
  - exact reachable_frameWithFlow.
  - vm_compute. reflexivity.
Defined.

Lemma reachable_frameScoped :
  FrameReachable exampleToNativeType frameScoped.
Proof.
  apply (reach_addScopedLocal exampleToNativeType frameInBranch 1%nat Ty.i32 "y"
           (Some (variableDeclaration "y" CommonFlags.NONE)) 1%nat).
  - exact reachable_frameInBranch.
  - vm_compute. reflexivity.
Defined.

Lemma reachable_frameWithTemp :
  FrameReachable exampleToNativeType frameWithTemp.
Proof.
  apply (reach_getAndFreeTempLocal exampleToNativeType exampleFrame Ty.i64 1%nat).
  - apply reach_frameOf.
  - vm_compute. reflexivity.
Defined.

Lemma flowsWellFormed_frameScoped : flowsWellFormed frameScoped.
Proof.
  intros [|[|f]] d p Hd Hp.
  - injection Hd as <-. discriminate Hp.
  - injection Hd as <-. injection Hp as <-. lia.
  - discriminate Hd.
Defined.

Lemma flowsWellFormed_frameWithFlow : flowsWellFormed frameWithFlow.
Proof.
  intros [|f] d p Hd Hp; [|discriminate Hd].
  injection Hd as <-. discriminate Hp.
Defined.

Lemma frame_bind_Ret_inv {A B} (m : Frame.M A) (k : A → Frame.M B) s b s' :
  Frame.bind m k s = Frame.Ret b s' →
  ∃ a s1, m s = Frame.Ret a s1 ∧ k a s1 = Frame.Ret b s'.
Proof.
  unfold Frame.bind. destruct (m s) as [a s1|e s1|]; [eauto|discriminate..].
Qed.

Lemma frame_bind_Ret {A B} (m : Frame.M A) (k : A → Frame.M B) s a s1 :
  m s = Frame.Ret a s1 → Frame.bind m k s = k a s1.
Proof. unfold Frame.bind. intros ->. reflexivity. Qed.

Lemma frame_bind_assoc {A B C} (m : Frame.M A) (k1 : A → Frame.M B)
    (k2 : B → Frame.M C) s :
  Frame.bind (Frame.bind m k1) k2 s
  = Frame.bind m (fun a => Frame.bind (k1 a) k2) s.
Proof. unfold Frame.bind. destruct (m s); reflexivity. Qed.

Lemma frame_with_temps_temps n x s :
  n ≠ NativeType.OTHER → Frame.temps n (Frame.with_temps n x s) = x.
Proof. destruct n; [reflexivity..|congruence]. Qed.

Lemma frame_with_temps_other n n' x s :
  n ≠ n' → Frame.temps n' (Frame.with_temps n x s) = Frame.temps n' s.
Proof. destruct n, n'; try reflexivity; congruence. Qed.

Lemma frame_with_temps_twice n x y s :
  Frame.with_temps n x (Frame.with_temps n y s) = Frame.with_temps n x s.
Proof. destruct n; reflexivity. Qed.

Lemma frame_tempsOf_eq n s :
  n ≠ NativeType.OTHER → Frame.tempsOf n s = Frame.Ret (Frame.temps n s) s.
Proof. destruct n; [reflexivity..|congruence]. Qed.

Lemma frame_setTempsOf_eq n x s :
  n ≠ NativeType.OTHER →
  Frame.setTempsOf n x s = Frame.Ret tt (Frame.with_temps n x s).
Proof. destruct n; [reflexivity..|congruence]. Qed.

(** What [freeTempLocal] does to a local that is in the store. *)
Lemma freeTempLocal_eq tnt s l d :
  Frame.localStore s !! l = Some d →
  Frame.freeTempLocal tnt l s
  = if flags_is (Frame.l_flags d) CommonFlags.INLINED then Frame.Ret tt s
    else if 0 <=? Frame.l_index d then
      match tnt (Frame.l_type d) with
      | NativeType.OTHER => Frame.Throw (Error "concrete type expected") s
      | n =>
          Frame.Ret tt
            (Frame.with_temps n
               (Some (default [] (Frame.temps n s) ++ [l])%list) s)
      end
    else Frame.Throw AssertionError s.
Proof.
  intros Hl. unfold Frame.freeTempLocal, Frame.bind, Frame.getLocal.
  rewrite Hl. destruct (flags_is _ _); [reflexivity|].
  destruct (0 <=? Frame.l_index d); [|reflexivity]. cbn.
  destruct (tnt (Frame.l_type d)); reflexivity.
Qed.


Lemma getTempLocal_pop tnt s type xs l d :
  tnt type ≠ NativeType.OTHER →
  Frame.temps (tnt type) s = Some (xs ++ [l])%list →
  Frame.localStore s !! l = Some d →
  Frame.getTempLocal tnt type s
  = Frame.Ret l
      (Frame.with_localStore (<[l := Frame.with_type type d]> (Frame.localStore s))
         (Frame.with_temps (tnt type) (Some xs) s)).
Proof.
  intros Hn Htemps Hl. unfold Frame.getTempLocal.
  rewrite (frame_bind_Ret _ _ _ _ _ (frame_tempsOf_eq _ _ Hn)), Htemps.
  assert (Hlast : last (xs ++ [l]) = Some l) by apply last_snoc.
  assert (Hrem : removelast (xs ++ [l]) = xs) by apply removelast_last.
  destruct (xs ++ [l])%list as [|y ys]; [discriminate Hlast|].
  cbv beta iota. rewrite Hlast, Hrem. cbn [Frame.deref].
  rewrite (frame_bind_Ret _ _ _ l _ eq_refl).
  rewrite (frame_bind_Ret _ _ _ _ _ (frame_setTempsOf_eq _ _ _ Hn)).
  unfold Frame.bind, Frame.updLocal.
  replace (Frame.localStore (Frame.with_temps (tnt type) (Some xs) s))
    with (Frame.localStore s) by (destruct (tnt type); reflexivity).
  rewrite Hl. cbn. f_equal.
Qed.

(** A local that is freed is the next temporary local of its native type:
    [getTempLocal] after [freeTempLocal] returns that same local, now of the
    type asked for, and the free list holds what it held before the local
    was freed. *)
Theorem freeTempLocal_getTempLocal tnt s l d type :
  Frame.localStore s !! l = Some d →
  flags_is (Frame.l_flags d) CommonFlags.INLINED = false →
  0 ≤ Frame.l_index d →
  tnt type ≠ NativeType.OTHER →
  tnt (Frame.l_type d) = tnt type →
  Frame.bind (Frame.freeTempLocal tnt l) (fun _ => Frame.getTempLocal tnt type) s
  = Frame.Ret l
      (Frame.with_localStore (<[l := Frame.with_type type d]> (Frame.localStore s))
         (Frame.with_temps (tnt type)
            (Some (default [] (Frame.temps (tnt type) s))) s)).
Proof.
  intros Hl Hin Hidx Hn Heq.
  rewrite (frame_bind_Ret _ _ s tt
             (Frame.with_temps (tnt type)
                (Some (default [] (Frame.temps (tnt type) s) ++ [l])%list) s)).
  2:{ rewrite (freeTempLocal_eq tnt s l d Hl), Hin.
      destruct (Z.leb_spec 0 (Frame.l_index d)); [|lia].
      rewrite Heq. destruct (tnt type); congruence. }
  rewrite (getTempLocal_pop tnt _ type (default [] (Frame.temps (tnt type) s)) l d Hn).
  - rewrite frame_with_temps_twice. destruct (tnt type); reflexivity.
  - apply frame_with_temps_temps, Hn.
  - destruct (tnt type); exact Hl.
Qed.

(** The parameter [x: i32] of the example function, freed and taken again as
    a [u32]. *)
Lemma freeTempLocal_getTempLocal_witness :
  Frame.bind (Frame.freeTempLocal exampleToNativeType 0%nat)
    (fun _ => Frame.getTempLocal exampleToNativeType Ty.u32) exampleFrame
  = Frame.Ret 0%nat
      (Frame.with_localStore
         [{| Frame.l_simpleName := "x"; Frame.l_index := 0;
             Frame.l_type := Ty.u32; Frame.l_flags := CommonFlags.NONE |}]
         (Frame.with_temps NativeType.I32 (Some []) exampleFrame)).
Proof.
  apply (freeTempLocal_getTempLocal exampleToNativeType exampleFrame 0%nat
           {| Frame.l_simpleName := "x"; Frame.l_index := 0;
              Frame.l_type := Ty.i32; Frame.l_flags := CommonFlags.NONE |}
           Ty.u32).
  - reflexivity.
  - reflexivity.
  - simpl. lia.
  - vm_compute. discriminate.
  - reflexivity.
Defined.

(** *** What the methods do to a frame *)

Lemma addLocal_eq type name s :
  Frame.addLocal type name s
  = let l := length (Frame.localStore s) in
    let s1 :=
      Frame.with_localStore
        (Frame.localStore s ++ [newLocal s type name]) s in
    match givenName name with
    | Some n =>
        if JSMap.has (Frame.locals s) n
        then Frame.Throw (Error "duplicate local name") s1
        else Frame.Ret l
               (Frame.with_additionalLocals (Frame.additionalLocals s ++ [type])
                  (Frame.with_locals (JSMap.set (Frame.locals s) n l) s1))
    | None =>
        Frame.Ret l
          (Frame.with_additionalLocals (Frame.additionalLocals s ++ [type]) s1)
    end.
Proof.
  unfold Frame.addLocal, newLocal, givenName.
  destruct name as [n|]; [destruct (String.eqb n "")|]; cbn; try reflexivity.
  unfold Frame.bind; cbn. destruct (JSMap.has (Frame.locals s) n); reflexivity.
Qed.

Lemma addLocal_Ret_inv type name s l s' :
  Frame.addLocal type name s = Frame.Ret l s' →
  l = length (Frame.localStore s)
  ∧ Frame.localStore s'
    = (Frame.localStore s ++ [newLocal s type name])%list
  ∧ Frame.additionalLocals s' = (Frame.additionalLocals s ++ [type])%list
  ∧ Frame.locals s'
    = match givenName name with
      | Some n => JSMap.set (Frame.locals s) n l
      | None => Frame.locals s
      end
  ∧ (∀ n, Frame.temps n s' = Frame.temps n s)
  ∧ Frame.flowStore s' = Frame.flowStore s
  ∧ Frame.breakStack s' = Frame.breakStack s
  ∧ Frame.breakContext s' = Frame.breakContext s
  ∧ Frame.nextBreakId s' = Frame.nextBreakId s
  ∧ Frame.flags s' = Frame.flags s
  ∧ Frame.signature s' = Frame.signature s
  ∧ Frame.diagnostics s' = Frame.diagnostics s.
Proof.
  rewrite addLocal_eq. cbv zeta.
  destruct (givenName name) as [n|];
    [destruct (JSMap.has (Frame.locals s) n); [discriminate|]|];
    intros [= <- <-]; cbn; repeat apply conj; try reflexivity;
    intros []; reflexivity.
Qed.

Lemma getTempLocal_Ret_inv tnt type s l s' :
  Frame.getTempLocal tnt type s = Frame.Ret l s' →
  tnt type ≠ NativeType.OTHER
  ∧ ((∃ xs d,
        Frame.temps (tnt type) s = Some (xs ++ [l])%list
        ∧ Frame.localStore s !! l = Some d
        ∧ s' = Frame.with_localStore
                 (<[l := Frame.with_type type d]> (Frame.localStore s))
                 (Frame.with_temps (tnt type) (Some xs) s))
     ∨ ((Frame.temps (tnt type) s = None ∨ Frame.temps (tnt type) s = Some [])
        ∧ Frame.addLocal type None s = Frame.Ret l s')).
Proof.
  intros H.
  assert (Hn : tnt type ≠ NativeType.OTHER).
  { intros Hn. unfold Frame.getTempLocal in H. rewrite Hn in H. discriminate H. }
  split; [exact Hn|]. unfold Frame.getTempLocal in H.
  rewrite (frame_bind_Ret _ _ _ _ _ (frame_tempsOf_eq _ _ Hn)) in H.
  destruct (Frame.temps (tnt type) s) as [[|x xs]|] eqn:Htemps; [auto..| |auto].
  destruct (exists_last (l := x :: xs)) as (ys & y & Hys); [discriminate|].
  cbv beta iota in H. rewrite Hys in H.
  rewrite last_snoc, removelast_last in H. cbn [Frame.deref] in H.
  rewrite (frame_bind_Ret _ _ _ y _ eq_refl) in H.
  rewrite (frame_bind_Ret _ _ _ _ _ (frame_setTempsOf_eq _ _ _ Hn)) in H.
  unfold Frame.bind, Frame.updLocal in H.
  replace (Frame.localStore (Frame.with_temps (tnt type) (Some ys) s))
    with (Frame.localStore s) in H by (destruct (tnt type); reflexivity).
  destruct (Frame.localStore s !! y) as [d|] eqn:Hy; [|discriminate H].
  cbn in H. injection H as <- <-. left. exists ys, d. rewrite Hys.
  repeat apply conj; try reflexivity; try exact Hy.
Qed.

Lemma freeTempLocal_Ret_inv tnt l s s' :
  Frame.freeTempLocal tnt l s = Frame.Ret tt s' →
  ∃ d, Frame.localStore s !! l = Some d
       ∧ ((flags_is (Frame.l_flags d) CommonFlags.INLINED = true ∧ s' = s)
          ∨ (flags_is (Frame.l_flags d) CommonFlags.INLINED = false
             ∧ 0 ≤ Frame.l_index d
             ∧ tnt (Frame.l_type d) ≠ NativeType.OTHER
             ∧ s' = Frame.with_temps (tnt (Frame.l_type d))
                      (Some (default [] (Frame.temps (tnt (Frame.l_type d)) s)
                             ++ [l])%list) s)).
Proof.
  intros H. destruct (Frame.localStore s !! l) as [d|] eqn:Hl.
  - exists d. split; [reflexivity|].
    rewrite (freeTempLocal_eq tnt s l d Hl) in H.
    destruct (flags_is _ _); [left; split; [reflexivity|congruence]|].
    right. destruct (Z.leb_spec 0 (Frame.l_index d)); [|discriminate H].
    destruct (tnt (Frame.l_type d)); try discriminate H;
      injection H as <-; repeat apply conj; auto; discriminate.
  - unfold Frame.freeTempLocal, Frame.bind, Frame.getLocal in H.
    rewrite Hl in H. discriminate H.
Qed.

Lemma getAndFreeTempLocal_Ret_inv tnt type s l s' :
  Frame.getAndFreeTempLocal tnt type s = Frame.Ret l s' →
  tnt type ≠ NativeType.OTHER
  ∧ ((∃ xs, Frame.temps (tnt type) s = Some (xs ++ [l])%list ∧ s' = s)
     ∨ ((Frame.temps (tnt type) s = None ∨ Frame.temps (tnt type) s = Some [])
        ∧ ∃ s1, Frame.addLocal type None
                  (Frame.with_temps (tnt type) (Some []) s) = Frame.Ret l s1
                ∧ s' = Frame.with_temps (tnt type) (Some [l]) s1)).
Proof.
  intros H.
  assert (Hn : tnt type ≠ NativeType.OTHER).
  { intros Hn. unfold Frame.getAndFreeTempLocal in H. rewrite Hn in H.
    discriminate H. }
  split; [exact Hn|]. unfold Frame.getAndFreeTempLocal in H.
  rewrite (frame_bind_Ret _ _ _ _ _ (frame_tempsOf_eq _ _ Hn)) in H.
  cbv zeta in H.
  rewrite (frame_bind_Ret _ _ _ _ _ (frame_setTempsOf_eq _ _ _ Hn)) in H.
  destruct (Frame.temps (tnt type) s) as [[|x xs]|] eqn:Htemps;
    cbn [default from_option id length Nat.ltb Nat.leb] in H.
  - right. split; [auto|].
    apply frame_bind_Ret_inv in H as (l' & s1 & Hadd & H).
    rewrite (frame_bind_Ret _ _ _ _ _ (frame_setTempsOf_eq _ _ _ Hn)) in H.
    injection H as <- <-. eauto.
  - left. destruct (exists_last (l := x :: xs)) as (ys & y & Hys); [discriminate|].
    rewrite Hys, last_snoc in H. injection H as <- <-.
    exists ys. split; [congruence|].
    rewrite <- Hys, <- Htemps.
    destruct (tnt type); try congruence; destruct s; reflexivity.
  - right. split; [auto|].
    apply frame_bind_Ret_inv in H as (l' & s1 & Hadd & H).
    rewrite (frame_bind_Ret _ _ _ _ _ (frame_setTempsOf_eq _ _ _ Hn)) in H.
    injection H as <- <-. eauto.
Qed.

(** *** Invariants of a frame *)

Section FrameInvariants.
Variable I : Frame.t → Prop.

Lemma FrameKeeps_ret {A} (a : A) : FrameKeeps I (Frame.ret a).
Proof. intros s a' s' H [= _ <-]. exact H. Qed.

Lemma FrameKeeps_throw {A} e : FrameKeeps I (Frame.throw (A := A) e).
Proof. intros s a s' _ [=]. Qed.

Lemma FrameKeeps_outOfFuel {A} : FrameKeeps I (Frame.outOfFuel (A := A)).
Proof. intros s a s' _ [=]. Qed.

Lemma FrameKeeps_gets {A} (f : Frame.t → A) : FrameKeeps I (Frame.gets f).
Proof. intros s a s' H [= _ <-]. exact H. Qed.

Lemma FrameKeeps_bind {A B} (m : Frame.M A) (k : A → Frame.M B) :
  FrameKeeps I m → (∀ a, FrameKeeps I (k a)) → FrameKeeps I (Frame.bind m k).
Proof.
  intros Hm Hk s b s' H Hb.
  apply frame_bind_Ret_inv in Hb as (a & s1 & Ha & Hb).
  exact (Hk a s1 b s' (Hm s a s1 H Ha) Hb).
Qed.

Lemma FrameKeeps_assert b : FrameKeeps I (Frame.assert b).
Proof. destruct b; [apply FrameKeeps_ret|apply FrameKeeps_throw]. Qed.

Lemma FrameKeeps_assertSome {A} (o : option A) : FrameKeeps I (Frame.assertSome o).
Proof. destruct o; [apply FrameKeeps_ret|apply FrameKeeps_throw]. Qed.

Lemma FrameKeeps_deref {A} (o : option A) : FrameKeeps I (Frame.deref o).
Proof. destruct o; [apply FrameKeeps_ret|apply FrameKeeps_throw]. Qed.

Lemma FrameKeeps_when b m : FrameKeeps I m → FrameKeeps I (Frame.when b m).
Proof. destruct b; [auto|]. intros _. apply FrameKeeps_ret. Qed.

Lemma FrameKeeps_getLocal l : FrameKeeps I (Frame.getLocal l).
Proof.
  intros s a s' H. unfold Frame.getLocal.
  destruct (Frame.localStore s !! l); intros [=]; subst; exact H.
Qed.

Lemma FrameKeeps_getFlow f : FrameKeeps I (Frame.getFlow f).
Proof.
  intros s a s' H. unfold Frame.getFlow.
  destruct (Frame.flowStore s !! f); intros [=]; subst; exact H.
Qed.

Lemma FrameKeeps_forEach {A} (l : list A) (body : A → Frame.M unit) :
  (∀ a, FrameKeeps I (body a)) → FrameKeeps I (Frame.forEach l body).
Proof.
  intros Hbody. induction l as [|a l IH]; [apply FrameKeeps_ret|].
  apply FrameKeeps_bind; [apply Hbody|]. intros _. exact IH.
Qed.

(** An invariant that reads [view] of the frame is kept by what leaves
    [view] alone. *)
Context {X : Type} (view : Frame.t → X).
Hypothesis I_view : ∀ s s', view s' = view s → I s → I s'.

Lemma FrameKeeps_modify f :
  (∀ s, view (f s) = view s) → FrameKeeps I (Frame.modify f).
Proof. intros Hf s a s' H [= _ <-]. exact (I_view _ _ (Hf s) H). Qed.

Lemma FrameKeeps_allocLocal d :
  (∀ s l, view (Frame.with_localStore l s) = view s) →
  FrameKeeps I (Frame.allocLocal d).
Proof. intros Hf s a s' H [= _ <-]. exact (I_view _ _ (Hf s _) H). Qed.

Lemma FrameKeeps_updLocal l g :
  (∀ s l, view (Frame.with_localStore l s) = view s) →
  FrameKeeps I (Frame.updLocal l g).
Proof.
  intros Hf s a s' H. unfold Frame.updLocal.
  destruct (Frame.localStore s !! l); intros [=]; subst.
  exact (I_view _ _ (Hf s _) H).
Qed.

Lemma FrameKeeps_allocFlow d :
  (∀ s l, view (Frame.with_flowStore l s) = view s) →
  FrameKeeps I (Frame.allocFlow d).
Proof. intros Hf s a s' H [= _ <-]. exact (I_view _ _ (Hf s _) H). Qed.

Lemma FrameKeeps_updFlow f g :
  (∀ s l, view (Frame.with_flowStore l s) = view s) →
  FrameKeeps I (Frame.updFlow f g).
Proof.
  intros Hf s a s' H. unfold Frame.updFlow.
  destruct (Frame.flowStore s !! f); intros [=]; subst.
  exact (I_view _ _ (Hf s _) H).
Qed.

End FrameInvariants.

Ltac frame_keeps_step view I_view :=
  lazymatch goal with
  | |- FrameKeeps _ (Frame.ret _) => apply FrameKeeps_ret
  | |- FrameKeeps _ (Frame.throw _) => apply FrameKeeps_throw
  | |- FrameKeeps _ Frame.outOfFuel => apply FrameKeeps_outOfFuel
  | |- FrameKeeps _ (Frame.gets _) => apply FrameKeeps_gets
  | |- FrameKeeps _ (Frame.assert _) => apply FrameKeeps_assert
  | |- FrameKeeps _ (Frame.assertSome _) => apply FrameKeeps_assertSome
  | |- FrameKeeps _ (Frame.deref _) => apply FrameKeeps_deref
  | |- FrameKeeps _ (Frame.when _ _) => apply FrameKeeps_when
  | |- FrameKeeps _ (Frame.getLocal _) => apply FrameKeeps_getLocal
  | |- FrameKeeps _ (Frame.getFlow _) => apply FrameKeeps_getFlow
  | |- FrameKeeps _ (Frame.error _ _) =>
      apply (FrameKeeps_modify _ view I_view); intros; reflexivity
  | |- FrameKeeps _ (Frame.modify _) =>
      apply (FrameKeeps_modify _ view I_view); intros; reflexivity
  | |- FrameKeeps _ (Frame.allocLocal _) =>
      apply (FrameKeeps_allocLocal _ view I_view); intros; reflexivity
  | |- FrameKeeps _ (Frame.updLocal _ _) =>
      apply (FrameKeeps_updLocal _ view I_view); intros; reflexivity
  | |- FrameKeeps _ (Frame.allocFlow _) =>
      apply (FrameKeeps_allocFlow _ view I_view); intros; reflexivity
  | |- FrameKeeps _ (Frame.updFlow _ _) =>
      apply (FrameKeeps_updFlow _ view I_view); intros; reflexivity
  | |- FrameKeeps _ (Frame.forEach _ _) => apply FrameKeeps_forEach; intros
  | |- FrameKeeps _ (Frame.bind _ _) => apply FrameKeeps_bind; [|intros]
  | |- FrameKeeps _ (match ?x with _ => _ end) => destruct x
  | |- FrameKeeps _ (let _ := _ in _) => cbv zeta
  end.


Ltac frame_unfold :=
  unfold Frame.addLocal, Frame.getTempLocal, Frame.freeTempLocal,
    Frame.getAndFreeTempLocal, Frame.enterBreakContext,
    Frame.leaveBreakContext, Frame.flowCreate, Frame.flowIs, Frame.flowSet,
    Frame.flowUnset, Frame.enterBranchOrScope, Frame.leaveBranchOrScope,
    Frame.addScopedLocal, Frame.flowFinalize, Frame.tempsOf, Frame.setTempsOf.

Ltac frame_keeps_with tac view I_view :=
  repeat first [tac | frame_keeps_step view I_view | progress frame_unfold].

Ltac frame_keeps view I_view := frame_keeps_with fail view I_view.

(** *** Break contexts *)

Lemma breakWellFormed_view s s' :
  (Frame.breakStack s', Frame.breakContext s')
  = (Frame.breakStack s, Frame.breakContext s) →
  breakWellFormed s → breakWellFormed s'.
Proof. unfold breakWellFormed. intros [= -> ->]. auto. Qed.

Lemma enterBreakContext_eq s :
  Frame.enterBreakContext s
  = Frame.Ret (pretty (Frame.nextBreakId s))
      (Frame.with_breakContext (Some (pretty (Frame.nextBreakId s)))
         (Frame.with_breakStack
            (Some (default [] (Frame.breakStack s) ++ [Frame.nextBreakId s])%list)
            (Frame.with_nextBreakId (i32 (Frame.nextBreakId s + 1)) s))).
Proof.
  unfold Frame.enterBreakContext, Frame.bind. cbn.
  destruct (Frame.breakStack s); reflexivity.
Qed.

Lemma leaveBreakContext_snoc s stack id :
  Frame.breakStack s = Some (stack ++ [id])%list →
  Frame.leaveBreakContext s
  = Frame.Ret tt
      (match last stack with
       | Some top =>
           Frame.with_breakContext (Some (pretty top))
             (Frame.with_breakStack (Some stack) s)
       | None =>
           Frame.with_breakStack None
             (Frame.with_breakContext None
                (Frame.with_breakStack (Some stack) s))
       end).
Proof.
  intros Hs. unfold Frame.leaveBreakContext, Frame.bind, Frame.gets.
  rewrite Hs. cbn -[Nat.ltb Nat.sub removelast length lookup].
  rewrite length_app, removelast_last. cbn [length].
  replace (0 <? length stack + 1)%nat with true
    by (symmetry; apply Nat.ltb_lt; lia).
  cbn -[Nat.ltb Nat.sub removelast length lookup].
  destruct stack as [|x stack _] using rev_ind; [reflexivity|].
  rewrite length_app. cbn [length].
  replace (1 <? length stack + 1 + 1)%nat with true
    by (symmetry; apply Nat.ltb_lt; lia).
  replace (length stack + 1 + 1 - 2)%nat with (length stack) by lia.
  rewrite list_lookup_middle by reflexivity. rewrite last_snoc. reflexivity.
Qed.

Lemma breakWellFormed_enter s label s' :
  Frame.enterBreakContext s = Frame.Ret label s' → breakWellFormed s'.
Proof.
  rewrite enterBreakContext_eq. intros [= _ <-]. unfold breakWellFormed. cbn.
  exists (Frame.nextBreakId s). rewrite last_snoc. auto.
Qed.

Lemma breakWellFormed_leave s s' :
  Frame.leaveBreakContext s = Frame.Ret tt s' → breakWellFormed s'.
Proof.
  intros H. destruct (Frame.breakStack s) as [stack|] eqn:Hs.
  - destruct stack as [|id stack _] using rev_ind.
    + unfold Frame.leaveBreakContext, Frame.bind in H. cbn in H.
      rewrite Hs in H. discriminate H.
    + rewrite (leaveBreakContext_snoc s stack id Hs) in H. injection H as <-.
      unfold breakWellFormed.
      destruct (last stack) as [top|] eqn:Htop; cbn; [eauto|reflexivity].
  - unfold Frame.leaveBreakContext, Frame.bind in H. cbn in H.
    rewrite Hs in H. discriminate H.
Qed.

Ltac frame_reachable_case_with tac view I_view :=
  match goal with
  | IH : ?I ?s, H : ?m ?s = Frame.Ret ?a ?s' |- ?I ?s' =>
      refine ((_ : FrameKeeps I m) s a s' IH H);
      frame_keeps_with tac view I_view
  end.

Ltac frame_reachable_case view I_view :=
  frame_reachable_case_with fail view I_view.

Lemma reachable_breakWellFormed tnt s :
  FrameReachable tnt s → breakWellFormed s.
Proof.
  induction 1;
    try (frame_reachable_case
           (fun s => (Frame.breakStack s, Frame.breakContext s))
           breakWellFormed_view; fail).
  - exact eq_refl.
  - eapply breakWellFormed_enter; eassumption.
  - eapply breakWellFormed_leave; eassumption.
Qed.



(** *** Flows and scoped locals *)

Lemma flowsWellFormed_view s s' :
  Frame.flowStore s' = Frame.flowStore s →
  flowsWellFormed s → flowsWellFormed s'.
Proof. unfold flowsWellFormed. intros ->. auto. Qed.

Lemma flowsWellFormed_allocFlow d :
  FrameKeeps (λ s, flowsWellFormed s
                   ∧ ∀ p, Frame.parent d = Some p →
                          (p < length (Frame.flowStore s))%nat)
    (Frame.allocFlow d).
Proof.
  intros s a s' [Hwf Hd] [= _ <-]. split.
  - intros f fd p. cbn [Frame.flowStore Frame.with_flowStore].
    intros Hf Hp. unfold Frame.fref in *.
    destruct (decide (f < length (Frame.flowStore s))%nat) as [Hlt|Hge].
    + rewrite lookup_app_l in Hf by exact Hlt. eauto.
    + rewrite list_lookup_middle in Hf
        by (apply lookup_lt_Some in Hf; rewrite length_app in Hf; cbn in Hf; lia).
      injection Hf as <-. specialize (Hd p Hp).
      apply Nat.nlt_ge in Hge. lia.
  - intros p Hp. cbn. rewrite length_app. specialize (Hd p Hp). lia.
Qed.

Lemma flowsWellFormed_updFlow f g :
  (∀ d, Frame.parent (g d) = Frame.parent d) →
  FrameKeeps flowsWellFormed (Frame.updFlow f g).
Proof.
  intros Hg s a s' Hwf. unfold Frame.updFlow.
  destruct (Frame.flowStore s !! f) as [d|] eqn:Hf; intros [= _ <-].
  intros f' d' p. cbn [Frame.flowStore Frame.with_flowStore].
  intros Hf' Hp. unfold Frame.fref in *.
  destruct (decide (f' = f)) as [->|Hne].
  - rewrite list_lookup_insert_eq in Hf' by (eapply lookup_lt_Some, Hf).
    injection Hf' as <-. rewrite Hg in Hp. eauto.
  - rewrite list_lookup_insert_ne in Hf' by congruence. eauto.
Qed.

Lemma flowsWellFormed_enterBranchOrScope this :
  FrameKeeps flowsWellFormed (Frame.enterBranchOrScope this).
Proof.
  intros s a s' Hwf H. unfold Frame.enterBranchOrScope in H.
  apply frame_bind_Ret_inv in H as (d & s1 & Hd & H).
  unfold Frame.getFlow in Hd.
  destruct (Frame.flowStore s !! this) as [d'|] eqn:Hthis; [|discriminate Hd].
  injection Hd as <- <-.
  refine (proj1 (flowsWellFormed_allocFlow _ s a s' _ H)).
  split; [exact Hwf|]. intros p [= <-]. eapply lookup_lt_Some, Hthis.
Qed.

Lemma flowsWellFormed_flowCreate : FrameKeeps flowsWellFormed Frame.flowCreate.
Proof.
  intros s a s' Hwf H. unfold Frame.flowCreate, Frame.bind, Frame.gets in H.
  refine (proj1 (flowsWellFormed_allocFlow _ s a s' _ H)).
  split; [exact Hwf|]. intros p [=].
Qed.

Lemma reachable_flowsWellFormed tnt s :
  FrameReachable tnt s → flowsWellFormed s.
Proof.
  induction 1;
    try (frame_reachable_case Frame.flowStore flowsWellFormed_view;
         try (apply flowsWellFormed_updFlow; reflexivity); fail).
  - intros f d' p Hf. discriminate Hf.
  - eapply flowsWellFormed_flowCreate; eassumption.
  - eapply flowsWellFormed_enterBranchOrScope; eassumption.
Qed.

Lemma visibleIn_det s name flow r r' :
  visibleIn s name flow r → visibleIn s name flow r' → r = r'.
Proof.
  intros H. revert r'. induction H; intros r' H'; inversion H'; subst;
    try congruence.
  apply IHvisibleIn. congruence.
Qed.

Lemma scopedLocalOf_lookup s flow d name :
  Frame.flowStore s !! flow = Some d →
  scopedLocalOf s flow name = Frame.scopedLocals d ≫= λ m, JSMap.get m name.
Proof. unfold scopedLocalOf. intros ->. reflexivity. Qed.

Lemma walkScopes_visible s name :
  flowsWellFormed s →
  ∀ fuel this d,
    (this < fuel)%nat → Frame.flowStore s !! this = Some d →
    ∃ r, visibleIn s name this r
         ∧ Frame.walkScopes fuel this name s = Frame.Ret r s.
Proof.
  intros Hwf. induction fuel as [|fuel IH]; intros this d Hlt Hd; [lia|].
  cbn [Frame.walkScopes]. unfold Frame.bind, Frame.getFlow, Frame.fref in *.
  rewrite Hd.
  pose proof (scopedLocalOf_lookup s this d name Hd) as Hsc.
  destruct (Frame.scopedLocals d ≫= λ m, JSMap.get m name) as [l|] eqn:Hl.
  - exists (Some l). split; [apply visibleIn_here; congruence|reflexivity].
  - destruct (Frame.parent d) as [p|] eqn:Hp.
    + pose proof (Hwf this d p Hd Hp) as Hpt.
      destruct (lookup_lt_is_Some_2 (Frame.flowStore s) p) as [pd Hpd].
      { apply lookup_lt_Some in Hd. lia. }
      destruct (IH p pd ltac:(lia) Hpd) as (r & Hr & Hw).
      exists r. split; [|exact Hw].
      eapply visibleIn_parent; eauto.
    + exists None. split; [|reflexivity]. eapply visibleIn_root; eauto.
Qed.

(** [getScopedLocal] returns, and leaves the frame as it is: the binding of
    the nearest enclosing scope that binds the name, and the local of the
    function of that name where no scope binds it. *)
Theorem getScopedLocal_nearest_scope tnt s this d name :
  FrameReachable tnt s →
  Frame.flowStore s !! this = Some d →
  ∃ r,
    visibleIn s name this r
    ∧ (∀ r', visibleIn s name this r' → r' = r)
    ∧ ∀ fuel, (this < fuel)%nat →
        Frame.getScopedLocal fuel this name s
        = Frame.Ret (match r with
                     | Some local => Some local
                     | None => JSMap.get (Frame.locals s) name
                     end) s.
Proof.
  intros Hs Hd. apply reachable_flowsWellFormed in Hs.
  destruct (walkScopes_visible s name Hs (S this) this d ltac:(lia) Hd)
    as (r & Hr & _).
  exists r. split; [exact Hr|]. split.
  { intros r' Hr'. eapply visibleIn_det; eauto. }
  intros fuel Hfuel.
  destruct (walkScopes_visible s name Hs fuel this d Hfuel Hd) as (r' & Hr' & Hw).
  rewrite (visibleIn_det _ _ _ _ _ Hr Hr').
  unfold Frame.getScopedLocal. rewrite (frame_bind_Ret _ _ _ _ _ Hw).
  destruct r'; reflexivity.
Qed.

(** In the branch of the example frame, [y] is the scoped local. *)
Lemma getScopedLocal_nearest_scope_witness :
  ∃ r,
    visibleIn frameScoped "y" 1%nat r
    ∧ (∀ r', visibleIn frameScoped "y" 1%nat r' → r' = r)
    ∧ ∀ fuel, (1 < fuel)%nat →
        Frame.getScopedLocal fuel 1%nat "y" frameScoped
        = Frame.Ret (match r with
                     | Some local => Some local
                     | None => JSMap.get (Frame.locals frameScoped) "y"
                     end) frameScoped.
Proof.
  refine (getScopedLocal_nearest_scope exampleToNativeType frameScoped 1%nat _
            "y" reachable_frameScoped _).
  vm_compute. reflexivity.
Defined.


(** *** The free lists of temporary locals *)

Lemma poolsTyped_view tnt s s' :
  (Frame.tempI32s s', Frame.tempI64s s', Frame.tempF32s s', Frame.tempF64s s',
   Frame.localStore s')
  = (Frame.tempI32s s, Frame.tempI64s s, Frame.tempF32s s, Frame.tempF64s s,
     Frame.localStore s) →
  poolsTyped tnt s → poolsTyped tnt s'.
Proof.
  intros [= H1 H2 H3 H4 H5] H n temps l Ht Hl.
  assert (Frame.temps n s = Some temps) as Ht'.
  { rewrite <- Ht. destruct n; cbn; congruence. }
  rewrite H5. eauto.
Qed.

Lemma poolsTyped_grow tnt s s' extra :
  (∀ n, Frame.temps n s' = Frame.temps n s) →
  Frame.localStore s' = (Frame.localStore s ++ extra)%list →
  poolsTyped tnt s → poolsTyped tnt s'.
Proof.
  intros Ht Hs H n temps l Hn Hl. rewrite Ht in Hn.
  destruct (H n temps l Hn Hl) as (d & Hd & Hty). exists d.
  rewrite Hs, lookup_app_l by (eapply lookup_lt_Some, Hd). auto.
Qed.

Lemma poolsTyped_addLocal tnt type name :
  FrameKeeps (poolsTyped tnt) (Frame.addLocal type name).
Proof.
  intros s l s' H Hadd.
  apply addLocal_Ret_inv in Hadd as (_ & Hstore & _ & _ & Htemps & _).
  eapply poolsTyped_grow; eauto.
Qed.

Lemma poolsTyped_getTempLocal tnt type :
  FrameKeeps (poolsTyped tnt) (Frame.getTempLocal tnt type).
Proof.
  intros s l s' H Hget.
  apply getTempLocal_Ret_inv in Hget as (Hn & [(xs & d & Ht & Hd & ->)|[_ Hadd]]).
  - intros n temps l' Hn' Hl'.
    cbn [Frame.localStore Frame.with_localStore].
    assert (∃ d', Frame.localStore s !! l' = Some d'
                  ∧ tnt (Frame.l_type d') = n) as (d' & Hd' & Hty').
    { destruct (decide (n = tnt type)) as [->|Hne].
      - assert (temps = xs) as ->.
        { assert (Frame.temps (tnt type)
                    (Frame.with_temps (tnt type) (Some xs) s) = Some xs) as E
            by (apply frame_with_temps_temps, Hn).
          destruct (tnt type); cbn in Hn', E; congruence. }
        apply (H (tnt type) (xs ++ [l])%list l' Ht). apply elem_of_app. auto.
      - apply (H n temps l'); [|exact Hl'].
        rewrite <- Hn'. symmetry.
        destruct (tnt type), n; try congruence; reflexivity. }
    unfold Frame.lref in *. destruct (decide (l' = l)) as [->|Hne].
    + rewrite list_lookup_insert_eq by (eapply lookup_lt_Some, Hd).
      eexists. split; [reflexivity|]. cbn.
      destruct (H (tnt type) (xs ++ [l])%list l Ht) as (d0 & Hd0 & Hty0);
        [apply elem_of_app; right; apply list_elem_of_singleton; reflexivity|].
      unfold Frame.lref in *. rewrite Hd0 in Hd'. injection Hd' as <-.
      congruence.
    + rewrite list_lookup_insert_ne by congruence. eauto.
  - eapply poolsTyped_addLocal; eauto.
Qed.

Lemma poolsTyped_push tnt s l d :
  Frame.localStore s !! l = Some d →
  tnt (Frame.l_type d) ≠ NativeType.OTHER →
  poolsTyped tnt s →
  poolsTyped tnt
    (Frame.with_temps (tnt (Frame.l_type d))
       (Some (default [] (Frame.temps (tnt (Frame.l_type d)) s) ++ [l])%list) s).
Proof.
  intros Hd Hn H n temps l' Hn' Hl'.
  replace (Frame.localStore (Frame.with_temps _ _ s)) with (Frame.localStore s)
    by (destruct (tnt (Frame.l_type d)); reflexivity).
  destruct (decide (n = tnt (Frame.l_type d))) as [->|Hne].
  - rewrite frame_with_temps_temps in Hn' by exact Hn. injection Hn' as <-.
    apply elem_of_app in Hl' as [Hl'|Hl'].
    + destruct (Frame.temps (tnt (Frame.l_type d)) s) as [xs|] eqn:Hxs;
        [|inversion Hl'].
      exact (H _ xs l' Hxs Hl').
    + apply list_elem_of_singleton in Hl' as ->. eauto.
  - rewrite frame_with_temps_other in Hn' by congruence. eauto.
Qed.

Lemma poolsTyped_freeTempLocal tnt l :
  FrameKeeps (poolsTyped tnt) (Frame.freeTempLocal tnt l).
Proof.
  intros s [] s' H Hfree.
  apply freeTempLocal_Ret_inv in Hfree
    as (d & Hd & [[_ ->]|(_ & _ & Hn & ->)]); [exact H|].
  apply poolsTyped_push; assumption.
Qed.

Lemma poolsTyped_getAndFreeTempLocal tnt type :
  FrameKeeps (poolsTyped tnt) (Frame.getAndFreeTempLocal tnt type).
Proof.
  intros s l s' H Hget.
  apply getAndFreeTempLocal_Ret_inv in Hget
    as (Hn & [(xs & _ & ->)|(Hempty & s1 & Hadd & ->)]); [exact H|].
  pose proof Hadd as Hinv.
  apply addLocal_Ret_inv in Hinv as (-> & Hstore & _ & _ & Htemps & _).
  assert (poolsTyped tnt s1) as H1.
  { eapply poolsTyped_addLocal; [|exact Hadd].
    intros n temps l' Hn' Hl'.
    replace (Frame.localStore (Frame.with_temps _ _ s)) with (Frame.localStore s)
      by (destruct (tnt type); reflexivity).
    destruct (decide (n = tnt type)) as [->|Hne].
    - rewrite frame_with_temps_temps in Hn' by exact Hn. injection Hn' as <-.
      inversion Hl'.
    - rewrite frame_with_temps_other in Hn' by congruence. eauto. }
  set (l := length (Frame.localStore (Frame.with_temps (tnt type) (Some []) s))) in *.
  assert (Frame.localStore s1 !! l
          = Some (newLocal (Frame.with_temps (tnt type) (Some []) s) type None))
    as Hl.
  { rewrite Hstore. apply list_lookup_middle. reflexivity. }
  pose proof (poolsTyped_push tnt s1 l _ Hl Hn H1) as Hpush.
  cbn [Frame.l_type newLocal] in Hpush.
  rewrite Htemps, frame_with_temps_temps in Hpush by exact Hn. exact Hpush.
Qed.

Lemma reachable_poolsTyped tnt s : FrameReachable tnt s → poolsTyped tnt s.
Proof.
  induction 1;
    try (frame_reachable_case_with
           ltac:(first [ apply poolsTyped_addLocal
                       | apply poolsTyped_getTempLocal
                       | apply poolsTyped_freeTempLocal
                       | apply poolsTyped_getAndFreeTempLocal ])
           (fun s => (Frame.tempI32s s, Frame.tempI64s s, Frame.tempF32s s,
                      Frame.tempF64s s, Frame.localStore s))
           (poolsTyped_view tnt); fail).
  intros [] temps l Ht; discriminate Ht.
Qed.

Lemma getTempLocal_result_type tnt s type l s' :
  Frame.getTempLocal tnt type s = Frame.Ret l s' →
  ∃ d, Frame.localStore s' !! l = Some d ∧ Frame.l_type d = type.
Proof.
  intros Hget.
  apply getTempLocal_Ret_inv in Hget as (Hn & [(xs & d & Ht & Hd & ->)|[_ Hadd]]).
  - exists (Frame.with_type type d). split; [|reflexivity].
    cbn [Frame.localStore Frame.with_localStore]. unfold Frame.lref in *.
    apply list_lookup_insert_eq. eapply lookup_lt_Some, Hd.
  - apply addLocal_Ret_inv in Hadd as (-> & Hstore & _).
    eexists. rewrite Hstore. split; [apply list_lookup_middle; reflexivity|].
    reflexivity.
Qed.

Lemma getAndFreeTempLocal_result_type tnt s type l s' :
  poolsTyped tnt s →
  Frame.getAndFreeTempLocal tnt type s = Frame.Ret l s' →
  ∃ d, Frame.localStore s' !! l = Some d ∧ tnt (Frame.l_type d) = tnt type.
Proof.
  intros Hs Hget.
  apply getAndFreeTempLocal_Ret_inv in Hget
    as (Hn & [(xs & Ht & ->)|(Hempty & s1 & Hadd & ->)]).
  - apply (Hs (tnt type) (xs ++ [l])%list l Ht).
    apply elem_of_app. right. apply list_elem_of_singleton. reflexivity.
  - apply addLocal_Ret_inv in Hadd as (-> & Hstore & _).
    eexists.
    replace (Frame.localStore (Frame.with_temps _ _ s1))
      with (Frame.localStore s1) by (destruct (tnt type); reflexivity).
    rewrite Hstore. split; [apply list_lookup_middle; reflexivity|].
    reflexivity.
Qed.

Lemma frame_with_temps_id n s : Frame.with_temps n (Frame.temps n s) s = s.
Proof. destruct n, s; reflexivity. Qed.

Lemma getAndFreeTempLocal_top tnt s type xs l :
  tnt type ≠ NativeType.OTHER →
  Frame.temps (tnt type) s = Some (xs ++ [l])%list →
  Frame.getAndFreeTempLocal tnt type s = Frame.Ret l s.
Proof.
  intros Hn Ht. unfold Frame.getAndFreeTempLocal.
  rewrite (frame_bind_Ret _ _ _ _ _ (frame_tempsOf_eq _ _ Hn)). cbv zeta.
  rewrite (frame_bind_Ret _ _ _ _ _ (frame_setTempsOf_eq _ _ _ Hn)).
  rewrite Ht. cbn [default from_option id]. rewrite <- Ht, frame_with_temps_id.
  rewrite length_app. cbn [length].
  replace (0 <? length xs + 1)%nat with true
    by (symmetry; apply Nat.ltb_lt; lia).
  rewrite last_snoc. reflexivity.
Qed.

(** The free lists are sorted by native type: in every frame the methods
    reach, a local in the free list of a native type has that native type.
    [getTempLocal] returns a local of the type asked for, and
    [getAndFreeTempLocal] a local of its native type. *)
Theorem temp_locals_typed tnt s :
  FrameReachable tnt s →
  poolsTyped tnt s
  ∧ (∀ type l s',
       Frame.getTempLocal tnt type s = Frame.Ret l s' →
       ∃ d, Frame.localStore s' !! l = Some d ∧ Frame.l_type d = type)
  ∧ (∀ type l s',
       Frame.getAndFreeTempLocal tnt type s = Frame.Ret l s' →
       ∃ d, Frame.localStore s' !! l = Some d
            ∧ tnt (Frame.l_type d) = tnt type).
Proof.
  intros Hs. apply reachable_poolsTyped in Hs. split; [exact Hs|]. split.
  - intros type l s'. apply getTempLocal_result_type.
  - intros type l s'. apply getAndFreeTempLocal_result_type, Hs.
Qed.

(** The free lists of the example frame after a temporary local was taken
    and freed. *)
Lemma temp_locals_typed_witness :
  poolsTyped exampleToNativeType frameWithTemp
  ∧ Frame.temps NativeType.I64 frameWithTemp = Some [1%nat].
Proof.
  split; [|reflexivity].
  exact (proj1 (temp_locals_typed exampleToNativeType frameWithTemp
                  reachable_frameWithTemp)).
Defined.

(** The local that [getAndFreeTempLocal] returns is on top of the free list
    of its native type: the next [getAndFreeTempLocal] and the next
    [getTempLocal] of that native type return that same local. *)
Theorem getAndFreeTempLocal_stays_free tnt s type l s1 :
  FrameReachable tnt s →
  Frame.getAndFreeTempLocal tnt type s = Frame.Ret l s1 →
  Frame.getAndFreeTempLocal tnt type s1 = Frame.Ret l s1
  ∧ ∀ type', tnt type' = tnt type →
      ∃ s2, Frame.getTempLocal tnt type' s1 = Frame.Ret l s2.
Proof.
  intros Hs Hget. apply reachable_poolsTyped in Hs.
  destruct (getAndFreeTempLocal_result_type tnt s type l s1 Hs Hget)
    as (d & Hd & Hty).
  assert (∃ xs, Frame.temps (tnt type) s1 = Some (xs ++ [l])%list) as [xs Hxs].
  { apply getAndFreeTempLocal_Ret_inv in Hget
      as (Hn & [(xs & Ht & ->)|(Hempty & s1' & Hadd & ->)]); [eauto|].
    exists []. apply frame_with_temps_temps, Hn. }
  assert (Hn : tnt type ≠ NativeType.OTHER).
  { apply getAndFreeTempLocal_Ret_inv in Hget. tauto. }
  split; [eapply getAndFreeTempLocal_top; eauto|].
  intros type' Heq. eexists.
  apply (getTempLocal_pop tnt s1 type' xs l d); rewrite ?Heq; assumption.
Qed.

(** In the example frame, the local that [getAndFreeTempLocal] of [i64]
    returns is returned again, also for [u64]. *)
Lemma getAndFreeTempLocal_stays_free_witness :
  Frame.getAndFreeTempLocal exampleToNativeType Ty.i64 frameWithTemp
  = Frame.Ret 1%nat frameWithTemp
  ∧ ∃ s2, Frame.getTempLocal exampleToNativeType Ty.u64 frameWithTemp
          = Frame.Ret 1%nat s2.
Proof.
  destruct (getAndFreeTempLocal_stays_free exampleToNativeType exampleFrame
              Ty.i64 1%nat frameWithTemp) as [Hagain Hget].
  - apply reach_frameOf.
  - vm_compute. reflexivity.
  - split; [exact Hagain|]. apply Hget. reflexivity.
Defined.

(** *** Local indices *)

Lemma i32_small z : - 2 ^ 31 ≤ z < 2 ^ 31 → i32 z = z.
Proof.
  intros Hz. unfold i32.
  change (2 ^ 31) with 2147483648 in *. change (2 ^ 32) with 4294967296.
  rewrite Z.mod_small by lia. lia.
Qed.

Lemma nextLocalIndex_eq s :
  localCount s < 2 ^ 31 → Frame.nextLocalIndex s = localCount s.
Proof.
  unfold Frame.nextLocalIndex, localCount. intros H.
  change (2 ^ 31) with 2147483648 in H.
  destruct (flags_is (Frame.flags s) CommonFlags.INSTANCE).
  - rewrite (i32_small (Z.of_nat _ + Z.of_nat _))
      by (change (2 ^ 31) with 2147483648; lia).
    apply i32_small. change (2 ^ 31) with 2147483648. lia.
  - rewrite Z.add_0_r in *. apply i32_small.
    change (2 ^ 31) with 2147483648. lia.
Qed.

Lemma localCount_nonneg s : 0 ≤ localCount s.
Proof.
  unfold localCount.
  destruct (flags_is (Frame.flags s) CommonFlags.INSTANCE); lia.
Qed.

(** [addLocal] hands out the indices in sequence: the new local has the
    index that is the number of locals before the call, which no local of
    the function has, and [additionalLocals] grows by its type.  A name that
    is a local already raises ["duplicate local name"], with [locals] and
    [additionalLocals] as they were. *)
Theorem addLocal_fresh_index s type name :
  indicesInRange s → localCount s < 2 ^ 31 →
  match Frame.addLocal type name s with
  | Frame.Ret l s' =>
      ∃ d, Frame.localStore s' = (Frame.localStore s ++ [d])%list
           ∧ Frame.localStore s' !! l = Some d
           ∧ Frame.l_index d = localCount s
           ∧ Frame.l_type d = type
           ∧ Frame.l_simpleName d
             = default ("var$" +:+ pretty (localCount s)) (givenName name)
           ∧ (∀ l' d', Frame.localStore s !! l' = Some d' →
                       Frame.l_index d' ≠ Frame.l_index d)
           ∧ Frame.additionalLocals s' = (Frame.additionalLocals s ++ [type])%list
           ∧ (∀ n, givenName name = Some n → JSMap.get (Frame.locals s') n = Some l)
           ∧ localCount s' = localCount s + 1
           ∧ indicesInRange s'
  | Frame.Throw e s' =>
      e = Error "duplicate local name"
      ∧ (∃ n, givenName name = Some n ∧ JSMap.has (Frame.locals s) n = true)
      ∧ Frame.locals s' = Frame.locals s
      ∧ Frame.additionalLocals s' = Frame.additionalLocals s
  | Frame.OutOfFuel => False
  end.
Proof.
  intros Hrange Hcount. pose proof (nextLocalIndex_eq s Hcount) as Hnext.
  destruct (Frame.addLocal type name s) as [l s'|e s'|] eqn:Hadd.
  - pose proof Hadd as Hinv.
    apply addLocal_Ret_inv in Hinv
      as (-> & Hstore & Hadditional & Hlocals & _ & _ & _ & _ & _ & Hflags
          & Hsig & _).
    assert (Hcount' : localCount s' = localCount s + 1).
    { unfold localCount. rewrite Hflags, Hsig, Hadditional, length_app.
      cbn [length]. lia. }
    exists (newLocal s type name). repeat apply conj.
    + exact Hstore.
    + rewrite Hstore. apply list_lookup_middle. reflexivity.
    + exact Hnext.
    + reflexivity.
    + cbn. rewrite Hnext. reflexivity.
    + intros l' d' Hd'. cbn. rewrite Hnext. specialize (Hrange l' d' Hd'). lia.
    + exact Hadditional.
    + intros n Hn. rewrite Hlocals, Hn. apply JSMap_get_set_same.
    + exact Hcount'.
    + intros l' d' Hd'. rewrite Hstore in Hd'. rewrite Hcount'.
      apply lookup_app_Some in Hd' as [Hd'|[_ Hd']].
      * specialize (Hrange l' d' Hd'). lia.
      * destruct (l' - length (Frame.localStore s))%nat; [|discriminate Hd'].
        injection Hd' as <-. cbn. rewrite Hnext.
        pose proof (localCount_nonneg s). lia.
  - rewrite addLocal_eq in Hadd. cbv zeta in Hadd.
    destruct (givenName name) as [n|] eqn:Hn; [|discriminate Hadd].
    destruct (JSMap.has (Frame.locals s) n) eqn:Hhas; [|discriminate Hadd].
    injection Hadd as <- <-. repeat apply conj; eauto.
  - rewrite addLocal_eq in Hadd. cbv zeta in Hadd.
    destruct (givenName name) as [n|];
      [destruct (JSMap.has (Frame.locals s) n)|]; discriminate Hadd.
Qed.

(** A second local of the example function gets the index [1]. *)
Lemma addLocal_fresh_index_witness :
  indicesInRange exampleFrame
  ∧ localCount exampleFrame = 1
  ∧ ∃ l s', Frame.addLocal Ty.i64 (Some "y") exampleFrame = Frame.Ret l s'
            ∧ Frame.l_index <$> Frame.localStore s' !! l = Some 1.
Proof.
  assert (Hrange : indicesInRange exampleFrame).
  { intros [|l] d Hd; [|discriminate Hd]. injection Hd as <-.
    vm_compute. split; [discriminate|reflexivity]. }
  split; [exact Hrange|]. split; [reflexivity|].
  pose proof (addLocal_fresh_index exampleFrame Ty.i64 (Some "y") Hrange
                ltac:(vm_compute; reflexivity)) as H.
  destruct (Frame.addLocal Ty.i64 (Some "y") exampleFrame) as [l s'|e s'|] eqn:Hrun;
    [|discriminate Hrun|discriminate Hrun].
  exists l, s'. split; [reflexivity|].
  destruct H as (d & _ & Hl & Hindex & _). rewrite Hl. cbn. rewrite Hindex.
  reflexivity.
Defined.

(** *** Leaving a branch *)

Lemma flowData_eta d :
  Frame.with_fl_flags (Frame.fl_flags d) d = d.
Proof. destruct d; reflexivity. Qed.

Lemma getFlow_eq s f d :
  Frame.flowStore s !! f = Some d → Frame.getFlow f s = Frame.Ret d s.
Proof. unfold Frame.getFlow. intros ->. reflexivity. Qed.

Lemma flowIs_eq s f d flag :
  Frame.flowStore s !! f = Some d →
  Frame.flowIs f flag s = Frame.Ret (flags_is (Frame.fl_flags d) flag) s.
Proof.
  intros Hf. unfold Frame.flowIs.
  rewrite (frame_bind_Ret _ _ _ _ _ (getFlow_eq _ _ _ Hf)). reflexivity.
Qed.

(** The conditional [parent.set(flag)] on a store whose parent has the flags
    [z]. *)
Lemma when_flowSet_eq (b : bool) p flag z pd F s :
  (p < length F)%nat →
  Frame.when b (Frame.flowSet p flag)
    (Frame.with_flowStore (<[p := Frame.with_fl_flags z pd]> F) s)
  = Frame.Ret tt
      (Frame.with_flowStore
         (<[p := Frame.with_fl_flags (if b then flags_set z flag else z) pd]> F)
         s).
Proof.
  intros Hp. destruct b; [|reflexivity].
  unfold Frame.when, Frame.flowSet, Frame.updFlow.
  cbn [Frame.flowStore Frame.with_flowStore]. unfold Frame.fref in *.
  rewrite list_lookup_insert_eq by exact Hp.
  rewrite list_insert_insert_eq. reflexivity.
Qed.

Lemma forEach_freeTempLocal tnt locals :
  ∀ s s',
    Frame.forEach locals (Frame.freeTempLocal tnt) s = Frame.Ret tt s' →
    Frame.localStore s' = Frame.localStore s
    ∧ Frame.flowStore s' = Frame.flowStore s
    ∧ Frame.locals s' = Frame.locals s
    ∧ Frame.additionalLocals s' = Frame.additionalLocals s
    ∧ Frame.diagnostics s' = Frame.diagnostics s
    ∧ ∀ n, n ≠ NativeType.OTHER →
        default [] (Frame.temps n s')
        = (default [] (Frame.temps n s) ++ releasedTo tnt s n locals)%list.
Proof.
  induction locals as [|l locals IH]; intros s s' H.
  - injection H as <-. repeat apply conj; try reflexivity.
    intros n _. cbn. rewrite app_nil_r. reflexivity.
  - cbn [Frame.forEach] in H.
    apply frame_bind_Ret_inv in H as ([] & s1 & Hfree & H).
    apply IH in H as (Hstore & Hflows & Hlocals & Hadd & Hdiag & Htemps).
    apply freeTempLocal_Ret_inv in Hfree
      as (d & Hd & [[Hin ->]|(Hin & _ & Hn & ->)]).
    + repeat apply conj; try assumption.
      intros n Hn. rewrite (Htemps n Hn). f_equal.
      unfold releasedTo. cbn [List.filter]. unfold Frame.lref in *.
      rewrite Hd, Hin. reflexivity.
    + assert (E : ∀ x, Frame.localStore
                         (Frame.with_temps (tnt (Frame.l_type d)) x s)
                       = Frame.localStore s)
        by (intros x; destruct (tnt (Frame.l_type d)); reflexivity).
      rewrite E in Hstore.
      repeat apply conj;
        try (etransitivity; [eassumption|];
             destruct (tnt (Frame.l_type d)); reflexivity).
      intros n Hn'. rewrite (Htemps n Hn').
      assert (R : releasedTo tnt
                    (Frame.with_temps (tnt (Frame.l_type d))
                       (Some (default [] (Frame.temps (tnt (Frame.l_type d)) s)
                              ++ [l])%list) s) n locals
                  = releasedTo tnt s n locals).
      { unfold releasedTo. rewrite E. reflexivity. }
      rewrite R. unfold releasedTo at 2. cbn [List.filter].
      unfold Frame.lref in *. rewrite Hd, Hin. cbn [negb andb].
      destruct (decide (tnt (Frame.l_type d) = n)) as [<-|Hne].
      * rewrite frame_with_temps_temps by exact Hn.
        rewrite bool_decide_eq_true_2 by reflexivity.
        cbn [default from_option id]. rewrite <- app_assoc. reflexivity.
      * rewrite frame_with_temps_other by exact Hne.
        rewrite bool_decide_eq_false_2 by exact Hne. reflexivity.
Qed.

Lemma with_scopedLocals_id d :
  Frame.scopedLocals d = None → Frame.with_scopedLocals None d = d.
Proof. destruct d; cbn. intros ->. reflexivity. Qed.

Lemma frame_with_flowStore_id s : Frame.with_flowStore (Frame.flowStore s) s = s.
Proof. destruct s; reflexivity. Qed.

Lemma leaveBranchOrScope_eq tnt s this d p pd s1 :
  Frame.flowStore s !! this = Some d →
  Frame.parent d = Some p →
  p ≠ this →
  Frame.flowStore s !! p = Some pd →
  Frame.forEach (JSMap.values (default [] (Frame.scopedLocals d)))
    (Frame.freeTempLocal tnt) s = Frame.Ret tt s1 →
  Frame.leaveBranchOrScope tnt this s
  = Frame.Ret p
      (Frame.with_flowStore
         (<[p := Frame.with_fl_flags (propagatedFlags d pd) pd]>
            (<[this := Frame.with_scopedLocals None d]> (Frame.flowStore s)))
         s1).
Proof.
  intros Hthis Hparent Hne Hp Hfree. unfold Frame.fref in *.
  set (d0 := Frame.with_scopedLocals None d).
  set (F0 := <[this := d0]> (Frame.flowStore s)).
  assert (Hlen : (p < length F0)%nat).
  { unfold F0. rewrite length_insert. eapply lookup_lt_Some, Hp. }
  assert (HF0this : F0 !! this = Some d0).
  { unfold F0. apply list_lookup_insert_eq. eapply lookup_lt_Some, Hthis. }
  assert (HF0p : F0 !! p = Some pd).
  { unfold F0. rewrite list_lookup_insert_ne by congruence. exact Hp. }
  assert (Hk_this : ∀ X, Frame.flowStore
                           (Frame.with_flowStore (<[p := X]> F0) s1) !! this
                         = Some d0).
  { intros X. cbn [Frame.flowStore Frame.with_flowStore].
    rewrite list_lookup_insert_ne by congruence. exact HF0this. }
  assert (Hk_p : ∀ X, Frame.flowStore
                        (Frame.with_flowStore (<[p := X]> F0) s1) !! p
                      = Some X).
  { intros X. cbn [Frame.flowStore Frame.with_flowStore].
    apply list_lookup_insert_eq, Hlen. }
  unfold Frame.leaveBranchOrScope.
  rewrite (frame_bind_Ret _ _ _ _ _ (getFlow_eq _ _ _ Hthis)), Hparent.
  cbn [Frame.assertSome]. rewrite (frame_bind_Ret _ _ _ p s eq_refl).
  rewrite (frame_bind_Ret _ _ s tt
             (Frame.with_flowStore
                (<[p := Frame.with_fl_flags (Frame.fl_flags pd) pd]> F0) s1)).
  2:{ rewrite flowData_eta, (list_insert_id F0 p pd HF0p).
      destruct (Frame.scopedLocals d) as [m|] eqn:Hm.
      - cbn [default from_option id] in Hfree.
        pose proof (forEach_freeTempLocal tnt _ _ _ Hfree) as (_ & Hflows & _).
        rewrite (frame_bind_Ret _ _ _ _ _ Hfree).
        unfold Frame.updFlow, Frame.fref. rewrite Hflows, Hthis. reflexivity.
      - cbn in Hfree. injection Hfree as <-. cbn.
        assert (d0 = d) as Hd0 by (apply with_scopedLocals_id, Hm).
        unfold F0. rewrite Hd0, (list_insert_id _ _ _ Hthis).
        rewrite frame_with_flowStore_id. reflexivity. }
  unfold propagatedFlags.
  repeat first
    [ rewrite frame_bind_assoc
    | rewrite (frame_bind_Ret _ _ _ _ _ (flowIs_eq _ _ _ _ (Hk_this _)))
    | rewrite (frame_bind_Ret _ _ _ _ _ (getFlow_eq _ _ _ (Hk_this _)))
    | rewrite (frame_bind_Ret _ _ _ _ _ (getFlow_eq _ _ _ (Hk_p _)))
    | rewrite (frame_bind_Ret _ _ _ _ _ (when_flowSet_eq _ _ _ _ _ _ _ Hlen))
    | rewrite (frame_bind_Ret _ _ _ _ _ eq_refl)
    | progress (unfold d0;
                cbn [Frame.fl_flags Frame.with_scopedLocals Frame.with_fl_flags
                     Frame.breakLabel Frame.continueLabel andb])
    | match goal with
      | |- context [if ?b then _ else Frame.ret false] =>
          destruct b eqn:?
      end ].
  all: reflexivity.
Qed.

Lemma flags_is_bit z k : 0 ≤ k → flags_is z (Z.shiftl 1 k) = Z.testbit z k.
Proof.
  intros Hk. unfold flags_is. rewrite Z.shiftl_1_l.
  destruct (Z.testbit z k) eqn:Hb.
  - apply Z.eqb_eq. apply Z.bits_inj'. intros j Hj.
    rewrite Z.land_spec, Z.pow2_bits_eqb by exact Hk.
    destruct (Z.eqb_spec k j) as [->|]; [rewrite Hb|rewrite andb_false_r];
      reflexivity.
  - apply Z.eqb_neq. intros H.
    apply (f_equal (λ x, Z.testbit x k)) in H.
    rewrite Z.land_spec, Hb, Z.pow2_bits_true in H by exact Hk.
    discriminate H.
Qed.

Lemma flags_is_set_bit z f k :
  0 ≤ k →
  flags_is (flags_set z f) (Z.shiftl 1 k)
  = flags_is z (Z.shiftl 1 k) || flags_is f (Z.shiftl 1 k).
Proof.
  intros Hk. rewrite !flags_is_bit by exact Hk. apply Z.lor_spec.
Qed.

Lemma flags_is_if_set_bit (b : bool) z f k :
  0 ≤ k →
  flags_is (if b then flags_set z f else z) (Z.shiftl 1 k)
  = flags_is z (Z.shiftl 1 k) || (b && flags_is f (Z.shiftl 1 k)).
Proof.
  intros Hk. destruct b; [apply flags_is_set_bit, Hk|].
  rewrite orb_false_r. reflexivity.
Qed.

(** The flags of the parent after a branch is left, flag by flag. *)
Lemma propagatedFlags_bits d pd :
  (∀ flag,
     flag ∈ [FlowFlags.RETURNS; FlowFlags.THROWS; FlowFlags.BREAKS;
             FlowFlags.CONTINUES; FlowFlags.ALLOCATES;
             FlowFlags.INLINE_CONTEXT] →
     flags_is (propagatedFlags d pd) flag = flags_is (Frame.fl_flags pd) flag)
  ∧ flags_is (propagatedFlags d pd) FlowFlags.CONDITIONALLY_RETURNS
    = flags_is (Frame.fl_flags pd) FlowFlags.CONDITIONALLY_RETURNS
      || flags_is (Frame.fl_flags d) FlowFlags.RETURNS
  ∧ flags_is (propagatedFlags d pd) FlowFlags.CONDITIONALLY_THROWS
    = flags_is (Frame.fl_flags pd) FlowFlags.CONDITIONALLY_THROWS
      || flags_is (Frame.fl_flags d) FlowFlags.THROWS
  ∧ flags_is (propagatedFlags d pd) FlowFlags.CONDITIONALLY_BREAKS
    = flags_is (Frame.fl_flags pd) FlowFlags.CONDITIONALLY_BREAKS
      || (flags_is (Frame.fl_flags d) FlowFlags.BREAKS
          && bool_decide (Frame.breakLabel pd = Frame.breakLabel d))
  ∧ flags_is (propagatedFlags d pd) FlowFlags.CONDITIONALLY_CONTINUES
    = flags_is (Frame.fl_flags pd) FlowFlags.CONDITIONALLY_CONTINUES
      || (flags_is (Frame.fl_flags d) FlowFlags.CONTINUES
          && bool_decide (Frame.continueLabel pd = Frame.continueLabel d))
  ∧ flags_is (propagatedFlags d pd) FlowFlags.CONDITIONALLY_ALLOCATES
    = flags_is (Frame.fl_flags pd) FlowFlags.CONDITIONALLY_ALLOCATES
      || flags_is (Frame.fl_flags d) FlowFlags.ALLOCATES.
Proof.
  unfold propagatedFlags. cbv zeta.
  set (z := Frame.fl_flags pd).
  set (b1 := flags_is (Frame.fl_flags d) FlowFlags.RETURNS).
  set (b2 := flags_is (Frame.fl_flags d) FlowFlags.THROWS).
  set (b3 := flags_is (Frame.fl_flags d) FlowFlags.BREAKS && _).
  set (b4 := flags_is (Frame.fl_flags d) FlowFlags.CONTINUES && _).
  set (b5 := flags_is (Frame.fl_flags d) FlowFlags.ALLOCATES).
  split; [intros flag Hflag;
          repeat (apply elem_of_cons in Hflag as [->|Hflag]);
          [..|inversion Hflag]
         |repeat apply conj];
    match goal with
    | |- flags_is _ ?c = _ =>
        let k := eval cbv in (Z.log2 c) in
        change c with (Z.shiftl 1 k);
        rewrite !(flags_is_if_set_bit _ _ _ k) by lia
    end;
    repeat match goal with
           | |- context [flags_is ?a (Z.shiftl 1 ?k)] =>
               lazymatch a with
               | z => fail
               | _ =>
                   let v := eval vm_compute in (flags_is a (Z.shiftl 1 k)) in
                   change (flags_is a (Z.shiftl 1 k)) with v
               end
           end;
    rewrite ?andb_false_r, ?andb_true_r, ?orb_false_r; reflexivity.
Qed.

(** Where [leaveBranchOrScope] returns, the flow has a parent and its scoped
    locals were freed. *)
Lemma leaveBranchOrScope_Ret_inv tnt s this d r s' :
  Frame.flowStore s !! this = Some d →
  Frame.leaveBranchOrScope tnt this s = Frame.Ret r s' →
  ∃ p s1,
    Frame.parent d = Some p
    ∧ Frame.forEach (JSMap.values (default [] (Frame.scopedLocals d)))
        (Frame.freeTempLocal tnt) s = Frame.Ret tt s1.
Proof.
  intros Hthis H. unfold Frame.leaveBranchOrScope in H.
  rewrite (frame_bind_Ret _ _ _ _ _ (getFlow_eq _ _ _ Hthis)) in H.
  destruct (Frame.parent d) as [p|]; [|discriminate H].
  cbn [Frame.assertSome] in H. rewrite (frame_bind_Ret _ _ _ p s eq_refl) in H.
  apply frame_bind_Ret_inv in H as ([] & s2 & H & _).
  exists p. destruct (Frame.scopedLocals d) as [m|].
  - apply frame_bind_Ret_inv in H as ([] & s1 & H & _). eauto.
  - injection H as <-. eauto.
Qed.

(** [leaveBranchOrScope] returns the parent, resets the scoped locals of the
    flow, and folds the flags of the flow into the flags of the parent: a
    flow that returns, throws or allocates makes its parent do so
    conditionally, one that breaks or continues does so where the parent has
    the same break or continue label; no other flow and no other flag
    changes. *)
Theorem leaveBranchOrScope_propagates_flags tnt s this d r s' :
  flowsWellFormed s →
  Frame.flowStore s !! this = Some d →
  Frame.leaveBranchOrScope tnt this s = Frame.Ret r s' →
  ∃ pd,
    Frame.parent d = Some r
    ∧ Frame.flowStore s !! r = Some pd
    ∧ Frame.flowStore s'
      = <[r := Frame.with_fl_flags (propagatedFlags d pd) pd]>
          (<[this := Frame.with_scopedLocals None d]> (Frame.flowStore s))
    ∧ (∀ flag,
         flag ∈ [FlowFlags.RETURNS; FlowFlags.THROWS; FlowFlags.BREAKS;
                 FlowFlags.CONTINUES; FlowFlags.ALLOCATES;
                 FlowFlags.INLINE_CONTEXT] →
         flags_is (propagatedFlags d pd) flag
         = flags_is (Frame.fl_flags pd) flag)
    ∧ flags_is (propagatedFlags d pd) FlowFlags.CONDITIONALLY_RETURNS
      = flags_is (Frame.fl_flags pd) FlowFlags.CONDITIONALLY_RETURNS
        || flags_is (Frame.fl_flags d) FlowFlags.RETURNS
    ∧ flags_is (propagatedFlags d pd) FlowFlags.CONDITIONALLY_THROWS
      = flags_is (Frame.fl_flags pd) FlowFlags.CONDITIONALLY_THROWS
        || flags_is (Frame.fl_flags d) FlowFlags.THROWS
    ∧ flags_is (propagatedFlags d pd) FlowFlags.CONDITIONALLY_BREAKS
      = flags_is (Frame.fl_flags pd) FlowFlags.CONDITIONALLY_BREAKS
        || (flags_is (Frame.fl_flags d) FlowFlags.BREAKS
            && bool_decide (Frame.breakLabel pd = Frame.breakLabel d))
    ∧ flags_is (propagatedFlags d pd) FlowFlags.CONDITIONALLY_CONTINUES
      = flags_is (Frame.fl_flags pd) FlowFlags.CONDITIONALLY_CONTINUES
        || (flags_is (Frame.fl_flags d) FlowFlags.CONTINUES
            && bool_decide (Frame.continueLabel pd = Frame.continueLabel d))
    ∧ flags_is (propagatedFlags d pd) FlowFlags.CONDITIONALLY_ALLOCATES
      = flags_is (Frame.fl_flags pd) FlowFlags.CONDITIONALLY_ALLOCATES
        || flags_is (Frame.fl_flags d) FlowFlags.ALLOCATES.
Proof.
  intros Hwf Hthis H.
  destruct (leaveBranchOrScope_Ret_inv tnt s this d r s' Hthis H)
    as (p & s1 & Hparent & Hfree).
  pose proof (Hwf this d p Hthis Hparent) as Hlt.
  destruct (lookup_lt_is_Some_2 (Frame.flowStore s) p) as [pd Hpd].
  { apply lookup_lt_Some in Hthis. lia. }
  rewrite (leaveBranchOrScope_eq tnt s this d p pd s1 Hthis Hparent
             ltac:(lia) Hpd Hfree) in H.
  injection H as <- <-. exists pd.
  split; [exact Hparent|]. split; [exact Hpd|]. split; [reflexivity|].
  apply propagatedFlags_bits.
Qed.

(** The branch of the example frame is left: its parent is flow [0], whose
    flags stay [NONE] as the branch has none. *)
Lemma leaveBranchOrScope_propagates_flags_witness :
  ∃ s' pd,
    Frame.leaveBranchOrScope exampleToNativeType 1%nat frameScoped
    = Frame.Ret 0%nat s'
    ∧ Frame.flowStore frameScoped !! 0%nat = Some pd
    ∧ flowFlagsOf s' 0%nat = Some FlowFlags.NONE.
Proof.
  destruct (Frame.leaveBranchOrScope exampleToNativeType 1%nat frameScoped)
    as [r s'|e s'|] eqn:Hrun; [|discriminate Hrun|discriminate Hrun].
  assert (Hr : r = 0%nat) by (vm_compute in Hrun; congruence). subst r.
  destruct (leaveBranchOrScope_propagates_flags exampleToNativeType frameScoped
              1%nat _ 0%nat s' flowsWellFormed_frameScoped eq_refl Hrun)
    as (pd & _ & Hpd & Hstore & _).
  exists s', pd. split; [reflexivity|]. split; [exact Hpd|].
  unfold flowFlagsOf. rewrite Hstore.
  vm_compute in Hpd. injection Hpd as <-. vm_compute. reflexivity.
Defined.

(** [leaveBranchOrScope] frees the scoped locals of the flow: those that are
    not inlined go to the end of the free list of their native type, in the
    order in which they were added to the scope, and the flow has no scoped
    locals afterwards.  The locals themselves stay as they are. *)
Theorem leaveBranchOrScope_frees_scoped_locals tnt s this d r s' :
  flowsWellFormed s →
  Frame.flowStore s !! this = Some d →
  Frame.leaveBranchOrScope tnt this s = Frame.Ret r s' →
  (∀ name, scopedLocalOf s' this name = None)
  ∧ Frame.localStore s' = Frame.localStore s
  ∧ Frame.locals s' = Frame.locals s
  ∧ Frame.additionalLocals s' = Frame.additionalLocals s
  ∧ ∀ n, n ≠ NativeType.OTHER →
      default [] (Frame.temps n s')
      = (default [] (Frame.temps n s)
         ++ releasedTo tnt s n
              (JSMap.values (default [] (Frame.scopedLocals d))))%list.
Proof.
  intros Hwf Hthis H.
  destruct (leaveBranchOrScope_Ret_inv tnt s this d r s' Hthis H)
    as (p & s1 & Hparent & Hfree).
  pose proof (Hwf this d p Hthis Hparent) as Hlt.
  destruct (lookup_lt_is_Some_2 (Frame.flowStore s) p) as [pd Hpd].
  { apply lookup_lt_Some in Hthis. lia. }
  rewrite (leaveBranchOrScope_eq tnt s this d p pd s1 Hthis Hparent
             ltac:(lia) Hpd Hfree) in H.
  injection H as <- <-.
  apply forEach_freeTempLocal in Hfree
    as (Hstore & _ & Hlocals & Hadd & _ & Htemps).
  split; [|repeat apply conj; assumption].
  intros name. unfold scopedLocalOf.
  cbn [Frame.flowStore Frame.with_flowStore]. unfold Frame.fref in *.
  rewrite list_lookup_insert_ne by lia.
  rewrite list_lookup_insert_eq by (eapply lookup_lt_Some, Hthis).
  reflexivity.
Qed.

(** The branch of the example frame is left: its scoped local [y] goes to
    the free list of [i32]. *)
Lemma leaveBranchOrScope_frees_scoped_locals_witness :
  ∃ s',
    Frame.leaveBranchOrScope exampleToNativeType 1%nat frameScoped
    = Frame.Ret 0%nat s'
    ∧ scopedLocalOf s' 1%nat "y" = None
    ∧ default [] (Frame.temps NativeType.I32 s') = [1%nat].
Proof.
  destruct (Frame.leaveBranchOrScope exampleToNativeType 1%nat frameScoped)
    as [r s'|e s'|] eqn:Hrun; [|discriminate Hrun|discriminate Hrun].
  assert (Hr : r = 0%nat) by (vm_compute in Hrun; congruence). subst r.
  destruct (leaveBranchOrScope_frees_scoped_locals exampleToNativeType
              frameScoped 1%nat _ 0%nat s' flowsWellFormed_frameScoped eq_refl
              Hrun)
    as (Hnone & _ & _ & _ & Htemps).
  exists s'. split; [reflexivity|]. split; [apply Hnone|].
  rewrite (Htemps NativeType.I32) by discriminate. reflexivity.
Defined.

(** *** Scoped locals *)

Lemma getTempLocal_frame tnt type s l s' :
  Frame.getTempLocal tnt type s = Frame.Ret l s' →
  Frame.flowStore s' = Frame.flowStore s
  ∧ Frame.locals s' = Frame.locals s
  ∧ Frame.diagnostics s' = Frame.diagnostics s.
Proof.
  intros H.
  apply getTempLocal_Ret_inv in H as (Hn & [(xs & d & _ & _ & ->)|[_ Hadd]]).
  - destruct (tnt type); auto.
  - apply addLocal_Ret_inv in Hadd
      as (_ & _ & _ & Hlocals & _ & Hflows & _ & _ & _ & _ & _ & Hdiag).
    auto.
Qed.

(** On a name that the scope binds already, [addScopedLocal] reports
    [Duplicate identifier] and returns the local of that name, where it is
    given a declaration, and fails an assertion where it is given none.  The
    temporary local that it took from the function before it looked is
    neither bound nor put back on its free list. *)
Theorem addScopedLocal_duplicate tnt s this type name existing :
  scopedLocalOf s this name = Some existing →
  (∀ declaration,
     Frame.addScopedLocal tnt this type name (Some declaration) s
     = match Frame.getTempLocal tnt type s with
       | Frame.Ret _ s1 =>
           Frame.Ret existing
             (Frame.with_diagnostics
                (Frame.diagnostics s1
                 ++ [{| code := DiagnosticCode.Duplicate_identifier_0;
                        args := [] |}])%list s1)
       | Frame.Throw e s1 => Frame.Throw e s1
       | Frame.OutOfFuel => Frame.OutOfFuel
       end)
  ∧ Frame.addScopedLocal tnt this type name None s
    = match Frame.getTempLocal tnt type s with
      | Frame.Ret _ s1 => Frame.Throw AssertionError s1
      | Frame.Throw e s1 => Frame.Throw e s1
      | Frame.OutOfFuel => Frame.OutOfFuel
      end.
Proof.
  intros Hex. unfold scopedLocalOf in Hex.
  destruct (Frame.flowStore s !! this) as [d|] eqn:Hthis; [|discriminate Hex].
  cbn in Hex. destruct (Frame.scopedLocals d) as [m|] eqn:Hm; [|discriminate Hex].
  cbn in Hex.
  assert (∀ declaration,
    Frame.addScopedLocal tnt this type name declaration s
    = match Frame.getTempLocal tnt type s with
      | Frame.Ret _ s1 =>
          Frame.bind
            match declaration with
            | Some _ => Frame.error DiagnosticCode.Duplicate_identifier_0 []
            | None => Frame.assert false
            end (λ _, Frame.ret existing) s1
      | Frame.Throw e s1 => Frame.Throw e s1
      | Frame.OutOfFuel => Frame.OutOfFuel
      end) as Heq.
  { intros declaration. unfold Frame.addScopedLocal. unfold Frame.bind at 1.
    destruct (Frame.getTempLocal tnt type s) as [tmp s1|e s1|] eqn:Hget;
      [|reflexivity..].
    apply getTempLocal_frame in Hget as (Hflows & _).
    rewrite (frame_bind_Ret _ _ _ d s1)
      by (apply getFlow_eq; rewrite Hflows; exact Hthis).
    rewrite Hm, Hex. reflexivity. }
  split; [intros declaration|]; rewrite Heq;
    destruct (Frame.getTempLocal tnt type s); reflexivity.
Qed.

(** A second [let y] in the branch of the example frame reports the
    duplicate and returns the first [y]; the temporary local [2] that was
    taken for it is on no free list. *)
Lemma addScopedLocal_duplicate_witness :
  ∃ s',
    Frame.addScopedLocal exampleToNativeType 1%nat Ty.i32 "y"
      (Some (variableDeclaration "y" CommonFlags.NONE)) frameScoped
    = Frame.Ret 1%nat s'
    ∧ Frame.diagnostics s'
      = [{| code := DiagnosticCode.Duplicate_identifier_0; args := [] |}]
    ∧ length (Frame.localStore s') = 3%nat
    ∧ Frame.temps NativeType.I32 s' = None.
Proof.
  eexists.
  rewrite (proj1 (addScopedLocal_duplicate exampleToNativeType frameScoped 1%nat
                    Ty.i32 "y" 1%nat eq_refl) (variableDeclaration "y" CommonFlags.NONE)).
  repeat split.
Defined.

Lemma walkScopes_Ret_state fuel : ∀ cur name s r s',
  Frame.walkScopes fuel cur name s = Frame.Ret r s' → s' = s.
Proof.
  induction fuel as [|fuel IH]; intros cur name s r s' H; [discriminate H|].
  cbn [Frame.walkScopes] in H. unfold Frame.bind, Frame.getFlow in H.
  destruct (Frame.flowStore s !! cur) as [d|]; [|discriminate H].
  destruct (Frame.scopedLocals d ≫= λ m, JSMap.get m name);
    [injection H as _ <-; reflexivity|].
  destruct (Frame.parent d); [eapply IH, H|injection H as _ <-; reflexivity].
Qed.

(** The walk from a flow reads that flow and the flows before it. *)
Lemma walkScopes_agree s s2 name :
  flowsWellFormed s →
  (∀ f, (f < length (Frame.flowStore s))%nat →
        Frame.flowStore s2 !! f = Frame.flowStore s !! f) →
  ∀ fuel cur r,
    Frame.walkScopes fuel cur name s = Frame.Ret r s →
    Frame.walkScopes fuel cur name s2 = Frame.Ret r s2.
Proof.
  intros Hwf Hagree. induction fuel as [|fuel IH]; intros cur r H;
    [discriminate H|].
  cbn [Frame.walkScopes] in H |- *.
  unfold Frame.bind, Frame.getFlow, Frame.fref in *.
  destruct (Frame.flowStore s !! cur) as [d|] eqn:Hcur; [|discriminate H].
  rewrite (Hagree cur) by (eapply lookup_lt_Some, Hcur). rewrite Hcur.
  destruct (Frame.scopedLocals d ≫= λ m, JSMap.get m name);
    [injection H as <-; reflexivity|].
  destruct (Frame.parent d) as [p|] eqn:Hp;
    [apply IH, H|injection H as <-; reflexivity].
Qed.

Lemma getScopedLocal_Ret_inv fuel this name s r s' :
  Frame.getScopedLocal fuel this name s = Frame.Ret r s' →
  s' = s
  ∧ ∃ w, Frame.walkScopes fuel this name s = Frame.Ret w s
         ∧ r = match w with
               | Some local => Some local
               | None => JSMap.get (Frame.locals s) name
               end.
Proof.
  unfold Frame.getScopedLocal. intros H.
  apply frame_bind_Ret_inv in H as (w & s1 & Hw & H).
  pose proof (walkScopes_Ret_state _ _ _ _ _ _ Hw) as ->.
  destruct w; injection H as <- <-; eauto.
Qed.

Lemma enterBranchOrScope_Ret_inv this s branch s1 :
  Frame.enterBranchOrScope this s = Frame.Ret branch s1 →
  ∃ d nb,
    Frame.flowStore s !! this = Some d
    ∧ branch = length (Frame.flowStore s)
    ∧ Frame.parent nb = Some this
    ∧ Frame.scopedLocals nb = None
    ∧ Frame.fl_flags nb = Frame.fl_flags d
    ∧ s1 = Frame.with_flowStore (Frame.flowStore s ++ [nb])%list s.
Proof.
  unfold Frame.enterBranchOrScope, Frame.bind, Frame.getFlow. intros H.
  destruct (Frame.flowStore s !! this) as [d|]; [|discriminate H].
  injection H as <- <-.
  exists d,
    {| Frame.parent := Some this; Frame.fl_flags := Frame.fl_flags d;
       Frame.continueLabel := Frame.continueLabel d;
       Frame.breakLabel := Frame.breakLabel d;
       Frame.returnLabel := Frame.returnLabel d;
       Frame.returnType := Frame.returnType d;
       Frame.fl_contextualTypeArguments := Frame.fl_contextualTypeArguments d;
       Frame.scopedLocals := None |}.
  repeat apply conj; reflexivity.
Qed.

(** A local that is added to the scope of a branch is what its name refers
    to in the branch; every other name refers in the branch to what it
    refers to in the enclosing flow; and in the enclosing flow every name
    refers to what it did before the branch was entered. *)
Theorem scoped_local_visible_in_branch_only
    tnt s this branch s1 type name declaration l s2 :
  flowsWellFormed s →
  Frame.enterBranchOrScope this s = Frame.Ret branch s1 →
  Frame.addScopedLocal tnt branch type name declaration s1 = Frame.Ret l s2 →
  (∀ fuel,
     Frame.getScopedLocal (S fuel) branch name s2 = Frame.Ret (Some l) s2)
  ∧ (∀ fuel name' r,
       name' ≠ name →
       Frame.getScopedLocal fuel this name' s = Frame.Ret r s →
       Frame.getScopedLocal (S fuel) branch name' s2 = Frame.Ret r s2)
  ∧ (∀ fuel name' r,
       Frame.getScopedLocal fuel this name' s = Frame.Ret r s →
       Frame.getScopedLocal fuel this name' s2 = Frame.Ret r s2).
Proof.
  intros Hwf Henter Hadd.
  apply enterBranchOrScope_Ret_inv in Henter
    as (d & nb & Hthis & -> & Hparent & Hscoped & _ & ->).
  unfold Frame.addScopedLocal in Hadd.
  apply frame_bind_Ret_inv in Hadd as (tmp & s1 & Hget & Hadd).
  apply getTempLocal_frame in Hget as (Hflows & Hlocals & _).
  cbn [Frame.flowStore Frame.with_flowStore Frame.locals] in Hflows, Hlocals.
  assert (Hbranch : Frame.flowStore s1 !! length (Frame.flowStore s) = Some nb).
  { rewrite Hflows. apply list_lookup_middle. reflexivity. }
  rewrite (frame_bind_Ret _ _ _ _ _ (getFlow_eq _ _ _ Hbranch)), Hscoped in Hadd.
  unfold Frame.bind, Frame.updFlow in Hadd. unfold Frame.fref in *.
  rewrite Hbranch in Hadd. injection Hadd as <- <-.
  set (nb' := Frame.with_scopedLocals (Some [(name, tmp)]) nb).
  set (s2 := Frame.with_flowStore _ s1).
  assert (Hnb' : Frame.flowStore s2 !! length (Frame.flowStore s) = Some nb').
  { cbn [s2 Frame.flowStore Frame.with_flowStore].
    apply list_lookup_insert_eq. eapply lookup_lt_Some, Hbranch. }
  assert (Hagree : ∀ f, (f < length (Frame.flowStore s))%nat →
                        Frame.flowStore s2 !! f = Frame.flowStore s !! f).
  { intros f Hf. cbn [s2 Frame.flowStore Frame.with_flowStore].
    rewrite list_lookup_insert_ne by lia. rewrite Hflows.
    apply lookup_app_l, Hf. }
  assert (Hlocals2 : Frame.locals s2 = Frame.locals s) by exact Hlocals.
  assert (Houter : ∀ fuel name' r,
            Frame.getScopedLocal fuel this name' s = Frame.Ret r s →
            Frame.getScopedLocal fuel this name' s2 = Frame.Ret r s2).
  { intros fuel name' r H.
    apply getScopedLocal_Ret_inv in H as (_ & w & Hw & ->).
    unfold Frame.getScopedLocal.
    rewrite (frame_bind_Ret _ _ _ _ _
               (walkScopes_agree s s2 name' Hwf Hagree _ _ _ Hw)).
    destruct w; [reflexivity|].
    unfold Frame.bind, Frame.gets, Frame.ret. rewrite Hlocals2. reflexivity. }
  split; [|split; [|exact Houter]].
  - intros fuel. unfold Frame.getScopedLocal. cbn [Frame.walkScopes].
    rewrite frame_bind_assoc.
    rewrite (frame_bind_Ret _ _ _ _ _ (getFlow_eq _ _ _ Hnb')).
    cbn [nb' Frame.scopedLocals Frame.with_scopedLocals mbind option_bind
         JSMap.get].
    rewrite decide_True by reflexivity. reflexivity.
  - intros fuel name' r Hne H. specialize (Houter fuel name' r H).
    unfold Frame.getScopedLocal in Houter |- *. cbn [Frame.walkScopes].
    rewrite frame_bind_assoc.
    rewrite (frame_bind_Ret _ _ _ _ _ (getFlow_eq _ _ _ Hnb')).
    cbn [nb' Frame.scopedLocals Frame.with_scopedLocals mbind option_bind
         JSMap.get Frame.parent].
    rewrite decide_False by congruence. rewrite Hparent. exact Houter.
Qed.

(** In the example frame, [y] is visible in the branch and not in the flow
    of the function, where [x] is the parameter as before. *)
Lemma scoped_local_visible_in_branch_only_witness :
  Frame.getScopedLocal 2 1%nat "y" frameScoped = Frame.Ret (Some 1%nat) frameScoped
  ∧ Frame.getScopedLocal 2 1%nat "x" frameScoped
    = Frame.Ret (Some 0%nat) frameScoped
  ∧ Frame.getScopedLocal 1 0%nat "y" frameScoped = Frame.Ret None frameScoped.
Proof.
  destruct (scoped_local_visible_in_branch_only exampleToNativeType
              frameWithFlow 0%nat 1%nat frameInBranch Ty.i32 "y"
              (Some (variableDeclaration "y" CommonFlags.NONE)) 1%nat frameScoped
              flowsWellFormed_frameWithFlow eq_refl eq_refl)
    as (Hin & Hother & Hparent).
  split; [apply Hin|].
  split; [apply (Hother 1%nat "x"); [discriminate|reflexivity]|].
  apply (Hparent 1%nat "y"). reflexivity.
Defined.

(** ** The locals of a new function *)

Lemma numbered_set bound locals name (type : Type_) :
  0 ≤ bound → numbered bound locals →
  numbered (bound + 1) (JSMap.set locals name (bound, type)).
Proof.
  intros Hb [Hrange Hdup]. induction locals as [|[k [i t]] locals IH].
  - split; [repeat constructor; cbn; lia|].
    cbn. apply NoDup_singleton.
  - inversion Hrange as [|? ? Hi Hrange']; subst.
    cbn in Hdup. apply NoDup_cons in Hdup as [Hnotin Hdup'].
    cbn [JSMap.set]. destruct (decide (k = name)) as [->|Hne].
    + split.
      * constructor; [cbn; lia|].
        eapply Forall_impl; [exact Hrange'|]. cbn. intros; lia.
      * cbn. apply NoDup_cons. split; [|exact Hdup'].
        intros Hin. apply list_elem_of_fmap in Hin as (entry & Heq & Hin).
        rewrite Forall_forall in Hrange'. specialize (Hrange' entry Hin).
        cbn in *. lia.
    + destruct (IH Hrange' Hdup') as [IH1 IH2]. split.
      * constructor; [cbn in *; lia|exact IH1].
      * cbn. apply NoDup_cons. split; [|exact IH2].
        intros Hin. apply list_elem_of_fmap in Hin as (entry & Heq & Hin).
        cbn in Heq.
        assert (entry.2.1 = bound ∨ entry ∈ locals) as [Hnew|Hold].
        { clear -Hin. induction locals as [|[k' v'] locals IH].
          - cbn in Hin. apply list_elem_of_singleton in Hin as ->. auto.
          - cbn [JSMap.set] in Hin. destruct (decide (k' = name)).
            + apply elem_of_cons in Hin as [->|Hin]; [auto|].
              right. apply elem_of_cons. auto.
            + apply elem_of_cons in Hin as [->|Hin].
              * right. apply elem_of_cons. auto.
              * destruct (IH Hin); [auto|]. right. apply elem_of_cons. auto. }
        -- cbn in Hi. lia.
        -- apply Hnotin. apply list_elem_of_fmap. exists entry. auto.
Qed.

Lemma numbered_parameters parameters :
  ∀ index locals,
    0 ≤ index → numbered index locals →
    numbered (index + Z.of_nat (length parameters))
      (foldl (fun '(index, locals) '(parameterName, parameterType) =>
                (index + 1,
                 JSMap.set locals parameterName (index, parameterType)))
         (index, locals) parameters).2
    ∧ (foldl (fun '(index, locals) '(parameterName, parameterType) =>
                (index + 1,
                 JSMap.set locals parameterName
                   (index, (parameterType : Type_))))
         (index, locals) parameters).1
      = index + Z.of_nat (length parameters).
Proof.
  induction parameters as [|[n t] parameters IH]; intros index locals Hi Hn.
  - cbn. rewrite Z.add_0_r. auto.
  - cbn [foldl length].
    destruct (IH (index + 1) (JSMap.set locals n (index, t)) ltac:(lia)
                (numbered_set index locals n t Hi Hn)) as [IH1 IH2].
    rewrite Nat2Z.inj_succ.
    replace (index + Z.succ (Z.of_nat (length parameters)))
      with (index + 1 + Z.of_nat (length parameters)) by lia.
    auto.
Qed.

Lemma assert_Ret_inv b u s s' : assert b s = Ret u s' → b = true ∧ s' = s.
Proof. destruct b; cbn; intros [=]; auto. Qed.

Lemma newFunction_locals prototype internalName signature memberOf ctx s h s' :
  newFunction prototype internalName signature memberOf ctx s = Ret h s' →
  ∃ p d,
    heap s !! prototype = Some p
    ∧ heap s' !! h = Some
        (with_decoratorFlags (decoratorFlags p)
           (with_flags (flags p)
              (newElement ElementKind.FUNCTION (simpleName p) internalName
                 (FunctionD d))))
    ∧ f_signature d = signature
    ∧ numbered
        (Z.of_nat (length (sig_parameterTypes signature))
         + (if is_ p CommonFlags.INSTANCE then 1 else 0))
        (f_locals d).
Proof.
  unfold newFunction. intros H.
  apply bind_Ret_inv in H as (p & s1 & Hp & H).
  apply getElement_Ret_inv in Hp as [Hp ->].
  apply bind_Ret_inv in H as ([locals ctx'] & s1 & Hlocals & H).
  injection H as <- <-.
  exists p. eexists. split; [exact Hp|].
  split; [cbn [heap with_heap]; apply list_lookup_middle; reflexivity|].
  split; [reflexivity|]. cbn [f_locals].
  assert (Hempty : ∀ bound, numbered bound []).
  { intros bound. split; [constructor|apply NoDup_nil_2]. }
  destruct (negb _); [|injection Hlocals as <- _ _; apply Hempty].
  apply bind_Ret_inv in Hlocals as (memberOfClass & s2 & _ & Hlocals).
  apply bind_Ret_inv in Hlocals as ([[localIndex locals0] ctx0] & s3 & Hthis & Hlocals).
  assert (Hstart : localIndex = (if is_ p CommonFlags.INSTANCE then 1 else 0)
                   ∧ numbered localIndex locals0).
  { destruct memberOfClass as [m|].
    - apply bind_Ret_inv in Hthis as ([] & s4 & Hassert & Hthis).
      apply assert_Ret_inv in Hassert as [-> ->].
      apply bind_Ret_inv in Hthis as (thisType & s5 & _ & Hthis).
      apply bind_Ret_inv in Hthis as (c & s6 & _ & Hthis).
      injection Hthis as <- <- _ _. split; [reflexivity|].
      split; [repeat constructor; cbn; lia|cbn; apply NoDup_singleton].
    - apply bind_Ret_inv in Hthis as ([] & s4 & Hassert & Hthis).
      apply assert_Ret_inv in Hassert as [Hassert ->].
      apply negb_true_iff in Hassert. rewrite Hassert.
      injection Hthis as <- <- _ _. split; [reflexivity|apply Hempty]. }
  destruct Hstart as [Hindex Hnumbered].
  pose proof (numbered_parameters
                (zip (sig_parameterNames signature) (sig_parameterTypes signature))
                localIndex locals0
                ltac:(rewrite Hindex; destruct (is_ p _); lia) Hnumbered)
    as [Hn _].
  destruct (foldl _ _ _) as [index' locals'] eqn:Hfold.
  injection Hlocals as <- _ _. cbn [snd] in Hn.
  destruct Hn as [Hrange Hdup]. split; [|exact Hdup].
  eapply Forall_impl; [exact Hrange|]. cbn. intros entry Hentry.
  rewrite length_zip in Hentry. rewrite Hindex in Hentry.
  destruct (is_ p CommonFlags.INSTANCE); lia.
Qed.



(** ** Operator overloads along the base chain *)

Lemma lookupOverload_unfold fuel instance kind s :
  lookupOverload (S fuel) instance kind s
  = match classOf s instance with
    | Some d =>
        match overloadOf s instance kind with
        | Some overload => Ret (Some overload) s
        | None =>
            match c_base d with
            | Some base => lookupOverload fuel base kind s
            | None => Ret None s
            end
        end
    | None => Throw TypeError s
    end.
Proof.
  cbn [lookupOverload].
  unfold bind, getClass, bind, getElement, overloadOf, classOf, ret, throw.
  destruct (heap s !! instance) as [e|]; [|reflexivity].
  destruct (data e) as [| | | |d| | | |]; try reflexivity.
  cbn. destruct (c_overloads d) as [overloads|]; cbn;
    [destruct (JSMap.get overloads kind); [reflexivity|]|];
    destruct (c_base d); reflexivity.
Qed.

Lemma inheritedOverload_det s kind c r1 r2 :
  inheritedOverload s kind c r1 → inheritedOverload s kind c r2 → r1 = r2.
Proof.
  intros H1. revert r2.
  induction H1 as [c d o Hd Ho|c d Hd Ho Hb|c d b r Hd Ho Hb _ IH];
    intros r2 H2; inversion H2; subst; try congruence.
  apply IH. congruence.
Qed.

Lemma lookupOverload_returns s kind :
  basesDecrease s →
  ∀ instance,
    is_Some (classOf s instance) →
    ∃ result,
      inheritedOverload s kind instance result
      ∧ ∀ fuel, (instance < fuel)%nat →
          lookupOverload fuel instance kind s = Ret result s.
Proof.
  intros Hwf instance.
  induction instance as [instance IH] using lt_wf_ind.
  intros [d Hd].
  destruct (overloadOf s instance kind) as [overload|] eqn:Ho.
  { exists (Some overload). split; [econstructor; eassumption|].
    intros [|fuel] Hfuel; [lia|].
    rewrite lookupOverload_unfold, Hd, Ho. reflexivity. }
  destruct (c_base d) as [b|] eqn:Hb.
  - destruct (Hwf _ _ _ Hd Hb) as [Hlt Hcls].
    destruct (IH b Hlt Hcls) as (result & Hin & Hrun).
    exists result. split; [eapply inheritedOverload_base; eassumption|].
    intros [|fuel] Hfuel; [lia|].
    rewrite lookupOverload_unfold, Hd, Ho, Hb. apply Hrun. lia.
  - exists None. split; [eapply inheritedOverload_none; eassumption|].
    intros [|fuel] Hfuel; [lia|].
    rewrite lookupOverload_unfold, Hd, Ho, Hb. reflexivity.
Qed.

Lemma inheritedOverload_onBaseChain s kind c overload :
  inheritedOverload s kind c (Some overload) →
  ∃ t, onBaseChain s c t ∧ overloadOf s t kind = Some overload.
Proof.
  intros H. remember (Some overload) as r eqn:Hr. revert Hr.
  induction H as [c d o Hd Ho|c d Hd Ho Hb|c d b r Hd Ho Hb _ IH]; intros Hr.
  - injection Hr as ->. exists c. split; [constructor|exact Ho].
  - discriminate Hr.
  - destruct (IH Hr) as (t & Hchain & Ht). exists t.
    split; [eapply onBaseChain_base; eassumption|exact Ht].
Qed.

Lemma inheritedOverload_None s kind c :
  inheritedOverload s kind c None →
  ∀ t, onBaseChain s c t → overloadOf s t kind = None.
Proof.
  intros H. remember None as r eqn:Hr. revert Hr.
  induction H as [c d o Hd Ho|c d Hd Ho Hb|c d b r Hd Ho Hb _ IH];
    intros Hr t Hchain.
  - discriminate Hr.
  - inversion Hchain as [|c' d' b' t' Hd' Hb' _]; subst; [exact Ho|congruence].
  - inversion Hchain as [|c' d' b' t' Hd' Hb' Hchain']; subst; [exact Ho|].
    apply IH; [reflexivity|]. congruence.
Qed.


(** The state after [Vec3], which extends [Vec], is resolved. *)
Lemma reachable_scenarioInheritedOperator :
  Reachable exampleTypesToString
    (resolved 10 2%nat (initialized 10 scenarioInheritedOperator)).
Proof.
  apply (reach_classResolve exampleTypesToString 10 2%nat None None
           (initialized 10 scenarioInheritedOperator) (Some 5%nat)).
  - apply (reach_initialize exampleTypesToString 10 exampleOptions
             scenarioInheritedOperator).
    vm_compute. reflexivity.
  - vm_compute. reflexivity.
Defined.


(** ** Sources by path *)

Lemma getSource_Some sources path source :
  getSource sources path = Some source →
  ∃ before after,
    sources = (before ++ source :: after)%list
    ∧ normalizedPath source = path
    ∧ Forall (λ other, normalizedPath other ≠ path) before.
Proof.
  induction sources as [|first sources IH]; [discriminate|].
  cbn [getSource]. destruct (String.eqb_spec (normalizedPath first) path) as [Heq|Hne].
  - intros [= ->]. exists [], sources. auto.
  - intros H. destruct (IH H) as (before & after & -> & Hpath & Hbefore).
    exists (first :: before), after. auto.
Qed.

Lemma getSource_None sources path :
  getSource sources path = None ↔
  Forall (λ other, normalizedPath other ≠ path) sources.
Proof.
  induction sources as [|first sources IH]; [split; auto|].
  cbn [getSource]. destruct (String.eqb_spec (normalizedPath first) path) as [Heq|Hne].
  - split; [discriminate|]. intros H. inversion H; subst. congruence.
  - rewrite IH. split; [auto|]. intros H. inversion H; subst. assumption.
Qed.

(** [lookupSourceByPath(p)] returns a source whose path is one of p.ts,
    p/index.ts, ~lib/p.ts and ~lib/p/index.ts: of these paths the first one
    that a source of the program has, and of the sources with that path the
    first one of [sources].  So a file of the user shadows a file of the
    library, and p.ts shadows p/index.ts.  It returns [null] exactly when no
    source has any of the four paths. *)
Theorem lookupSourceByPath_precedence :
  ∀ sources path,
    match lookupSourceByPath sources path with
    | Some source =>
        ∃ k before after,
          candidatePaths path !! k = Some (normalizedPath source)
          ∧ sources = (before ++ source :: after)%list
          ∧ Forall (λ other, normalizedPath other ≠ normalizedPath source) before
          ∧ ∀ j candidate,
              (j < k)%nat → candidatePaths path !! j = Some candidate →
              Forall (λ other, normalizedPath other ≠ candidate) sources
    | None =>
        ∀ candidate, candidate ∈ candidatePaths path →
                     Forall (λ other, normalizedPath other ≠ candidate) sources
    end.
Proof.
  intros sources path. unfold lookupSourceByPath.
  destruct (getSource sources (path +:+ ".ts")) as [source|] eqn:H0.
  { apply getSource_Some in H0 as (before & after & -> & Hpath & Hbefore).
    exists 0%nat, before, after. rewrite Hpath.
    split; [reflexivity|]. split; [reflexivity|]. split; [exact Hbefore|].
    intros j candidate Hj. lia. }
  apply getSource_None in H0.
  destruct (getSource sources (path +:+ "/index.ts")) as [source|] eqn:H1.
  { apply getSource_Some in H1 as (before & after & Hsources & Hpath & Hbefore).
    exists 1%nat, before, after. rewrite Hpath.
    split; [reflexivity|]. split; [exact Hsources|]. split; [exact Hbefore|].
    intros [|j] candidate Hj Hc; [|lia]. injection Hc as <-. exact H0. }
  apply getSource_None in H1.
  destruct (getSource sources (LIBRARY_PREFIX +:+ path +:+ ".ts"))
    as [source|] eqn:H2.
  { apply getSource_Some in H2 as (before & after & Hsources & Hpath & Hbefore).
    exists 2%nat, before, after. rewrite Hpath.
    split; [reflexivity|]. split; [exact Hsources|]. split; [exact Hbefore|].
    intros [|[|j]] candidate Hj Hc; [| |lia]; injection Hc as <-; assumption. }
  apply getSource_None in H2.
  destruct (getSource sources (LIBRARY_PREFIX +:+ path +:+ "/index.ts"))
    as [source|] eqn:H3.
  { apply getSource_Some in H3 as (before & after & Hsources & Hpath & Hbefore).
    exists 3%nat, before, after. rewrite Hpath.
    split; [reflexivity|]. split; [exact Hsources|]. split; [exact Hbefore|].
    intros [|[|[|j]]] candidate Hj Hc; [| | |lia]; injection Hc as <-;
      assumption. }
  apply getSource_None in H3.
  intros candidate Hin. unfold candidatePaths in Hin.
  repeat (apply elem_of_cons in Hin as [->|Hin]; [assumption|]).
  apply elem_of_nil in Hin. destruct Hin.
Qed.

(** ** Type aliases *)

Lemma resolveType_named_unfold tts fuel name typeArguments source ctx report s :
  noClassPrototypeNamed s source name →
  resolveType tts (S fuel) (TypeNode name typeArguments source) ctx report s
  = match typeAliases s !! name with
    | Some alias => resolveType tts fuel (ta_type alias) ctx report s
    | None =>
        resolveType tts (S fuel) (TypeNode name typeArguments source) ctx
          report s
    end.
Proof.
  intros Hno. destruct (typeAliases s !! name) as [alias|] eqn:Ha;
    [|reflexivity].
  unfold resolveType at 1. cbn [resolver r_resolveType].
  unfold resolveType_body. unfold bind at 1. cbn [gets].
  unfold noClassPrototypeNamed, elementNamed in Hno.
  unfold bind at 1.
  destruct (match elementsLookup s !! _ with Some _ => _ | None => _ end)
    as [element|].
  - destruct Hno as (e & He & Hk).
    unfold bind at 1, getElement. rewrite He.
    destruct (decide (kind e = ElementKind.CLASS_PROTOTYPE)); [contradiction|].
    cbn [ret]. unfold bind at 1. cbn [gets]. rewrite Ha. reflexivity.
  - cbn [ret]. unfold bind at 1. cbn [gets]. rewrite Ha. reflexivity.
Qed.

(** [initializeTypeAlias] registers an alias under a name that is neither a
    type nor an alias yet, and changes nothing else; from then on
    [resolveType] of the name, where it refers to no class prototype, is
    [resolveType] of the aliased type, whatever the type arguments of the
    reference and the type parameters of the alias.  Under a name that is
    taken it reports [Duplicate_identifier_0] and changes nothing else, so
    that the first declaration stays. *)
Theorem initializeTypeAlias_then_resolveType :
  ∀ tts name typeParameters type s,
    if hasKey (typesLookup s) name || hasKey (typeAliases s) name then
      initializeTypeAlias name typeParameters type s
      = Ret tt (withError DiagnosticCode.Duplicate_identifier_0 [name] s)
    else
      ∃ s',
        initializeTypeAlias name typeParameters type s = Ret tt s'
        ∧ s' = with_typeAliases
                 (<[name := {| ta_typeParameters := typeParameters;
                               ta_type := type |}]> (typeAliases s)) s
        ∧ (∀ other, other ≠ name →
             typeAliases s' !! other = typeAliases s !! other)
        ∧ ∀ fuel typeArguments source ctx report,
            noClassPrototypeNamed s source name →
            resolveType tts (S fuel) (TypeNode name typeArguments source) ctx
              report s'
            = resolveType tts fuel type ctx report s'.
Proof.
  intros tts name typeParameters type s.
  unfold initializeTypeAlias, bind. cbn [gets].
  destruct (hasKey (typesLookup s) name || hasKey (typeAliases s) name);
    [reflexivity|].
  eexists. split; [reflexivity|]. split; [reflexivity|]. split.
  - intros other Hne. cbn. apply lookup_insert_ne. congruence.
  - intros fuel typeArguments source ctx report Hno.
    rewrite resolveType_named_unfold by exact Hno.
    cbn [typeAliases with_typeAliases]. rewrite lookup_insert_eq. reflexivity.
Qed.

(** Where the aliases of a set of names are names of the set again, as in
    [type A = B; type B = A], and the names refer to no class prototype,
    [resolveType] of a name of the set does not return: it follows the
    aliases without end. *)
Theorem resolveType_alias_cycle_diverges :
  ∀ tts s (cycle : string → Prop),
    (∀ name, cycle name →
       ∃ alias name' typeArguments' source',
         typeAliases s !! name = Some alias
         ∧ ta_type alias = TypeNode name' typeArguments' source'
         ∧ cycle name') →
    (∀ name source, cycle name → noClassPrototypeNamed s source name) →
    ∀ fuel name typeArguments source ctx report,
      cycle name →
      resolveType tts fuel (TypeNode name typeArguments source) ctx report s
      = OutOfFuel.
Proof.
  intros tts s cycle Hcycle Hno fuel.
  induction fuel as [|fuel IH]; intros name typeArguments source ctx report Hin;
    [reflexivity|].
  rewrite resolveType_named_unfold by (apply Hno, Hin).
  destruct (Hcycle name Hin) as (alias & name' & args' & source' & Ha & Ht & Hin').
  rewrite Ha, Ht. apply IH, Hin'.
Qed.

(** [type A = A]: [resolveType] of [A] does not return. *)
Lemma resolveType_alias_cycle_diverges_witness :
  ta_type <$> typeAliases programWithCyclicAlias !! "A"
  = Some (namedType entryA "A")
  ∧ ∀ fuel,
      resolveType exampleTypesToString fuel (namedType entryA "A") None true
        programWithCyclicAlias
      = OutOfFuel.
Proof.
  split; [reflexivity|]. intros fuel.
  apply (resolveType_alias_cycle_diverges exampleTypesToString
           programWithCyclicAlias (λ name, name = "A")).
  - intros name ->. eexists _, "A", None, entryA.
    split; [reflexivity|]. split; reflexivity.
  - intros name source ->. unfold noClassPrototypeNamed, elementNamed. cbn.
    rewrite !lookup_empty. exact Logic.I.
  - reflexivity.
Defined.

(** ** Decorators *)

Lemma flags_isAny_bit z k : 0 ≤ k → flags_isAny z (Z.shiftl 1 k) = Z.testbit z k.
Proof.
  intros Hk. unfold flags_isAny. rewrite Z.shiftl_1_l.
  destruct (Z.testbit z k) eqn:Hb.
  - apply negb_true_iff, Z.eqb_neq. intros H.
    apply (f_equal (λ x, Z.testbit x k)) in H.
    rewrite Z.land_spec, Hb, Z.pow2_bits_true, Z.bits_0 in H by exact Hk.
    discriminate H.
  - apply negb_false_iff, Z.eqb_eq. apply Z.bits_inj'. intros j Hj.
    rewrite Z.land_spec, Z.pow2_bits_eqb, Z.bits_0 by exact Hk.
    destruct (Z.eqb_spec k j) as [->|]; [rewrite Hb|rewrite andb_false_r];
      reflexivity.
Qed.

Lemma decoratorFlagOf_bit decorator :
  decoratorFlagOf decorator = 0
  ∨ ∃ k, 0 ≤ k ∧ decoratorFlagOf decorator = Z.shiftl 1 k.
Proof.
  unfold decoratorFlagOf.
  destruct (dn_name decorator) as [name| |]; [|left; reflexivity..].
  destruct (stringToDecoratorKind name); cbn;
    first [left; reflexivity | right; eexists; split; [|reflexivity]; lia].
Qed.

Lemma shiftl_1_inj j k : 0 ≤ j → 0 ≤ k → Z.shiftl 1 j = Z.shiftl 1 k → j = k.
Proof.
  intros Hj Hk H. rewrite !Z.shiftl_1_l in H.
  apply (f_equal (λ x, Z.testbit x k)) in H.
  rewrite Z.pow2_bits_true, Z.pow2_bits_eqb in H by assumption.
  apply Z.eqb_eq in H. exact H.
Qed.

Lemma shiftl_1_nonzero k : 0 ≤ k → Z.shiftl 1 k ≠ 0.
Proof. intros Hk. rewrite Z.shiftl_1_l. apply Z.pow_nonzero; lia. Qed.

Lemma filtered_skip acceptedFlags seen decorator presentFlags reported extra :
  filtered acceptedFlags seen presentFlags reported →
  Forall (λ d, code d = DiagnosticCode.Decorator_0_is_not_valid_here
               ∨ code d = DiagnosticCode.Duplicate_decorator) extra →
  (∀ k, 0 ≤ k → decoratorFlagOf decorator = Z.shiftl 1 k →
        Z.testbit acceptedFlags k = true → Z.testbit presentFlags k = true) →
  filtered acceptedFlags (seen ++ [decorator]) presentFlags (reported ++ extra).
Proof.
  intros (Hpos & Hbits & Hcodes) Hextra Hflag.
  split; [exact Hpos|]. split; [|apply Forall_app; auto].
  intros k Hk. rewrite (Hbits k Hk). split.
  - intros (Hacc & d & Hd & Hf). split; [exact Hacc|].
    exists d. split; [apply elem_of_app; auto|exact Hf].
  - intros (Hacc & d & Hd & Hf). split; [exact Hacc|].
    apply elem_of_app in Hd as [Hd|Hd]; [eauto|].
    apply list_elem_of_singleton in Hd as ->.
    apply Hbits; [exact Hk|]. apply Hflag; assumption.
Qed.

Lemma filterDecorators_fold acceptedFlags s decorators :
  ∀ seen presentFlags reported,
    filtered acceptedFlags seen presentFlags reported →
    ∃ presentFlags' reported',
      foldM (fun presentFlags decorator =>
        match dn_name decorator with
        | Identifier name =>
            let kind := stringToDecoratorKind name in
            let flag := decoratorKindToFlag kind in
            if negb (flag =? 0) then
              if Z.land acceptedFlags flag =? 0 then
                do! error DiagnosticCode.Decorator_0_is_not_valid_here [name] in
                ret presentFlags
              else if negb (Z.land presentFlags flag =? 0) then
                do! error DiagnosticCode.Duplicate_decorator [name] in
                ret presentFlags
              else ret (Z.lor presentFlags flag)
            else ret presentFlags
        | _ => ret presentFlags
        end) presentFlags decorators
        (with_diagnostics (diagnostics s ++ reported) s)
      = Ret presentFlags' (with_diagnostics (diagnostics s ++ reported') s)
      ∧ filtered acceptedFlags (seen ++ decorators) presentFlags' reported'.
Proof.
  induction decorators as [|decorator decorators IH];
    intros seen presentFlags reported Hinv.
  { exists presentFlags, reported. rewrite app_nil_r. split; [reflexivity|exact Hinv]. }
  cbn [foldM].
  assert (Hnil : ∀ k, 0 ≤ k → decoratorFlagOf decorator = Z.shiftl 1 k → False →
                      Z.testbit acceptedFlags k = true →
                      Z.testbit presentFlags k = true) by (intros; contradiction).
  replace (seen ++ decorator :: decorators)%list
    with ((seen ++ [decorator]) ++ decorators)%list
    by (rewrite <- app_assoc; reflexivity).
  pose proof (decoratorFlagOf_bit decorator) as Hflag.
  unfold decoratorFlagOf in Hflag.
  pose proof (filtered_skip acceptedFlags seen decorator presentFlags reported)
    as Hskip.
  unfold decoratorFlagOf in Hskip.
  destruct (dn_name decorator) as [name| |] eqn:Hname.
  2,3: unfold bind at 1; cbn [ret];
       apply (IH (seen ++ [decorator])%list);
       rewrite <- (app_nil_r reported); apply Hskip; [exact Hinv|constructor|];
       intros k Hk H0; symmetry in H0; destruct (shiftl_1_nonzero k Hk H0).
  cbv zeta.
  set (flag := decoratorKindToFlag (stringToDecoratorKind name)) in *.
  destruct (Z.eqb_spec flag 0) as [H0|H0]; cbn [negb].
  { unfold bind at 1; cbn [ret].
    apply (IH (seen ++ [decorator])%list).
    rewrite <- (app_nil_r reported). apply Hskip; [exact Hinv|constructor|].
    intros k Hk Hf. rewrite H0 in Hf. symmetry in Hf.
    destruct (shiftl_1_nonzero k Hk Hf). }
  destruct Hflag as [Hz|(k0 & Hk0 & Hflag)]; [contradiction|].
  pose proof (flags_isAny_bit acceptedFlags k0 Hk0) as Hacc.
  pose proof (flags_isAny_bit presentFlags k0 Hk0) as Hpres.
  unfold flags_isAny in Hacc, Hpres. rewrite <- Hflag in Hacc, Hpres.
  destruct (Z.land acceptedFlags flag =? 0) eqn:Ha; cbn [negb] in Hacc.
  { rewrite (bind_Ret _ _ _ presentFlags
               (with_diagnostics
                  (diagnostics s ++ reported ++
                     [{| code := DiagnosticCode.Decorator_0_is_not_valid_here;
                         args := [name] |}]) s))
      by (unfold bind, error, modify, ret; cbn; rewrite <- app_assoc;
          reflexivity).
    apply (IH (seen ++ [decorator])%list).
    apply Hskip; [exact Hinv|repeat constructor; left; reflexivity|].
    intros k Hk Hf Hk'. rewrite Hflag in Hf.
    apply shiftl_1_inj in Hf; [|assumption..]. subst k0. congruence. }
  destruct (Z.land presentFlags flag =? 0) eqn:Hp; cbn [negb] in Hpres |- *.
  - unfold bind at 1. cbn [ret].
    apply (IH (seen ++ [decorator])%list).
    destruct Hinv as (Hpos & Hbits & Hcodes).
    split; [apply Z.lor_nonneg; split; [exact Hpos|]|].
    { rewrite Hflag, Z.shiftl_1_l. apply Z.pow_nonneg. lia. }
    split; [|exact Hcodes].
    intros k Hk. rewrite Z.lor_spec, Hflag, Z.shiftl_1_l, Z.pow2_bits_eqb
      by exact Hk0.
    rewrite orb_true_iff, (Hbits k Hk), Z.eqb_eq. split.
    + intros [(Hacc' & d & Hd & Hf)| ->].
      * split; [exact Hacc'|]. exists d. split; [apply elem_of_app; auto|exact Hf].
      * split; [symmetry; exact Hacc|]. exists decorator.
        split; [apply elem_of_app; right; apply list_elem_of_singleton; reflexivity|].
        unfold decoratorFlagOf. rewrite Hname. exact Hflag.
    + intros (Hacc' & d & Hd & Hf).
      apply elem_of_app in Hd as [Hd|Hd]; [left; eauto|].
      apply list_elem_of_singleton in Hd as ->. right.
      unfold decoratorFlagOf in Hf. rewrite Hname in Hf. fold flag in Hf.
      rewrite Hflag in Hf. apply shiftl_1_inj in Hf; auto.
  - rewrite (bind_Ret _ _ _ presentFlags
               (with_diagnostics
                  (diagnostics s ++ reported ++
                     [{| code := DiagnosticCode.Duplicate_decorator;
                         args := [name] |}]) s))
      by (unfold bind, error, modify, ret; cbn; rewrite <- app_assoc;
          reflexivity).
    apply (IH (seen ++ [decorator])%list).
    apply Hskip; [exact Hinv|repeat constructor; right; reflexivity|].
    intros k Hk Hf Hk'. rewrite Hflag in Hf.
    apply shiftl_1_inj in Hf; [|assumption..]. subst k0. congruence.
Qed.

Lemma decoratorFlagOf_known decorator k :
  0 ≤ k → decoratorFlagOf decorator = Z.shiftl 1 k →
  k = 0 ∨ k = 2 ∨ k = 3 ∨ k = 4.
Proof.
  intros Hk. unfold decoratorFlagOf.
  destruct (dn_name decorator) as [name| |];
    [|intros H; symmetry in H; destruct (shiftl_1_nonzero k Hk H)..].
  destruct (stringToDecoratorKind name); cbn [decoratorKindToFlag];
    unfold DecoratorFlags.NONE, DecoratorFlags.GLOBAL, DecoratorFlags.UNMANAGED,
      DecoratorFlags.SEALED, DecoratorFlags.INLINE;
    intros H;
    first [ symmetry in H; destruct (shiftl_1_nonzero k Hk H)
          | apply shiftl_1_inj in H; [lia|lia|exact Hk] ].
Qed.

(** [filterDecorators] returns, and changes nothing but the diagnostics, to
    which it adds only [Decorator_0_is_not_valid_here] and
    [Duplicate_decorator].  The flags it returns are among the accepted
    ones and among [GLOBAL], [UNMANAGED], [SEALED] and [INLINE]; such a flag
    is returned exactly when it is accepted and one of the decorators has
    it. *)
Theorem filterDecorators_accepted_flags_only :
  ∀ decorators acceptedFlags s,
    ∃ presentFlags reported,
      filterDecorators decorators acceptedFlags s
      = Ret presentFlags (with_diagnostics (diagnostics s ++ reported) s)
      ∧ Z.land presentFlags acceptedFlags = presentFlags
      ∧ Z.land presentFlags
          (Z.lor DecoratorFlags.GLOBAL
             (Z.lor DecoratorFlags.UNMANAGED
                (Z.lor DecoratorFlags.SEALED DecoratorFlags.INLINE)))
        = presentFlags
      ∧ (∀ flag,
           flag ∈ [DecoratorFlags.GLOBAL; DecoratorFlags.UNMANAGED;
                   DecoratorFlags.SEALED; DecoratorFlags.INLINE] →
           flags_is presentFlags flag = true ↔
           flags_isAny acceptedFlags flag = true
           ∧ ∃ decorator, decorator ∈ decorators
                          ∧ decoratorFlagOf decorator = flag)
      ∧ Forall (λ d, code d = DiagnosticCode.Decorator_0_is_not_valid_here
                     ∨ code d = DiagnosticCode.Duplicate_decorator) reported.
Proof.
  intros decorators acceptedFlags s.
  assert (Hstart : filtered acceptedFlags [] DecoratorFlags.NONE []).
  { split; [reflexivity|]. split; [|constructor].
    intros k Hk. unfold DecoratorFlags.NONE. rewrite Z.bits_0. split; [discriminate|].
    intros (_ & d & Hd & _). apply elem_of_nil in Hd. destruct Hd. }
  destruct (filterDecorators_fold acceptedFlags s decorators _ _ _ Hstart)
    as (presentFlags & reported & Hrun & Hpos & Hbits & Hcodes).
  exists presentFlags, reported. split.
  { unfold filterDecorators. rewrite <- Hrun. f_equal.
    destruct s; cbn. rewrite app_nil_r. reflexivity. }
  cbn [app] in Hbits.
  split; [|split; [|split; [|exact Hcodes]]].
  - apply Z.bits_inj'. intros k Hk. rewrite Z.land_spec.
    destruct (Z.testbit presentFlags k) eqn:Hb; [|reflexivity].
    apply (Hbits k Hk) in Hb as [Hacc _]. rewrite Hacc. reflexivity.
  - apply Z.bits_inj'. intros k Hk. rewrite Z.land_spec.
    destruct (Z.testbit presentFlags k) eqn:Hb; [|reflexivity].
    apply (Hbits k Hk) in Hb as (_ & d & _ & Hf).
    destruct (decoratorFlagOf_known d k Hk Hf) as [-> | [-> | [-> | ->]]];
      reflexivity.
  - intros flag Hflag.
    assert (∃ k, 0 ≤ k ∧ flag = Z.shiftl 1 k) as (k & Hk & ->).
    { repeat (apply elem_of_cons in Hflag as [->|Hflag];
              [eexists; split; [|reflexivity]; lia|]).
      apply elem_of_nil in Hflag. destruct Hflag. }
    rewrite flags_is_bit, flags_isAny_bit by exact Hk. apply Hbits, Hk.
Qed.

(** ** Resolution only adds diagnostics and elements *)

Lemma grown_refl s : grown s s.
Proof.
  split; [reflexivity|]. split; [exists []|exists []];
    rewrite app_nil_r; reflexivity.
Qed.

Lemma grown_trans s1 s2 s3 : grown s1 s2 → grown s2 s3 → grown s1 s3.
Proof.
  intros (Ht1 & [r1 Hd1] & [n1 Hh1]) (Ht2 & [r2 Hd2] & [n2 Hh2]).
  split; [congruence|]. split.
  - exists (r1 ++ r2)%list. rewrite Hd2, Hd1, app_assoc. reflexivity.
  - exists (n1 ++ n2)%list. rewrite Hh2, Hh1, app_assoc. reflexivity.
Qed.

Lemma grown_error s0 code args : Preserves (grown s0) (error code args).
Proof.
  intros s (Ht & [r Hd] & Hh).
  change (grown s0 (withError code args s)).
  split; [exact Ht|]. split; [|exact Hh].
  eexists. cbn [diagnostics withError with_diagnostics].
  rewrite Hd, <- app_assoc. reflexivity.
Qed.

Lemma grown_alloc s0 e : Preserves (grown s0) (alloc e).
Proof.
  intros s (Ht & Hd & [n Hh]).
  change (grown s0 (with_heap (heap s ++ [e]) s)).
  split; [exact Ht|]. split; [exact Hd|].
  eexists. cbn [heap with_heap]. rewrite fmap_app, Hh, <- app_assoc.
  reflexivity.
Qed.

Lemma grown_update s0 s h e e' :
  grown s0 s → heap s !! h = Some e → identityOf e' = identityOf e →
  grown s0 (with_heap (<[h := e']> (heap s)) s).
Proof.
  intros (Ht & Hd & [n Hh]) He Hid. split; [exact Ht|]. split; [exact Hd|].
  exists n. cbn [heap with_heap]. rewrite list_fmap_insert, Hid, <- Hh.
  apply list_insert_id. rewrite list_lookup_fmap.
  unfold handle in *. rewrite He. reflexivity.
Qed.

Lemma grown_updElement s0 h f :
  (∀ e, identityOf (f e) = identityOf e) → Preserves (grown s0) (updElement h f).
Proof.
  intros Hf s H. unfold updElement.
  destruct (heap s !! h) as [e|] eqn:He; [|exact H].
  eapply grown_update; eauto.
Qed.

Lemma grown_with_data s0 s h e d :
  grown s0 s → heap s !! h = Some e →
  identityOfData d = identityOfData (data e) →
  match updElement h (with_data d) s with
  | Ret _ s' | Throw _ s' => grown s0 s'
  | OutOfFuel => True
  end.
Proof.
  intros H He Hd. unfold updElement. rewrite He.
  eapply grown_update; [exact H|exact He|].
  unfold identityOf. cbn. rewrite Hd. reflexivity.
Qed.

Lemma grown_updClass s0 h f :
  (∀ d, identityOfData (ClassD (f d)) = identityOfData (ClassD d)) →
  Preserves (grown s0) (updClass h f).
Proof.
  intros Hf s H. unfold updClass, bind, getClass, bind, getElement.
  destruct (heap s !! h) as [e|] eqn:He; [|exact H].
  destruct (data e) as [| | | |d| | | |] eqn:Hd; try exact H.
  cbn [ret]. eapply grown_with_data; [exact H|exact He|].
  rewrite Hd. apply Hf.
Qed.

Lemma grown_updClassPrototype s0 h f :
  (∀ d, identityOfData (ClassPrototypeD (f d))
        = identityOfData (ClassPrototypeD d)) →
  Preserves (grown s0) (updClassPrototype h f).
Proof.
  intros Hf s H. unfold updClassPrototype, bind, getClassPrototype, bind, getElement.
  destruct (heap s !! h) as [e|] eqn:He; [|exact H].
  destruct (data e) as [| | |d| | | | |] eqn:Hd; try exact H.
  cbn [ret]. eapply grown_with_data; [exact H|exact He|].
  rewrite Hd. apply Hf.
Qed.

Lemma grown_updFunctionPrototype s0 h f :
  (∀ d, identityOfData (FunctionPrototypeD (f d))
        = identityOfData (FunctionPrototypeD d)) →
  Preserves (grown s0) (updFunctionPrototype h f).
Proof.
  intros Hf s H.
  unfold updFunctionPrototype, bind, getFunctionPrototype, bind, getElement.
  destruct (heap s !! h) as [e|] eqn:He; [|exact H].
  destruct (data e) as [|d| | | | | | |] eqn:Hd; try exact H.
  cbn [ret]. eapply grown_with_data; [exact H|exact He|].
  rewrite Hd. apply Hf.
Qed.

Lemma grown_setMemoryOffset s0 h o : Preserves (grown s0) (setMemoryOffset h o).
Proof.
  intros s H. unfold setMemoryOffset, bind, getElement.
  destruct (heap s !! h) as [e|] eqn:He; [|exact H].
  destruct (data e) eqn:Hd; try exact H.
  eapply grown_with_data; [exact H|exact He|]. rewrite Hd. reflexivity.
Qed.

Lemma grown_setGetterPrototype s0 h p :
  Preserves (grown s0) (setGetterPrototype h p).
Proof.
  intros s H. unfold setGetterPrototype, getProperty, bind, getElement.
  destruct (heap s !! h) as [e|] eqn:He; [|exact H].
  destruct (data e) eqn:Hd; try exact H.
  eapply grown_with_data; [exact H|exact He|]. rewrite Hd. reflexivity.
Qed.

Lemma grown_setSetterPrototype s0 h p :
  Preserves (grown s0) (setSetterPrototype h p).
Proof.
  intros s H. unfold setSetterPrototype, getProperty, bind, getElement.
  destruct (heap s !! h) as [e|] eqn:He; [|exact H].
  destruct (data e) eqn:Hd; try exact H.
  eapply grown_with_data; [exact H|exact He|]. rewrite Hd. reflexivity.
Qed.

Ltac grows_step :=
  lazymatch goal with
  | |- Preserves _ (error _ _) => apply grown_error
  | |- Preserves _ (alloc _) => apply grown_alloc
  | |- Preserves _ (updClass _ _) => apply grown_updClass; intros; reflexivity
  | |- Preserves _ (updClassPrototype _ _) =>
      apply grown_updClassPrototype; intros; reflexivity
  | |- Preserves _ (updFunctionPrototype _ _) =>
      apply grown_updFunctionPrototype; intros; reflexivity
  | |- Preserves _ (setMemoryOffset _ _) => apply grown_setMemoryOffset
  | |- Preserves _ (setGetterPrototype _ _) => apply grown_setGetterPrototype
  | |- Preserves _ (setSetterPrototype _ _) => apply grown_setSetterPrototype
  | |- Preserves _ (updElement _ _) =>
      apply grown_updElement; intros; reflexivity
  | |- Preserves _ (modify _) => fail
  | |- _ => preserves_step
  end.

Ltac grows :=
  repeat first
    [ grows_step
    | progress unfold resolveSignatureParameter, newClass, newField,
        newFunction, resolvePartial, resolveInstanceMember, resolveOverload,
        classResolveMembers, classInstantiate, instanceMembersSet,
        membersSet ].

Section Growth.
Variable s0 : Program.
Variable tts : list Type_ → string.
Variable r : Resolver.
Hypothesis HR : ResolverPreserves (grown s0) r.

Lemma grown_resolveSignature_body node ctx report :
  Preserves (grown s0) (resolveSignature_body r node ctx report).
Proof. unfold resolveSignature_body. grows. Qed.

Lemma grown_resolveTypeArguments_body ps nodes ctx alt :
  Preserves (grown s0) (resolveTypeArguments_body r ps nodes ctx alt).
Proof. unfold resolveTypeArguments_body. grows. Qed.

Lemma grown_resolveType_body node ctx report :
  Preserves (grown s0) (resolveType_body tts r node ctx report).
Proof. unfold resolveType_body. grows. Qed.

Lemma grown_classResolveUsingTypeArguments_body this nodes ctx alt :
  Preserves (grown s0) (classResolveUsingTypeArguments_body r this nodes ctx alt).
Proof. unfold classResolveUsingTypeArguments_body. grows. Qed.

Lemma grown_functionResolveUsingTypeArguments_body this nodes ctx alt :
  Preserves (grown s0)
    (functionResolveUsingTypeArguments_body r this nodes ctx alt).
Proof. unfold functionResolveUsingTypeArguments_body. grows. Qed.

Lemma grown_classResolve_body this args ctx :
  Preserves (grown s0) (classResolve_body tts r this args ctx).
Proof. unfold classResolve_body. grows. Qed.

Lemma grown_functionResolve_body this args ctx :
  Preserves (grown s0) (functionResolve_body tts r this args ctx).
Proof. unfold functionResolve_body. grows. Qed.

End Growth.

Lemma resolver_grown s0 tts fuel :
  ResolverPreserves (grown s0) (resolver tts fuel).
Proof.
  induction fuel as [|fuel IH].
  - split; intros; apply Preserves_outOfFuel.
  - split; intros; cbn [resolver r_resolveSignature r_resolveType
      r_resolveTypeArguments r_classResolve r_classResolveUsingTypeArguments
      r_functionResolve].
    + apply grown_resolveSignature_body, IH.
    + apply grown_resolveType_body, IH.
    + apply grown_resolveTypeArguments_body, IH.
    + apply grown_classResolve_body, IH.
    + apply grown_classResolveUsingTypeArguments_body, IH.
    + apply grown_functionResolve_body, IH.
Qed.

(** ** The built-in types *)

Lemma typesKnown_error o code args : Preserves (typesKnown o) (error code args).
Proof. intros s H. exact H. Qed.

Lemma typesKnown_alloc o e : Preserves (typesKnown o) (alloc e).
Proof. intros s H. exact H. Qed.

Lemma typesKnown_updElement o h f : Preserves (typesKnown o) (updElement h f).
Proof.
  intros s H. unfold updElement. destruct (heap s !! h); exact H.
Qed.

Lemma typesKnown_modify o f :
  (∀ s, typesKnown o s → typesKnown o (f s)) →
  Preserves (typesKnown o) (modify f).
Proof. intros Hf s H. apply Hf, H. Qed.

Lemma typesKnown_string o type s :
  typesKnown o s →
  typesKnown o (with_typesLookup (<["string" := type]> (typesLookup s)) s).
Proof.
  intros [Ho [H|[t H]]]; (split; [exact Ho|]); right; exists type;
    cbn [typesLookup with_typesLookup]; rewrite H; [reflexivity|].
  apply insert_insert_eq.
Qed.

Ltac known_step :=
  lazymatch goal with
  | |- Preserves _ (error _ _) => apply typesKnown_error
  | |- Preserves _ (alloc _) => apply typesKnown_alloc
  | |- Preserves _ (updElement _ _) => apply typesKnown_updElement
  | |- Preserves _ (updClass _ _) => unfold updClass
  | |- Preserves _ (updClassPrototype _ _) => unfold updClassPrototype
  | |- Preserves _ (updFunctionPrototype _ _) => unfold updFunctionPrototype
  | |- Preserves _ (setMemoryOffset _ _) => unfold setMemoryOffset
  | |- Preserves _ (setGetterPrototype _ _) => unfold setGetterPrototype
  | |- Preserves _ (setSetterPrototype _ _) => unfold setSetterPrototype
  | |- Preserves _ (modify _) =>
      apply typesKnown_modify; intros ? ?;
      first [assumption | apply typesKnown_string; assumption]
  | |- _ => preserves_step
  end.

Ltac known :=
  repeat first
    [ known_step
    | progress unfold resolveSignatureParameter, newClass, newField,
        newFunction, resolvePartial, resolveInstanceMember, resolveOverload,
        classResolveMembers, classInstantiate, instanceMembersSet,
        membersSet, filterDecorators, checkGlobalOptions, setElementsLookup,
        setFileLevelExports, setModuleLevelExports, initializeField,
        checkOperatorOverloads, checkOperatorDecorator, initializeMethod,
        initializeAccessor, initializeClass, setExportAndCheckLibrary,
        initializeExport, initializeExports, initializeFunction,
        initializeImport, initializeImports, resolveIdentifier,
        initializeStatement, drainQueuedImport, drainQueuedExtends,
        initializeStatements ].

Section KnownTypes.
Variable o : Options.
Variable tts : list Type_ → string.
Variable r : Resolver.
Hypothesis HR : ResolverPreserves (typesKnown o) r.

Lemma typesKnown_resolveSignature_body node ctx report :
  Preserves (typesKnown o) (resolveSignature_body r node ctx report).
Proof. unfold resolveSignature_body. known. Qed.

Lemma typesKnown_resolveTypeArguments_body ps nodes ctx alt :
  Preserves (typesKnown o) (resolveTypeArguments_body r ps nodes ctx alt).
Proof. unfold resolveTypeArguments_body. known. Qed.

Lemma typesKnown_resolveType_body node ctx report :
  Preserves (typesKnown o) (resolveType_body tts r node ctx report).
Proof. unfold resolveType_body. known. Qed.

Lemma typesKnown_classResolveUsingTypeArguments_body this nodes ctx alt :
  Preserves (typesKnown o)
    (classResolveUsingTypeArguments_body r this nodes ctx alt).
Proof. unfold classResolveUsingTypeArguments_body. known. Qed.

Lemma typesKnown_functionResolveUsingTypeArguments_body this nodes ctx alt :
  Preserves (typesKnown o)
    (functionResolveUsingTypeArguments_body r this nodes ctx alt).
Proof. unfold functionResolveUsingTypeArguments_body. known. Qed.

Lemma typesKnown_classResolve_body this args ctx :
  Preserves (typesKnown o) (classResolve_body tts r this args ctx).
Proof. unfold classResolve_body. known. Qed.

Lemma typesKnown_functionResolve_body this args ctx :
  Preserves (typesKnown o) (functionResolve_body tts r this args ctx).
Proof. unfold functionResolve_body. known. Qed.

End KnownTypes.

Lemma resolver_typesKnown o tts fuel :
  ResolverPreserves (typesKnown o) (resolver tts fuel).
Proof.
  induction fuel as [|fuel IH].
  - split; intros; apply Preserves_outOfFuel.
  - split; intros; cbn [resolver r_resolveSignature r_resolveType
      r_resolveTypeArguments r_classResolve r_classResolveUsingTypeArguments
      r_functionResolve].
    + apply typesKnown_resolveSignature_body, IH.
    + apply typesKnown_resolveType_body, IH.
    + apply typesKnown_resolveTypeArguments_body, IH.
    + apply typesKnown_classResolve_body, IH.
    + apply typesKnown_classResolveUsingTypeArguments_body, IH.
    + apply typesKnown_functionResolve_body, IH.
Qed.

Lemma typesKnown_tryResolveImport o fuel name queuedExports :
  Preserves (typesKnown o) (tryResolveImport fuel name queuedExports).
Proof.
  revert name. induction fuel as [|fuel IH]; intros name;
    [apply Preserves_outOfFuel|].
  cbn [tryResolveImport]. known. apply IH.
Qed.

Lemma typesKnown_walkQueuedExports o fuel externalName member queuedExports
    name seen :
  Preserves (typesKnown o)
    (walkQueuedExports fuel externalName member queuedExports name seen).
Proof.
  revert name seen. induction fuel as [|fuel IH]; intros name seen;
    [apply Preserves_outOfFuel|].
  cbn [walkQueuedExports]. known. apply IH.
Qed.

Lemma typesKnown_drainQueuedExport o fuel exportName queuedExport queuedExports
    currentExport :
  Preserves (typesKnown o)
    (drainQueuedExport fuel exportName queuedExport queuedExports currentExport).
Proof.
  revert currentExport. induction fuel as [|fuel IH]; intros currentExport;
    [apply Preserves_outOfFuel|].
  cbn [drainQueuedExport]. known. apply IH.
Qed.

Lemma typesKnown_initialize tts fuel o sources s :
  match initialize tts fuel o sources s with
  | Ret _ s' | Throw _ s' => typesKnown o s'
  | OutOfFuel => True
  end.
Proof.
  unfold initialize.
  rewrite (bind_Ret _ _ _ tt (with_options o s)) by reflexivity.
  rewrite (bind_Ret _ _ _ tt
             (with_typesLookup (initialTypesLookup o) (with_options o s)))
    by reflexivity.
  match goal with
  | |- match ?m ?s1 with _ => _ end =>
      enough (H : Preserves (typesKnown o) m)
        by (apply H; split; [reflexivity|left; reflexivity])
  end.
  known;
    first [ apply typesKnown_tryResolveImport
          | apply typesKnown_walkQueuedExports
          | apply typesKnown_drainQueuedExport
          | apply (rp_classResolve _ _ (resolver_typesKnown o tts fuel)) ].
Qed.

Lemma reachable_typesKnown tts s : Reachable tts s → typesKnown (options s) s.
Proof.
  induction 1 as [fuel o sources s Hrun
                 |fuel node ctx report s res s' _ IH Hrun
                 |fuel node ctx report s res s' _ IH Hrun
                 |fuel ps nodes ctx alt s res s' _ IH Hrun
                 |fuel this args ctx s res s' _ IH Hrun
                 |fuel this nodes ctx alt s res s' _ IH Hrun
                 |fuel this args ctx s res s' _ IH Hrun
                 |fuel this nodes ctx alt s res s' _ IH Hrun].
  - pose proof (typesKnown_initialize tts fuel o sources (newProgram o)) as H.
    rewrite Hrun in H. destruct H as [Ho H]. rewrite Ho. split; [exact Ho|exact H].
  - pose proof (rp_resolveSignature _ _ (resolver_typesKnown _ tts fuel)
                  node ctx report s IH) as H.
    unfold resolveSignature in Hrun. rewrite Hrun in H.
    destruct H as [Ho H]. rewrite Ho. split; [exact Ho|exact H].
  - pose proof (rp_resolveType _ _ (resolver_typesKnown _ tts fuel)
                  node ctx report s IH) as H.
    unfold resolveType in Hrun. rewrite Hrun in H.
    destruct H as [Ho H]. rewrite Ho. split; [exact Ho|exact H].
  - pose proof (rp_resolveTypeArguments _ _ (resolver_typesKnown _ tts fuel)
                  ps nodes ctx alt s IH) as H.
    unfold resolveTypeArguments in Hrun. rewrite Hrun in H.
    destruct H as [Ho H]. rewrite Ho. split; [exact Ho|exact H].
  - pose proof (rp_classResolve _ _ (resolver_typesKnown _ tts fuel)
                  this args ctx s IH) as H.
    unfold classResolve in Hrun. rewrite Hrun in H.
    destruct H as [Ho H]. rewrite Ho. split; [exact Ho|exact H].
  - pose proof (rp_classResolveUsingTypeArguments _ _
                  (resolver_typesKnown _ tts fuel) this nodes ctx alt s IH) as H.
    unfold classResolveUsingTypeArguments in Hrun. rewrite Hrun in H.
    destruct H as [Ho H]. rewrite Ho. split; [exact Ho|exact H].
  - pose proof (rp_functionResolve _ _ (resolver_typesKnown _ tts fuel)
                  this args ctx s IH) as H.
    unfold functionResolve in Hrun. rewrite Hrun in H.
    destruct H as [Ho H]. rewrite Ho. split; [exact Ho|exact H].
  - pose proof (typesKnown_functionResolveUsingTypeArguments_body _
                  (resolver tts fuel) (resolver_typesKnown _ tts fuel)
                  this nodes ctx alt s IH) as H.
    unfold functionResolveUsingTypeArguments in Hrun. rewrite Hrun in H.
    destruct H as [Ho H]. rewrite Ho. split; [exact Ho|exact H].
Qed.

Lemma hasDelimiter_local path name :
  hasDelimiter (path +:+ PATH_DELIMITER +:+ name) = true.
Proof.
  induction path as [|c path IH]; [reflexivity|].
  change (hasDelimiter (String c (path +:+ PATH_DELIMITER +:+ name)) = true).
  cbn [hasDelimiter]. rewrite IH. apply orb_true_r.
Qed.

Lemma initialTypesLookup_delimiter o name :
  hasDelimiter name = true → initialTypesLookup o !! name = None.
Proof.
  intros H. unfold initialTypesLookup. cbn [list_to_map foldr uncurry fst snd].
  repeat (rewrite lookup_insert_ne by (intros <-; discriminate H)).
  apply lookup_empty.
Qed.

Lemma typesKnown_lookup o s name :
  typesKnown o s → name ≠ "string" →
  typesLookup s !! name = initialTypesLookup o !! name.
Proof.
  intros [_ [H|[t H]]] Hne; rewrite H; [reflexivity|].
  apply lookup_insert_ne. congruence.
Qed.

Lemma resolveType_plain_name tts fuel name source ctx report s :
  noClassPrototypeNamed s source name →
  typeAliases s !! name = None →
  resolveType tts (S fuel) (TypeNode name None source) ctx report s
  = match typesLookup s !! (internalPath source +:+ PATH_DELIMITER +:+ name) with
    | Some type => Ret (Some type) s
    | None =>
        match typesLookup s !! name with
        | Some type => Ret (Some type) s
        | None =>
            Ret None
              (if report
               then withError DiagnosticCode.Cannot_find_name_0 [name] s
               else s)
        end
    end.
Proof.
  intros Hno Ha.
  unfold resolveType. cbn [resolver r_resolveType].
  unfold resolveType_body. unfold bind at 1. cbn [gets].
  unfold noClassPrototypeNamed, elementNamed in Hno.
  unfold bind at 1.
  assert (Hrest :
    ∀ s1, s1 = s →
      (let! aliases := gets typeAliases in
       match aliases !! name with
       | Some alias => r_resolveType (resolver tts fuel) (ta_type alias) ctx report
       | None =>
           let! names := ret (Continue
             (internalPath source +:+ PATH_DELIMITER +:+ name, name)) in
           match names : Step (string * string) (option Type_) with
           | Return res => ret res
           | Continue (localName, globalName) =>
               let! types := gets typesLookup in
               match types !! localName with
               | Some type => ret (Some type)
               | None =>
                   match types !! globalName with
                   | Some type => ret (Some type)
                   | None =>
                       do! when report
                             (error DiagnosticCode.Cannot_find_name_0 [globalName]) in
                       ret None
                   end
               end
           end
       end) s1
      = match typesLookup s !! (internalPath source +:+ PATH_DELIMITER +:+ name) with
        | Some type => Ret (Some type) s
        | None =>
            match typesLookup s !! name with
            | Some type => Ret (Some type) s
            | None =>
                Ret None
                  (if report
                   then withError DiagnosticCode.Cannot_find_name_0 [name] s
                   else s)
            end
        end).
  { intros s1 ->. unfold bind at 1. cbn [gets]. rewrite Ha.
    unfold bind at 1. cbn [ret]. unfold bind at 1. cbn [gets].
    destruct (typesLookup s !! _); [reflexivity|].
    destruct (typesLookup s !! name); [reflexivity|].
    destruct report; reflexivity. }
  destruct (match elementsLookup s !! _ with Some _ => _ | None => _ end)
    as [element|].
  - destruct Hno as (e & He & Hk).
    unfold bind at 1, getElement. rewrite He.
    destruct (decide (kind e = ElementKind.CLASS_PROTOTYPE)); [contradiction|].
    cbn [ret]. apply Hrest. reflexivity.
  - cbn [ret]. apply Hrest. reflexivity.
Qed.



(** ** What resolution leaves alone, spelled out *)

Lemma grown_tables s s' :
  grown s s' →
  options s' = options s
  ∧ elementsLookup s' = elementsLookup s
  ∧ typesLookup s' = typesLookup s
  ∧ typeAliases s' = typeAliases s
  ∧ fileLevelExports s' = fileLevelExports s
  ∧ moduleLevelExports s' = moduleLevelExports s.
Proof.
  intros [Ht _]. unfold tablesOf in Ht.
  repeat split;
    [ apply (f_equal options) in Ht | apply (f_equal elementsLookup) in Ht
    | apply (f_equal typesLookup) in Ht | apply (f_equal typeAliases) in Ht
    | apply (f_equal fileLevelExports) in Ht
    | apply (f_equal moduleLevelExports) in Ht ]; exact Ht.
Qed.

Lemma grown_element s s' h e :
  grown s s' → heap s !! h = Some e →
  ∃ e', heap s' !! h = Some e' ∧ identityOf e' = identityOf e.
Proof.
  intros (_ & _ & [n Hh]) He.
  assert (Hl : (identityOf <$> heap s') !! h = Some (identityOf e)).
  { rewrite Hh. apply lookup_app_l_Some. rewrite list_lookup_fmap.
    unfold handle in *. rewrite He. reflexivity. }
  rewrite list_lookup_fmap in Hl.
  destruct (heap s' !! h) as [e'|]; [|discriminate Hl].
  exists e'. split; [reflexivity|].
  cbn [fmap option_fmap option_map] in Hl. congruence.
Qed.

Lemma grown_class s s' h d :
  grown s s' → classOf s h = Some d →
  ∃ d', classOf s' h = Some d'
        ∧ c_prototype d' = c_prototype d
        ∧ c_typeArguments d' = c_typeArguments d
        ∧ c_type d' = c_type d
        ∧ c_base d' = c_base d.
Proof.
  intros Hg Hd. unfold classOf in *.
  destruct (heap s !! h) as [e|] eqn:He; [|discriminate Hd].
  destruct (grown_element _ _ _ _ Hg He) as (e' & He' & Hid).
  unfold handle in *. rewrite He'. apply (f_equal data) in Hid. cbn [identityOf data] in Hid.
  destruct (data e) as [| | | |d0| | | |]; try discriminate Hd.
  injection Hd as ->.
  destruct (data e') as [| | | |d'| | | |]; try discriminate Hid.
  exists d'. injection Hid as H1 H2 H3 H4. auto.
Qed.

(** Every method of the resolver, where it returns or raises, has only added
    diagnostics and elements: the options, the lookup tables of elements,
    types and aliases and the exports are as before, the diagnostics that
    were there are the first of the new ones, and every element that was
    there is there under the same handle with its kind, simple name,
    decorators and namespace; a class has kept its prototype, type
    arguments, type and base, and a function its signature and locals. *)
Theorem resolution_only_grows :
  ∀ tts fuel,
    (∀ node ctx report, Grows (resolveSignature tts fuel node ctx report))
    ∧ (∀ node ctx report, Grows (resolveType tts fuel node ctx report))
    ∧ (∀ ps nodes ctx alt,
         Grows (resolveTypeArguments tts fuel ps nodes ctx alt))
    ∧ (∀ this args ctx, Grows (classResolve tts fuel this args ctx))
    ∧ (∀ this nodes ctx alt,
         Grows (classResolveUsingTypeArguments tts fuel this nodes ctx alt))
    ∧ (∀ this args ctx, Grows (functionResolve tts fuel this args ctx))
    ∧ (∀ this nodes ctx alt,
         Grows (functionResolveUsingTypeArguments tts fuel this nodes ctx alt))
    ∧ ∀ s s',
        grown s s' →
        (options s' = options s
         ∧ elementsLookup s' = elementsLookup s
         ∧ typesLookup s' = typesLookup s
         ∧ typeAliases s' = typeAliases s
         ∧ fileLevelExports s' = fileLevelExports s
         ∧ moduleLevelExports s' = moduleLevelExports s)
        ∧ (∃ reported, diagnostics s' = (diagnostics s ++ reported)%list)
        ∧ (∀ h e, heap s !! h = Some e →
             ∃ e', heap s' !! h = Some e'
                   ∧ kind e' = kind e ∧ simpleName e' = simpleName e
                   ∧ decoratorFlags e' = decoratorFlags e
                   ∧ namespace e' = namespace e
                   ∧ ∀ d, data e = FunctionD d → data e' = FunctionD d)
        ∧ (∀ h d, classOf s h = Some d →
             ∃ d', classOf s' h = Some d'
                   ∧ c_prototype d' = c_prototype d
                   ∧ c_typeArguments d' = c_typeArguments d
                   ∧ c_type d' = c_type d
                   ∧ c_base d' = c_base d).
Proof.
  intros tts fuel.
  pose proof (λ s, resolver_grown s tts fuel) as HR.
  repeat apply conj.
  - intros node ctx report s.
    apply (rp_resolveSignature _ _ (HR s) node ctx report s (grown_refl s)).
  - intros node ctx report s.
    apply (rp_resolveType _ _ (HR s) node ctx report s (grown_refl s)).
  - intros ps nodes ctx alt s.
    apply (rp_resolveTypeArguments _ _ (HR s) ps nodes ctx alt s (grown_refl s)).
  - intros this args ctx s.
    apply (rp_classResolve _ _ (HR s) this args ctx s (grown_refl s)).
  - intros this nodes ctx alt s.
    apply (rp_classResolveUsingTypeArguments _ _ (HR s) this nodes ctx alt s
             (grown_refl s)).
  - intros this args ctx s.
    apply (rp_functionResolve _ _ (HR s) this args ctx s (grown_refl s)).
  - intros this nodes ctx alt s.
    apply (grown_functionResolveUsingTypeArguments_body s (resolver tts fuel)
             (HR s) this nodes ctx alt s (grown_refl s)).
  - intros s s' Hg. split; [apply grown_tables, Hg|].
    split; [apply Hg|]. split.
    + intros h e He.
      destruct (grown_element _ _ _ _ Hg He) as (e' & He' & Hid).
      exists e'. split; [exact He'|].
      split; [exact (f_equal kind Hid)|].
      split; [exact (f_equal simpleName Hid)|].
      split; [exact (f_equal decoratorFlags Hid)|].
      split; [exact (f_equal namespace Hid)|].
      intros d Hd. apply (f_equal data) in Hid. cbn [identityOf data] in Hid.
      rewrite Hd in Hid. destruct (data e'); try discriminate Hid.
      exact Hid.
    + intros h d Hd. apply (grown_class _ _ _ _ Hg Hd).
Qed.

(** ** The first declaration of a name stays *)

Lemma namesKept_refl s : namesKept s s.
Proof. intros name element H. exact H. Qed.

Lemma namesKept_trans s1 s2 s3 :
  namesKept s1 s2 → namesKept s2 s3 → namesKept s1 s3.
Proof. intros H1 H2 name element H. apply H2, H1, H. Qed.

Lemma KeepsNames_from {A} (m : M A) :
  (∀ lookup, KeepsNamesFrom lookup m) → KeepsNames m.
Proof. intros H s. apply (H (elementsLookup s) s eq_refl). Qed.

Lemma KeepsNamesFrom_of {A} lookup (m : M A) :
  KeepsNames m → KeepsNamesFrom lookup m.
Proof.
  intros H s <-. specialize (H s). destruct (m s); try exact H; exact Logic.I.
Qed.

(** Computations that leave the names as they are. *)
Lemma sameNames_error lookup code args :
  Preserves (λ s, elementsLookup s = lookup) (error code args).
Proof. intros s H. exact H. Qed.

Lemma sameNames_alloc lookup e :
  Preserves (λ s, elementsLookup s = lookup) (alloc e).
Proof. intros s H. exact H. Qed.

Lemma sameNames_updElement lookup h f :
  Preserves (λ s, elementsLookup s = lookup) (updElement h f).
Proof. intros s H. unfold updElement. destruct (heap s !! h); exact H. Qed.

Lemma sameNames_modify lookup f :
  (∀ s, elementsLookup (f s) = elementsLookup s) →
  Preserves (λ s, elementsLookup s = lookup) (modify f).
Proof. intros Hf s H. cbn. rewrite Hf. exact H. Qed.

Ltac same_step :=
  lazymatch goal with
  | |- Preserves _ (error _ _) => apply sameNames_error
  | |- Preserves _ (alloc _) => apply sameNames_alloc
  | |- Preserves _ (updElement _ _) => apply sameNames_updElement
  | |- Preserves _ (updClass _ _) => unfold updClass
  | |- Preserves _ (updClassPrototype _ _) => unfold updClassPrototype
  | |- Preserves _ (updFunctionPrototype _ _) => unfold updFunctionPrototype
  | |- Preserves _ (setMemoryOffset _ _) => unfold setMemoryOffset
  | |- Preserves _ (setGetterPrototype _ _) => unfold setGetterPrototype
  | |- Preserves _ (setSetterPrototype _ _) => unfold setSetterPrototype
  | |- Preserves _ (modify _) =>
      apply sameNames_modify; intros ?; reflexivity
  | |- _ => preserves_step
  end.

Ltac same :=
  repeat first
    [ same_step
    | progress unfold membersSet, filterDecorators, setFileLevelExports,
        setModuleLevelExports, checkOperatorOverloads,
        checkOperatorDecorator ].

Lemma KeepsNamesFrom_same {A} lookup (m : M A) :
  Preserves (λ s, elementsLookup s = lookup) m → KeepsNamesFrom lookup m.
Proof.
  intros H s Hs. specialize (H s Hs).
  destruct (m s) as [a s'|e s'|]; [| |exact Logic.I];
    intros name element Hn; rewrite H; exact Hn.
Qed.

Lemma KeepsNamesFrom_bind_same {A B} lookup (m : M A) (k : A → M B) :
  Preserves (λ s, elementsLookup s = lookup) m →
  (∀ a, KeepsNamesFrom lookup (k a)) →
  KeepsNamesFrom lookup (bind m k).
Proof.
  intros Hm Hk s Hs. unfold bind. specialize (Hm s Hs).
  destruct (m s) as [a s'|e s'|]; [apply Hk, Hm| |exact Logic.I].
  intros name element Hn. rewrite Hm. exact Hn.
Qed.

Lemma KeepsNames_bind {A B} (m : M A) (k : A → M B) :
  KeepsNames m → (∀ a, KeepsNames (k a)) → KeepsNames (bind m k).
Proof.
  intros Hm Hk s. unfold bind. specialize (Hm s).
  destruct (m s) as [a s'|e s'|]; [|exact Hm|exact Logic.I].
  specialize (Hk a s'). destruct (k a s') as [b s''|e s''|];
    [| |exact Logic.I]; eapply namesKept_trans; eassumption.
Qed.

Lemma KeepsNamesFrom_bind {A B} lookup (m : M A) (k : A → M B) :
  KeepsNamesFrom lookup m → (∀ a, KeepsNames (k a)) →
  KeepsNamesFrom lookup (bind m k).
Proof.
  intros Hm Hk s Hs. unfold bind. specialize (Hm s Hs).
  destruct (m s) as [a s'|e s'|]; [|exact Hm|exact Logic.I].
  specialize (Hk a s'). destruct (k a s') as [b s''|e s''|];
    [| |exact Logic.I]; intros name element Hn; apply Hk, Hm, Hn.
Qed.

Lemma KeepsNamesFrom_gets {A} lookup (k : gmap string handle → M A) :
  KeepsNamesFrom lookup (k lookup) →
  KeepsNamesFrom lookup (bind (gets elementsLookup) k).
Proof. intros H s Hs. unfold bind. cbn [gets]. rewrite Hs. apply H, Hs. Qed.

Lemma hasKey_false {V} (m : gmap string V) k : hasKey m k = false → m !! k = None.
Proof.
  unfold hasKey. intros H. apply bool_decide_eq_false in H.
  destruct (m !! k); [destruct H; eauto|reflexivity].
Qed.

Lemma KeepsNamesFrom_set lookup name element :
  (lookup !! name = None ∨ lookup !! name = Some element) →
  KeepsNamesFrom lookup (setElementsLookup name element).
Proof.
  intros Hfree s Hs. cbn. intros n e Hn.
  destruct (decide (name = n)) as [<-|Hne].
  - rewrite lookup_insert_eq. destruct Hfree; congruence.
  - rewrite lookup_insert_ne by exact Hne. rewrite Hs. exact Hn.
Qed.

Lemma KeepsNames_ret {A} (a : A) : KeepsNames (ret a).
Proof. intros s. apply namesKept_refl. Qed.

Lemma KeepsNames_forEach {A} (l : list A) (body : A → M unit) :
  (∀ a, KeepsNames (body a)) → KeepsNames (forEach l body).
Proof.
  intros Hbody. induction l as [|a l IH]; [apply KeepsNames_ret|].
  apply KeepsNames_bind; [apply Hbody|]. intros _. exact IH.
Qed.

Lemma KeepsNames_foldM {A B} (body : B → A → M B) b (l : list A) :
  (∀ b a, KeepsNames (body b a)) → KeepsNames (foldM body b l).
Proof.
  intros Hbody. revert b. induction l as [|a l IH]; intros b;
    [apply KeepsNames_ret|].
  apply KeepsNames_bind; [apply Hbody|]. intros b'. apply IH.
Qed.

Lemma KeepsNames_same {A} (m : M A) :
  (∀ lookup, Preserves (λ s, elementsLookup s = lookup) m) → KeepsNames m.
Proof. intros H. apply KeepsNames_from. intros L. apply KeepsNamesFrom_same, H. Qed.

(** One step of a proof that a computation rebinds no name: what does not
    touch the names is skipped, a read of the names gives [lookup], and a
    binding is of a name that [lookup] does not bind, or binds to the same
    element.  [leaf] closes the calls of methods that are known to rebind no
    name. *)
Ltac keeps_step leaf :=
  lazymatch goal with
  | |- KeepsNamesFrom _ (bind (gets elementsLookup) _) =>
      apply KeepsNamesFrom_gets; cbv beta
  | |- KeepsNamesFrom _ (bind (setElementsLookup _ _) _) =>
      apply KeepsNamesFrom_bind; [|intros]
  | |- KeepsNamesFrom _ (bind _ _) =>
      first [ apply KeepsNamesFrom_bind_same; [solve [same]|intros]
            | apply KeepsNamesFrom_bind; [apply KeepsNamesFrom_of; leaf|intros] ]
  | |- KeepsNamesFrom _ (setElementsLookup _ _) =>
      apply KeepsNamesFrom_set;
      first [ left; apply hasKey_false; assumption
            | left; assumption | right; assumption ]
  | |- KeepsNamesFrom _ (if ?b then _ else _) => destruct b eqn:?
  | |- KeepsNamesFrom _ (match ?x with _ => _ end) => destruct x eqn:?
  | |- KeepsNamesFrom _ (let _ := _ in _) => cbv zeta
  | |- KeepsNamesFrom _ _ =>
      first [ apply KeepsNamesFrom_same; solve [same]
            | apply KeepsNamesFrom_of; leaf ]
  | |- KeepsNames (bind (gets elementsLookup) _) =>
      apply KeepsNames_from; intros ?
  | |- KeepsNames (bind _ _) =>
      first [ apply KeepsNames_same; solve [intros; same]
            | apply KeepsNames_bind; [|intros] ]
  | |- KeepsNames (forEach _ _) => apply KeepsNames_forEach; intros
  | |- KeepsNames (foldM _ _ _) => apply KeepsNames_foldM; intros
  | |- KeepsNames (if ?b then _ else _) => destruct b eqn:?
  | |- KeepsNames (match ?x with _ => _ end) => destruct x eqn:?
  | |- KeepsNames (let _ := _ in _) => cbv zeta
  | |- KeepsNames _ =>
      first [ apply KeepsNames_same; solve [intros; same] | leaf ]
  end.

Ltac keeps_with leaf := repeat keeps_step leaf.
Ltac keeps := keeps_with fail.

Lemma KeepsNames_checkGlobalOptions element name source ancestors :
  KeepsNames (checkGlobalOptions element name source ancestors).
Proof.
  apply KeepsNames_from. intros lookup. unfold checkGlobalOptions.
  apply KeepsNamesFrom_bind_same; [solve [same]|]. intros e.
  apply KeepsNamesFrom_bind_same; [solve [same]|]. intros isGlobal.
  destruct isGlobal; [|keeps]. cbv zeta.
  apply KeepsNamesFrom_gets. cbv beta.
  destruct (bool_decide (is_Some (lookup !! name))) eqn:Hhas; [keeps|].
  apply KeepsNamesFrom_bind.
  - apply (KeepsNamesFrom_set lookup name element). left.
    apply bool_decide_eq_false in Hhas.
    destruct (lookup !! name); [destruct Hhas; eauto|reflexivity].
  - intros _. apply KeepsNames_same. intros L. same.
Qed.

Lemma KeepsNames_initializeVariable declaration namespace :
  KeepsNames (initializeVariable declaration namespace).
Proof.
  unfold initializeVariable.
  keeps_with ltac:(apply KeepsNames_checkGlobalOptions).
Qed.

Lemma KeepsNames_initializeEnum declaration namespace :
  KeepsNames (initializeEnum declaration namespace).
Proof.
  unfold initializeEnum, initializeEnumValue.
  keeps_with ltac:(apply KeepsNames_checkGlobalOptions).
Qed.

Lemma KeepsNames_initializeFunction declaration namespace :
  KeepsNames (initializeFunction declaration namespace).
Proof.
  unfold initializeFunction.
  keeps_with ltac:(apply KeepsNames_checkGlobalOptions).
Qed.

Lemma KeepsNames_setExportAndCheckLibrary name element identifier :
  KeepsNames (setExportAndCheckLibrary name element identifier).
Proof. unfold setExportAndCheckLibrary. keeps. Qed.

Lemma KeepsNames_initializeImport declaration path importPath queuedImports :
  KeepsNames (initializeImport declaration path importPath queuedImports).
Proof. unfold initializeImport. keeps. Qed.

Lemma KeepsNames_initializeField declaration classPrototype :
  KeepsNames (initializeField declaration classPrototype).
Proof. unfold initializeField. keeps. Qed.

Lemma KeepsNames_initializeMethod declaration classPrototype :
  KeepsNames (initializeMethod declaration classPrototype).
Proof. unfold initializeMethod. keeps. Qed.

Lemma KeepsNamesFrom_bind_same_with {A B} lookup (m : M A) (k : A → M B)
    (Q : A → Prop) :
  (∀ s, elementsLookup s = lookup →
        match m s with
        | Ret a s' => elementsLookup s' = lookup ∧ Q a
        | Throw _ s' => elementsLookup s' = lookup
        | OutOfFuel => True
        end) →
  (∀ a, Q a → KeepsNamesFrom lookup (k a)) →
  KeepsNamesFrom lookup (bind m k).
Proof.
  intros Hm Hk s Hs. unfold bind. specialize (Hm s Hs).
  destruct (m s) as [a s'|e s'|]; [|intros name element Hn; rewrite Hm; exact Hn
                                   |exact Logic.I].
  destruct Hm as [Hs' HQ]. apply (Hk a HQ s' Hs').
Qed.

Lemma KeepsNames_initializeAccessor declaration classPrototype :
  KeepsNames (initializeAccessor declaration classPrototype).
Proof.
  apply KeepsNames_from. intros lookup. unfold initializeAccessor. cbv zeta.
  apply KeepsNamesFrom_gets. cbv beta.
  apply (KeepsNamesFrom_bind_same_with lookup _ _
           (λ existing,
              match existing with
              | Continue (propertyElement, _) =>
                  lookup !! fn_fileLevelInternalName declaration = None
                  ∨ lookup !! fn_fileLevelInternalName declaration
                    = Some propertyElement
              | Return _ => True
              end)).
  - intros s Hs.
    destruct (lookup !! fn_fileLevelInternalName declaration)
      as [propertyElement|] eqn:Hk.
    + unfold bind, getElement. destruct (heap s !! propertyElement) as [e|];
        [|exact Hs].
      destruct (data e); cbn [ret]; try (split; [exact Hs|exact Logic.I]).
      destruct (decide (kind e = ElementKind.PROPERTY));
        [|split; [exact Hs|exact Logic.I]].
      destruct (bool_decide _); cbn [ret];
        [split; [exact Hs|exact Logic.I]|].
      split; [exact Hs|]. right. reflexivity.
    + unfold bind. cbn [alloc ret]. split; [exact Hs|]. left. reflexivity.
  - intros [[propertyElement isNew]|[]] HQ; [|keeps].
    destruct HQ; keeps.
Qed.

Lemma KeepsNames_initializeClass declaration queuedExtends queuedImplements
    namespace :
  KeepsNames
    (initializeClass declaration queuedExtends queuedImplements namespace).
Proof.
  unfold initializeClass.
  keeps_with ltac:(first [ apply KeepsNames_checkGlobalOptions
                         | apply KeepsNames_initializeField
                         | apply KeepsNames_initializeMethod
                         | apply KeepsNames_initializeAccessor ]).
Qed.

Lemma KeepsNames_walkQueuedExports fuel externalName member queuedExports :
  ∀ name seen,
    KeepsNames
      (walkQueuedExports fuel externalName member queuedExports name seen).
Proof.
  induction fuel as [|fuel IH]; intros name seen; [intros s; exact Logic.I|].
  cbn [walkQueuedExports].
  keeps_with ltac:(first [ apply KeepsNames_setExportAndCheckLibrary
                         | apply IH ]).
Qed.

Lemma KeepsNames_initializeExport member path queuedExports :
  KeepsNames (initializeExport member path queuedExports).
Proof.
  unfold initializeExport.
  keeps_with ltac:(first [ apply KeepsNames_setExportAndCheckLibrary
                         | apply KeepsNames_walkQueuedExports ]).
Qed.

Lemma KeepsNames_initializeExports statement queuedExports :
  KeepsNames (initializeExports statement queuedExports).
Proof.
  unfold initializeExports.
  keeps_with ltac:(apply KeepsNames_initializeExport).
Qed.

Lemma KeepsNames_initializeImports statement queuedImports :
  KeepsNames (initializeImports statement queuedImports).
Proof.
  unfold initializeImports.
  keeps_with ltac:(apply KeepsNames_initializeImport).
Qed.

Lemma KeepsNames_initializeStatement q statement :
  KeepsNames (initializeStatement q statement).
Proof.
  unfold initializeStatement.
  keeps_with ltac:(first [ apply KeepsNames_initializeClass
                         | apply KeepsNames_initializeFunction
                         | apply KeepsNames_initializeExports
                         | apply KeepsNames_initializeImports ]).
Qed.

Lemma KeepsNames_initializeStatements sources :
  KeepsNames (initializeStatements sources).
Proof.
  unfold initializeStatements.
  keeps_with ltac:(apply KeepsNames_initializeStatement).
Qed.

Lemma hasKey_true_run {A} (m : gmap string handle) name (k1 k2 : M A) s :
  elementsLookup s = m → hasKey m name = true →
  bind (gets elementsLookup)
    (fun lookup => if hasKey lookup name then k1 else k2) s
  = k1 s.
Proof. intros <- H. unfold bind. cbn [gets]. rewrite H. reflexivity. Qed.

(** While [initialize] walks the statements, no name is rebound: after a
    class or function declaration, an export or import statement, an enum
    declaration or a variable statement, whether it returns or raises, every
    name that [elementsLookup] had refers to the element it referred to
    before.  A class, function, enum or variable declaration under an
    internal name that is bound already reports [Duplicate_identifier_0] and
    changes nothing else. *)
Theorem first_declaration_stays :
  (∀ sources, KeepsNames (initializeStatements sources))
  ∧ (∀ q statement, KeepsNames (initializeStatement q statement))
  ∧ (∀ declaration namespace,
       KeepsNames (initializeEnum declaration namespace))
  ∧ (∀ declarations namespace,
       KeepsNames (initializeVariables declarations namespace))
  ∧ (∀ declaration queuedExtends queuedImplements namespace s,
       hasKey (elementsLookup s) (cd_fileLevelInternalName declaration) = true →
       initializeClass declaration queuedExtends queuedImplements namespace s
       = Ret (queuedExtends, queuedImplements)
           (withError DiagnosticCode.Duplicate_identifier_0
              [cd_fileLevelInternalName declaration] s))
  ∧ (∀ declaration namespace s,
       hasKey (elementsLookup s) (fn_fileLevelInternalName declaration) = true →
       initializeFunction declaration namespace s
       = Ret tt (withError DiagnosticCode.Duplicate_identifier_0
                   [fn_fileLevelInternalName declaration] s))
  ∧ (∀ declaration namespace s,
       hasKey (elementsLookup s) (en_fileLevelInternalName declaration) = true →
       initializeEnum declaration namespace s
       = Ret tt (withError DiagnosticCode.Duplicate_identifier_0
                   [en_fileLevelInternalName declaration] s))
  ∧ (∀ declaration namespace s,
       hasKey (elementsLookup s) (vd_fileLevelInternalName declaration) = true →
       initializeVariables [declaration] namespace s
       = Ret tt (withError DiagnosticCode.Duplicate_identifier_0
                   [vd_fileLevelInternalName declaration] s)).
Proof.
  split; [exact KeepsNames_initializeStatements|].
  split; [exact KeepsNames_initializeStatement|].
  split; [exact KeepsNames_initializeEnum|].
  split.
  { intros declarations namespace. unfold initializeVariables.
    apply KeepsNames_forEach. intros declaration.
    apply KeepsNames_initializeVariable. }
  split; [|split; [|split]].
  - intros declaration queuedExtends queuedImplements namespace s H.
    unfold initializeClass. cbv zeta.
    rewrite (hasKey_true_run _ _ _ _ s eq_refl H). reflexivity.
  - intros declaration namespace s H. unfold initializeFunction. cbv zeta.
    rewrite (hasKey_true_run _ _ _ _ s eq_refl H). reflexivity.
  - intros declaration namespace s H. unfold initializeEnum. cbv zeta.
    rewrite (hasKey_true_run _ _ _ _ s eq_refl H). reflexivity.
  - intros declaration namespace s H.
    unfold initializeVariables, initializeVariable. cbn [forEach]. cbv zeta.
    unfold bind at 1. rewrite (hasKey_true_run _ _ _ _ s eq_refl H).
    reflexivity.
Qed.

(** ** One type per type argument *)

Lemma resolveTypes_loop (r : Resolver) ctx :
  ∀ nodes acc s st s',
    forLoop (fun typeArguments node =>
      let! type := r_resolveType r node ctx true in
      match type with
      | None => ret (Return tt)
      | Some type => ret (Continue (typeArguments ++ [type])%list)
      end) acc nodes s = Ret st s' →
    match st with
    | Continue types =>
        ∃ new, types = (acc ++ new)%list ∧ Forall2 (resolvesTo r ctx) nodes new
    | Return _ =>
        ∃ node s1 s2, node ∈ nodes ∧ r_resolveType r node ctx true s1 = Ret None s2
    end.
Proof.
  induction nodes as [|node nodes IH]; intros acc s st s' H.
  - injection H as <- <-. exists []. rewrite app_nil_r. split; constructor.
  - cbn [forLoop] in H.
    apply bind_Ret_inv in H as (step & s1 & Hstep & H).
    apply bind_Ret_inv in Hstep as (type & s0 & Htype & Hstep).
    destruct type as [type|]; injection Hstep as <- <-.
    + specialize (IH _ _ _ _ H). destruct st as [types|[]].
      * destruct IH as (new & -> & Hall). exists (type :: new).
        split; [rewrite <- app_assoc; reflexivity|].
        constructor; [exists s, s0; exact Htype|exact Hall].
      * destruct IH as (node' & sa & sb & Hin & Hnone).
        exists node', sa, sb. split; [right; exact Hin|exact Hnone].
    + injection H as <- <-. exists node, s, s0. split; [left|exact Htype].
Qed.


(** ** The type of a class refers to the class *)

Lemma classOf_identity s s' h :
  identityOf <$> heap s' !! h = identityOf <$> heap s !! h →
  c_type <$> classOf s' h = c_type <$> classOf s h.
Proof.
  unfold classOf. intros H.
  destruct (heap s' !! h) as [e'|], (heap s !! h) as [e|]; cbn in H;
    try discriminate H; [|reflexivity].
  injection H as _ _ _ _ H.
  destruct (data e'), (data e); cbn in H |- *; try discriminate H;
    try reflexivity.
  injection H as _ _ H _. rewrite H. reflexivity.
Qed.

Lemma typesReferBack_view s s' :
  identityOf <$> heap s' = identityOf <$> heap s →
  typesReferBack s → typesReferBack s'.
Proof.
  intros Hview H h d' Hd'.
  assert (Hh : identityOf <$> heap s' !! h = identityOf <$> heap s !! h).
  { rewrite <- !list_lookup_fmap, Hview. reflexivity. }
  apply classOf_identity in Hh. rewrite Hd' in Hh. cbn in Hh.
  destruct (classOf s h) as [d|] eqn:Hd; [|discriminate Hh].
  injection Hh as ->. apply (H h d Hd).
Qed.

Lemma refersBack_modify f :
  (∀ s, heap (f s) = heap s) → Preserves typesReferBack (modify f).
Proof.
  intros Hf s H. cbn. apply (typesReferBack_view s); [|exact H].
  rewrite Hf. reflexivity.
Qed.

Lemma refersBack_error code args : Preserves typesReferBack (error code args).
Proof. apply refersBack_modify. reflexivity. Qed.

Lemma typesReferBack_alloc s e :
  (∀ d, data e = ClassD d → classReference (c_type d) = Some (length (heap s))) →
  typesReferBack s → typesReferBack (with_heap (heap s ++ [e]) s).
Proof.
  intros He H h d Hd. unfold classOf in Hd. cbn [heap with_heap] in Hd.
  destruct (decide (h < length (heap s))%nat) as [Hlt|Hge].
  - rewrite lookup_app_l in Hd by exact Hlt. apply (H h d). exact Hd.
  - destruct (decide (h = length (heap s))) as [->|Hne].
    + rewrite list_lookup_middle in Hd by reflexivity.
      destruct (data e) eqn:Hdata; try discriminate Hd. injection Hd as ->.
      apply He. reflexivity.
    + rewrite lookup_ge_None_2 in Hd; [discriminate Hd|].
      rewrite length_app. cbn. lia.
Qed.

Lemma refersBack_alloc e :
  (∀ d, data e ≠ ClassD d) → Preserves typesReferBack (alloc e).
Proof.
  intros He s H. cbn. apply typesReferBack_alloc; [|exact H].
  intros d Hd. destruct (He d Hd).
Qed.

Lemma typesReferBack_update s h e e' :
  typesReferBack s → heap s !! h = Some e → identityOf e' = identityOf e →
  typesReferBack (with_heap (<[h := e']> (heap s)) s).
Proof.
  intros H He Hid. apply (typesReferBack_view s); [|exact H].
  cbn [heap with_heap]. rewrite list_fmap_insert, Hid.
  apply list_insert_id. rewrite list_lookup_fmap.
  unfold handle in *. rewrite He. reflexivity.
Qed.

Lemma refersBack_updElement h f :
  (∀ e, identityOf (f e) = identityOf e) →
  Preserves typesReferBack (updElement h f).
Proof.
  intros Hf s H. unfold updElement.
  destruct (heap s !! h) as [e|] eqn:He; [|exact H].
  eapply typesReferBack_update; eauto.
Qed.

Lemma refersBack_with_data s h e d :
  typesReferBack s → heap s !! h = Some e →
  identityOfData d = identityOfData (data e) →
  match updElement h (with_data d) s with
  | Ret _ s' | Throw _ s' => typesReferBack s'
  | OutOfFuel => True
  end.
Proof.
  intros H He Hd. unfold updElement. rewrite He.
  eapply typesReferBack_update; [exact H|exact He|].
  unfold identityOf. cbn. rewrite Hd. reflexivity.
Qed.

Lemma refersBack_updClass h f :
  (∀ d, identityOfData (ClassD (f d)) = identityOfData (ClassD d)) →
  Preserves typesReferBack (updClass h f).
Proof.
  intros Hf s H. unfold updClass, bind, getClass, bind, getElement.
  destruct (heap s !! h) as [e|] eqn:He; [|exact H].
  destruct (data e) as [| | | |d| | | |] eqn:Hd; try exact H.
  cbn [ret]. eapply refersBack_with_data; [exact H|exact He|].
  rewrite Hd. apply Hf.
Qed.

Lemma typesReferBack_update_other s h e e' :
  typesReferBack s → heap s !! h = Some e → (∀ d, data e' ≠ ClassD d) →
  typesReferBack (with_heap (<[h := e']> (heap s)) s).
Proof.
  intros H He Hnot h0 d Hd. unfold classOf in Hd. cbn [heap with_heap] in Hd.
  destruct (decide (h = h0)) as [<-|Hne].
  - rewrite list_lookup_insert_eq in Hd by (eapply lookup_lt_Some, He).
    destruct (data e') eqn:Hdata; try discriminate Hd.
    destruct (Hnot _ eq_refl).
  - rewrite list_lookup_insert_ne in Hd by exact Hne. apply (H h0 d Hd).
Qed.

Lemma refersBack_updClassPrototype h f :
  Preserves typesReferBack (updClassPrototype h f).
Proof.
  intros s H.
  unfold updClassPrototype, bind, getClassPrototype, bind, getElement.
  destruct (heap s !! h) as [e|] eqn:He; [|exact H].
  destruct (data e) as [| | |d| | | | |] eqn:Hd; try exact H.
  cbn [ret]. unfold updElement. rewrite He.
  eapply typesReferBack_update_other; [exact H|exact He|].
  intros d0. cbn. discriminate.
Qed.

Lemma refersBack_updFunctionPrototype h f :
  Preserves typesReferBack (updFunctionPrototype h f).
Proof.
  intros s H.
  unfold updFunctionPrototype, bind, getFunctionPrototype, bind, getElement.
  destruct (heap s !! h) as [e|] eqn:He; [|exact H].
  destruct (data e) as [|d| | | | | | |] eqn:Hd; try exact H.
  cbn [ret]. unfold updElement. rewrite He.
  eapply typesReferBack_update_other; [exact H|exact He|].
  intros d0. cbn. discriminate.
Qed.

Lemma refersBack_setMemoryOffset h o :
  Preserves typesReferBack (setMemoryOffset h o).
Proof.
  intros s H. unfold setMemoryOffset, bind, getElement.
  destruct (heap s !! h) as [e|] eqn:He; [|exact H].
  destruct (data e) eqn:Hd; try exact H.
  eapply refersBack_with_data; [exact H|exact He|]. rewrite Hd. reflexivity.
Qed.

Lemma refersBack_setGetterPrototype h p :
  Preserves typesReferBack (setGetterPrototype h p).
Proof.
  intros s H. unfold setGetterPrototype, getProperty, bind, getElement.
  destruct (heap s !! h) as [e|] eqn:He; [|exact H].
  destruct (data e) eqn:Hd; try exact H.
  eapply refersBack_with_data; [exact H|exact He|]. rewrite Hd. reflexivity.
Qed.

Lemma refersBack_setSetterPrototype h p :
  Preserves typesReferBack (setSetterPrototype h p).
Proof.
  intros s H. unfold setSetterPrototype, getProperty, bind, getElement.
  destruct (heap s !! h) as [e|] eqn:He; [|exact H].
  destruct (data e) eqn:Hd; try exact H.
  eapply refersBack_with_data; [exact H|exact He|]. rewrite Hd. reflexivity.
Qed.

(** The constructor of [Class] sets the type to one that refers to the new
    object. *)
Lemma refersBack_newClass prototype simpleName internalName typeArguments base :
  Preserves typesReferBack
    (newClass prototype simpleName internalName typeArguments base).
Proof.
  intros s H. unfold newClass.
  unfold bind at 1, getElement at 1.
  destruct (heap s !! prototype) as [p|]; [|exact H].
  unfold bind at 1, getClassPrototype, bind at 1, getElement at 1.
  destruct (heap s !! prototype) as [p'|]; [|exact H].
  destruct (data p'); try exact H. cbn [ret].
  unfold bind at 1. cbn [gets]. unfold bind at 1. cbn [gets].
  unfold bind at 1.
  match goal with
  | |- context [match ?m s with _ => _ end] =>
      assert (Hbase : Unchanged m) by unchanged;
      specialize (Hbase s); destruct (m s) as [inherited s1|ex s1|];
      [subst s1|subst s1; exact H|exact Logic.I]
  end.
  cbv zeta. unfold bind at 1.
  match goal with
  | |- context [match ?m s with _ => _ end] =>
      assert (Hctx : Unchanged m) by unchanged;
      specialize (Hctx s); destruct (m s) as [cta s1|ex s1|];
      [subst s1|subst s1; exact H|exact Logic.I]
  end.
  cbn [alloc]. apply typesReferBack_alloc; [|exact H].
  intros d0 [= <-]. reflexivity.
Qed.

Ltac refers_step :=
  lazymatch goal with
  | |- Preserves _ (error _ _) => apply refersBack_error
  | |- Preserves _ (newClass _ _ _ _ _) => apply refersBack_newClass
  | |- Preserves _ (alloc _) =>
      apply refersBack_alloc; intros ?; cbn; discriminate
  | |- Preserves _ (updClass _ _) =>
      apply refersBack_updClass; intros; reflexivity
  | |- Preserves _ (updClassPrototype _ _) => apply refersBack_updClassPrototype
  | |- Preserves _ (updFunctionPrototype _ _) =>
      apply refersBack_updFunctionPrototype
  | |- Preserves _ (setMemoryOffset _ _) => apply refersBack_setMemoryOffset
  | |- Preserves _ (setGetterPrototype _ _) => apply refersBack_setGetterPrototype
  | |- Preserves _ (setSetterPrototype _ _) => apply refersBack_setSetterPrototype
  | |- Preserves _ (updElement _ _) =>
      apply refersBack_updElement; intros; reflexivity
  | |- Preserves _ (modify _) => apply refersBack_modify; intros; reflexivity
  | |- _ => preserves_step
  end.

Ltac refers :=
  repeat first
    [ refers_step
    | progress unfold resolveSignatureParameter, newField,
        newFunction, resolvePartial, resolveInstanceMember, resolveOverload,
        classResolveMembers, classInstantiate, instanceMembersSet,
        membersSet, filterDecorators, checkGlobalOptions, setElementsLookup,
        setFileLevelExports, setModuleLevelExports, initializeField,
        checkOperatorOverloads, checkOperatorDecorator, initializeMethod,
        initializeAccessor, initializeClass, setExportAndCheckLibrary,
        initializeExport, initializeExports, initializeFunction,
        initializeImport, initializeImports, resolveIdentifier,
        initializeStatement, drainQueuedImport, drainQueuedExtends,
        initializeStatements ].

Section RefersBack.
Variable tts : list Type_ → string.
Variable r : Resolver.
Hypothesis HR : ResolverPreserves typesReferBack r.

Lemma refersBack_resolveSignature_body node ctx report :
  Preserves typesReferBack (resolveSignature_body r node ctx report).
Proof. unfold resolveSignature_body. refers. Qed.

Lemma refersBack_resolveTypeArguments_body ps nodes ctx alt :
  Preserves typesReferBack (resolveTypeArguments_body r ps nodes ctx alt).
Proof. unfold resolveTypeArguments_body. refers. Qed.

Lemma refersBack_resolveType_body node ctx report :
  Preserves typesReferBack (resolveType_body tts r node ctx report).
Proof. unfold resolveType_body. refers. Qed.

Lemma refersBack_classResolveUsingTypeArguments_body this nodes ctx alt :
  Preserves typesReferBack
    (classResolveUsingTypeArguments_body r this nodes ctx alt).
Proof. unfold classResolveUsingTypeArguments_body. refers. Qed.

Lemma refersBack_functionResolveUsingTypeArguments_body this nodes ctx alt :
  Preserves typesReferBack
    (functionResolveUsingTypeArguments_body r this nodes ctx alt).
Proof. unfold functionResolveUsingTypeArguments_body. refers. Qed.

Lemma refersBack_classResolve_body this args ctx :
  Preserves typesReferBack (classResolve_body tts r this args ctx).
Proof. unfold classResolve_body. refers. Qed.

Lemma refersBack_functionResolve_body this args ctx :
  Preserves typesReferBack (functionResolve_body tts r this args ctx).
Proof. unfold functionResolve_body. refers. Qed.

End RefersBack.

Lemma resolver_refersBack tts fuel :
  ResolverPreserves typesReferBack (resolver tts fuel).
Proof.
  induction fuel as [|fuel IH].
  - split; intros; apply Preserves_outOfFuel.
  - split; intros; cbn [resolver r_resolveSignature r_resolveType
      r_resolveTypeArguments r_classResolve r_classResolveUsingTypeArguments
      r_functionResolve].
    + apply refersBack_resolveSignature_body, IH.
    + apply refersBack_resolveType_body, IH.
    + apply refersBack_resolveTypeArguments_body, IH.
    + apply refersBack_classResolve_body, IH.
    + apply refersBack_classResolveUsingTypeArguments_body, IH.
    + apply refersBack_functionResolve_body, IH.
Qed.

Lemma refersBack_tryResolveImport fuel name queuedExports :
  Preserves typesReferBack (tryResolveImport fuel name queuedExports).
Proof.
  revert name. induction fuel as [|fuel IH]; intros name;
    [apply Preserves_outOfFuel|].
  cbn [tryResolveImport]. refers. apply IH.
Qed.

Lemma refersBack_walkQueuedExports fuel externalName member queuedExports
    name seen :
  Preserves typesReferBack
    (walkQueuedExports fuel externalName member queuedExports name seen).
Proof.
  revert name seen. induction fuel as [|fuel IH]; intros name seen;
    [apply Preserves_outOfFuel|].
  cbn [walkQueuedExports]. refers. apply IH.
Qed.

Lemma refersBack_drainQueuedExport fuel exportName queuedExport queuedExports
    currentExport :
  Preserves typesReferBack
    (drainQueuedExport fuel exportName queuedExport queuedExports currentExport).
Proof.
  revert currentExport. induction fuel as [|fuel IH]; intros currentExport;
    [apply Preserves_outOfFuel|].
  cbn [drainQueuedExport]. refers. apply IH.
Qed.

Lemma refersBack_initialize tts fuel o sources :
  Preserves typesReferBack (initialize tts fuel o sources).
Proof.
  unfold initialize.
  refers;
    first [ apply refersBack_tryResolveImport
          | apply refersBack_walkQueuedExports
          | apply refersBack_drainQueuedExport
          | apply (rp_classResolve _ _ (resolver_refersBack tts fuel)) ].
Qed.

Lemma reachable_typesReferBack tts s : Reachable tts s → typesReferBack s.
Proof.
  induction 1 as [fuel o sources s Hrun
                 |fuel node ctx report s res s' _ IH Hrun
                 |fuel node ctx report s res s' _ IH Hrun
                 |fuel ps nodes ctx alt s res s' _ IH Hrun
                 |fuel this args ctx s res s' _ IH Hrun
                 |fuel this nodes ctx alt s res s' _ IH Hrun
                 |fuel this args ctx s res s' _ IH Hrun
                 |fuel this nodes ctx alt s res s' _ IH Hrun].
  - pose proof (refersBack_initialize tts fuel o sources (newProgram o)) as H.
    rewrite Hrun in H. apply H. intros h d Hd. discriminate Hd.
  - pose proof (rp_resolveSignature _ _ (resolver_refersBack tts fuel)
                  node ctx report s IH) as H.
    unfold resolveSignature in Hrun. rewrite Hrun in H. exact H.
  - pose proof (rp_resolveType _ _ (resolver_refersBack tts fuel)
                  node ctx report s IH) as H.
    unfold resolveType in Hrun. rewrite Hrun in H. exact H.
  - pose proof (rp_resolveTypeArguments _ _ (resolver_refersBack tts fuel)
                  ps nodes ctx alt s IH) as H.
    unfold resolveTypeArguments in Hrun. rewrite Hrun in H. exact H.
  - pose proof (rp_classResolve _ _ (resolver_refersBack tts fuel)
                  this args ctx s IH) as H.
    unfold classResolve in Hrun. rewrite Hrun in H. exact H.
  - pose proof (rp_classResolveUsingTypeArguments _ _
                  (resolver_refersBack tts fuel) this nodes ctx alt s IH) as H.
    unfold classResolveUsingTypeArguments in Hrun. rewrite Hrun in H. exact H.
  - pose proof (rp_functionResolve _ _ (resolver_refersBack tts fuel)
                  this args ctx s IH) as H.
    unfold functionResolve in Hrun. rewrite Hrun in H. exact H.
  - pose proof (refersBack_functionResolveUsingTypeArguments_body
                  (resolver tts fuel) (resolver_refersBack tts fuel)
                  this nodes ctx alt s IH) as H.
    unfold functionResolveUsingTypeArguments in Hrun. rewrite Hrun in H.
    exact H.
Qed.

Lemma resolveType_class_name tts fuel name typeArguments source ctx report
    prototype s result s' :
  classPrototypeNamed s source name prototype →
  resolveType tts (S fuel) (TypeNode name typeArguments source) ctx report s
  = Ret result s' →
  match result with
  | Some type =>
      ∃ instance d,
        classResolveUsingTypeArguments tts fuel prototype typeArguments ctx
          None s = Ret (Some instance) s'
        ∧ classOf s' instance = Some d ∧ c_type d = type
  | None =>
      classResolveUsingTypeArguments tts fuel prototype typeArguments ctx
        None s = Ret None s'
  end.
Proof.
  intros [Hnamed (e & He & Hkind)] H.
  unfold resolveType in H. cbn [resolver r_resolveType] in H.
  unfold resolveType_body in H. cbv zeta in H.
  unfold bind at 1 in H. cbn [gets] in H.
  unfold elementNamed in Hnamed.
  unfold bind at 1 in H.
  assert (Hfound :
    (match
       match elementsLookup s !! (internalPath source +:+ PATH_DELIMITER +:+ name) with
       | Some e0 => Some e0
       | None => elementsLookup s !! name
       end
     with
     | Some element =>
         let! e0 := getElement element in
         if decide (kind e0 = ElementKind.CLASS_PROTOTYPE)
         then ret (Some element) else ret None
     | None => ret None
     end) s = Ret (Some prototype) s).
  { rewrite Hnamed. unfold bind, getElement. rewrite He.
    destruct (decide (kind e = ElementKind.CLASS_PROTOTYPE)); [reflexivity|].
    contradiction. }
  rewrite Hfound in H.
  apply bind_Ret_inv in H as (instance & s1 & Hinstance & H).
  destruct instance as [instance|].
  - apply bind_Ret_inv in H as (c & s2 & Hc & H).
    apply getClass_Ret_inv in Hc as [Hc ->]. injection H as <- <-.
    exists instance, c. split; [exact Hinstance|]. split; [exact Hc|reflexivity].
  - injection H as <- <-. exact Hinstance.
Qed.



